(** * The deque of libcstl (cstl_deque.c): a shallow embedding

    The deque is a directory ("map") of pointers to element containers
    ("blocks") of [_DEQUE_ELEM_COUNT] elements each, with a start and a finish
    iterator.  This file embeds the iterator arithmetic, the expand / shrink /
    move engines and the facade operations built on them, and proves
    properties of them.  Not embedded are [deque_insert_range], the
    destruction of a deque ([_deque_destroy_auxiliary], [deque_destroy]), its
    creation on the heap ([_create_deque]) and [deque_max_size].

    Modelling conventions.
    - The directory is a [list (option nat)]: a slot holds [None] (NULL) or
      the address of a block.  A pointer into the directory is its index, a
      [Z], so that a pointer before or past the array can be formed; reading
      or writing through it is undefined behaviour ([Undefined]).
    - The allocator is a list of blocks indexed by address; a freed block is
      [None].  A new block holds [uninit] in every cell (the indeterminate
      contents of new memory).
    - An iterator keeps the directory index, the cached block address
      [_pc_first] and the element offset of [_pc_corepos] from [_pc_first];
      [_pc_afterlast] is always [_pc_first + _DEQUE_ELEM_COUNT * typesize]
      in the source and is represented by the offset [_DEQUE_ELEM_COUNT].
      Offsets count elements, so the element size cancels out of every
      pointer difference.
    - [size_t] and [int] values are integers of [Z].  The wrap-around of
      [size_t] is written out in [_deque_iterator_minus], the one place where
      an intermediate value is negative on ordinary inputs.
    - Loops driven by iterator comparison take their fuel from the directory
      size; running out of it is the outcome [OutOfFuel].
    - The copy function of the element type stores the source value in the
      target; init stores [t_typeinit]; destroy leaves the cell as it is.
      Every call is recorded in a trace of events.  The temporary that the
      variadic operations allocate for their argument is represented by the
      value itself.
    - An iterator of the source carries a pointer to its deque; the iterator
      functions of the model take the deque as an argument instead.
    - The model is the build with assertions enabled: a failed assertion is
      the outcome [AssertFail], and the membership test
      [_deque_iterator_belong_to_deque], which that build applies to the
      iterators it is given and to the ones it returns, is part of the
      iterator functions.  Left out are: the tests that two iterators have
      the same type and container, which the model cannot fail; the tests of
      a pointer against NULL after an allocation or on an argument;
      [assert(t_result)] on the result of an element function, which the
      model makes succeed; and the assertion behind a loop that restates the
      exit condition of that loop. *)

From Stdlib Require Import ZArith Lia List Bool String.
From stdpp Require Import base list.
Import ListNotations.
Local Open Scope Z_scope.

(** ** Outcomes of a call *)

Inductive result (X : Type) : Type :=
| Ok (x : X)
| AssertFail
| Undefined
| OutOfFuel.
Arguments Ok {X} x.
Arguments AssertFail {X}.
Arguments Undefined {X}.
Arguments OutOfFuel {X}.

Definition rbind {X Y : Type} (c : result X) (k : X -> result Y) : result Y :=
  match c with
  | Ok x => k x
  | AssertFail => AssertFail
  | Undefined => Undefined
  | OutOfFuel => OutOfFuel
  end.

Notation "'let*' x ':=' c 'in' k" := (rbind c (fun x => k))
  (at level 10, x pattern, c at level 100, k at level 200).

Definition assert (b : bool) : result unit :=
  if b then Ok tt else AssertFail.

(** [assert(c)] for a condition whose evaluation can itself fail. *)
Definition assert_r (c : result bool) : result unit :=
  let* b := c in assert b.

(** [!c], [c1 && c2] and [c1 || c2] of C on such conditions; the second
    operand is evaluated only when the first does not decide. *)
Definition rnot (c : result bool) : result bool :=
  let* b := c in Ok (negb b).

Definition rand (c1 c2 : result bool) : result bool :=
  let* b := c1 in if b then c2 else Ok false.

Definition ror (c1 c2 : result bool) : result bool :=
  let* b := c1 in if b then Ok true else c2.

(** ** Constants *)

Definition _DEQUE_MAP_COUNT : Z := 16.
Definition _DEQUE_MAP_GROW_STEP : Z := 8.
Definition _DEQUE_ELEM_COUNT : Z := 16.

Definition size_t_modulus : Z := 2 ^ 64.
Definition wrap_size_t (z : Z) : Z := z mod size_t_modulus.
Definition to_int (z : Z) : Z := (z + 2 ^ 31) mod 2 ^ 32 - 2 ^ 31.

(** ** Data *)

Inductive _typestyle_t := _TYPE_INVALID | _TYPE_C_BUILTIN | _TYPE_USER_DEFINE | _TYPE_CSTL_BUILTIN.

Record _typeinfo_t := mk_typeinfo {
  _sz_typename : string;
  _pt_type : nat;             (* address of the registered type record *)
  _t_style : _typestyle_t
}.

Record deque_iterator_t := mk_iter {
  _ppc_mappos : Z;            (* index of the directory slot *)
  _pc_first : option nat;     (* cached block address *)
  _pc_corepos : Z             (* element offset from _pc_first *)
}.

Definition pointer : Type := (nat * Z)%type.

Inductive source :=
| FromElem (p : pointer)
| FromValue.

Inductive event :=
| EvInit (p : pointer)
| EvCopy (dst : pointer) (src : source)
| EvDestroy (p : pointer)
| EvAlloc (b : nat)
| EvFree (b : nat)
| EvMapAlloc (n : Z)
| EvMapMove.

(** ** The element type

    The container reaches the element type through the function pointers of
    its type information: [t_typeinit] is the value the init function
    stores, [t_typeless] the less function.  [uninit] stands for the
    indeterminate contents of newly allocated memory. *)
Class ElemType (A : Type) := {
  t_typeinit : A;
  t_typeless : A -> A -> bool;
  uninit : A
}.

(** The type register compares two type names with [_type_is_same]. *)
Class TypeRegistry := {
  _type_is_same : string -> string -> bool
}.

(** * The embedding *)

Section Deque.

Context {A : Type} {ET : ElemType A} {TR : TypeRegistry}.

Record deque_t := mk_deque {
  _t_typeinfo : _typeinfo_t;
  _ppc_map : list (option nat);
  _t_mapsize : Z;
  _t_start : deque_iterator_t;
  _t_finish : deque_iterator_t;
  _t_allocater : list (option (list A));
  trace : list event
}.

Definition set_map (d : deque_t) (m : list (option nat)) : deque_t :=
  mk_deque (_t_typeinfo d) m (_t_mapsize d) (_t_start d) (_t_finish d)
           (_t_allocater d) (trace d).
Definition set_mapsize (d : deque_t) (n : Z) : deque_t :=
  mk_deque (_t_typeinfo d) (_ppc_map d) n (_t_start d) (_t_finish d)
           (_t_allocater d) (trace d).
Definition set_start (d : deque_t) (i : deque_iterator_t) : deque_t :=
  mk_deque (_t_typeinfo d) (_ppc_map d) (_t_mapsize d) i (_t_finish d)
           (_t_allocater d) (trace d).
Definition set_finish (d : deque_t) (i : deque_iterator_t) : deque_t :=
  mk_deque (_t_typeinfo d) (_ppc_map d) (_t_mapsize d) (_t_start d) i
           (_t_allocater d) (trace d).
Definition set_heap (d : deque_t) (h : list (option (list A))) : deque_t :=
  mk_deque (_t_typeinfo d) (_ppc_map d) (_t_mapsize d) (_t_start d) (_t_finish d)
           h (trace d).
Definition log (d : deque_t) (e : event) : deque_t :=
  mk_deque (_t_typeinfo d) (_ppc_map d) (_t_mapsize d) (_t_start d) (_t_finish d)
           (_t_allocater d) (trace d ++ [e]).

Definition set_mappos (i : deque_iterator_t) (m : Z) : deque_iterator_t :=
  mk_iter m (_pc_first i) (_pc_corepos i).
Definition set_corepos (i : deque_iterator_t) (c : Z) : deque_iterator_t :=
  mk_iter (_ppc_mappos i) (_pc_first i) c.

(** ** Memory *)

(** [*(map + i)] read through a directory pointer. *)
Definition map_read (m : list (option nat)) (i : Z) : result (option nat) :=
  if (0 <=? i) && (i <? Z.of_nat (length m))
  then match m !! Z.to_nat i with Some s => Ok s | None => Undefined end
  else Undefined.

(** [*(map + i) = v]. *)
Definition map_write (m : list (option nat)) (i : Z) (v : option nat)
  : result (list (option nat)) :=
  if (0 <=? i) && (i <? Z.of_nat (length m))
  then Ok (<[Z.to_nat i := v]> m)
  else Undefined.

Definition block_of (h : list (option (list A))) (b : nat) : result (list A) :=
  match h !! b with
  | Some (Some blk) => Ok blk
  | _ => Undefined
  end.

Definition cell_read (d : deque_t) (p : pointer) : result A :=
  let* blk := block_of (_t_allocater d) (fst p) in
  if (0 <=? snd p) && (snd p <? _DEQUE_ELEM_COUNT)
  then match blk !! Z.to_nat (snd p) with Some a => Ok a | None => Undefined end
  else Undefined.

Definition cell_write (d : deque_t) (p : pointer) (a : A) : result deque_t :=
  let* blk := block_of (_t_allocater d) (fst p) in
  if (0 <=? snd p) && (snd p <? _DEQUE_ELEM_COUNT) && (snd p <? Z.of_nat (length blk))
  then Ok (set_heap d (<[fst p := Some (<[Z.to_nat (snd p) := a]> blk)]> (_t_allocater d)))
  else Undefined.

(** [allocate(..., typesize, _DEQUE_ELEM_COUNT)]: a new block. *)
Definition allocate_block (d : deque_t) : deque_t * nat :=
  let b := length (_t_allocater d) in
  let blk := replicate (Z.to_nat _DEQUE_ELEM_COUNT) uninit in
  (log (set_heap d (_t_allocater d ++ [Some blk])) (EvAlloc b), b).

(** [deallocate(..., *slot, typesize, _DEQUE_ELEM_COUNT)]. *)
Definition deallocate_block (d : deque_t) (s : option nat) : result deque_t :=
  match s with
  | None => Undefined
  | Some b =>
      let* _ := block_of (_t_allocater d) b in
      Ok (log (set_heap d (<[b := None]> (_t_allocater d))) (EvFree b))
  end.

(** The lifecycle functions of the element type, applied at an address. *)
Definition type_init (d : deque_t) (p : pointer) : result deque_t :=
  let* d1 := cell_write d p t_typeinit in
  Ok (log d1 (EvInit p)).

Definition type_copy (d : deque_t) (dst src : pointer) : result deque_t :=
  let* a := cell_read d src in
  let* d1 := cell_write d dst a in
  Ok (log d1 (EvCopy dst (FromElem src))).

Definition type_copy_value (d : deque_t) (dst : pointer) (a : A) : result deque_t :=
  let* d1 := cell_write d dst a in
  Ok (log d1 (EvCopy dst FromValue)).

Definition type_destroy (d : deque_t) (p : pointer) : result deque_t :=
  let* _ := cell_read d p in
  Ok (log d (EvDestroy p)).

(** ** Iterators *)

Definition option_nat_eqb (x y : option nat) : bool :=
  match x, y with
  | Some a, Some b => Nat.eqb a b
  | None, None => true
  | _, _ => false
  end.

Definition is_some (x : option nat) : bool :=
  match x with Some _ => true | None => false end.

(** The membership test of the debug build.  Its two scans, over the
    directory slots from start to finish and over the cells of the slot
    found, are written as the range tests they compute. *)
Definition _deque_iterator_belong_to_deque (d : deque_t) (t_iter : deque_iterator_t)
  : result bool :=
  let* _ := assert (_t_mapsize d >? 0) in
  let* _ := assert (is_some (_pc_first (_t_start d))) in
  let* _ := assert (is_some (_pc_first (_t_finish d))) in
  if (_ppc_mappos (_t_start d) <=? _ppc_mappos t_iter) &&
     (_ppc_mappos t_iter <=? _ppc_mappos (_t_finish d))
  then
    let* first := map_read (_ppc_map d) (_ppc_mappos t_iter) in
    if negb (is_some first) then Ok false
    else
      let* _ := assert (option_nat_eqb first (_pc_first t_iter)) in
      if _ppc_mappos t_iter =? _ppc_mappos (_t_start d)
      then
        if _pc_corepos (_t_start d) =? _DEQUE_ELEM_COUNT
        then Ok (_pc_corepos t_iter =? _DEQUE_ELEM_COUNT)
        else Ok ((_pc_corepos (_t_start d) <=? _pc_corepos t_iter) &&
                 (_pc_corepos t_iter <=? _DEQUE_ELEM_COUNT - 1))
      else if _ppc_mappos t_iter =? _ppc_mappos (_t_finish d)
      then Ok ((0 <=? _pc_corepos t_iter) &&
               (_pc_corepos t_iter <=? _pc_corepos (_t_finish d)))
      else Ok ((0 <=? _pc_corepos t_iter) &&
               (_pc_corepos t_iter <=? _DEQUE_ELEM_COUNT - 1))
  else Ok false.

(** The comparison of [_deque_iterator_equal], behind its assertions. *)
Definition iter_eqb (t_iterfirst t_itersecond : deque_iterator_t) : bool :=
  if (_ppc_mappos t_iterfirst =? _ppc_mappos t_itersecond) &&
     option_nat_eqb (_pc_first t_iterfirst) (_pc_first t_itersecond) &&
     (_pc_corepos t_iterfirst =? _pc_corepos t_itersecond)
  then true
  else
    if _ppc_mappos t_iterfirst <? _ppc_mappos t_itersecond
    then
      (_ppc_mappos t_iterfirst + 1 =? _ppc_mappos t_itersecond) &&
      (_pc_corepos t_iterfirst =? _DEQUE_ELEM_COUNT) &&
      (_pc_corepos t_itersecond =? 0)
    else
      (_ppc_mappos t_itersecond + 1 =? _ppc_mappos t_iterfirst) &&
      (_pc_corepos t_itersecond =? _DEQUE_ELEM_COUNT) &&
      (_pc_corepos t_iterfirst =? 0).

Definition _deque_iterator_equal (d : deque_t) (t_iterfirst t_itersecond : deque_iterator_t)
  : result bool :=
  let* _ := assert_r (_deque_iterator_belong_to_deque d t_iterfirst) in
  let* _ := assert_r (_deque_iterator_belong_to_deque d t_itersecond) in
  Ok (iter_eqb t_iterfirst t_itersecond).

(** The step of [_deque_iterator_next], between its two assertions. *)
Definition next_step (d : deque_t) (t_iter : deque_iterator_t)
  : result deque_iterator_t :=
  let corepos := _pc_corepos t_iter + 1 in
  if corepos >=? _DEQUE_ELEM_COUNT
  then
    let t_beyondsize := corepos - _DEQUE_ELEM_COUNT in
    let* _ := assert ((t_beyondsize =? 0) || (t_beyondsize =? 1)) in
    if _ppc_mappos t_iter <? _ppc_mappos (_t_finish d)
    then
      let* first := map_read (_ppc_map d) (_ppc_mappos t_iter + 1) in
      Ok (mk_iter (_ppc_mappos t_iter + 1) first (0 + t_beyondsize))
    else Ok (set_corepos t_iter corepos)
  else Ok (set_corepos t_iter corepos).

Definition _deque_iterator_next (d : deque_t) (t_iter : deque_iterator_t)
  : result deque_iterator_t :=
  let* _ := assert_r (_deque_iterator_belong_to_deque d t_iter) in
  let* t := next_step d t_iter in
  let* _ := assert_r (_deque_iterator_belong_to_deque d t) in
  Ok t.

(** The step of [_deque_iterator_prev], between its two assertions. *)
Definition prev_step (d : deque_t) (t_iter : deque_iterator_t)
  : result deque_iterator_t :=
  let corepos := _pc_corepos t_iter - 1 in
  if corepos <? 0
  then
    if _ppc_mappos t_iter >? _ppc_mappos (_t_start d)
    then
      let* first := map_read (_ppc_map d) (_ppc_mappos t_iter - 1) in
      Ok (mk_iter (_ppc_mappos t_iter - 1) first (_DEQUE_ELEM_COUNT - 1))
    else Ok (set_corepos t_iter corepos)
  else Ok (set_corepos t_iter corepos).

Definition _deque_iterator_prev (d : deque_t) (t_iter : deque_iterator_t)
  : result deque_iterator_t :=
  let* _ := assert_r (_deque_iterator_belong_to_deque d t_iter) in
  let* t := prev_step d t_iter in
  let* _ := assert_r (_deque_iterator_belong_to_deque d t) in
  Ok t.

Fixpoint iterate_n (step : deque_iterator_t -> result deque_iterator_t)
         (n : nat) (t_iter : deque_iterator_t) : result deque_iterator_t :=
  match n with
  | O => Ok t_iter
  | S n' => let* t := step t_iter in iterate_n step n' t
  end.

Definition _deque_iterator_next_n (d : deque_t) (t_iter : deque_iterator_t) (n_step : Z)
  : result deque_iterator_t :=
  if n_step >=? 0
  then iterate_n (_deque_iterator_next d) (Z.to_nat n_step) t_iter
  else iterate_n (_deque_iterator_prev d) (Z.to_nat (- n_step)) t_iter.

Definition _deque_iterator_prev_n (d : deque_t) (t_iter : deque_iterator_t) (n_step : Z)
  : result deque_iterator_t :=
  _deque_iterator_next_n d t_iter (- n_step).

(** Fuel for the loops that walk the deque: more than the number of element
    positions the directory can address. *)
Definition loop_fuel (d : deque_t) : nat :=
  S (Z.to_nat (_DEQUE_ELEM_COUNT * (_t_mapsize d + 1))).

(** The loop of [_deque_iterator_less]. *)
Fixpoint less_loop (fuel : nat) (d : deque_t) (t_i t_itersecond : deque_iterator_t)
  : result bool :=
  match fuel with
  | O => OutOfFuel
  | S fuel' =>
      let* e := _deque_iterator_equal d t_i (_t_finish d) in
      if e
      then _deque_iterator_equal d t_itersecond (_t_finish d)
      else
        let* e := _deque_iterator_equal d t_i t_itersecond in
        if e then Ok true
        else let* t := _deque_iterator_next d t_i in
             less_loop fuel' d t t_itersecond
  end.

Definition _deque_iterator_less (d : deque_t) (t_iterfirst t_itersecond : deque_iterator_t)
  : result bool :=
  let* _ := assert_r (_deque_iterator_belong_to_deque d t_iterfirst) in
  let* _ := assert_r (_deque_iterator_belong_to_deque d t_itersecond) in
  let* e := _deque_iterator_equal d t_iterfirst t_itersecond in
  if e then Ok false
  else less_loop (loop_fuel d) d t_iterfirst t_itersecond.

Definition _deque_iterator_before := _deque_iterator_less.

Definition _deque_iterator_minus (d : deque_t) (t_iterfirst t_itersecond : deque_iterator_t)
  : result Z :=
  let* b := _deque_iterator_before d t_iterfirst t_itersecond in
  if b
  then
    let t_mapnodesize :=
      wrap_size_t (_ppc_mappos t_itersecond - _ppc_mappos t_iterfirst - 1) in
    let t_beginsize := wrap_size_t (_DEQUE_ELEM_COUNT - _pc_corepos t_iterfirst) in
    let t_middlesize := wrap_size_t (t_mapnodesize * _DEQUE_ELEM_COUNT) in
    let t_endsize := wrap_size_t (_pc_corepos t_itersecond - 0) in
    Ok (- to_int (wrap_size_t (wrap_size_t (t_beginsize + t_middlesize) + t_endsize)))
  else
    let* e := _deque_iterator_equal d t_iterfirst t_itersecond in
    if e then Ok 0
    else
      let t_mapnodesize :=
        wrap_size_t (_ppc_mappos t_iterfirst - _ppc_mappos t_itersecond - 1) in
      let t_beginsize := wrap_size_t (_DEQUE_ELEM_COUNT - _pc_corepos t_itersecond) in
      let t_middlesize := wrap_size_t (t_mapnodesize * _DEQUE_ELEM_COUNT) in
      let t_endsize := wrap_size_t (_pc_corepos t_iterfirst - 0) in
      Ok (to_int (wrap_size_t (wrap_size_t (t_beginsize + t_middlesize) + t_endsize))).

(** [iterator_distance(first, second)] of the iterator layer is
    [second - first] for random access iterators. *)
Definition iterator_distance (d : deque_t) (t_first t_second : deque_iterator_t)
  : result Z :=
  _deque_iterator_minus d t_second t_first.

Definition deque_begin (d : deque_t) : deque_iterator_t := _t_start d.
Definition deque_end (d : deque_t) : deque_iterator_t := _t_finish d.

Definition deque_size (d : deque_t) : result Z :=
  let* n := iterator_distance d (_t_start d) (_t_finish d) in
  Ok (wrap_size_t n).

Definition deque_empty (d : deque_t) : result bool :=
  _deque_iterator_equal d (_t_start d) (_t_finish d).

Definition _deque_iterator_get_pointer_auxiliary (d : deque_t) (t_iter : deque_iterator_t)
  : result pointer :=
  let* _ := assert_r (_deque_iterator_belong_to_deque d t_iter) in
  let* _ := assert_r (rnot (_deque_iterator_equal d t_iter (deque_end d))) in
  if negb (_pc_corepos t_iter =? _DEQUE_ELEM_COUNT)
  then match _pc_first t_iter with
       | Some b => Ok (b, _pc_corepos t_iter)
       | None => Undefined
       end
  else
    let* s := map_read (_ppc_map d) (_ppc_mappos t_iter + 1) in
    match s with
    | Some b => Ok (b, 0)
    | None => AssertFail
    end.

(** ** Loops over a range of iterators *)

(** [for(it = t_begin; !iterator_equal(it, t_end); it = iterator_next(it)) body(it)] *)
Fixpoint for_range (fuel : nat) (body : deque_t -> deque_iterator_t -> result deque_t)
         (d : deque_t) (t_iter t_end : deque_iterator_t) : result deque_t :=
  match fuel with
  | O => OutOfFuel
  | S fuel' =>
      let* e := _deque_iterator_equal d t_iter t_end in
      if e then Ok d
      else let* d1 := body d t_iter in
           let* t := _deque_iterator_next d1 t_iter in
           for_range fuel' body d1 t t_end
  end.

Definition init_elem (d : deque_t) (t_iter : deque_iterator_t) : result deque_t :=
  let* p := _deque_iterator_get_pointer_auxiliary d t_iter in
  type_init d p.

Definition destroy_elem (d : deque_t) (t_iter : deque_iterator_t) : result deque_t :=
  let* p := _deque_iterator_get_pointer_auxiliary d t_iter in
  type_destroy d p.

Definition copy_value_elem (a : A) (d : deque_t) (t_iter : deque_iterator_t)
  : result deque_t :=
  let* p := _deque_iterator_get_pointer_auxiliary d t_iter in
  type_copy_value d p a.

Definition _deque_init_elem_range_auxiliary (d : deque_t)
           (t_begin t_end : deque_iterator_t) : result deque_t :=
  for_range (loop_fuel d) init_elem d t_begin t_end.

(** [n] blocks allocated into consecutive directory slots, from [slot] on in
    direction [dir] (1 at the end, -1 at the begin). *)
Fixpoint allocate_containers (n : nat) (d : deque_t) (slot dir : Z) : result deque_t :=
  match n with
  | O => Ok d
  | S n' =>
      let (d1, b) := allocate_block d in
      let* m := map_write (_ppc_map d1) slot (Some b) in
      allocate_containers n' (set_map d1 m) (slot + dir) dir
  end.

(** [n] blocks freed and their slots set to NULL, from [slot] on in
    direction [dir]. *)
Fixpoint deallocate_containers (n : nat) (d : deque_t) (slot dir : Z) : result deque_t :=
  match n with
  | O => Ok d
  | S n' =>
      let* s := map_read (_ppc_map d) slot in
      let* d1 := deallocate_block d s in
      let* m := map_write (_ppc_map d1) slot None in
      deallocate_containers n' (set_map d1 m) (slot + dir) dir
  end.

(** [memcpy] / [memmove] of [n] directory slots. *)
Definition copy_slots (dst : list (option nat)) (dstpos : Z)
           (src : list (option nat)) (srcpos n : Z) : result (list (option nat)) :=
  if (0 <=? n) && (0 <=? srcpos) && (srcpos + n <=? Z.of_nat (length src)) &&
     (0 <=? dstpos) && (dstpos + n <=? Z.of_nat (length dst))
  then Ok (take (Z.to_nat dstpos) dst ++
           take (Z.to_nat n) (drop (Z.to_nat srcpos) src) ++
           drop (Z.to_nat (dstpos + n)) dst)
  else Undefined.

Definition retarget (pt_pos : option deque_iterator_t) (f : Z -> Z)
  : option deque_iterator_t :=
  match pt_pos with
  | Some p => Some (set_mappos p (f (_ppc_mappos p)))
  | None => None
  end.

(** ** Growth engine *)

Definition _expand_at_end (d : deque_t) (t_expandsize : Z)
           (pt_pos : option deque_iterator_t)
  : result (deque_t * deque_iterator_t * option deque_iterator_t) :=
  let t_oldend := deque_end d in
  let t_remainsize := _DEQUE_ELEM_COUNT - _pc_corepos t_oldend in
  let* (d1, t_oldend1, pt_pos1) :=
    if t_expandsize <? t_remainsize
    then
      Ok (set_finish d (set_corepos (_t_finish d)
                          (_pc_corepos (_t_finish d) + t_expandsize)),
          t_oldend, pt_pos)
    else
      let t_nomemsize := t_expandsize - t_remainsize in
      let t_validendsize := t_nomemsize mod _DEQUE_ELEM_COUNT in
      let t_containersize :=
        let c := (t_nomemsize + _DEQUE_ELEM_COUNT - 1) / _DEQUE_ELEM_COUNT in
        if t_validendsize =? 0 then c + 1 else c in
      let t_remainendmapsize := _t_mapsize d - _ppc_mappos t_oldend - 1 in
      let t_remainmapsize :=
        _t_mapsize d - (_ppc_mappos (_t_finish d) - _ppc_mappos (_t_start d) + 1) in
      let* (d2, t_oldend2, pt_pos2) :=
        if t_containersize >? t_remainmapsize
        then
          let t_validmapsize :=
            _ppc_mappos (_t_finish d) - _ppc_mappos (_t_start d) + 1 in
          let n_oldmapstartpos := (_t_mapsize d - t_validmapsize) / 2 in
          let t_growsize :=
            (t_containersize - t_remainmapsize + _DEQUE_MAP_GROW_STEP - 1)
              / _DEQUE_MAP_GROW_STEP * _DEQUE_MAP_GROW_STEP in
          let t_oldmap := _ppc_map d in
          let t_newmapsize := _t_mapsize d + t_growsize in
          let newmap := replicate (Z.to_nat t_newmapsize) (@None nat) in
          let n_newmapstartpos :=
            (t_newmapsize - (t_validmapsize + t_containersize)) / 2 in
          let* m := copy_slots newmap n_newmapstartpos
                               t_oldmap n_oldmapstartpos t_validmapsize in
          let start_mappos := _ppc_mappos (_t_start d) in
          let new_start := set_mappos (_t_start d) n_newmapstartpos in
          let new_finish :=
            set_mappos (_t_finish d) (n_newmapstartpos + t_validmapsize - 1) in
          let da := log (set_finish (set_start (set_mapsize (set_map d m) t_newmapsize)
                                               new_start) new_finish)
                        (EvMapAlloc t_newmapsize) in
          Ok (da,
              set_mappos t_oldend (_ppc_mappos new_finish),
              retarget pt_pos (fun p => n_newmapstartpos + (p - start_mappos)))
        else if (t_containersize >? t_remainendmapsize) &&
                (t_containersize <=? t_remainmapsize)
        then
          let t_oldvalidmapsize :=
            _ppc_mappos (_t_finish d) - _ppc_mappos (_t_start d) + 1 in
          let t_newvalidmapsize := t_oldvalidmapsize + t_containersize in
          let t_oldstartpossize := (_t_mapsize d - t_oldvalidmapsize) / 2 in
          let t_newstartpossize := (_t_mapsize d - t_newvalidmapsize) / 2 in
          let t_movesize := t_oldstartpossize - t_newstartpossize in
          let* m := copy_slots (_ppc_map d) (_ppc_mappos (_t_start d) - t_movesize)
                               (_ppc_map d) (_ppc_mappos (_t_start d))
                               t_oldvalidmapsize in
          let da := log (set_finish
                           (set_start (set_map d m)
                              (set_mappos (_t_start d)
                                          (_ppc_mappos (_t_start d) - t_movesize)))
                           (set_mappos (_t_finish d)
                                       (_ppc_mappos (_t_finish d) - t_movesize)))
                        EvMapMove in
          Ok (da,
              set_mappos t_oldend (_ppc_mappos t_oldend - t_movesize),
              retarget pt_pos (fun p => p - t_movesize))
        else Ok (d, t_oldend, pt_pos) in
      let* d3 := allocate_containers (Z.to_nat t_containersize) d2
                                     (_ppc_mappos t_oldend2 + 1) 1 in
      let finish_mappos := _ppc_mappos t_oldend2 + t_containersize in
      let* first := map_read (_ppc_map d3) finish_mappos in
      Ok (set_finish d3 (mk_iter finish_mappos first (0 + t_validendsize)),
          t_oldend2, pt_pos2) in
  let* d4 := _deque_init_elem_range_auxiliary d1 t_oldend1 (deque_end d1) in
  Ok (d4, t_oldend1, pt_pos1).

(** The iterator moved from the after-last position of its block to the first
    position of the next block (the end of [_expand_at_begin]). *)
Definition to_next_container (d : deque_t) (t_iter : deque_iterator_t)
  : result deque_iterator_t :=
  if _pc_corepos t_iter =? _DEQUE_ELEM_COUNT
  then
    let* first := map_read (_ppc_map d) (_ppc_mappos t_iter + 1) in
    let* _ := assert (match first with Some _ => true | None => false end) in
    Ok (mk_iter (_ppc_mappos t_iter + 1) first 0)
  else Ok t_iter.

Definition _expand_at_begin (d : deque_t) (t_expandsize : Z)
           (pt_pos : option deque_iterator_t)
  : result (deque_t * deque_iterator_t * option deque_iterator_t) :=
  let t_oldbegin := deque_begin d in
  let t_remainsize := _pc_corepos t_oldbegin - 0 in
  let* (d1, t_oldbegin1, pt_pos1) :=
    if t_expandsize <? t_remainsize
    then
      Ok (set_start d (set_corepos (_t_start d)
                         (_pc_corepos (_t_start d) - t_expandsize)),
          t_oldbegin, pt_pos)
    else
      let t_nomemsize := t_expandsize - t_remainsize in
      let t_validfrontsize := t_nomemsize mod _DEQUE_ELEM_COUNT in
      let t_containersize :=
        let c := (t_nomemsize + _DEQUE_ELEM_COUNT - 1) / _DEQUE_ELEM_COUNT in
        if t_validfrontsize =? 0 then c + 1 else c in
      let t_remainfrontmapsize := _ppc_mappos t_oldbegin - 0 in
      let t_remainmapsize :=
        _t_mapsize d - (_ppc_mappos (_t_finish d) - _ppc_mappos (_t_start d) + 1) in
      let* (d2, t_oldbegin2, pt_pos2) :=
        if t_containersize >? t_remainmapsize
        then
          let t_validmapsize :=
            _ppc_mappos (_t_finish d) - _ppc_mappos (_t_start d) + 1 in
          let n_oldmapstartpos := (_t_mapsize d - t_validmapsize) / 2 in
          let t_growsize :=
            (t_containersize - t_remainmapsize + _DEQUE_MAP_GROW_STEP - 1)
              / _DEQUE_MAP_GROW_STEP * _DEQUE_MAP_GROW_STEP in
          let t_oldmap := _ppc_map d in
          let t_newmapsize := _t_mapsize d + t_growsize in
          let newmap := replicate (Z.to_nat t_newmapsize) (@None nat) in
          let n_newmapstartpos :=
            (t_newmapsize - (t_validmapsize + t_containersize)) / 2 in
          let n_newposofoldcontainer := n_newmapstartpos + t_containersize in
          let* m := copy_slots newmap n_newposofoldcontainer
                               t_oldmap n_oldmapstartpos t_validmapsize in
          let start_mappos := _ppc_mappos (_t_start d) in
          let new_start := set_mappos (_t_start d) n_newposofoldcontainer in
          let new_finish :=
            set_mappos (_t_finish d) (n_newposofoldcontainer + t_validmapsize - 1) in
          let da := log (set_finish (set_start (set_mapsize (set_map d m) t_newmapsize)
                                               new_start) new_finish)
                        (EvMapAlloc t_newmapsize) in
          Ok (da,
              set_mappos t_oldbegin (_ppc_mappos new_start),
              retarget pt_pos (fun p => n_newposofoldcontainer + (p - start_mappos)))
        else if (t_containersize >? t_remainfrontmapsize) &&
                (t_containersize <=? t_remainmapsize)
        then
          let t_oldvalidmapsize :=
            _ppc_mappos (_t_finish d) - _ppc_mappos (_t_start d) + 1 in
          let t_newvalidmapsize := t_oldvalidmapsize + t_containersize in
          let t_oldstartpossize := (_t_mapsize d - t_oldvalidmapsize) / 2 in
          let t_newstartpossize := (_t_mapsize d - t_newvalidmapsize) / 2 in
          let t_newposofoldcontainer := t_newstartpossize + t_containersize in
          let t_movesize := t_newposofoldcontainer - t_oldstartpossize in
          let* m := copy_slots (_ppc_map d) (_ppc_mappos (_t_start d) + t_movesize)
                               (_ppc_map d) (_ppc_mappos (_t_start d))
                               t_oldvalidmapsize in
          let da := log (set_finish
                           (set_start (set_map d m)
                              (set_mappos (_t_start d)
                                          (_ppc_mappos (_t_start d) + t_movesize)))
                           (set_mappos (_t_finish d)
                                       (_ppc_mappos (_t_finish d) + t_movesize)))
                        EvMapMove in
          Ok (da,
              set_mappos t_oldbegin (_ppc_mappos t_oldbegin + t_movesize),
              retarget pt_pos (fun p => p + t_movesize))
        else Ok (d, t_oldbegin, pt_pos) in
      let* d3 := allocate_containers (Z.to_nat t_containersize) d2
                                     (_ppc_mappos t_oldbegin2 - 1) (-1) in
      let start_mappos := _ppc_mappos t_oldbegin2 - t_containersize in
      let* first := map_read (_ppc_map d3) start_mappos in
      Ok (set_start d3 (mk_iter start_mappos first
                                (_DEQUE_ELEM_COUNT - t_validfrontsize)),
          t_oldbegin2, pt_pos2) in
  let* t_oldbegin3 := to_next_container d1 t_oldbegin1 in
  let* pt_pos3 :=
    match pt_pos1 with
    | Some p => let* p' := to_next_container d1 p in Ok (Some p')
    | None => Ok None
    end in
  let* d4 := _deque_init_elem_range_auxiliary d1 (deque_begin d1) t_oldbegin3 in
  Ok (d4, t_oldbegin3, pt_pos3).

(** ** Shrink engine *)

Definition _shrink_at_end (d : deque_t) (t_shrinksize : Z) : result deque_t :=
  let t_oldend := deque_end d in
  let* n := deque_size d in
  let t_shrinksize := if t_shrinksize <? n then t_shrinksize else n in
  let* t_newend := _deque_iterator_prev_n d (deque_end d) t_shrinksize in
  let* _ := assert_r (_deque_iterator_belong_to_deque d t_newend) in
  let* d1 := for_range (loop_fuel d) destroy_elem d t_newend t_oldend in
  let d2 := set_finish d1 t_newend in
  deallocate_containers
    (Z.to_nat (_ppc_mappos t_oldend - _ppc_mappos (_t_finish d2))) d2
    (_ppc_mappos (_t_finish d2) + 1) 1.

Definition _shrink_at_begin (d : deque_t) (t_shrinksize : Z) : result deque_t :=
  let t_oldbegin := deque_begin d in
  let* n := deque_size d in
  let t_shrinksize := if t_shrinksize <? n then t_shrinksize else n in
  let* t_newbegin := _deque_iterator_next_n d (deque_begin d) t_shrinksize in
  let* _ := assert_r (_deque_iterator_belong_to_deque d t_newbegin) in
  let* d1 := for_range (loop_fuel d) destroy_elem d t_oldbegin t_newbegin in
  let d2 := set_start d1 t_newbegin in
  deallocate_containers
    (Z.to_nat (_ppc_mappos (_t_start d2) - _ppc_mappos t_oldbegin)) d2
    (_ppc_mappos (_t_start d2) - 1) (-1).

(** ** Move engine *)

Definition copy_elem (d : deque_t) (t_dst t_src : deque_iterator_t) : result deque_t :=
  let* pd := _deque_iterator_get_pointer_auxiliary d t_dst in
  let* ps := _deque_iterator_get_pointer_auxiliary d t_src in
  type_copy d pd ps.

(** The loop of [_move_elem_to_end]; it returns the state and the two
    iterators it stopped on. *)
Fixpoint move_to_end_loop (fuel : nat) (d : deque_t)
         (t_targetend t_targetbegin t_end t_begin : deque_iterator_t)
  : result (deque_t * deque_iterator_t * deque_iterator_t) :=
  match fuel with
  | O => OutOfFuel
  | S fuel' =>
      let* c := rand (rnot (_deque_iterator_less d t_targetend t_targetbegin))
                     (rnot (_deque_iterator_less d t_end t_begin)) in
      if c
      then
        let* d1 := copy_elem d t_targetend t_end in
        let* te := _deque_iterator_prev d1 t_targetend in
        let* e := _deque_iterator_prev d1 t_end in
        move_to_end_loop fuel' d1 te t_targetbegin e t_begin
      else Ok (d, t_targetend, t_end)
  end.

Definition _move_elem_to_end (d : deque_t) (t_begin t_end : deque_iterator_t)
           (t_movesize : Z) : result (deque_t * deque_iterator_t) :=
  let* c := rand (rnot (_deque_iterator_equal d t_begin t_end))
                 (Ok (negb (t_movesize =? 0))) in
  if c
  then
    let* _ := assert_r (_deque_iterator_belong_to_deque d t_begin) in
    let* _ := assert_r (_deque_iterator_before d t_begin t_end) in
    let* t_targetbegin := _deque_iterator_next_n d t_begin t_movesize in
    let* t_targetend := _deque_iterator_next_n d t_end t_movesize in
    let* _ := assert_r (_deque_iterator_before d t_targetbegin t_targetend) in
    let* t_targetend := _deque_iterator_prev d t_targetend in
    let* t_end := _deque_iterator_prev d t_end in
    let* (d1, t_targetend, t_end) :=
      move_to_end_loop (loop_fuel d) d t_targetend t_targetbegin t_end t_begin in
    let* t_targetend := _deque_iterator_next d1 t_targetend in
    let* t_end := _deque_iterator_next d1 t_end in
    let* _ := assert_r (rand (_deque_iterator_equal d1 t_begin t_end)
                             (_deque_iterator_equal d1 t_targetbegin t_targetend)) in
    Ok (d1, t_begin)
  else Ok (d, t_begin).

(** The loop of [_move_elem_to_begin]; it returns the state and the two
    iterators it stopped on. *)
Fixpoint move_to_begin_loop (fuel : nat) (d : deque_t)
         (t_targetbegin t_targetend t_begin t_end : deque_iterator_t)
  : result (deque_t * deque_iterator_t * deque_iterator_t) :=
  match fuel with
  | O => OutOfFuel
  | S fuel' =>
      let* c := rand (_deque_iterator_less d t_targetbegin t_targetend)
                     (_deque_iterator_less d t_begin t_end) in
      if c
      then
        let* d1 := copy_elem d t_targetbegin t_begin in
        let* tb := _deque_iterator_next d1 t_targetbegin in
        let* b := _deque_iterator_next d1 t_begin in
        move_to_begin_loop fuel' d1 tb t_targetend b t_end
      else Ok (d, t_targetbegin, t_begin)
  end.

Definition _move_elem_to_begin (d : deque_t) (t_begin t_end : deque_iterator_t)
           (t_movesize : Z) : result (deque_t * deque_iterator_t) :=
  let* c := rand (rnot (_deque_iterator_equal d t_begin t_end))
                 (Ok (negb (t_movesize =? 0))) in
  if c
  then
    let* _ := assert_r (_deque_iterator_belong_to_deque d t_begin) in
    let* _ := assert_r (_deque_iterator_before d t_begin t_end) in
    let* t_targetbegin := _deque_iterator_prev_n d t_begin t_movesize in
    let* t_targetend := _deque_iterator_prev_n d t_end t_movesize in
    let* _ := assert_r (_deque_iterator_before d t_targetbegin t_targetend) in
    let* (d1, t_targetbegin, t_begin) :=
      move_to_begin_loop (loop_fuel d) d t_targetbegin t_targetend t_begin t_end in
    let* _ := assert_r (rand (_deque_iterator_equal d1 t_targetbegin t_targetend)
                             (_deque_iterator_equal d1 t_begin t_end)) in
    Ok (d1, t_targetend)
  else
    let* t := _deque_iterator_prev_n d t_end t_movesize in
    Ok (d, t).

(** ** Facade *)

Definition _deque_push_back (d : deque_t) (a : A) : result deque_t :=
  let* (d1, t_oldend, _) := _expand_at_end d 1 None in
  let* _ := assert_r (_deque_iterator_belong_to_deque d1 t_oldend) in
  copy_value_elem a d1 t_oldend.

Definition deque_pop_back (d : deque_t) : result deque_t :=
  let* n := deque_size d in
  let* _ := assert (n >? 0) in
  _shrink_at_end d 1.

Definition _deque_push_front (d : deque_t) (a : A) : result deque_t :=
  let* (d1, _, _) := _expand_at_begin d 1 None in
  copy_value_elem a d1 (deque_begin d1).

Definition deque_pop_front (d : deque_t) : result deque_t :=
  let* n := deque_size d in
  let* _ := assert (n >? 0) in
  _shrink_at_begin d 1.

(** The loop [for(t_index = 0; t_index < t_count; ++t_index)] of the back
    branch of [_deque_insert_n_varg]. *)
Fixpoint fill_n (n : nat) (a : A) (d : deque_t) (t_pos : deque_iterator_t)
  : result deque_t :=
  match n with
  | O => Ok d
  | S n' =>
      let* d1 := copy_value_elem a d t_pos in
      let* t := _deque_iterator_next d1 t_pos in
      fill_n n' a d1 t
  end.

Definition _deque_insert_n (d : deque_t) (t_pos : deque_iterator_t) (t_count : Z) (a : A)
  : result (deque_t * deque_iterator_t) :=
  let* _ := assert_r (_deque_iterator_belong_to_deque d t_pos) in
  let* dist := iterator_distance d (deque_begin d) t_pos in
  let* n := deque_size d in
  if dist <? Z.quot (to_int n) 2
  then
    let* (d1, t_oldbegin, pt_pos) := _expand_at_begin d t_count (Some t_pos) in
    let t_pos := match pt_pos with Some p => p | None => t_pos end in
    let* (d2, t_gap) := _move_elem_to_begin d1 t_oldbegin t_pos t_count in
    let* dist := iterator_distance d2 t_gap t_pos in
    let* _ := assert (dist =? to_int t_count) in
    let* d3 := for_range (loop_fuel d2) (copy_value_elem a) d2 t_gap t_pos in
    Ok (d3, t_gap)
  else
    let* (d1, t_oldend, pt_pos) := _expand_at_end d t_count (Some t_pos) in
    let t_pos := match pt_pos with Some p => p | None => t_pos end in
    let* (d2, t_gap) := _move_elem_to_end d1 t_pos t_oldend t_count in
    let* _ := assert_r (_deque_iterator_equal d2 t_pos t_gap) in
    let* d3 := fill_n (Z.to_nat t_count) a d2 t_pos in
    Ok (d3, t_gap).

Definition deque_erase (d : deque_t) (t_pos : deque_iterator_t)
  : result (deque_t * deque_iterator_t) :=
  let* _ := assert_r (_deque_iterator_belong_to_deque d t_pos) in
  let* _ := assert_r (rnot (_deque_iterator_equal d t_pos (deque_end d))) in
  let* e := _deque_iterator_equal d t_pos (deque_begin d) in
  if e
  then
    let* d1 := deque_pop_front d in
    Ok (d1, deque_begin d1)
  else
    let* t_last := _deque_iterator_prev d (deque_end d) in
    let* e := _deque_iterator_equal d t_pos t_last in
    if e
    then
      let* d1 := deque_pop_back d in
      Ok (d1, deque_end d1)
    else
      let t_result := t_pos in
      let* t_pos := _deque_iterator_next d t_pos in
      let* (d1, _) := _move_elem_to_begin d t_pos (deque_end d) 1 in
      let* d2 := _shrink_at_end d1 1 in
      Ok (d2, t_result).

Definition deque_erase_range (d : deque_t) (t_begin t_end : deque_iterator_t)
  : result (deque_t * deque_iterator_t) :=
  let* _ := assert_r (_deque_iterator_belong_to_deque d t_begin) in
  let* _ := assert_r (ror (_deque_iterator_equal d t_begin t_end)
                          (_deque_iterator_before d t_begin t_end)) in
  let* n := iterator_distance d t_begin t_end in
  let* (d1, _) := _move_elem_to_begin d t_end (deque_end d) n in
  let* n1 := iterator_distance d1 t_begin t_end in
  let* d2 := _shrink_at_end d1 n1 in
  Ok (d2, t_begin).

Definition deque_resize (d : deque_t) (t_resize : Z) : result deque_t :=
  let* n := deque_size d in
  if t_resize <? n
  then _shrink_at_end d (n - t_resize)
  else if t_resize >? n
  then let* (d1, _, _) := _expand_at_end d (t_resize - n) None in Ok d1
  else Ok d.

Definition deque_clear (d : deque_t) : result deque_t :=
  let* (d1, _) := deque_erase_range d (deque_begin d) (deque_end d) in
  Ok d1.

(** ** Initialisation *)

Definition deque_init_n (ti : _typeinfo_t) (t_count : Z) : result deque_t :=
  let t_endelemcount := if t_count >? 0 then t_count mod _DEQUE_ELEM_COUNT else 0 in
  let t_validmapcount :=
    if t_count >? 0
    then
      let v := (t_count + _DEQUE_ELEM_COUNT - 1) / _DEQUE_ELEM_COUNT in
      if negb (t_endelemcount =? 0) then v + 1 else v + 2
    else 2 in
  let t_mapcount :=
    if t_count >? 0
    then
      if t_validmapcount >? _DEQUE_MAP_COUNT
      then
        let t_growcount :=
          (t_validmapcount - _DEQUE_MAP_COUNT + _DEQUE_MAP_GROW_STEP - 1)
            / _DEQUE_MAP_GROW_STEP * _DEQUE_MAP_GROW_STEP in
        _DEQUE_MAP_COUNT + t_growcount
      else _DEQUE_MAP_COUNT
    else _DEQUE_MAP_COUNT in
  let null_iter := mk_iter 0 None 0 in
  let d0 := mk_deque ti (replicate (Z.to_nat t_mapcount) None) t_mapcount
                     null_iter null_iter [] [EvMapAlloc t_mapcount] in
  let t_startpos := (t_mapcount - t_validmapcount) / 2 in
  let* d1 := allocate_containers (Z.to_nat t_validmapcount) d0 t_startpos 1 in
  let* first_start := map_read (_ppc_map d1) t_startpos in
  let* first_finish := map_read (_ppc_map d1) (t_startpos + t_validmapcount - 1) in
  let d2 :=
    set_finish
      (set_start d1 (mk_iter t_startpos first_start _DEQUE_ELEM_COUNT))
      (mk_iter (t_startpos + t_validmapcount - 1) first_finish (0 + t_endelemcount)) in
  for_range (loop_fuel d2) init_elem d2 (deque_begin d2) (deque_end d2).

Definition deque_init (ti : _typeinfo_t) : result deque_t := deque_init_n ti 0.

(** ** Element access *)

Definition deque_at (d : deque_t) (t_pos : Z) : result pointer :=
  let* _ := assert (_t_mapsize d >? 0) in
  let* n := deque_size d in
  let* _ := assert (t_pos <? n) in
  let* t_iter := _deque_iterator_next_n d (deque_begin d) t_pos in
  let* _ := assert_r (_deque_iterator_belong_to_deque d t_iter) in
  _deque_iterator_get_pointer_auxiliary d t_iter.

Definition deque_at_value (d : deque_t) (t_pos : Z) : result A :=
  let* p := deque_at d t_pos in
  cell_read d p.

(** ** Comparison *)

Definition style_eqb (x y : _typestyle_t) : bool :=
  match x, y with
  | _TYPE_INVALID, _TYPE_INVALID
  | _TYPE_C_BUILTIN, _TYPE_C_BUILTIN
  | _TYPE_USER_DEFINE, _TYPE_USER_DEFINE
  | _TYPE_CSTL_BUILTIN, _TYPE_CSTL_BUILTIN => true
  | _, _ => false
  end.

Definition _deque_same_type (cpt_dequefirst cpt_dequesecond : deque_t) : bool :=
  _type_is_same (_sz_typename (_t_typeinfo cpt_dequefirst))
                (_sz_typename (_t_typeinfo cpt_dequesecond)) &&
  Nat.eqb (_pt_type (_t_typeinfo cpt_dequefirst))
          (_pt_type (_t_typeinfo cpt_dequesecond)) &&
  style_eqb (_t_style (_t_typeinfo cpt_dequefirst))
            (_t_style (_t_typeinfo cpt_dequesecond)).

(** The element-wise loop of [deque_equal]: [Ok true] when it ran to the end
    of one of the deques without finding a difference. *)
Fixpoint equal_loop (fuel : nat) (d1 d2 : deque_t) (t_first t_second : deque_iterator_t)
  : result bool :=
  match fuel with
  | O => OutOfFuel
  | S fuel' =>
      let* c := rand (rnot (_deque_iterator_equal d1 t_first (deque_end d1)))
                     (rnot (_deque_iterator_equal d2 t_second (deque_end d2))) in
      if c
      then
        let* p1 := _deque_iterator_get_pointer_auxiliary d1 t_first in
        let* p2 := _deque_iterator_get_pointer_auxiliary d2 t_second in
        let* a1 := cell_read d1 p1 in
        let* a2 := cell_read d2 p2 in
        let t_less := t_typeless a1 a2 in
        let t_greater := t_typeless a2 a1 in
        if t_less || t_greater then Ok false
        else
          let* t1 := _deque_iterator_next d1 t_first in
          let* t2 := _deque_iterator_next d2 t_second in
          equal_loop fuel' d1 d2 t1 t2
      else
        let* _ := assert_r (rand (_deque_iterator_equal d1 t_first (deque_end d1))
                                 (_deque_iterator_equal d2 t_second (deque_end d2))) in
        Ok true
  end.

Definition deque_equal (cpt_dequefirst cpt_dequesecond : deque_t) : result bool :=
  let* _ := assert ((_t_mapsize cpt_dequefirst >? 0) &&
                    (_t_mapsize cpt_dequesecond >? 0)) in
  if negb (_deque_same_type cpt_dequefirst cpt_dequesecond)
  then Ok false
  else
    let* n1 := deque_size cpt_dequefirst in
    let* n2 := deque_size cpt_dequesecond in
    if negb (n1 =? n2) then Ok false
    else equal_loop (loop_fuel cpt_dequefirst) cpt_dequefirst cpt_dequesecond
                    (deque_begin cpt_dequefirst) (deque_begin cpt_dequesecond).

Definition deque_not_equal (cpt_dequefirst cpt_dequesecond : deque_t) : result bool :=
  let* b := deque_equal cpt_dequefirst cpt_dequesecond in Ok (negb b).

(** The loop of [deque_less]: [Ok (Some b)] when it returned [b] from inside
    the loop, [Ok None] when it ran to the end of one of the deques. *)
Fixpoint less_elem_loop (fuel : nat) (d1 d2 : deque_t)
         (t_first t_second : deque_iterator_t) : result (option bool) :=
  match fuel with
  | O => OutOfFuel
  | S fuel' =>
      let* c := rand (rnot (_deque_iterator_equal d1 t_first (deque_end d1)))
                     (rnot (_deque_iterator_equal d2 t_second (deque_end d2))) in
      if c
      then
        let* p1 := _deque_iterator_get_pointer_auxiliary d1 t_first in
        let* p2 := _deque_iterator_get_pointer_auxiliary d2 t_second in
        let* a1 := cell_read d1 p1 in
        let* a2 := cell_read d2 p2 in
        if t_typeless a1 a2 then Ok (Some true)
        else if t_typeless a2 a1 then Ok (Some false)
        else
          let* t1 := _deque_iterator_next d1 t_first in
          let* t2 := _deque_iterator_next d2 t_second in
          less_elem_loop fuel' d1 d2 t1 t2
      else Ok None
  end.

Definition deque_less (cpt_dequefirst cpt_dequesecond : deque_t) : result bool :=
  let* _ := assert (_deque_same_type cpt_dequefirst cpt_dequesecond) in
  let* r := less_elem_loop (loop_fuel cpt_dequefirst) cpt_dequefirst cpt_dequesecond
                           (deque_begin cpt_dequefirst) (deque_begin cpt_dequesecond) in
  match r with
  | Some b => Ok b
  | None =>
      let* n1 := deque_size cpt_dequefirst in
      let* n2 := deque_size cpt_dequesecond in
      Ok (n1 <? n2)
  end.

(** [deque_swap] exchanges the two structures.  The source then repairs the
    references of the boundary iterators to their container, which the
    iterators of the model do not carry. *)
Definition deque_swap (pt_dequefirst pt_dequesecond : deque_t)
  : result (deque_t * deque_t) :=
  let* _ := assert (_deque_same_type pt_dequefirst pt_dequesecond) in
  Ok (pt_dequesecond, pt_dequefirst).

(** ** Access through an iterator

    [_deque_iterator_get_value], [_deque_iterator_set_value] and
    [_deque_iterator_get_pointer] for an element type other than the C
    string, whose branch goes through the string library.  The copy of
    [_deque_iterator_get_value] into the buffer of the caller is the value
    returned. *)

Definition _deque_iterator_get_pointer (d : deque_t) (t_iter : deque_iterator_t)
  : result pointer :=
  let* _ := assert_r (_deque_iterator_belong_to_deque d t_iter) in
  let* _ := assert_r (rnot (_deque_iterator_equal d t_iter (deque_end d))) in
  _deque_iterator_get_pointer_auxiliary d t_iter.

Definition _deque_iterator_get_value (d : deque_t) (t_iter : deque_iterator_t)
  : result A :=
  let* _ := assert_r (_deque_iterator_belong_to_deque d t_iter) in
  let* _ := assert_r (rnot (_deque_iterator_equal d t_iter (deque_end d))) in
  let* p := _deque_iterator_get_pointer_auxiliary d t_iter in
  cell_read d p.

Definition _deque_iterator_set_value (d : deque_t) (t_iter : deque_iterator_t)
           (cpv_value : A) : result deque_t :=
  let* _ := assert_r (_deque_iterator_belong_to_deque d t_iter) in
  let* _ := assert_r (rnot (_deque_iterator_equal d t_iter (deque_end d))) in
  let* p := _deque_iterator_get_pointer_auxiliary d t_iter in
  type_copy_value d p cpv_value.

(** [_deque_iterator_at] returns [_pc_corepos] of the iterator it reaches,
    as it is. *)
Definition _deque_iterator_at (d : deque_t) (t_iter : deque_iterator_t) (n_index : Z)
  : result pointer :=
  let* _ := assert_r (_deque_iterator_belong_to_deque d t_iter) in
  let* t := _deque_iterator_next_n d t_iter n_index in
  match _pc_first t with
  | Some b => Ok (b, _pc_corepos t)
  | None => Undefined
  end.

(** ** Access to the ends *)

(** [deque_front] and [deque_back] return NULL ([None]) on an empty deque. *)
Definition deque_front (d : deque_t) : result (option pointer) :=
  let* e := deque_empty d in
  if e then Ok None
  else let* p := deque_at d 0 in Ok (Some p).

Definition deque_back (d : deque_t) : result (option pointer) :=
  let* e := deque_empty d in
  if e then Ok None
  else
    let* n := deque_size d in
    let* p := deque_at d (wrap_size_t (n - 1)) in Ok (Some p).

Definition deque_rbegin (d : deque_t) : result deque_iterator_t :=
  let* _ := assert (_t_mapsize d >? 0) in
  _deque_iterator_prev d (_t_finish d).

Definition deque_rend (d : deque_t) : result deque_iterator_t :=
  let* _ := assert (_t_mapsize d >? 0) in
  Ok (set_corepos (_t_start d) (_pc_corepos (_t_start d) - 1)).

(** ** The derived comparisons *)

Definition deque_less_equal (cpt_dequefirst cpt_dequesecond : deque_t) : result bool :=
  ror (deque_less cpt_dequefirst cpt_dequesecond)
      (deque_equal cpt_dequefirst cpt_dequesecond).

Definition deque_greater (cpt_dequefirst cpt_dequesecond : deque_t) : result bool :=
  deque_less cpt_dequesecond cpt_dequefirst.

Definition deque_greater_equal (cpt_dequefirst cpt_dequesecond : deque_t) : result bool :=
  ror (deque_greater cpt_dequefirst cpt_dequesecond)
      (deque_equal cpt_dequefirst cpt_dequesecond).

(** ** Initialisation, assignment and resizing with a value or a range

    The functions that take a range take the deque of that range as [src].
    It is a deque other than the target: a range of the target itself is not
    covered.  The source address that the trace records for a copy between
    two deques is an address of the allocator of [src]. *)

(** The first part of [_deque_init_elem_varg], which repeats that of
    [deque_init_n]: the directory, the blocks and the two iterators for
    [t_count] elements. *)
Definition init_layout (ti : _typeinfo_t) (t_count : Z) : result deque_t :=
  let t_endelemcount := if t_count >? 0 then t_count mod _DEQUE_ELEM_COUNT else 0 in
  let t_validmapcount :=
    if t_count >? 0
    then
      let v := (t_count + _DEQUE_ELEM_COUNT - 1) / _DEQUE_ELEM_COUNT in
      if negb (t_endelemcount =? 0) then v + 1 else v + 2
    else 2 in
  let t_mapcount :=
    if t_count >? 0
    then
      if t_validmapcount >? _DEQUE_MAP_COUNT
      then
        let t_growcount :=
          (t_validmapcount - _DEQUE_MAP_COUNT + _DEQUE_MAP_GROW_STEP - 1)
            / _DEQUE_MAP_GROW_STEP * _DEQUE_MAP_GROW_STEP in
        _DEQUE_MAP_COUNT + t_growcount
      else _DEQUE_MAP_COUNT
    else _DEQUE_MAP_COUNT in
  let null_iter := mk_iter 0 None 0 in
  let d0 := mk_deque ti (replicate (Z.to_nat t_mapcount) None) t_mapcount
                     null_iter null_iter [] [EvMapAlloc t_mapcount] in
  let t_startpos := (t_mapcount - t_validmapcount) / 2 in
  let* d1 := allocate_containers (Z.to_nat t_validmapcount) d0 t_startpos 1 in
  let* first_start := map_read (_ppc_map d1) t_startpos in
  let* first_finish := map_read (_ppc_map d1) (t_startpos + t_validmapcount - 1) in
  Ok (set_finish
        (set_start d1 (mk_iter t_startpos first_start _DEQUE_ELEM_COUNT))
        (mk_iter (t_startpos + t_validmapcount - 1) first_finish (0 + t_endelemcount))).

(** The body of the loop of [_deque_init_elem_varg]: the cell is initialised
    and the value is copied into it. *)
Definition init_value_elem (a : A) (d : deque_t) (t_iter : deque_iterator_t)
  : result deque_t :=
  let* d1 := init_elem d t_iter in
  copy_value_elem a d1 t_iter.

Definition _deque_init_elem (ti : _typeinfo_t) (t_count : Z) (a : A) : result deque_t :=
  let* d := init_layout ti t_count in
  for_range (loop_fuel d) (init_value_elem a) d (deque_begin d) (deque_end d).

Definition _deque_resize_elem (d : deque_t) (t_resize : Z) (a : A) : result deque_t :=
  let* n := deque_size d in
  if t_resize <? n
  then _shrink_at_end d (n - t_resize)
  else if t_resize >? n
  then
    let* (d1, t_oldend, _) := _expand_at_end d (t_resize - n) None in
    for_range (loop_fuel d1) (copy_value_elem a) d1 t_oldend (deque_end d1)
  else Ok d.

Definition _deque_assign_elem (d : deque_t) (t_count : Z) (a : A) : result deque_t :=
  let* d1 := deque_resize d t_count in
  if t_count >? 0
  then for_range (loop_fuel d1) (copy_value_elem a) d1 (deque_begin d1) (deque_end d1)
  else Ok d1.








(** * Well-formed deques and the linear position of an iterator

    From here to the end of the section the definitions are the vocabulary of
    the statements; none of them embeds code. *)

(** The linear position of an iterator: directory slot times block capacity
    plus offset.  The two representations of a block boundary, after-last of
    one block and first of the next, have the same position. *)
Definition idx (it : deque_iterator_t) : Z :=
  _DEQUE_ELEM_COUNT * _ppc_mappos it + _pc_corepos it.

Record wf (d : deque_t) : Prop := mk_wf {
  wf_len : Z.of_nat (length (_ppc_map d)) = _t_mapsize d;
  wf_bound : _DEQUE_ELEM_COUNT * (_t_mapsize d + 1) < 2 ^ 31;
  wf_s : 0 <= _ppc_mappos (_t_start d);
  wf_f : _ppc_mappos (_t_finish d) < _t_mapsize d;
  wf_so : 0 <= _pc_corepos (_t_start d) <= _DEQUE_ELEM_COUNT;
  wf_fo : 0 <= _pc_corepos (_t_finish d) < _DEQUE_ELEM_COUNT;
  wf_le : idx (_t_start d) <= idx (_t_finish d);
  wf_sfirst : _ppc_map d !! Z.to_nat (_ppc_mappos (_t_start d))
              = Some (_pc_first (_t_start d));
  wf_ffirst : _ppc_map d !! Z.to_nat (_ppc_mappos (_t_finish d))
              = Some (_pc_first (_t_finish d));
  wf_blocks : forall i, _ppc_mappos (_t_start d) <= i <= _ppc_mappos (_t_finish d) ->
              exists b blk, _ppc_map d !! Z.to_nat i = Some (Some b) /\
                            _t_allocater d !! b = Some (Some blk) /\
                            length blk = Z.to_nat _DEQUE_ELEM_COUNT;
  wf_inj : forall i j b,
      _ppc_mappos (_t_start d) <= i <= _ppc_mappos (_t_finish d) ->
      _ppc_mappos (_t_start d) <= j <= _ppc_mappos (_t_finish d) ->
      _ppc_map d !! Z.to_nat i = Some (Some b) ->
      _ppc_map d !! Z.to_nat j = Some (Some b) -> i = j
}.

(** An iterator that denotes a position of the deque, the end included.
    Only the start iterator stands on the after-last position of a block,
    when the first block holds no element; these are the iterators that the
    membership test accepts ([belong_ok]). *)
Record iter_ok (d : deque_t) (it : deque_iterator_t) : Prop := mk_iter_ok {
  io_slot : _ppc_mappos (_t_start d) <= _ppc_mappos it <= _ppc_mappos (_t_finish d);
  io_first : _ppc_map d !! Z.to_nat (_ppc_mappos it) = Some (_pc_first it);
  io_off : 0 <= _pc_corepos it <= _DEQUE_ELEM_COUNT;
  io_range : idx (_t_start d) <= idx it <= idx (_t_finish d);
  io_norm : _pc_corepos it = _DEQUE_ELEM_COUNT -> idx it = idx (_t_start d)
}.

(** The same without the last condition: an iterator that may stand on the
    after-last position of any block.  [_expand_at_begin] holds such
    iterators before it moves them to the next block. *)
Record iter_pos (d : deque_t) (it : deque_iterator_t) : Prop := mk_iter_pos {
  ip_slot : _ppc_mappos (_t_start d) <= _ppc_mappos it <= _ppc_mappos (_t_finish d);
  ip_first : _ppc_map d !! Z.to_nat (_ppc_mappos it) = Some (_pc_first it);
  ip_off : 0 <= _pc_corepos it <= _DEQUE_ELEM_COUNT;
  ip_range : idx (_t_start d) <= idx it <= idx (_t_finish d)
}.

(** ** The element sequence of a deque *)

(** Address and value of the element at linear position [k]. *)
Definition elem_ptr (d : deque_t) (k : Z) : result pointer :=
  let* s := map_read (_ppc_map d) (k / _DEQUE_ELEM_COUNT) in
  match s with
  | Some b => Ok (b, k mod _DEQUE_ELEM_COUNT)
  | None => Undefined
  end.

Definition elem_val (d : deque_t) (k : Z) : result A :=
  let* p := elem_ptr d k in cell_read d p.

Definition value_or (r : result A) : A :=
  match r with Ok a => a | _ => uninit end.

(** The elements from linear position [k] up to the finish iterator. *)
Definition elems_from (d : deque_t) (k : Z) : list A :=
  map (fun i => value_or (elem_val d (k + Z.of_nat i)))
      (seq 0 (Z.to_nat (idx (_t_finish d) - k))).

(** The logical element sequence. *)
Definition to_list (d : deque_t) : list A := elems_from d (idx (_t_start d)).

(** ** Comparison of element sequences *)

(** No position with a strict difference, up to the end of the shorter list. *)
Fixpoint pairwise_equiv (la lb : list A) : bool :=
  match la, lb with
  | a :: la', b :: lb' =>
      if t_typeless a b || t_typeless b a then false else pairwise_equiv la' lb'
  | _, _ => true
  end.

(** Lexicographic order of two sequences under the element order: the first
    position where the sequences differ decides, and a proper prefix is less. *)
Inductive lex_lt : list A -> list A -> Prop :=
| lex_lt_nil (b : A) (lb : list A) : lex_lt [] (b :: lb)
| lex_lt_head (a b : A) (la lb : list A) :
    t_typeless a b = true -> lex_lt (a :: la) (b :: lb)
| lex_lt_tail (a b : A) (la lb : list A) :
    t_typeless a b = false -> t_typeless b a = false ->
    lex_lt la lb -> lex_lt (a :: la) (b :: lb).

Fixpoint lex_less (la lb : list A) : bool :=
  match la, lb with
  | [], [] => false
  | [], _ :: _ => true
  | _ :: _, [] => false
  | a :: la', b :: lb' =>
      if t_typeless a b then true
      else if t_typeless b a then false
      else lex_less la' lb'
  end.

(** ** A checker for well-formedness *)

Definition slot_at (d : deque_t) (i : Z) : option nat :=
  match _ppc_map d !! Z.to_nat i with
  | Some s => s
  | None => None
  end.

Definition slot_valid (d : deque_t) (i : Z) : bool :=
  match slot_at d i with
  | Some b =>
      match _t_allocater d !! b with
      | Some (Some blk) => Nat.eqb (length blk) (Z.to_nat _DEQUE_ELEM_COUNT)
      | _ => false
      end
  | None => false
  end.

(** The directory slots from the start iterator's to the finish iterator's. *)
Definition valid_run (d : deque_t) : list Z :=
  map (fun i => _ppc_mappos (_t_start d) + Z.of_nat i)
      (seq 0 (Z.to_nat (_ppc_mappos (_t_finish d) - _ppc_mappos (_t_start d) + 1))).

Fixpoint distinct (l : list (option nat)) : bool :=
  match l with
  | [] => true
  | x :: l' => negb (existsb (option_nat_eqb x) l') && distinct l'
  end.

Definition first_cached (d : deque_t) (it : deque_iterator_t) : bool :=
  match _ppc_map d !! Z.to_nat (_ppc_mappos it) with
  | Some s => option_nat_eqb s (_pc_first it)
  | None => false
  end.

Definition deque_valid (d : deque_t) : bool :=
  (Z.of_nat (length (_ppc_map d)) =? _t_mapsize d) &&
  (_DEQUE_ELEM_COUNT * (_t_mapsize d + 1) <? 2 ^ 31) &&
  (0 <=? _ppc_mappos (_t_start d)) &&
  (_ppc_mappos (_t_finish d) <? _t_mapsize d) &&
  (0 <=? _pc_corepos (_t_start d)) &&
  (_pc_corepos (_t_start d) <=? _DEQUE_ELEM_COUNT) &&
  (0 <=? _pc_corepos (_t_finish d)) &&
  (_pc_corepos (_t_finish d) <? _DEQUE_ELEM_COUNT) &&
  (idx (_t_start d) <=? idx (_t_finish d)) &&
  first_cached d (_t_start d) && first_cached d (_t_finish d) &&
  forallb (slot_valid d) (valid_run d) &&
  distinct (map (slot_at d) (valid_run d)).

(** [l] is the element sequence of [d] as the accessors of the deque report
    it: [deque_size] gives its length and [deque_at] its elements. *)
Definition represents (d : deque_t) (l : list A) : Prop :=
  deque_size d = Ok (Z.of_nat (length l)) /\
  forall (i : nat) (a : A), l !! i = Some a -> deque_at_value d (Z.of_nat i) = Ok a.

(** * Effects of the element operations on a well-formed deque *)

(** Two states with the same directory and the same iterators. *)
Record shape_eq (d d' : deque_t) : Prop := mk_shape_eq {
  se_info : _t_typeinfo d' = _t_typeinfo d;
  se_map : _ppc_map d' = _ppc_map d;
  se_mapsize : _t_mapsize d' = _t_mapsize d;
  se_start : _t_start d' = _t_start d;
  se_finish : _t_finish d' = _t_finish d
}.

(** The positions [a, a+1, ..., a+n-1]. *)
Definition zrange (a : Z) (n : nat) : list Z :=
  map (fun i => a + Z.of_nat i) (seq 0 n).

(** The address of position [k], for use in traces. *)
Definition ptr_at (d : deque_t) (k : Z) : pointer :=
  match elem_ptr d k with Ok p => p | _ => (0%nat, 0) end.

(** ** Freeing blocks *)

(** The slots that a loop of [n] steps visits from [slot] in direction [dir]. *)
Definition visited (slot dir : Z) (n : nat) (i : Z) : Prop :=
  exists j, 0 <= j < Z.of_nat n /\ i = slot + dir * j.

Definition slot_block (d : deque_t) (i : Z) : nat :=
  match slot_at d i with Some b => b | None => 0%nat end.

(** The blocks of the directory slots [lo..hi] of [d] are deallocated in [d']
    and their slots are null; every other slot and every other block is as
    it was in [d]. *)
Definition frees_slots (d d' : deque_t) (lo hi : Z) : Prop :=
  (forall i, lo <= i <= hi ->
             _ppc_map d' !! Z.to_nat i = Some None /\
             _t_allocater d' !! slot_block d i = Some None) /\
  (forall x : nat, ~ (lo <= Z.of_nat x <= hi) -> _ppc_map d' !! x = _ppc_map d !! x) /\
  (forall b, (forall i, lo <= i <= hi -> slot_block d i <> b) ->
             _t_allocater d' !! b = _t_allocater d !! b).

(** Every position of the element range of [d] is backed by a cell of an
    allocated block. *)
Definition range_backed (d : deque_t) : Prop :=
  forall j, idx (_t_start d) <= j < idx (_t_finish d) ->
            exists p a, elem_ptr d j = Ok p /\ cell_read d p = Ok a.

Definition iterator_valid (d : deque_t) (it : deque_iterator_t) : bool :=
  (_ppc_mappos (_t_start d) <=? _ppc_mappos it) &&
  (_ppc_mappos it <=? _ppc_mappos (_t_finish d)) &&
  first_cached d it &&
  (0 <=? _pc_corepos it) && (_pc_corepos it <=? _DEQUE_ELEM_COUNT) &&
  (idx (_t_start d) <=? idx it) && (idx it <=? idx (_t_finish d)) &&
  ((_pc_corepos it <? _DEQUE_ELEM_COUNT) || (idx it =? idx (_t_start d))).

(** ** The move engine on a well-formed deque *)

(** State of the forward move loop after the targets [tb0 .. t-1] have been
    written: they hold the values that were [c] positions further on, every
    other position is untouched, and one copy per target is recorded. *)
Definition moved_to_begin (d0 x : deque_t) (c tb0 t : Z) : Prop :=
  (forall j, tb0 <= j < t -> elem_val x j = elem_val d0 (j + c)) /\
  (forall j, idx (_t_start d0) <= j < idx (_t_finish d0) -> ~ (tb0 <= j < t) ->
             elem_val x j = elem_val d0 j) /\
  trace x = trace d0 ++
            map (fun j => EvCopy (ptr_at d0 j) (FromElem (ptr_at d0 (j + c))))
                (zrange tb0 (Z.to_nat (t - tb0))).

Definition is_copy (e : event) : bool :=
  match e with EvCopy _ _ => true | _ => false end.

(** No element was copied in the events [t]. *)
Definition no_copy (t : list event) : bool := forallb (fun e => negb (is_copy e)) t.


(** [p'] is the iterator [p] after an expansion retargeted it: same position. *)
Definition same_position (d' : deque_t) (pt_pos pt_pos' : option deque_iterator_t)
  : Prop :=
  match pt_pos, pt_pos' with
  | Some p, Some p' => idx p' = idx p /\ iter_ok d' p'
  | None, None => True
  | _, _ => False
  end.

(** * The directory capacity *)

(** The capacity field and the length of the directory array. *)
Definition same_directory (d d' : deque_t) : Prop :=
  _t_mapsize d' = _t_mapsize d /\ length (_ppc_map d') = length (_ppc_map d).

(** The number of blocks an expansion allocates when [t_nomemsize] elements do
    not fit the boundary block ([t_containersize] in the source): enough for
    the elements, and one more when they fill their blocks exactly. *)
Definition containers_needed (t_nomemsize : Z) : Z :=
  let c := (t_nomemsize + _DEQUE_ELEM_COUNT - 1) / _DEQUE_ELEM_COUNT in
  if t_nomemsize mod _DEQUE_ELEM_COUNT =? 0 then c + 1 else c.

(** The directory slots outside the run of blocks ([t_remainmapsize]). *)
Definition spare_slots (d : deque_t) : Z :=
  _t_mapsize d - (_ppc_mappos (_t_finish d) - _ppc_mappos (_t_start d) + 1).

Definition ceil_div (a b : Z) : Z := (a + b - 1) / b.

(** The directory after an expansion that needs [c] new blocks. *)
Definition directory_after (d d' : deque_t) (c : Z) : Prop :=
  if c >? spare_slots d
  then _t_mapsize d' =
       _t_mapsize d + ceil_div (c - spare_slots d) _DEQUE_MAP_GROW_STEP
                      * _DEQUE_MAP_GROW_STEP /\
       length (_ppc_map d') = Z.to_nat (_t_mapsize d')
  else same_directory d d'.



(** One step of the directory: unchanged, or replaced by a strictly larger
    one. *)
Definition directory_step (d d' : deque_t) : Prop :=
  same_directory d d' \/ _t_mapsize d < _t_mapsize d'.

(** ** Sequences of operations *)

Inductive deque_op :=
| OpPushBack (a : A)
| OpPushFront (a : A)
| OpPopBack
| OpPopFront
| OpInsertN (i n : Z) (a : A)
| OpErase (i : Z)
| OpEraseRange (i j : Z)
| OpResize (n : Z)
| OpClear.

(** The iterator [i] steps after begin. *)
Definition iterator_at (d : deque_t) (i : Z) : result deque_iterator_t :=
  _deque_iterator_next_n d (deque_begin d) i.

Definition run_op (d : deque_t) (op : deque_op) : result deque_t :=
  match op with
  | OpPushBack a => _deque_push_back d a
  | OpPushFront a => _deque_push_front d a
  | OpPopBack => deque_pop_back d
  | OpPopFront => deque_pop_front d
  | OpInsertN i n a =>
      let* p := iterator_at d i in
      let* (d1, _) := _deque_insert_n d p n a in Ok d1
  | OpErase i =>
      let* p := iterator_at d i in
      let* (d1, _) := deque_erase d p in Ok d1
  | OpEraseRange i j =>
      let* p := iterator_at d i in
      let* q := iterator_at d j in
      let* (d1, _) := deque_erase_range d p q in Ok d1
  | OpResize n => deque_resize d n
  | OpClear => deque_clear d
  end.

Fixpoint run_ops (d : deque_t) (ops : list deque_op) : result deque_t :=
  match ops with
  | [] => Ok d
  | op :: ops' => let* d1 := run_op d op in run_ops d1 ops'
  end.

(** The operations that only remove elements. *)
Definition removes_only (op : deque_op) : bool :=
  match op with
  | OpPopBack | OpPopFront | OpErase _ | OpEraseRange _ _ | OpClear => true
  | _ => false
  end.

(** Operations on two deques: an operation on either, or their swap. *)
Inductive pair_op :=
| OnFirst (op : deque_op)
| OnSecond (op : deque_op)
| OpSwap.

Definition run_pair_op (p : deque_t * deque_t) (op : pair_op)
  : result (deque_t * deque_t) :=
  match op with
  | OnFirst o => let* d := run_op (fst p) o in Ok (d, snd p)
  | OnSecond o => let* d := run_op (snd p) o in Ok (fst p, d)
  | OpSwap => deque_swap (fst p) (snd p)
  end.

Fixpoint run_pair_ops (p : deque_t * deque_t) (ops : list pair_op)
  : result (deque_t * deque_t) :=
  match ops with
  | [] => Ok p
  | op :: ops' => let* p1 := run_pair_op p op in run_pair_ops p1 ops'
  end.

(** The sequence swaps an odd number of times: the directory that the first
    deque started with ends in the second, and conversely. *)
Fixpoint exchanged (ops : list pair_op) : bool :=
  match ops with
  | [] => false
  | OpSwap :: ops' => negb (exchanged ops')
  | _ :: ops' => exchanged ops'
  end.

(** ** Insertion inside the boundary blocks *)

(** The events an insert of [c] elements at position [pos] records when it
    takes the front branch inside the first block: [c] inits below the old
    start, one copy per element of [[start, pos)] to the position [c] lower,
    and [c] copies from the value into the gap. *)
Definition insert_front_events (d : deque_t) (pos c : Z) : list event :=
  map (fun k => EvInit (ptr_at d k)) (zrange (idx (_t_start d) - c) (Z.to_nat c)) ++
  map (fun j => EvCopy (ptr_at d j) (FromElem (ptr_at d (j + c))))
      (zrange (idx (_t_start d) - c) (Z.to_nat (pos - idx (_t_start d)))) ++
  map (fun k => EvCopy (ptr_at d k) FromValue) (zrange (pos - c) (Z.to_nat c)).

Definition ptr_eqb (p q : pointer) : bool :=
  Nat.eqb (fst p) (fst q) && Z.eqb (snd p) (snd q).

(** The event reads or writes the cell [p]. *)
Definition touches (p : pointer) (e : event) : bool :=
  match e with
  | EvInit q | EvDestroy q => ptr_eqb q p
  | EvCopy q (FromElem r) => ptr_eqb q p || ptr_eqb r p
  | EvCopy q FromValue => ptr_eqb q p
  | _ => false
  end.

(** No event of [t] reads or writes the cell [p]. *)
Definition untouched (p : pointer) (t : list event) : bool :=
  forallb (fun e => negb (touches p e)) t.

(** ** The backward move loop *)

(** The positions [a+n-1, ..., a+1, a], the order in which the backward loop
    writes them. *)
Definition zrange_down (a : Z) (n : nat) : list Z := rev (zrange a n).

(** State of the backward move loop after the targets [t+1 .. te0] have been
    written: they hold the values that were [c] positions lower, every other
    position is untouched, and one copy per target is recorded, highest
    target first. *)
Definition moved_to_end (d0 x : deque_t) (c t te0 : Z) : Prop :=
  (forall j, t < j <= te0 -> elem_val x j = elem_val d0 (j - c)) /\
  (forall j, idx (_t_start d0) <= j < idx (_t_finish d0) -> ~ (t < j <= te0) ->
             elem_val x j = elem_val d0 j) /\
  trace x = trace d0 ++
            map (fun j => EvCopy (ptr_at d0 j) (FromElem (ptr_at d0 (j - c))))
                (zrange_down (t + 1) (Z.to_nat (te0 - t))).

(** The events an insert of [c] elements at position [pos] records when it
    takes the back branch inside the last block: [c] inits from the old
    finish on, one copy per element of [[pos, finish)] to the position [c]
    higher, highest first, and [c] copies from the value into the gap. *)
Definition insert_back_events (d : deque_t) (pos c : Z) : list event :=
  map (fun k => EvInit (ptr_at d k)) (zrange (idx (_t_finish d)) (Z.to_nat c)) ++
  map (fun j => EvCopy (ptr_at d j) (FromElem (ptr_at d (j - c))))
      (zrange_down (pos + c) (Z.to_nat (idx (_t_finish d) - pos))) ++
  map (fun k => EvCopy (ptr_at d k) FromValue) (zrange pos (Z.to_nat c)).

(** ** The layout of a new deque *)

(** The number of blocks and the directory size that [deque_init_n] computes
    for [n] elements. *)
Definition init_blocks (n : Z) : Z := n / _DEQUE_ELEM_COUNT + 2.

Definition init_mapsize (n : Z) : Z :=
  if init_blocks n >? _DEQUE_MAP_COUNT
  then _DEQUE_MAP_COUNT
       + (init_blocks n - _DEQUE_MAP_COUNT + _DEQUE_MAP_GROW_STEP - 1)
           / _DEQUE_MAP_GROW_STEP * _DEQUE_MAP_GROW_STEP
  else _DEQUE_MAP_COUNT.

End Deque.

Arguments deque_t A : clear implicits.
Arguments deque_op A : clear implicits.
Arguments pair_op A : clear implicits.

(** * Instances on integers *)

#[export] Instance int_elem : ElemType Z := {|
  t_typeinit := 0;
  t_typeless := Z.ltb;
  uninit := -1
|}.

#[export] Instance name_registry : TypeRegistry := {|
  _type_is_same := String.eqb
|}.

Definition int_typeinfo : _typeinfo_t := mk_typeinfo "int" 1 _TYPE_C_BUILTIN.
Definition long_typeinfo : _typeinfo_t := mk_typeinfo "long" 2 _TYPE_C_BUILTIN.

(** Deques of integers: init stores 0, new memory holds -1, the element order
    is [<] and type names are compared as strings. *)
Definition int_deque : Type := deque_t Z.

Definition null_deque : int_deque :=
  mk_deque int_typeinfo [] 0 (mk_iter 0 None 0) (mk_iter 0 None 0) [] [].

Definition the_deque (r : result int_deque) : int_deque :=
  match r with Ok d => d | _ => null_deque end.

Definition int_init_n (n : Z) : result int_deque := deque_init_n int_typeinfo n.

Definition int_run (ops : list (deque_op Z)) : result int_deque :=
  let* d := int_init_n 0 in run_ops d ops.

Definition int_elems (d : int_deque) : list Z := to_list d.

Definition empty_deque : int_deque := Eval vm_compute in the_deque (int_init_n 0).

Definition empty_long_deque : int_deque :=
  Eval vm_compute in the_deque (deque_init_n long_typeinfo 0).

Definition deque_123 : int_deque :=
  Eval vm_compute in the_deque (int_run [OpPushBack 1; OpPushBack 2; OpPushBack 3]).

Definition deque_124 : int_deque :=
  Eval vm_compute in the_deque (int_run [OpPushBack 1; OpPushBack 2; OpPushBack 4]).

Definition deque_5 : int_deque := Eval vm_compute in the_deque (int_run [OpPushBack 5]).

(** Nineteen initialised elements: sixteen in one block and three in the
    next. *)
Definition deque_19 : int_deque := Eval vm_compute in the_deque (int_init_n 19).

Definition push_backs (n : nat) : list (deque_op Z) :=
  map (fun i => OpPushBack (Z.of_nat i)) (seq 1 n).

Definition push_fronts (n : nat) : list (deque_op Z) :=
  map (fun i => OpPushFront (Z.of_nat i)) (seq 1 n).

(** 127 elements pushed at the back of an empty deque: the last block of the
    run sits in the last directory slot and is full but for one cell. *)
Definition deque_back_127 : int_deque :=
  Eval vm_compute in the_deque (int_run (push_backs 127)).

(** 143 elements pushed at the front of an empty deque: the first block of
    the run sits in directory slot 0 and is full but for one cell. *)
Definition deque_front_143 : int_deque :=
  Eval vm_compute in the_deque (int_run (push_fronts 143)).

(** The result of expanding the empty deque by 240 elements at the end. *)
Definition expanded_240
  : int_deque * deque_iterator_t * option deque_iterator_t :=
  Eval vm_compute in
    match _expand_at_end empty_deque 240 None with
    | Ok r => r
    | _ => (null_deque, mk_iter 0 None 0, None)
    end.



(** ** Expansion inside the boundary block *)



(** ** Shrinking *)

Definition deque_19_shrunk : int_deque :=
  Eval vm_compute in the_deque (_shrink_at_end deque_19 3).

(** ** Insert inside the boundary blocks, on concrete deques *)

Definition deque_01234 : int_deque :=
  Eval vm_compute in
    the_deque (int_run [OpPushBack 2; OpPushBack 3; OpPushBack 4;
                        OpPushFront 1; OpPushFront 0]).

Definition deque_012 : int_deque :=
  Eval vm_compute in the_deque (int_run [OpPushBack 1; OpPushBack 2; OpPushFront 0]).

(** ** A deque whose begin and end share a block *)

Definition deque_23 : int_deque :=
  Eval vm_compute in
    the_deque (int_run [OpPushBack 1; OpPushBack 2; OpPushBack 3; OpPopFront]).

(** ** Deques whose end, respectively begin, is one cell from a block boundary *)

Definition deque_back_15 : int_deque :=
  Eval vm_compute in the_deque (int_run (push_backs 15)).

Definition deque_front_15 : int_deque :=
  Eval vm_compute in the_deque (int_run (push_fronts 15)).

(** * Properties of the embedding *)

(** Simplification of the outcome monad alone: the loops keep their fuel. *)
Tactic Notation "rsimpl" :=
  cbn [rbind assert assert_r rnot rand ror andb negb orb fst snd].
Tactic Notation "rsimpl" "in" hyp(H) :=
  cbn [rbind assert assert_r rnot rand ror andb negb orb fst snd] in H.

Section DequeTheory.

Context {A : Type} {ET : ElemType A} {TR : TypeRegistry}.

(** ** Well-formed deques and the linear position of an iterator *)

Lemma option_nat_eqb_refl (x : option nat) : option_nat_eqb x x = true.
Proof. destruct x as [n|]; simpl; [apply Nat.eqb_refl | reflexivity]. Qed.

Lemma wf_slots_ordered (d : deque_t A) :
  wf d -> _ppc_mappos (_t_start d) <= _ppc_mappos (_t_finish d).
Proof.
  intros H. pose proof (wf_le d H). pose proof (wf_so d H). pose proof (wf_fo d H).
  unfold idx, _DEQUE_ELEM_COUNT in *. lia.
Qed.

Lemma iter_ok_pos (d : deque_t A) (it : deque_iterator_t) :
  iter_ok d it -> iter_pos d it.
Proof. intros [Sl Fi Of Ra _]. constructor; assumption. Qed.

Lemma iter_ok_start (d : deque_t A) : wf d -> iter_ok d (_t_start d).
Proof.
  intros H. pose proof (wf_slots_ordered d H).
  constructor; [lia | apply (wf_sfirst d H) | apply (wf_so d H) | | reflexivity].
  pose proof (wf_le d H). lia.
Qed.

Lemma iter_ok_finish (d : deque_t A) : wf d -> iter_ok d (_t_finish d).
Proof.
  intros H. pose proof (wf_slots_ordered d H). pose proof (wf_fo d H).
  constructor; [lia | apply (wf_ffirst d H) | lia | | unfold _DEQUE_ELEM_COUNT in *; lia].
  pose proof (wf_le d H). lia.
Qed.

Lemma iter_eqb_idx (d : deque_t A) (a b : deque_iterator_t) :
  iter_pos d a -> iter_pos d b ->
  iter_eqb a b = (idx a =? idx b).
Proof.
  intros [Sa Fa Oa Ra] [Sb Fb Ob Rb].
  unfold iter_eqb, idx, _DEQUE_ELEM_COUNT in *.
  destruct (Z.eqb_spec (_ppc_mappos a) (_ppc_mappos b)) as [E|E].
  - rewrite E in Fa. rewrite Fa in Fb. injection Fb as Fb. rewrite Fb.
    rewrite option_nat_eqb_refl. simpl.
    destruct (Z.eqb_spec (_pc_corepos a) (_pc_corepos b)) as [E2|E2].
    + symmetry. apply Z.eqb_eq. lia.
    + rewrite E, Z.ltb_irrefl.
      replace (_ppc_mappos b + 1 =? _ppc_mappos b) with false
        by (symmetry; apply Z.eqb_neq; lia).
      simpl. symmetry. apply Z.eqb_neq. lia.
  - simpl.
    destruct (Z.ltb_spec (_ppc_mappos a) (_ppc_mappos b)) as [L|L].
    + destruct (Z.eqb_spec (_ppc_mappos a + 1) (_ppc_mappos b));
        destruct (Z.eqb_spec (_pc_corepos a) 16);
        destruct (Z.eqb_spec (_pc_corepos b) 0); simpl;
        symmetry; (apply Z.eqb_eq; lia) || (apply Z.eqb_neq; lia).
    + destruct (Z.eqb_spec (_ppc_mappos b + 1) (_ppc_mappos a));
        destruct (Z.eqb_spec (_pc_corepos b) 16);
        destruct (Z.eqb_spec (_pc_corepos a) 0); simpl;
        symmetry; (apply Z.eqb_eq; lia) || (apply Z.eqb_neq; lia).
Qed.

Lemma map_read_lookup (m : list (option nat)) (i : Z) (s : option nat) :
  0 <= i -> m !! Z.to_nat i = Some s -> map_read m i = Ok s.
Proof.
  intros Hi Hl. unfold map_read.
  pose proof (lookup_lt_Some _ _ _ Hl) as Hlt.
  replace (0 <=? i) with true by (symmetry; apply Z.leb_le; lia).
  replace (i <? Z.of_nat (length m)) with true by (symmetry; apply Z.ltb_lt; lia).
  simpl. rewrite Hl. reflexivity.
Qed.

Lemma wf_slot_read (d : deque_t A) (i : Z) :
  wf d -> _ppc_mappos (_t_start d) <= i <= _ppc_mappos (_t_finish d) ->
  exists b blk, _ppc_map d !! Z.to_nat i = Some (Some b) /\
                map_read (_ppc_map d) i = Ok (Some b) /\
                _t_allocater d !! b = Some (Some blk) /\
                length blk = Z.to_nat _DEQUE_ELEM_COUNT.
Proof.
  intros H Hi. destruct (wf_blocks d H i Hi) as (b & blk & Hm & Hh & Hl).
  exists b, blk. repeat split; try assumption.
  apply map_read_lookup; [pose proof (wf_s d H); lia | assumption].
Qed.

Lemma beyond_ok (c : Z) :
  15 <= c <= 16 -> (c + 1 - 16 =? 0) || (c + 1 - 16 =? 1) = true.
Proof.
  intros Hc. apply orb_true_iff. rewrite !Z.eqb_eq. lia.
Qed.

(** The membership test of the debug build on a well-formed deque, for an
    iterator whose block pointer is the one of its directory slot. *)
Lemma belong_spec (d : deque_t A) (it : deque_iterator_t) :
  wf d ->
  _ppc_map d !! Z.to_nat (_ppc_mappos it) = Some (_pc_first it) ->
  _deque_iterator_belong_to_deque d it =
  Ok ((_ppc_mappos (_t_start d) <=? _ppc_mappos it) &&
      (_ppc_mappos it <=? _ppc_mappos (_t_finish d)) &&
      (if _ppc_mappos it =? _ppc_mappos (_t_start d)
       then if _pc_corepos (_t_start d) =? 16
            then _pc_corepos it =? 16
            else (_pc_corepos (_t_start d) <=? _pc_corepos it) &&
                 (_pc_corepos it <=? 15)
       else if _ppc_mappos it =? _ppc_mappos (_t_finish d)
            then (0 <=? _pc_corepos it) &&
                 (_pc_corepos it <=? _pc_corepos (_t_finish d))
            else (0 <=? _pc_corepos it) && (_pc_corepos it <=? 15))).
Proof.
  intros H Fi. pose proof (wf_slots_ordered d H) as Hso.
  pose proof (wf_s d H) as Hs. pose proof (wf_f d H) as Hf.
  destruct (wf_slot_read d (_ppc_mappos (_t_start d)) H) as (bs & ? & Hms & _);
    [lia|].
  destruct (wf_slot_read d (_ppc_mappos (_t_finish d)) H) as (bf & ? & Hmf & _);
    [lia|].
  pose proof (wf_sfirst d H) as Hsf. pose proof (wf_ffirst d H) as Hff.
  rewrite Hms in Hsf. rewrite Hmf in Hff.
  injection Hsf as Hsf. injection Hff as Hff.
  unfold _deque_iterator_belong_to_deque.
  replace (_t_mapsize d >? 0) with true by (symmetry; apply Z.gtb_lt; lia).
  rewrite <- Hsf, <- Hff. rsimpl.
  destruct (Z.leb_spec (_ppc_mappos (_t_start d)) (_ppc_mappos it)) as [L1|L1];
    [|reflexivity].
  destruct (Z.leb_spec (_ppc_mappos it) (_ppc_mappos (_t_finish d))) as [L2|L2];
    [|reflexivity].
  rsimpl.
  destruct (wf_slot_read d (_ppc_mappos it) H) as (b & ? & Hm & Hr & _); [lia|].
  rewrite Hr. rsimpl. rewrite Hm in Fi. injection Fi as Fi. rewrite <- Fi. simpl.
  rewrite Nat.eqb_refl. rsimpl. unfold _DEQUE_ELEM_COUNT. simpl.
  destruct (_ppc_mappos it =? _ppc_mappos (_t_start d)).
  - destruct (_pc_corepos (_t_start d) =? 16); reflexivity.
  - destruct (_ppc_mappos it =? _ppc_mappos (_t_finish d)); reflexivity.
Qed.

Lemma belong_ok (d : deque_t A) (it : deque_iterator_t) :
  wf d -> iter_ok d it -> _deque_iterator_belong_to_deque d it = Ok true.
Proof.
  intros H [Sl Fi Of Ra No]. rewrite (belong_spec d it H Fi). f_equal.
  pose proof (wf_so d H) as Hso. pose proof (wf_fo d H) as Hfo.
  unfold idx, _DEQUE_ELEM_COUNT in *.
  replace (_ppc_mappos (_t_start d) <=? _ppc_mappos it) with true
    by (symmetry; apply Z.leb_le; lia).
  replace (_ppc_mappos it <=? _ppc_mappos (_t_finish d)) with true
    by (symmetry; apply Z.leb_le; lia).
  simpl.
  destruct (Z.eqb_spec (_ppc_mappos it) (_ppc_mappos (_t_start d))) as [E1|E1].
  - destruct (Z.eqb_spec (_pc_corepos (_t_start d)) 16) as [E2|E2].
    + apply Z.eqb_eq. lia.
    + apply andb_true_iff. split; apply Z.leb_le; lia.
  - destruct (Z.eqb_spec (_ppc_mappos it) (_ppc_mappos (_t_finish d))) as [E2|E2];
      apply andb_true_iff; split; apply Z.leb_le; lia.
Qed.

Lemma iterator_equal_idx (d : deque_t A) (a b : deque_iterator_t) :
  wf d -> iter_ok d a -> iter_ok d b ->
  _deque_iterator_equal d a b = Ok (idx a =? idx b).
Proof.
  intros H Ha Hb. unfold _deque_iterator_equal.
  rewrite (belong_ok d a H Ha), (belong_ok d b H Hb). rsimpl.
  rewrite (iter_eqb_idx d a b (iter_ok_pos d a Ha) (iter_ok_pos d b Hb)).
  reflexivity.
Qed.

Lemma next_step_ok (d : deque_t A) (it : deque_iterator_t) :
  wf d -> iter_ok d it -> idx it < idx (_t_finish d) ->
  exists it', next_step d it = Ok it' /\ iter_ok d it' /\
              idx it' = idx it + 1.
Proof.
  intros H [Sl Fi Of Ra No] Hlt. pose proof (wf_fo d H) as Hfo.
  pose proof (wf_so d H) as Hso.
  unfold next_step, idx, _DEQUE_ELEM_COUNT in *.
  destruct (Z.geb_spec (_pc_corepos it + 1) 16) as [G|G].
  - destruct (Z.ltb_spec (_ppc_mappos it) (_ppc_mappos (_t_finish d))) as [L|L];
      [|lia].
    destruct (wf_slot_read d (_ppc_mappos it + 1) H) as (b & blk & Hm & Hr & _);
      [lia|].
    rewrite beyond_ok by lia. rsimpl.
    rewrite Hr. simpl. eexists. split; [reflexivity|].
    split; [constructor|]; simpl; unfold idx, _DEQUE_ELEM_COUNT; simpl;
      try lia; assumption.
  - eexists. split; [reflexivity|].
    split; [constructor|]; simpl; unfold idx, _DEQUE_ELEM_COUNT; simpl;
      try lia; assumption.
Qed.

Lemma iterator_next_ok (d : deque_t A) (it : deque_iterator_t) :
  wf d -> iter_ok d it -> idx it < idx (_t_finish d) ->
  exists it', _deque_iterator_next d it = Ok it' /\ iter_ok d it' /\
              idx it' = idx it + 1.
Proof.
  intros H Hok Hlt.
  destruct (next_step_ok d it H Hok Hlt) as (it' & E & Hok' & I).
  exists it'. unfold _deque_iterator_next.
  rewrite (belong_ok d it H Hok). rsimpl. rewrite E. rsimpl.
  rewrite (belong_ok d it' H Hok'). rsimpl. auto.
Qed.

Lemma prev_step_ok (d : deque_t A) (it : deque_iterator_t) :
  wf d -> iter_ok d it -> idx (_t_start d) < idx it ->
  exists it', prev_step d it = Ok it' /\ iter_ok d it' /\
              idx it' = idx it - 1.
Proof.
  intros H [Sl Fi Of Ra No] Hlt. pose proof (wf_so d H) as Hso.
  unfold prev_step, idx, _DEQUE_ELEM_COUNT in *.
  destruct (Z.ltb_spec (_pc_corepos it - 1) 0) as [G|G].
  - destruct (Z.gtb_spec (_ppc_mappos it) (_ppc_mappos (_t_start d))) as [L|L];
      [|lia].
    destruct (wf_slot_read d (_ppc_mappos it - 1) H) as (b & blk & Hm & Hr & _);
      [lia|].
    rewrite Hr. simpl. eexists. split; [reflexivity|].
    split; [constructor|]; simpl; unfold idx, _DEQUE_ELEM_COUNT; simpl;
      try lia; assumption.
  - eexists. split; [reflexivity|].
    split; [constructor|]; simpl; unfold idx, _DEQUE_ELEM_COUNT; simpl;
      try lia; assumption.
Qed.

Lemma iterator_prev_ok (d : deque_t A) (it : deque_iterator_t) :
  wf d -> iter_ok d it -> idx (_t_start d) < idx it ->
  exists it', _deque_iterator_prev d it = Ok it' /\ iter_ok d it' /\
              idx it' = idx it - 1.
Proof.
  intros H Hok Hlt.
  destruct (prev_step_ok d it H Hok Hlt) as (it' & E & Hok' & I).
  exists it'. unfold _deque_iterator_prev.
  rewrite (belong_ok d it H Hok). rsimpl. rewrite E. rsimpl.
  rewrite (belong_ok d it' H Hok'). rsimpl. auto.
Qed.

Lemma iterator_next_inv (d : deque_t A) (it it' : deque_iterator_t) :
  _deque_iterator_next d it = Ok it' ->
  _deque_iterator_belong_to_deque d it = Ok true /\ next_step d it = Ok it' /\
  _deque_iterator_belong_to_deque d it' = Ok true.
Proof.
  unfold _deque_iterator_next, assert_r. intros E.
  destruct (_deque_iterator_belong_to_deque d it) as [[|]| | |]; try discriminate.
  rsimpl in E. destruct (next_step d it) as [t| | |]; try discriminate.
  rsimpl in E.
  destruct (_deque_iterator_belong_to_deque d t) as [[|]| | |] eqn:Et;
    try discriminate.
  rsimpl in E. injection E as <-. auto.
Qed.

Lemma iterator_prev_inv (d : deque_t A) (it it' : deque_iterator_t) :
  _deque_iterator_prev d it = Ok it' ->
  _deque_iterator_belong_to_deque d it = Ok true /\ prev_step d it = Ok it' /\
  _deque_iterator_belong_to_deque d it' = Ok true.
Proof.
  unfold _deque_iterator_prev, assert_r. intros E.
  destruct (_deque_iterator_belong_to_deque d it) as [[|]| | |]; try discriminate.
  rsimpl in E. destruct (prev_step d it) as [t| | |]; try discriminate.
  rsimpl in E.
  destruct (_deque_iterator_belong_to_deque d t) as [[|]| | |] eqn:Et;
    try discriminate.
  rsimpl in E. injection E as <-. auto.
Qed.

Lemma iterate_next_ok (d : deque_t A) (n : nat) (it : deque_iterator_t) :
  wf d -> iter_ok d it -> idx it + Z.of_nat n <= idx (_t_finish d) ->
  exists it', iterate_n (_deque_iterator_next d) n it = Ok it' /\ iter_ok d it' /\
              idx it' = idx it + Z.of_nat n.
Proof.
  intros H. revert it. induction n as [|n IH]; intros it Hok Hle.
  - exists it. simpl. split; [reflexivity | split; [assumption | lia]].
  - destruct (iterator_next_ok d it H Hok) as (it1 & E1 & Hok1 & I1); [lia|].
    destruct (IH it1 Hok1) as (it2 & E2 & Hok2 & I2); [lia|].
    exists it2. simpl. rewrite E1. simpl. split; [assumption | split; [assumption | lia]].
Qed.

Lemma iterate_prev_ok (d : deque_t A) (n : nat) (it : deque_iterator_t) :
  wf d -> iter_ok d it -> idx (_t_start d) <= idx it - Z.of_nat n ->
  exists it', iterate_n (_deque_iterator_prev d) n it = Ok it' /\ iter_ok d it' /\
              idx it' = idx it - Z.of_nat n.
Proof.
  intros H. revert it. induction n as [|n IH]; intros it Hok Hle.
  - exists it. simpl. split; [reflexivity | split; [assumption | lia]].
  - destruct (iterator_prev_ok d it H Hok) as (it1 & E1 & Hok1 & I1); [lia|].
    destruct (IH it1 Hok1) as (it2 & E2 & Hok2 & I2); [lia|].
    exists it2. simpl. rewrite E1. simpl. split; [assumption | split; [assumption | lia]].
Qed.

Lemma iterator_next_n_ok (d : deque_t A) (it : deque_iterator_t) (n : Z) :
  wf d -> iter_ok d it -> 0 <= n -> idx it + n <= idx (_t_finish d) ->
  exists it', _deque_iterator_next_n d it n = Ok it' /\ iter_ok d it' /\
              idx it' = idx it + n.
Proof.
  intros H Hok Hn Hle. unfold _deque_iterator_next_n.
  destruct (Z.geb_spec n 0); [|lia].
  destruct (iterate_next_ok d (Z.to_nat n) it H Hok) as (it' & E & Hok' & I);
    [lia|].
  exists it'. split; [assumption | split; [assumption | lia]].
Qed.

Lemma iterator_prev_n_ok (d : deque_t A) (it : deque_iterator_t) (n : Z) :
  wf d -> iter_ok d it -> 0 <= n -> idx (_t_start d) <= idx it - n ->
  exists it', _deque_iterator_prev_n d it n = Ok it' /\ iter_ok d it' /\
              idx it' = idx it - n.
Proof.
  intros H Hok Hn Hle. unfold _deque_iterator_prev_n, _deque_iterator_next_n.
  destruct (Z.geb_spec (- n) 0) as [G|G].
  - assert (n = 0) by lia. subst n. simpl. exists it.
    split; [reflexivity | split; [assumption | lia]].
  - replace (- - n) with n by lia.
    destruct (iterate_prev_ok d (Z.to_nat n) it H Hok) as (it' & E & Hok' & I);
      [lia|].
    exists it'. split; [assumption | split; [assumption | lia]].
Qed.

Lemma loop_fuel_enough (d : deque_t A) (it : deque_iterator_t) :
  wf d -> iter_ok d it ->
  idx (_t_finish d) - idx it < Z.of_nat (loop_fuel d).
Proof.
  intros H [Sl _ Of Ra _]. pose proof (wf_s d H). pose proof (wf_f d H).
  pose proof (wf_fo d H). unfold loop_fuel, idx, _DEQUE_ELEM_COUNT in *. lia.
Qed.

Lemma less_loop_ok (d : deque_t A) (b : deque_iterator_t) :
  wf d -> iter_ok d b ->
  forall (fuel : nat) (t_i : deque_iterator_t),
    iter_ok d t_i -> idx (_t_finish d) - idx t_i < Z.of_nat fuel ->
    less_loop fuel d t_i b = Ok (idx t_i <=? idx b).
Proof.
  intros H Hb. pose proof (iter_ok_finish d H) as Hf.
  induction fuel as [|fuel IH]; intros t_i Hi Hfuel.
  - destruct Hi as [_ _ _ Ra _]. lia.
  - simpl. rewrite (iterator_equal_idx d t_i _ H Hi Hf).
    rewrite (iterator_equal_idx d b _ H Hb Hf).
    rewrite (iterator_equal_idx d t_i b H Hi Hb). rsimpl.
    pose proof (io_range d b Hb). pose proof (io_range d t_i Hi).
    destruct (Z.eqb_spec (idx t_i) (idx (_t_finish d))) as [E|E].
    + f_equal. destruct (Z.eqb_spec (idx b) (idx (_t_finish d)));
        symmetry; [apply Z.leb_le | apply Z.leb_gt]; lia.
    + destruct (Z.eqb_spec (idx t_i) (idx b)) as [E2|E2].
      * f_equal. symmetry. apply Z.leb_le. lia.
      * destruct (iterator_next_ok d t_i H Hi) as (t & En & Hok & I); [lia|].
        rewrite En. simpl. rewrite (IH t Hok) by lia. f_equal.
        destruct (Z.leb_spec (idx t) (idx b)); symmetry;
          [apply Z.leb_le | apply Z.leb_gt]; lia.
Qed.

Lemma iterator_less_ok (d : deque_t A) (a b : deque_iterator_t) :
  wf d -> iter_ok d a -> iter_ok d b ->
  _deque_iterator_less d a b = Ok (idx a <? idx b).
Proof.
  intros H Ha Hb. unfold _deque_iterator_less.
  rewrite (belong_ok d a H Ha), (belong_ok d b H Hb). rsimpl.
  rewrite (iterator_equal_idx d a b H Ha Hb). rsimpl.
  destruct (Z.eqb_spec (idx a) (idx b)) as [E|E].
  - f_equal. symmetry. apply Z.ltb_ge. lia.
  - rewrite (less_loop_ok d b H Hb _ a Ha (loop_fuel_enough d a H Ha)).
    f_equal. destruct (Z.leb_spec (idx a) (idx b)); symmetry;
      [apply Z.ltb_lt | apply Z.ltb_ge]; lia.
Qed.

Lemma wrap_size_t_small (z : Z) : 0 <= z < 2 ^ 31 -> wrap_size_t z = z.
Proof.
  intros Hz. unfold wrap_size_t, size_t_modulus. apply Z.mod_small. lia.
Qed.

Lemma to_int_small (z : Z) : 0 <= z < 2 ^ 31 -> to_int z = z.
Proof.
  intros Hz. unfold to_int. rewrite Z.mod_small; lia.
Qed.

(** The sum that [_deque_iterator_minus] forms between a lower iterator [a]
    and a higher iterator [b]. *)
Lemma minus_sum (a b : deque_iterator_t) :
  0 <= idx b - idx a < 2 ^ 31 ->
  to_int (wrap_size_t
            (wrap_size_t
               (wrap_size_t (_DEQUE_ELEM_COUNT - _pc_corepos a) +
                wrap_size_t (wrap_size_t (_ppc_mappos b - _ppc_mappos a - 1)
                             * _DEQUE_ELEM_COUNT)) +
             wrap_size_t (_pc_corepos b - 0)))
  = idx b - idx a.
Proof.
  intros Hr.
  assert (E : wrap_size_t
            (wrap_size_t
               (wrap_size_t (_DEQUE_ELEM_COUNT - _pc_corepos a) +
                wrap_size_t (wrap_size_t (_ppc_mappos b - _ppc_mappos a - 1)
                             * _DEQUE_ELEM_COUNT)) +
             wrap_size_t (_pc_corepos b - 0)) = wrap_size_t (idx b - idx a)).
  { unfold wrap_size_t.
    assert (M : size_t_modulus <> 0) by (unfold size_t_modulus; lia).
    rewrite Z.mul_mod_idemp_l by exact M.
    rewrite <- (Z.add_mod (_DEQUE_ELEM_COUNT - _pc_corepos a)) by exact M.
    rewrite <- Z.add_mod by exact M.
    f_equal. unfold idx, _DEQUE_ELEM_COUNT. lia. }
  rewrite E, wrap_size_t_small by lia. apply to_int_small. lia.
Qed.

Lemma iterator_minus_ok (d : deque_t A) (a b : deque_iterator_t) :
  wf d -> iter_ok d a -> iter_ok d b ->
  _deque_iterator_minus d a b = Ok (idx a - idx b).
Proof.
  intros H Ha Hb. unfold _deque_iterator_minus, _deque_iterator_before.
  rewrite (iterator_less_ok d a b H Ha Hb). simpl.
  pose proof (io_range d a Ha). pose proof (io_range d b Hb).
  pose proof (loop_fuel_enough d _ H (iter_ok_start d H)) as Hfu.
  pose proof (wf_bound d H) as Hbd.
  assert (Hsz : idx (_t_finish d) - idx (_t_start d) < 2 ^ 31).
  { unfold loop_fuel in Hfu. lia. }
  destruct (Z.ltb_spec (idx a) (idx b)) as [L|L].
  - rewrite minus_sum by lia. f_equal. lia.
  - rewrite (iterator_equal_idx d a b H Ha Hb). rsimpl.
    destruct (Z.eqb_spec (idx a) (idx b)) as [E|E].
    + f_equal. lia.
    + rewrite minus_sum by lia. reflexivity.
Qed.

Lemma deque_size_ok (d : deque_t A) :
  wf d -> deque_size d = Ok (idx (_t_finish d) - idx (_t_start d)).
Proof.
  intros H. unfold deque_size, iterator_distance.
  rewrite (iterator_minus_ok d _ _ H (iter_ok_finish d H) (iter_ok_start d H)).
  simpl. f_equal. apply wrap_size_t_small.
  pose proof (wf_le d H).
  pose proof (loop_fuel_enough d _ H (iter_ok_start d H)) as Hfu.
  pose proof (wf_bound d H) as Hbd. unfold loop_fuel in Hfu. lia.
Qed.

(** *** The element sequence of a deque *)

Lemma elems_from_end (d : deque_t A) (k : Z) :
  idx (_t_finish d) <= k -> elems_from d k = [].
Proof.
  intros Hk. unfold elems_from.
  replace (Z.to_nat (idx (_t_finish d) - k)) with 0%nat by lia. reflexivity.
Qed.

Lemma elems_from_cons (d : deque_t A) (k : Z) :
  k < idx (_t_finish d) ->
  elems_from d k = value_or (elem_val d k) :: elems_from d (k + 1).
Proof.
  intros Hk. unfold elems_from.
  replace (Z.to_nat (idx (_t_finish d) - k))
    with (S (Z.to_nat (idx (_t_finish d) - (k + 1)))) by lia.
  rewrite <- cons_seq. simpl. rewrite Z.add_0_r. f_equal.
  rewrite <- seq_shift, map_map. apply map_ext. intros i.
  replace (k + Z.of_nat (S i)) with (k + 1 + Z.of_nat i) by lia. reflexivity.
Qed.

Lemma length_elems_from (d : deque_t A) (k : Z) :
  length (elems_from d k) = Z.to_nat (idx (_t_finish d) - k).
Proof. unfold elems_from. rewrite length_map, length_seq. reflexivity. Qed.

Lemma length_to_list (d : deque_t A) :
  length (to_list d) = Z.to_nat (idx (_t_finish d) - idx (_t_start d)).
Proof. apply length_elems_from. Qed.

Lemma div_mod_16 (m o : Z) :
  0 <= o < 16 -> (16 * m + o) / 16 = m /\ (16 * m + o) mod 16 = o.
Proof.
  intros Ho. split.
  - symmetry. apply Z.div_unique with o; lia.
  - symmetry. apply Z.mod_unique with m; lia.
Qed.

Lemma elem_ptr_ok (d : deque_t A) (k : Z) :
  wf d -> idx (_t_start d) <= k < idx (_t_finish d) ->
  exists b blk a,
    _ppc_map d !! Z.to_nat (k / _DEQUE_ELEM_COUNT) = Some (Some b) /\
    elem_ptr d k = Ok (b, k mod _DEQUE_ELEM_COUNT) /\
    _t_allocater d !! b = Some (Some blk) /\
    length blk = Z.to_nat _DEQUE_ELEM_COUNT /\
    blk !! Z.to_nat (k mod _DEQUE_ELEM_COUNT) = Some a /\
    cell_read d (b, k mod _DEQUE_ELEM_COUNT) = Ok a.
Proof.
  intros H Hk. pose proof (wf_so d H). pose proof (wf_fo d H).
  assert (Hs : _ppc_mappos (_t_start d) <= k / _DEQUE_ELEM_COUNT
               <= _ppc_mappos (_t_finish d)).
  { unfold idx, _DEQUE_ELEM_COUNT in *.
    pose proof (Z.div_mod k 16 ltac:(lia)).
    pose proof (Z.mod_pos_bound k 16 ltac:(lia)). lia. }
  destruct (wf_slot_read d _ H Hs) as (b & blk & Hm & Hr & Hh & Hl).
  assert (Hmod : 0 <= k mod _DEQUE_ELEM_COUNT < _DEQUE_ELEM_COUNT)
    by (apply Z.mod_pos_bound; reflexivity).
  destruct (lookup_lt_is_Some_2 blk (Z.to_nat (k mod _DEQUE_ELEM_COUNT)))
    as [a Ha]; [lia|].
  exists b, blk, a. repeat split; try assumption; try lia.
  - unfold elem_ptr. rewrite Hr. reflexivity.
  - unfold cell_read, block_of. simpl. rewrite Hh. simpl.
    replace (0 <=? k mod _DEQUE_ELEM_COUNT) with true
      by (symmetry; apply Z.leb_le; lia).
    replace (k mod _DEQUE_ELEM_COUNT <? _DEQUE_ELEM_COUNT) with true
      by (symmetry; apply Z.ltb_lt; lia).
    simpl. rewrite Ha. reflexivity.
Qed.

Lemma elem_val_ok (d : deque_t A) (k : Z) :
  wf d -> idx (_t_start d) <= k < idx (_t_finish d) ->
  exists a, elem_val d k = Ok a.
Proof.
  intros H Hk. destruct (elem_ptr_ok d k H Hk) as (b & blk & a & _ & Hp & _ & _ & _ & Hc).
  exists a. unfold elem_val. rewrite Hp. simpl. exact Hc.
Qed.

Lemma get_pointer_ok (d : deque_t A) (it : deque_iterator_t) :
  wf d -> iter_ok d it -> idx it < idx (_t_finish d) ->
  _deque_iterator_get_pointer_auxiliary d it = elem_ptr d (idx it).
Proof.
  intros H Hok Hlt. pose proof (wf_fo d H). pose proof (wf_s d H).
  unfold _deque_iterator_get_pointer_auxiliary, elem_ptr, deque_end.
  rewrite (belong_ok d it H Hok).
  rewrite (iterator_equal_idx d it _ H Hok (iter_ok_finish d H)).
  replace (idx it =? idx (_t_finish d)) with false by (symmetry; apply Z.eqb_neq; lia).
  rsimpl. destruct Hok as [Sl Fi Of Ra No].
  unfold idx, _DEQUE_ELEM_COUNT in *.
  destruct (Z.eqb_spec (_pc_corepos it) 16) as [E|E]; simpl.
  - rewrite E.
    replace (16 * _ppc_mappos it + 16) with (16 * (_ppc_mappos it + 1) + 0) by lia.
    rewrite (proj1 (div_mod_16 _ 0 ltac:(lia))), (proj2 (div_mod_16 _ 0 ltac:(lia))).
    destruct (wf_slot_read d (_ppc_mappos it + 1) H) as (b & blk & Hm & Hr & _); [lia|].
    rewrite Hr. reflexivity.
  - destruct (div_mod_16 (_ppc_mappos it) (_pc_corepos it) ltac:(lia)) as [Ed Em].
    rewrite Ed, Em.
    assert (Hm0 : 0 <= _ppc_mappos it) by lia.
    rewrite (map_read_lookup _ _ _ Hm0 Fi). simpl.
    destruct (wf_blocks d H (_ppc_mappos it) Sl) as (b & blk & Hm & _).
    rewrite Hm in Fi. injection Fi as Fi. rewrite <- Fi. reflexivity.
Qed.

Lemma read_at (d : deque_t A) (it : deque_iterator_t) :
  wf d -> iter_ok d it -> idx it < idx (_t_finish d) ->
  exists p a, _deque_iterator_get_pointer_auxiliary d it = Ok p /\
              elem_ptr d (idx it) = Ok p /\
              cell_read d p = Ok a /\ elem_val d (idx it) = Ok a.
Proof.
  intros H Hok Hlt. pose proof (io_range d it Hok).
  destruct (elem_ptr_ok d (idx it) H) as (b & blk & a & _ & Hp & _ & _ & _ & Hc);
    [lia|].
  exists (b, idx it mod _DEQUE_ELEM_COUNT), a.
  rewrite (get_pointer_ok d it H Hok Hlt). unfold elem_val. rewrite Hp. simpl.
  repeat split; assumption || reflexivity.
Qed.

(** *** Comparison of element sequences *)

Lemma lex_less_lt (la lb : list A) : lex_less la lb = true <-> lex_lt la lb.
Proof.
  revert lb. induction la as [|a la IH]; intros [|b lb]; simpl.
  - split; [discriminate | inversion 1].
  - split; [intros _; constructor | reflexivity].
  - split; [discriminate | inversion 1].
  - destruct (t_typeless a b) eqn:Eab.
    + split; [intros _; apply lex_lt_head; assumption | reflexivity].
    + destruct (t_typeless b a) eqn:Eba.
      * split; [discriminate|]. inversion 1; congruence.
      * rewrite IH. split.
        -- intros Hl. apply lex_lt_tail; assumption.
        -- inversion 1; [congruence | assumption].
Qed.

Lemma pairwise_equiv_spec (la lb : list A) :
  length la = length lb ->
  pairwise_equiv la lb = true <->
  (forall (i : nat) (a b : A), la !! i = Some a -> lb !! i = Some b ->
                               t_typeless a b = false /\ t_typeless b a = false).
Proof.
  revert lb. induction la as [|a la IH]; intros [|b lb] Hlen; simpl in *;
    try discriminate.
  - split; [intros _ i a b Hi; destruct i; discriminate | reflexivity].
  - injection Hlen as Hlen. split.
    + intros Hp i x y Hx Hy.
      destruct (t_typeless a b) eqn:Eab; [discriminate|].
      destruct (t_typeless b a) eqn:Eba; [discriminate|]. simpl in Hp.
      destruct i as [|i]; simpl in *.
      * injection Hx as <-. injection Hy as <-. split; assumption.
      * apply (proj1 (IH lb Hlen) Hp i); assumption.
    + intros Hall. destruct (Hall 0%nat a b eq_refl eq_refl) as [-> ->]. simpl.
      apply (IH lb Hlen). intros i x y Hx Hy. apply (Hall (S i)); assumption.
Qed.

Lemma pairwise_equiv_nil_r (la : list A) : pairwise_equiv la [] = true.
Proof. destruct la; reflexivity. Qed.

Lemma equal_loop_ok (d1 d2 : deque_t A) :
  wf d1 -> wf d2 ->
  forall (fuel : nat) (t1 t2 : deque_iterator_t),
    iter_ok d1 t1 -> iter_ok d2 t2 ->
    idx (_t_finish d1) - idx t1 = idx (_t_finish d2) - idx t2 ->
    idx (_t_finish d1) - idx t1 < Z.of_nat fuel ->
    equal_loop fuel d1 d2 t1 t2
    = Ok (pairwise_equiv (elems_from d1 (idx t1)) (elems_from d2 (idx t2))).
Proof.
  intros H1 H2. pose proof (iter_ok_finish d1 H1) as Hf1.
  pose proof (iter_ok_finish d2 H2) as Hf2.
  induction fuel as [|fuel IH]; intros t1 t2 Ht1 Ht2 Hrest Hfuel.
  - pose proof (io_range d1 t1 Ht1). lia.
  - simpl. unfold deque_end.
    pose proof (io_range d1 t1 Ht1) as R1. pose proof (io_range d2 t2 Ht2) as R2.
    rewrite (iterator_equal_idx d1 t1 _ H1 Ht1 Hf1).
    rewrite (iterator_equal_idx d2 t2 _ H2 Ht2 Hf2).
    destruct (Z.eqb_spec (idx t1) (idx (_t_finish d1))) as [E1|E1]; simpl.
    { replace (idx t2 =? idx (_t_finish d2)) with true
        by (symmetry; apply Z.eqb_eq; lia).
      simpl. rewrite (elems_from_end d1) by lia. reflexivity. }
    destruct (Z.eqb_spec (idx t2) (idx (_t_finish d2))) as [E2|E2]; [lia|]. simpl.
    destruct (read_at d1 t1 H1 Ht1) as (p1 & a1 & G1 & _ & C1 & V1); [lia|].
    destruct (read_at d2 t2 H2 Ht2) as (p2 & a2 & G2 & _ & C2 & V2); [lia|].
    rewrite G1, G2. simpl. rewrite C1, C2. simpl.
    rewrite (elems_from_cons d1), (elems_from_cons d2) by lia.
    rewrite V1, V2. simpl.
    destruct (t_typeless a1 a2 || t_typeless a2 a1); [reflexivity|].
    destruct (iterator_next_ok d1 t1 H1 Ht1) as (n1 & N1 & Hn1 & I1); [lia|].
    destruct (iterator_next_ok d2 t2 H2 Ht2) as (n2 & N2 & Hn2 & I2); [lia|].
    rewrite N1, N2. simpl. rewrite (IH n1 n2 Hn1 Hn2) by lia.
    rewrite I1, I2. reflexivity.
Qed.

Lemma less_elem_loop_ok (d1 d2 : deque_t A) :
  wf d1 -> wf d2 ->
  forall (fuel : nat) (t1 t2 : deque_iterator_t),
    iter_ok d1 t1 -> iter_ok d2 t2 ->
    idx (_t_finish d1) - idx t1 < Z.of_nat fuel ->
    exists r, less_elem_loop fuel d1 d2 t1 t2 = Ok r /\
              match r with
              | Some b => b
              | None => (idx (_t_finish d1) - idx t1) <? (idx (_t_finish d2) - idx t2)
              end = lex_less (elems_from d1 (idx t1)) (elems_from d2 (idx t2)).
Proof.
  intros H1 H2. pose proof (iter_ok_finish d1 H1) as Hf1.
  pose proof (iter_ok_finish d2 H2) as Hf2.
  induction fuel as [|fuel IH]; intros t1 t2 Ht1 Ht2 Hfuel.
  - pose proof (io_range d1 t1 Ht1). lia.
  - simpl. unfold deque_end.
    pose proof (io_range d1 t1 Ht1) as R1. pose proof (io_range d2 t2 Ht2) as R2.
    rewrite (iterator_equal_idx d1 t1 _ H1 Ht1 Hf1).
    rewrite (iterator_equal_idx d2 t2 _ H2 Ht2 Hf2).
    destruct (Z.eqb_spec (idx t1) (idx (_t_finish d1))) as [E1|E1]; simpl.
    { exists None. split; [reflexivity|].
      rewrite (elems_from_end d1) by lia.
      destruct (Z.eqb_spec (idx t2) (idx (_t_finish d2))) as [E2|E2].
      - rewrite (elems_from_end d2) by lia. simpl. apply Z.ltb_ge. lia.
      - rewrite (elems_from_cons d2) by lia. simpl. apply Z.ltb_lt. lia. }
    destruct (Z.eqb_spec (idx t2) (idx (_t_finish d2))) as [E2|E2]; simpl.
    { exists None. split; [reflexivity|].
      rewrite (elems_from_end d2) by lia. rewrite (elems_from_cons d1) by lia.
      simpl. apply Z.ltb_ge. lia. }
    destruct (read_at d1 t1 H1 Ht1) as (p1 & a1 & G1 & _ & C1 & V1); [lia|].
    destruct (read_at d2 t2 H2 Ht2) as (p2 & a2 & G2 & _ & C2 & V2); [lia|].
    rewrite G1, G2. simpl. rewrite C1, C2. simpl.
    rewrite (elems_from_cons d1), (elems_from_cons d2) by lia.
    rewrite V1, V2. simpl.
    destruct (t_typeless a1 a2); [exists (Some true); split; reflexivity|].
    destruct (t_typeless a2 a1); [exists (Some false); split; reflexivity|].
    destruct (iterator_next_ok d1 t1 H1 Ht1) as (n1 & N1 & Hn1 & I1); [lia|].
    destruct (iterator_next_ok d2 t2 H2 Ht2) as (n2 & N2 & Hn2 & I2); [lia|].
    rewrite N1, N2. simpl.
    destruct (IH n1 n2 Hn1 Hn2) as (r & Er & Hr); [lia|].
    exists r. split; [exact Er|]. rewrite I1, I2 in Hr. rewrite <- Hr.
    destruct r; [reflexivity|].
    destruct (Z.ltb_spec (idx (_t_finish d1) - idx t1) (idx (_t_finish d2) - idx t2));
      symmetry; [apply Z.ltb_lt | apply Z.ltb_ge]; lia.
Qed.

Lemma deque_at_value_ok (d : deque_t A) (i : Z) :
  wf d -> 0 <= i < idx (_t_finish d) - idx (_t_start d) ->
  deque_at_value d i = elem_val d (idx (_t_start d) + i) /\
  exists a, deque_at_value d i = Ok a /\ to_list d !! Z.to_nat i = Some a.
Proof.
  intros H Hi. pose proof (wf_s d H). pose proof (wf_f d H).
  unfold deque_at_value, deque_at.
  replace (_t_mapsize d >? 0) with true
    by (symmetry; apply Z.gtb_lt; pose proof (wf_slots_ordered d H); lia).
  simpl. rewrite (deque_size_ok d H). simpl.
  replace (i <? idx (_t_finish d) - idx (_t_start d)) with true
    by (symmetry; apply Z.ltb_lt; lia).
  simpl. unfold deque_begin.
  destruct (iterator_next_n_ok d (_t_start d) i H (iter_ok_start d H))
    as (it & En & Hok & I); [lia | lia |].
  rewrite En. simpl. rewrite (belong_ok d it H Hok). rsimpl.
  destruct (read_at d it H Hok) as (p & a & G & _ & C & V); [lia|].
  rewrite G. simpl. rewrite C. rewrite <- I, V. split; [reflexivity|].
  exists a. split; [reflexivity|].
  unfold to_list, elems_from. rewrite list_lookup_fmap.
  rewrite lookup_seq_lt by lia. simpl. rewrite Z2Nat.id by lia.
  rewrite <- I, V. reflexivity.
Qed.

(** *** A checker for well-formedness *)

Lemma option_nat_eqb_eq (x y : option nat) : option_nat_eqb x y = true <-> x = y.
Proof.
  destruct x as [a|], y as [b|]; simpl; try (split; congruence).
  rewrite Nat.eqb_eq. split; congruence.
Qed.

Lemma distinct_NoDup (l : list (option nat)) : distinct l = true -> NoDup l.
Proof.
  induction l as [|x l IH]; simpl; intros Hd; [constructor|].
  apply andb_true_iff in Hd as [Hx Hd]. constructor; [|auto].
  intros Hin. apply negb_true_iff in Hx.
  assert (existsb (option_nat_eqb x) l = true); [|congruence].
  apply existsb_exists. exists x. split.
  - apply list_elem_of_In. exact Hin.
  - apply option_nat_eqb_eq. reflexivity.
Qed.

Lemma valid_run_lookup (d : deque_t A) (i : Z) :
  _ppc_mappos (_t_start d) <= i <= _ppc_mappos (_t_finish d) ->
  valid_run d !! Z.to_nat (i - _ppc_mappos (_t_start d)) = Some i.
Proof.
  intros Hi. unfold valid_run. rewrite list_lookup_fmap.
  rewrite lookup_seq_lt by lia. simpl. f_equal. lia.
Qed.

Lemma first_cached_lookup (d : deque_t A) (it : deque_iterator_t) :
  first_cached d it = true ->
  _ppc_map d !! Z.to_nat (_ppc_mappos it) = Some (_pc_first it).
Proof.
  unfold first_cached. destruct (_ppc_map d !! Z.to_nat (_ppc_mappos it)) as [s|];
    [|discriminate].
  intros E. apply option_nat_eqb_eq in E. congruence.
Qed.

Lemma deque_valid_wf (d : deque_t A) : deque_valid d = true -> wf d.
Proof.
  unfold deque_valid. intros Hv.
  repeat (apply andb_true_iff in Hv; destruct Hv as [Hv ?]).
  repeat match goal with
         | H : (_ =? _) = true |- _ => apply Z.eqb_eq in H
         | H : (_ <=? _) = true |- _ => apply Z.leb_le in H
         | H : (_ <? _) = true |- _ => apply Z.ltb_lt in H
         end.
  constructor; try assumption; try lia; try (apply first_cached_lookup; assumption).
  - intros i Hi.
    match goal with H : forallb _ _ = true |- _ => rename H into Hall end.
    rewrite forallb_forall in Hall.
    assert (Hin : In i (valid_run d)).
    { apply list_elem_of_In. apply list_elem_of_lookup.
      eexists. apply valid_run_lookup. exact Hi. }
    specialize (Hall i Hin). unfold slot_valid, slot_at in Hall.
    destruct (_ppc_map d !! Z.to_nat i) as [[b|]|] eqn:Em; try discriminate.
    destruct (_t_allocater d !! b) as [[blk|]|] eqn:Eh; try discriminate.
    exists b, blk. split; [reflexivity|]. split; [exact Eh|].
    apply Nat.eqb_eq. exact Hall.
  - intros i j b Hi Hj Mi Mj.
    match goal with H : distinct _ = true |- _ => apply distinct_NoDup in H;
                                                   rename H into Hnd end.
    assert (Li : map (slot_at d) (valid_run d)
                 !! Z.to_nat (i - _ppc_mappos (_t_start d)) = Some (Some b)).
    { rewrite list_lookup_fmap, (valid_run_lookup d i Hi). simpl.
      unfold slot_at. rewrite Mi. reflexivity. }
    assert (Lj : map (slot_at d) (valid_run d)
                 !! Z.to_nat (j - _ppc_mappos (_t_start d)) = Some (Some b)).
    { rewrite list_lookup_fmap, (valid_run_lookup d j Hj). simpl.
      unfold slot_at. rewrite Mj. reflexivity. }
    pose proof (proj1 (NoDup_alt _) Hnd _ _ _ Li Lj). lia.
Qed.

Lemma to_list_represents (d : deque_t A) : wf d -> represents d (to_list d).
Proof.
  intros H. pose proof (wf_le d H). split.
  - rewrite (deque_size_ok d H), length_to_list. f_equal. lia.
  - intros i a Hi. pose proof (lookup_lt_Some _ _ _ Hi) as Hlt.
    rewrite length_to_list in Hlt.
    destruct (deque_at_value_ok d (Z.of_nat i) H) as (_ & a' & Hv & Hl); [lia|].
    rewrite Nat2Z.id in Hl. congruence.
Qed.

(** C3: for two well-formed deques of the same element type, [deque_equal] is
    true exactly when the sizes agree and no position holds a pair of
    elements of which one is less than the other, and [deque_less] is the
    lexicographic order of the two element sequences under the element
    order, a proper prefix being less. *)
Theorem deque_equal_less_spec (d1 d2 : deque_t A) :
  deque_valid d1 = true -> deque_valid d2 = true ->
  _deque_same_type d1 d2 = true ->
  exists (l1 l2 : list A) (eb lb : bool),
    represents d1 l1 /\ represents d2 l2 /\
    deque_equal d1 d2 = Ok eb /\
    deque_less d1 d2 = Ok lb /\
    (eb = true <->
     length l1 = length l2 /\
     forall (i : nat) (a b : A), l1 !! i = Some a -> l2 !! i = Some b ->
                                 t_typeless a b = false /\ t_typeless b a = false) /\
    (lb = true <-> lex_lt l1 l2).
Proof.
  intros V1 V2 Hty. apply deque_valid_wf in V1, V2.
  pose proof (wf_le d1 V1) as L1. pose proof (wf_le d2 V2) as L2.
  assert (M1 : (_t_mapsize d1 >? 0) = true).
  { apply Z.gtb_lt. pose proof (wf_s d1 V1). pose proof (wf_f d1 V1).
    pose proof (wf_slots_ordered d1 V1). lia. }
  assert (M2 : (_t_mapsize d2 >? 0) = true).
  { apply Z.gtb_lt. pose proof (wf_s d2 V2). pose proof (wf_f d2 V2).
    pose proof (wf_slots_ordered d2 V2). lia. }
  destruct (less_elem_loop_ok d1 d2 V1 V2 (loop_fuel d1) _ _
              (iter_ok_start d1 V1) (iter_ok_start d2 V2)
              (loop_fuel_enough d1 _ V1 (iter_ok_start d1 V1)))
    as (r & Er & Hr).
  exists (to_list d1), (to_list d2).
  exists (if negb (idx (_t_finish d1) - idx (_t_start d1)
                   =? idx (_t_finish d2) - idx (_t_start d2))
          then false else pairwise_equiv (to_list d1) (to_list d2)).
  exists (lex_less (to_list d1) (to_list d2)).
  split; [apply to_list_represents; assumption|].
  split; [apply to_list_represents; assumption|].
  split; [|split; [|split]].
  - unfold deque_equal. rewrite M1, M2, Hty. rsimpl.
    rewrite (deque_size_ok d1 V1), (deque_size_ok d2 V2). rsimpl.
    destruct (Z.eqb_spec (idx (_t_finish d1) - idx (_t_start d1))
                         (idx (_t_finish d2) - idx (_t_start d2))) as [E|E];
      [|reflexivity].
    cbn [negb]. unfold deque_begin.
    apply (equal_loop_ok d1 d2 V1 V2 _ _ _ (iter_ok_start d1 V1) (iter_ok_start d2 V2) E).
    apply loop_fuel_enough; [assumption | apply iter_ok_start; assumption].
  - unfold deque_less. rewrite Hty. rsimpl. unfold deque_begin. rewrite Er. rsimpl.
    unfold to_list. rewrite <- Hr. destruct r as [b|]; [reflexivity|].
    rewrite (deque_size_ok d1 V1), (deque_size_ok d2 V2). reflexivity.
  - rewrite !length_to_list.
    destruct (Z.eqb_spec (idx (_t_finish d1) - idx (_t_start d1))
                         (idx (_t_finish d2) - idx (_t_start d2))) as [E|E]; simpl.
    + rewrite pairwise_equiv_spec by (rewrite !length_to_list; lia).
      split; [intros Hp; split; [lia | exact Hp] | intros [_ Hp]; exact Hp].
    + split; [discriminate | intros [Hl _]; lia].
  - apply lex_less_lt.
Qed.

(** ** Effects of the element operations on a well-formed deque *)

Lemma shape_eq_refl (d : deque_t A) : shape_eq d d.
Proof. constructor; reflexivity. Qed.

Lemma shape_eq_trans (d1 d2 d3 : deque_t A) :
  shape_eq d1 d2 -> shape_eq d2 d3 -> shape_eq d1 d3.
Proof. intros [] []. constructor; congruence. Qed.

Lemma shape_eq_log (d : deque_t A) (e : event) : shape_eq d (log d e).
Proof. constructor; reflexivity. Qed.

Lemma iter_ok_shape (d d' : deque_t A) (it : deque_iterator_t) :
  shape_eq d d' -> iter_ok d it -> iter_ok d' it.
Proof.
  intros [_ Em _ Es Ef] [Sl Fi Of Ra No].
  constructor; rewrite ?Em, ?Es, ?Ef; assumption.
Qed.

Lemma wf_log (d : deque_t A) (e : event) : wf d -> wf (log d e).
Proof. intros []. constructor; assumption. Qed.

Lemma elem_ptr_shape (d d' : deque_t A) (k : Z) :
  shape_eq d d' -> elem_ptr d' k = elem_ptr d k.
Proof. intros [_ Em _ _ _]. unfold elem_ptr. rewrite Em. reflexivity. Qed.

Lemma belong_shape (d d' : deque_t A) (it : deque_iterator_t) :
  shape_eq d d' ->
  _deque_iterator_belong_to_deque d' it = _deque_iterator_belong_to_deque d it.
Proof.
  intros [_ Em Ez Es Ef]. unfold _deque_iterator_belong_to_deque.
  rewrite Em, Ez, Es, Ef. reflexivity.
Qed.

Lemma iterator_equal_shape (d d' : deque_t A) (a b : deque_iterator_t) :
  shape_eq d d' -> _deque_iterator_equal d' a b = _deque_iterator_equal d a b.
Proof.
  intros Sh. unfold _deque_iterator_equal. rewrite !(belong_shape d d' _ Sh).
  reflexivity.
Qed.

Lemma iterator_next_shape (d d' : deque_t A) (it : deque_iterator_t) :
  shape_eq d d' -> _deque_iterator_next d' it = _deque_iterator_next d it.
Proof.
  intros Sh. unfold _deque_iterator_next. rewrite (belong_shape d d' _ Sh).
  assert (E : next_step d' = next_step d).
  { destruct Sh as [_ Em _ _ Ef]. unfold next_step. rewrite Em, Ef. reflexivity. }
  rewrite E. destruct (assert_r (_deque_iterator_belong_to_deque d it)); try reflexivity.
  rsimpl. destruct (next_step d it) as [t| | |]; try reflexivity.
  rsimpl. rewrite (belong_shape d d' _ Sh). reflexivity.
Qed.

Lemma loop_fuel_shape (d d' : deque_t A) : shape_eq d d' -> loop_fuel d' = loop_fuel d.
Proof. intros [_ _ Ez _ _]. unfold loop_fuel. rewrite Ez. reflexivity. Qed.

(** A store into a cell of an allocated block. *)
Lemma cell_write_ok (d : deque_t A) (b : nat) (o : Z) (blk : list A) (a : A) :
  _t_allocater d !! b = Some (Some blk) ->
  length blk = Z.to_nat _DEQUE_ELEM_COUNT ->
  0 <= o < _DEQUE_ELEM_COUNT ->
  cell_write d (b, o) a
  = Ok (set_heap d (<[b := Some (<[Z.to_nat o := a]> blk)]> (_t_allocater d))).
Proof.
  intros Hh Hl Ho. unfold cell_write, block_of. simpl. rewrite Hh. rsimpl.
  replace (0 <=? o) with true by (symmetry; apply Z.leb_le; lia).
  replace (o <? _DEQUE_ELEM_COUNT) with true by (symmetry; apply Z.ltb_lt; lia).
  replace (o <? Z.of_nat (length blk)) with true
    by (symmetry; apply Z.ltb_lt; unfold _DEQUE_ELEM_COUNT in *; lia).
  reflexivity.
Qed.

Lemma wf_set_cell (d : deque_t A) (b : nat) (o : nat) (blk : list A) (a : A) :
  wf d -> _t_allocater d !! b = Some (Some blk) ->
  wf (set_heap d (<[b := Some (<[o := a]> blk)]> (_t_allocater d))).
Proof.
  intros H Hh. destruct H as [Hlen Hbd Hs Hf Hso Hfo Hle Hsf Hff Hbl Hinj].
  constructor; try assumption. intros i Hi.
  destruct (Hbl i Hi) as (b' & blk' & Hm & Hh' & Hl').
  destruct (Nat.eq_dec b' b) as [->|Hne].
  - exists b, (<[o := a]> blk). split; [exact Hm|]. split.
    + simpl. apply list_lookup_insert_eq. apply lookup_lt_Some in Hh. exact Hh.
    + rewrite length_insert. congruence.
  - exists b', blk'. split; [exact Hm|]. split; [|exact Hl'].
    simpl. rewrite list_lookup_insert_ne by congruence. exact Hh'.
Qed.

Lemma cell_read_set_same (d : deque_t A) (b : nat) (o : Z) (blk : list A) (a : A) :
  _t_allocater d !! b = Some (Some blk) ->
  length blk = Z.to_nat _DEQUE_ELEM_COUNT ->
  0 <= o < _DEQUE_ELEM_COUNT ->
  cell_read (set_heap d (<[b := Some (<[Z.to_nat o := a]> blk)]> (_t_allocater d)))
            (b, o) = Ok a.
Proof.
  intros Hh Hl Ho. unfold cell_read, block_of. simpl.
  rewrite list_lookup_insert_eq by (apply lookup_lt_Some in Hh; exact Hh). rsimpl.
  replace (0 <=? o) with true by (symmetry; apply Z.leb_le; lia).
  replace (o <? _DEQUE_ELEM_COUNT) with true by (symmetry; apply Z.ltb_lt; lia).
  simpl. rewrite list_lookup_insert_eq; [reflexivity|].
  unfold _DEQUE_ELEM_COUNT in *. lia.
Qed.

Lemma cell_read_set_other (d : deque_t A) (b : nat) (o : nat) (blk : list A) (a : A)
      (p : pointer) :
  _t_allocater d !! b = Some (Some blk) ->
  (fst p <> b \/ Z.to_nat (snd p) <> o) ->
  cell_read (set_heap d (<[b := Some (<[o := a]> blk)]> (_t_allocater d))) p
  = cell_read d p.
Proof.
  intros Hh Hne. unfold cell_read, block_of. simpl.
  destruct (Nat.eq_dec (fst p) b) as [E|E].
  - rewrite E. rewrite list_lookup_insert_eq by (apply lookup_lt_Some in Hh; exact Hh).
    rewrite Hh. rsimpl.
    destruct ((0 <=? snd p) && (snd p <? _DEQUE_ELEM_COUNT)); [|reflexivity].
    rewrite list_lookup_insert_ne; [reflexivity|]. destruct Hne; congruence.
  - rewrite list_lookup_insert_ne by congruence. reflexivity.
Qed.

Lemma elem_ptr_inj (d : deque_t A) (j k : Z) (p : pointer) :
  wf d ->
  idx (_t_start d) <= j < idx (_t_finish d) ->
  idx (_t_start d) <= k < idx (_t_finish d) ->
  elem_ptr d j = Ok p -> elem_ptr d k = Ok p -> j = k.
Proof.
  intros H Hj Hk Pj Pk.
  destruct (elem_ptr_ok d j H Hj) as (bj & _ & _ & Mj & Ej & _).
  destruct (elem_ptr_ok d k H Hk) as (bk & _ & _ & Mk & Ek & _).
  rewrite Ej in Pj. rewrite Ek in Pk. injection Pj as <-. injection Pk as Eb Eo.
  subst bk.
  pose proof (wf_so d H). pose proof (wf_fo d H).
  assert (Sj : _ppc_mappos (_t_start d) <= j / _DEQUE_ELEM_COUNT
               <= _ppc_mappos (_t_finish d)).
  { unfold idx, _DEQUE_ELEM_COUNT in *.
    pose proof (Z.div_mod j 16 ltac:(lia)).
    pose proof (Z.mod_pos_bound j 16 ltac:(lia)). lia. }
  assert (Sk : _ppc_mappos (_t_start d) <= k / _DEQUE_ELEM_COUNT
               <= _ppc_mappos (_t_finish d)).
  { unfold idx, _DEQUE_ELEM_COUNT in *.
    pose proof (Z.div_mod k 16 ltac:(lia)).
    pose proof (Z.mod_pos_bound k 16 ltac:(lia)). lia. }
  pose proof (wf_inj d H _ _ _ Sj Sk Mj Mk) as Ed.
  unfold _DEQUE_ELEM_COUNT in *.
  pose proof (Z.div_mod j 16 ltac:(lia)). pose proof (Z.div_mod k 16 ltac:(lia)).
  lia.
Qed.

(** A store at the element position [k]: the state keeps its shape, position
    [k] holds the stored value and every other position keeps its value. *)
Lemma store_elem (d : deque_t A) (k : Z) (a : A) :
  wf d -> idx (_t_start d) <= k < idx (_t_finish d) ->
  exists p d1,
    elem_ptr d k = Ok p /\ cell_write d p a = Ok d1 /\
    shape_eq d d1 /\ wf d1 /\ trace d1 = trace d /\
    elem_val d1 k = Ok a /\
    (forall j, idx (_t_start d) <= j < idx (_t_finish d) -> j <> k ->
               elem_val d1 j = elem_val d j).
Proof.
  intros H Hk.
  destruct (elem_ptr_ok d k H Hk) as (b & blk & a0 & Mk & Ek & Hh & Hl & _ & _).
  assert (Hmod : 0 <= k mod _DEQUE_ELEM_COUNT < _DEQUE_ELEM_COUNT)
    by (apply Z.mod_pos_bound; reflexivity).
  exists (b, k mod _DEQUE_ELEM_COUNT). eexists.
  split; [exact Ek|]. split; [apply (cell_write_ok d b _ blk a Hh Hl Hmod)|].
  assert (Sh : shape_eq d (set_heap d (<[b:=Some (<[Z.to_nat (k mod _DEQUE_ELEM_COUNT):=a]> blk)]>
                                         (_t_allocater d))))
    by (constructor; reflexivity).
  split; [exact Sh|]. split; [apply wf_set_cell; assumption|].
  split; [reflexivity|]. split.
  - unfold elem_val. rewrite (elem_ptr_shape _ _ _ Sh), Ek. rsimpl.
    apply cell_read_set_same; assumption.
  - intros j Hj Hne. unfold elem_val. rewrite (elem_ptr_shape _ _ _ Sh).
    destruct (elem_ptr_ok d j H Hj) as (bj & _ & _ & _ & Ej & _).
    rewrite Ej. rsimpl. apply cell_read_set_other; [exact Hh|]. simpl.
    destruct (Nat.eq_dec bj b) as [->|Hb]; [|left; exact Hb]. right.
    intros Eo. apply Hne.
    assert (Hmj : 0 <= j mod _DEQUE_ELEM_COUNT < _DEQUE_ELEM_COUNT)
      by (apply Z.mod_pos_bound; reflexivity).
    assert (Eo' : j mod _DEQUE_ELEM_COUNT = k mod _DEQUE_ELEM_COUNT) by lia.
    apply (elem_ptr_inj d j k (b, k mod _DEQUE_ELEM_COUNT) H Hj Hk);
      [rewrite Ej, Eo'; reflexivity | exact Ek].
Qed.


Lemma init_elem_ok (d : deque_t A) (it : deque_iterator_t) :
  wf d -> iter_ok d it -> idx it < idx (_t_finish d) ->
  exists p d1,
    elem_ptr d (idx it) = Ok p /\ init_elem d it = Ok d1 /\
    shape_eq d d1 /\ wf d1 /\ trace d1 = trace d ++ [EvInit p] /\
    elem_val d1 (idx it) = Ok t_typeinit /\
    (forall j, idx (_t_start d) <= j < idx (_t_finish d) -> j <> idx it ->
               elem_val d1 j = elem_val d j).
Proof.
  intros H Hok Hlt. pose proof (io_range d it Hok).
  destruct (store_elem d (idx it) t_typeinit H) as (p & d1 & Ep & Ew & Sh & W & T & V & O);
    [lia|].
  exists p, (log d1 (EvInit p)). split; [exact Ep|]. split.
  - unfold init_elem, type_init. rewrite (get_pointer_ok d it H Hok Hlt), Ep. rsimpl.
    rewrite Ew. reflexivity.
  - split; [apply (shape_eq_trans _ d1); [exact Sh | apply shape_eq_log]|].
    split; [apply wf_log; exact W|]. split; [simpl; rewrite T; reflexivity|].
    split; [exact V | exact O].
Qed.

Lemma copy_value_elem_ok (d : deque_t A) (it : deque_iterator_t) (a : A) :
  wf d -> iter_ok d it -> idx it < idx (_t_finish d) ->
  exists p d1,
    elem_ptr d (idx it) = Ok p /\ copy_value_elem a d it = Ok d1 /\
    shape_eq d d1 /\ wf d1 /\ trace d1 = trace d ++ [EvCopy p FromValue] /\
    elem_val d1 (idx it) = Ok a /\
    (forall j, idx (_t_start d) <= j < idx (_t_finish d) -> j <> idx it ->
               elem_val d1 j = elem_val d j).
Proof.
  intros H Hok Hlt. pose proof (io_range d it Hok).
  destruct (store_elem d (idx it) a H) as (p & d1 & Ep & Ew & Sh & W & T & V & O);
    [lia|].
  exists p, (log d1 (EvCopy p FromValue)). split; [exact Ep|]. split.
  - unfold copy_value_elem, type_copy_value.
    rewrite (get_pointer_ok d it H Hok Hlt), Ep. rsimpl. rewrite Ew. reflexivity.
  - split; [apply (shape_eq_trans _ d1); [exact Sh | apply shape_eq_log]|].
    split; [apply wf_log; exact W|]. split; [simpl; rewrite T; reflexivity|].
    split; [exact V | exact O].
Qed.

Lemma destroy_elem_ok (d : deque_t A) (it : deque_iterator_t) :
  wf d -> iter_ok d it -> idx it < idx (_t_finish d) ->
  exists p, elem_ptr d (idx it) = Ok p /\
            destroy_elem d it = Ok (log d (EvDestroy p)).
Proof.
  intros H Hok Hlt.
  destruct (read_at d it H Hok Hlt) as (p & a & G & Ep & C & _).
  exists p. split; [exact Ep|]. unfold destroy_elem, type_destroy.
  rewrite G. rsimpl. rewrite C. reflexivity.
Qed.

Lemma copy_elem_ok (d : deque_t A) (t_dst t_src : deque_iterator_t) :
  wf d -> iter_ok d t_dst -> iter_ok d t_src ->
  idx t_dst < idx (_t_finish d) -> idx t_src < idx (_t_finish d) ->
  exists pd ps a d1,
    elem_ptr d (idx t_dst) = Ok pd /\ elem_ptr d (idx t_src) = Ok ps /\
    elem_val d (idx t_src) = Ok a /\
    copy_elem d t_dst t_src = Ok d1 /\
    shape_eq d d1 /\ wf d1 /\ trace d1 = trace d ++ [EvCopy pd (FromElem ps)] /\
    elem_val d1 (idx t_dst) = Ok a /\
    (forall j, idx (_t_start d) <= j < idx (_t_finish d) -> j <> idx t_dst ->
               elem_val d1 j = elem_val d j).
Proof.
  intros H Hd Hs Ld Ls. pose proof (io_range d t_dst Hd).
  destruct (read_at d t_src H Hs Ls) as (ps & a & Gs & Eps & Cs & Vs).
  destruct (store_elem d (idx t_dst) a H) as (pd & d1 & Ep & Ew & Sh & W & T & V & O);
    [lia|].
  exists pd, ps, a, (log d1 (EvCopy pd (FromElem ps))).
  split; [exact Ep|]. split; [exact Eps|]. split; [exact Vs|]. split.
  - unfold copy_elem, type_copy.
    rewrite (get_pointer_ok d t_dst H Hd Ld), Ep, Gs. rsimpl.
    rewrite Cs. rsimpl. rewrite Ew. reflexivity.
  - split; [apply (shape_eq_trans _ d1); [exact Sh | apply shape_eq_log]|].
    split; [apply wf_log; exact W|]. split; [simpl; rewrite T; reflexivity|].
    split; [exact V | exact O].
Qed.

Lemma zrange_snoc (a : Z) (n : nat) :
  zrange a (S n) = zrange a n ++ [a + Z.of_nat n].
Proof. unfold zrange. rewrite seq_S, map_app. reflexivity. Qed.

Lemma zrange_cons (a : Z) (n : nat) : zrange a (S n) = a :: zrange (a + 1) n.
Proof.
  unfold zrange. simpl. rewrite Z.add_0_r. f_equal.
  rewrite <- seq_shift, map_map. apply map_ext. intros i. lia.
Qed.

Lemma ptr_at_shape (d d' : deque_t A) (k : Z) :
  shape_eq d d' -> ptr_at d' k = ptr_at d k.
Proof. intros Sh. unfold ptr_at. rewrite (elem_ptr_shape _ _ _ Sh). reflexivity. Qed.

Lemma wf_range_pos (d : deque_t A) : wf d -> 0 <= idx (_t_finish d) - idx (_t_start d).
Proof. intros H. pose proof (wf_le d H). lia. Qed.

(** Loop invariant rule for [for_range]. *)
Lemma for_range_inv (body : deque_t A -> deque_iterator_t -> result (deque_t A))
      (t_end : deque_iterator_t) (Inv : Z -> deque_t A -> Prop) :
  (forall d it, wf d -> iter_ok d it -> iter_ok d t_end -> idx it < idx t_end ->
                Inv (idx it) d ->
                exists d1, body d it = Ok d1 /\ shape_eq d d1 /\ wf d1 /\
                           Inv (idx it + 1) d1) ->
  forall (fuel : nat) (d : deque_t A) (it : deque_iterator_t),
    wf d -> iter_ok d it -> iter_ok d t_end -> idx it <= idx t_end ->
    idx t_end - idx it < Z.of_nat fuel -> Inv (idx it) d ->
    exists d', for_range fuel body d it t_end = Ok d' /\ shape_eq d d' /\ wf d' /\
               Inv (idx t_end) d'.
Proof.
  intros Hbody. induction fuel as [|fuel IH]; intros d it H Hit Hend Hle Hfuel HI.
  - lia.
  - simpl. rewrite (iterator_equal_idx d it t_end H Hit Hend). rsimpl.
    destruct (Z.eqb_spec (idx it) (idx t_end)) as [E|E].
    + exists d. rewrite <- E. split; [reflexivity|].
      split; [apply shape_eq_refl|]. split; assumption.
    + destruct (Hbody d it H Hit Hend) as (d1 & Eb & Sh1 & W1 & I1); [lia | exact HI |].
      rewrite Eb. rsimpl.
      pose proof (io_range d t_end Hend) as Rend.
      destruct (iterator_next_ok d it H Hit) as (t & En & Hok & It); [lia|].
      rewrite (iterator_next_shape _ _ _ Sh1), En. rsimpl.
      destruct (IH d1 t W1 (iter_ok_shape _ _ _ Sh1 Hok) (iter_ok_shape _ _ _ Sh1 Hend))
        as (d' & Ef & Sh' & W' & I'); [lia | lia | rewrite It; exact I1 |].
      exists d'. split; [exact Ef|]. split; [|split; assumption].
      apply (shape_eq_trans _ d1); assumption.
Qed.

(** The destroy loop: the cells are left as they are and one destroy event per
    position is recorded. *)
Lemma destroy_range_ok (d : deque_t A) (t_begin t_end : deque_iterator_t) :
  wf d -> iter_ok d t_begin -> iter_ok d t_end -> idx t_begin <= idx t_end ->
  exists d', for_range (loop_fuel d) destroy_elem d t_begin t_end = Ok d' /\
             shape_eq d d' /\ wf d' /\
             _t_allocater d' = _t_allocater d /\
             trace d' = trace d ++
                        map (fun k => EvDestroy (ptr_at d k))
                            (zrange (idx t_begin) (Z.to_nat (idx t_end - idx t_begin))).
Proof.
  intros H Hb He Hle.
  pose (Inv := fun (k : Z) (x : deque_t A) =>
                 idx t_begin <= k /\
                 shape_eq d x /\ _t_allocater x = _t_allocater d /\
                 trace x = trace d ++
                           map (fun k => EvDestroy (ptr_at d k))
                               (zrange (idx t_begin) (Z.to_nat (k - idx t_begin)))).
  destruct (for_range_inv destroy_elem t_end Inv) with (fuel := loop_fuel d) (d := d)
                                                        (it := t_begin)
    as (d' & Ef & Sh & W & _ & _ & Ha & Ht); try assumption.
  - intros x it Wx Hit Hend Hlt (Rb & Shx & Hax & Htx).
    pose proof (io_range x t_end Hend) as Rend.
    destruct (destroy_elem_ok x it Wx Hit) as (p & Ep & Ed); [lia|].
    exists (log x (EvDestroy p)). split; [exact Ed|].
    split; [apply shape_eq_log|]. split; [apply wf_log; exact Wx|].
    split; [lia|].
    split; [apply (shape_eq_trans _ x); [exact Shx | apply shape_eq_log]|].
    split; [exact Hax|]. simpl. rewrite Htx.
    replace (Z.to_nat (idx it + 1 - idx t_begin))
      with (S (Z.to_nat (idx it - idx t_begin))) by lia.
    rewrite zrange_snoc, map_app, <- app_assoc. simpl. repeat f_equal.
    rewrite Z2Nat.id by lia. unfold ptr_at.
    rewrite <- (elem_ptr_shape _ _ _ Shx).
    replace (idx t_begin + (idx it - idx t_begin)) with (idx it) by lia.
    rewrite Ep. reflexivity.
  - pose proof (loop_fuel_enough d t_begin H Hb). pose proof (io_range d t_end He). lia.
  - split; [lia|]. split; [apply shape_eq_refl|]. split; [reflexivity|].
    rewrite Z.sub_diag. simpl. rewrite app_nil_r. reflexivity.
  - exists d'. split; [exact Ef|]. split; [exact Sh|]. split; [exact W|].
    split; assumption.
Qed.

(** *** Freeing blocks *)

Lemma visited_S (slot dir : Z) (n : nat) (i : Z) :
  visited slot dir (S n) i <-> i = slot \/ visited (slot + dir) dir n i.
Proof.
  unfold visited. split.
  - intros (j & Hj & ->). destruct (Z.eq_dec j 0) as [->|Hne].
    + left. lia.
    + right. exists (j - 1). split; lia.
  - intros [->|(j & Hj & ->)].
    + exists 0. split; lia.
    + exists (j + 1). split; lia.
Qed.

Lemma classic_visited (slot dir : Z) (n : nat) (i : Z) :
  dir = 1 \/ dir = -1 -> visited slot dir n i \/ ~ visited slot dir n i.
Proof.
  intros Hdir. unfold visited.
  destruct (Z_lt_dec (dir * (i - slot)) 0) as [L|L].
  - right. intros (j & Hj & ->). destruct Hdir; subst dir; lia.
  - destruct (Z_lt_dec (dir * (i - slot)) (Z.of_nat n)) as [U|U].
    + left. exists (dir * (i - slot)). destruct Hdir; subst dir; lia.
    + right. intros (j & Hj & ->). destruct Hdir; subst dir; lia.
Qed.

Lemma deallocate_containers_ok (dir : Z) :
  dir = 1 \/ dir = -1 ->
  forall (n : nat) (d : deque_t A) (slot : Z),
    (forall i, visited slot dir n i ->
               0 <= i /\ exists b blk, _ppc_map d !! Z.to_nat i = Some (Some b) /\
                                       _t_allocater d !! b = Some (Some blk)) ->
    (forall i j b, visited slot dir n i -> visited slot dir n j ->
                   _ppc_map d !! Z.to_nat i = Some (Some b) ->
                   _ppc_map d !! Z.to_nat j = Some (Some b) -> i = j) ->
    exists d',
      deallocate_containers n d slot dir = Ok d' /\
      _t_typeinfo d' = _t_typeinfo d /\ _t_mapsize d' = _t_mapsize d /\
      _t_start d' = _t_start d /\ _t_finish d' = _t_finish d /\
      length (_ppc_map d') = length (_ppc_map d) /\
      (forall i, visited slot dir n i -> _ppc_map d' !! Z.to_nat i = Some None) /\
      (forall x : nat, ~ visited slot dir n (Z.of_nat x) ->
                       _ppc_map d' !! x = _ppc_map d !! x) /\
      (forall b, (exists i, visited slot dir n i /\
                            _ppc_map d !! Z.to_nat i = Some (Some b)) ->
                 _t_allocater d' !! b = Some None) /\
      (forall b, ~ (exists i, visited slot dir n i /\
                              _ppc_map d !! Z.to_nat i = Some (Some b)) ->
                 _t_allocater d' !! b = _t_allocater d !! b) /\
      trace d' = trace d ++
                 map (fun j => EvFree (slot_block d (slot + dir * Z.of_nat j))) (seq 0 n).
Proof.
  intros Hdir. induction n as [|n IH]; intros d slot Hpre Hinj.
  - exists d. simpl. rewrite app_nil_r.
    repeat (split; [reflexivity|]).
    split; [intros i (j & Hj & _); lia|].
    split; [reflexivity|].
    split; [intros b (i & (j & Hj & _) & _); lia|].
    split; reflexivity.
  - destruct (Hpre slot) as (Hs0 & b & blk & Hm & Hh);
      [apply visited_S; left; reflexivity|].
    simpl. rewrite (map_read_lookup _ _ _ Hs0 Hm). rsimpl.
    unfold deallocate_block, block_of. rewrite Hh. rsimpl.
    pose proof (lookup_lt_Some _ _ _ Hm) as Hlt.
    unfold map_write. simpl.
    replace (0 <=? slot) with true by (symmetry; apply Z.leb_le; lia).
    replace (slot <? Z.of_nat (length (_ppc_map d))) with true
      by (symmetry; apply Z.ltb_lt; lia).
    rsimpl.
    set (d2 := set_map (log (set_heap d (<[b:=None]> (_t_allocater d))) (EvFree b))
                       (<[Z.to_nat slot:=None]> (_ppc_map d))).
    assert (Hnot : forall i, visited (slot + dir) dir n i -> i <> slot).
    { intros i (j & Hj & ->). destruct Hdir; subst dir; lia. }
    assert (Hmap2 : forall i, visited (slot + dir) dir n i ->
                              _ppc_map d2 !! Z.to_nat i = _ppc_map d !! Z.to_nat i).
    { intros i Hv. simpl. apply list_lookup_insert_ne.
      pose proof (Hnot i Hv).
      destruct (Hpre i) as (Hi0 & _); [apply visited_S; right; exact Hv|]. lia. }
    destruct (IH d2 (slot + dir)) as
        (d' & Ed & Ti & Ms & St & Fi & Len & Mv & Mo & Hf & Ho & Tr).
    { intros i Hv. destruct (Hpre i) as (Hi0 & b' & blk' & Hm' & Hh');
        [apply visited_S; right; exact Hv|].
      split; [exact Hi0|]. exists b', blk'. rewrite (Hmap2 i Hv).
      split; [exact Hm'|]. simpl. rewrite list_lookup_insert_ne; [exact Hh'|].
      intros <-. apply (Hnot i Hv). symmetry.
      apply (Hinj slot i b); [apply visited_S; left; reflexivity
                           | apply visited_S; right; exact Hv | exact Hm | exact Hm']. }
    { intros i j b' Hi Hj Mi Mj. rewrite (Hmap2 i Hi) in Mi. rewrite (Hmap2 j Hj) in Mj.
      apply (Hinj i j b'); try assumption; apply visited_S; right; assumption. }
    exists d'. split; [exact Ed|].
    split; [rewrite Ti; reflexivity|]. split; [rewrite Ms; reflexivity|].
    split; [rewrite St; reflexivity|]. split; [rewrite Fi; reflexivity|].
    split; [rewrite Len; simpl; apply length_insert|].
    split; [|split; [|split; [|split]]].
    + intros i Hv. apply visited_S in Hv as [->|Hv]; [|apply Mv; exact Hv].
      destruct (classic_visited (slot + dir) dir n slot Hdir) as [Hin|Hout].
      * exfalso. apply (Hnot slot Hin). reflexivity.
      * specialize (Mo (Z.to_nat slot)). rewrite Z2Nat.id in Mo by lia.
        rewrite (Mo Hout). simpl. apply list_lookup_insert_eq. exact Hlt.
    + intros x Hx. rewrite Mo.
      * simpl. apply list_lookup_insert_ne. intros E. apply Hx.
        apply visited_S. left. lia.
      * intros Hv. apply Hx. apply visited_S. right. exact Hv.
    + intros b' (i & Hv & Mi). apply visited_S in Hv as [->|Hv].
      * assert (b' = b) by congruence. subst b'.
        rewrite Ho.
        -- simpl. apply list_lookup_insert_eq. apply lookup_lt_Some in Hh. exact Hh.
        -- intros (j & Hj & Mj). rewrite (Hmap2 j Hj) in Mj.
           apply (Hnot j Hj). symmetry.
           apply (Hinj slot j b); [apply visited_S; left; reflexivity
                                | apply visited_S; right; exact Hj | exact Hm | exact Mj].
      * apply Hf. exists i. split; [exact Hv|]. rewrite (Hmap2 i Hv). exact Mi.
    + intros b' Hb'. rewrite Ho.
      * simpl. apply list_lookup_insert_ne. intros <-. apply Hb'.
        exists slot. split; [apply visited_S; left; reflexivity | exact Hm].
      * intros (i & Hv & Mi). apply Hb'. exists i.
        split; [apply visited_S; right; exact Hv|]. rewrite <- (Hmap2 i Hv). exact Mi.
    + rewrite Tr. simpl. rewrite <- app_assoc. simpl. f_equal. f_equal.
      * unfold slot_block, slot_at. rewrite Z.mul_0_r, Z.add_0_r, Hm. reflexivity.
      * rewrite <- seq_shift, map_map. apply map_ext_in. intros j Hj.
        apply in_seq in Hj.
        assert (Hv : visited (slot + dir) dir n (slot + dir + dir * Z.of_nat j))
          by (exists (Z.of_nat j); split; lia).
        unfold slot_block, slot_at. rewrite (Hmap2 _ Hv).
        replace (slot + dir * Z.of_nat (S j)) with (slot + dir + dir * Z.of_nat j) by lia.
        reflexivity.
Qed.

Lemma iterator_prev_off (d : deque_t A) (it it' : deque_iterator_t) :
  _pc_corepos it <= _DEQUE_ELEM_COUNT ->
  _deque_iterator_prev d it = Ok it' -> _pc_corepos it' < _DEQUE_ELEM_COUNT.
Proof.
  intros Ho E. apply iterator_prev_inv in E. destruct E as (_ & E & _).
  revert E. unfold prev_step, _DEQUE_ELEM_COUNT in *.
  destruct (_pc_corepos it - 1 <? 0).
  - destruct (_ppc_mappos it >? _ppc_mappos (_t_start d)).
    + destruct (map_read _ _); try discriminate. rsimpl.
      intros E. injection E as <-. simpl. lia.
    + intros E. injection E as <-. simpl. lia.
  - intros E. injection E as <-. simpl. lia.
Qed.

Lemma iterate_prev_off (d : deque_t A) (n : nat) (it it' : deque_iterator_t) :
  wf d -> iter_ok d it -> idx (_t_start d) <= idx it - Z.of_nat n ->
  _pc_corepos it < _DEQUE_ELEM_COUNT ->
  iterate_n (_deque_iterator_prev d) n it = Ok it' ->
  _pc_corepos it' < _DEQUE_ELEM_COUNT.
Proof.
  intros H. revert it. induction n as [|n IH]; intros it Hok Hle Ho E.
  - simpl in E. injection E as <-. exact Ho.
  - simpl in E.
    destruct (iterator_prev_ok d it H Hok) as (it1 & E1 & Hok1 & I1); [lia|].
    rewrite E1 in E. rsimpl in E.
    apply (IH it1 Hok1); [lia | | exact E].
    apply (iterator_prev_off d it it1); [lia | exact E1].
Qed.

Lemma iterator_next_off (d : deque_t A) (it it' : deque_iterator_t) :
  wf d -> iter_ok d it -> idx it < idx (_t_finish d) ->
  _deque_iterator_next d it = Ok it' -> 0 <= _pc_corepos it' < _DEQUE_ELEM_COUNT.
Proof.
  intros H [Sl Fi Of Ra No] Hlt E. pose proof (wf_fo d H).
  apply iterator_next_inv in E. destruct E as (_ & E & _). revert E.
  unfold next_step, idx, _DEQUE_ELEM_COUNT in *.
  destruct (Z.geb_spec (_pc_corepos it + 1) 16) as [G|G].
  - destruct (Z.ltb_spec (_ppc_mappos it) (_ppc_mappos (_t_finish d))) as [L|L]; [|lia].
    rewrite beyond_ok by lia. rsimpl.
    destruct (map_read _ _); try discriminate. rsimpl.
    intros E. injection E as <-. simpl. lia.
  - intros E. injection E as <-. simpl. lia.
Qed.

(** The value at a position depends on its directory slot and on its block. *)
Lemma elem_val_ext (d d' : deque_t A) (k : Z) :
  length (_ppc_map d') = length (_ppc_map d) ->
  _ppc_map d' !! Z.to_nat (k / _DEQUE_ELEM_COUNT)
  = _ppc_map d !! Z.to_nat (k / _DEQUE_ELEM_COUNT) ->
  (forall b, _ppc_map d !! Z.to_nat (k / _DEQUE_ELEM_COUNT) = Some (Some b) ->
             _t_allocater d' !! b = _t_allocater d !! b) ->
  elem_val d' k = elem_val d k /\ elem_ptr d' k = elem_ptr d k.
Proof.
  intros Hlen Hm Hh. unfold elem_val, elem_ptr, map_read. rewrite Hlen, Hm.
  destruct ((0 <=? k / _DEQUE_ELEM_COUNT) &&
            (k / _DEQUE_ELEM_COUNT <? Z.of_nat (length (_ppc_map d))));
    [|split; reflexivity].
  destruct (_ppc_map d !! Z.to_nat (k / _DEQUE_ELEM_COUNT)) as [[b|]|] eqn:E;
    rsimpl; try (split; reflexivity).
  split; [|reflexivity]. unfold cell_read, block_of. simpl.
  rewrite (Hh b eq_refl). reflexivity.
Qed.

Lemma slot_of_position (d : deque_t A) (k : Z) :
  wf d -> idx (_t_start d) <= k < idx (_t_finish d) ->
  _ppc_mappos (_t_start d) <= k / _DEQUE_ELEM_COUNT <= _ppc_mappos (_t_finish d).
Proof.
  intros H Hk. pose proof (wf_so d H). pose proof (wf_fo d H).
  unfold idx, _DEQUE_ELEM_COUNT in *.
  pose proof (Z.div_mod k 16 ltac:(lia)).
  pose proof (Z.mod_pos_bound k 16 ltac:(lia)). lia.
Qed.

Lemma visited_up (slot : Z) (n : nat) (i : Z) :
  visited slot 1 n i <-> slot <= i < slot + Z.of_nat n.
Proof.
  unfold visited. split.
  - intros (j & Hj & ->). lia.
  - intros Hi. exists (i - slot). lia.
Qed.

Lemma visited_down (slot : Z) (n : nat) (i : Z) :
  visited slot (-1) n i <-> slot - Z.of_nat n < i <= slot.
Proof.
  unfold visited. split.
  - intros (j & Hj & ->). lia.
  - intros Hi. exists (slot - i). lia.
Qed.

Lemma slot_block_lookup (d : deque_t A) (i : Z) (b : nat) :
  _ppc_map d !! Z.to_nat i = Some (Some b) -> slot_block d i = b.
Proof. intros E. unfold slot_block, slot_at. rewrite E. reflexivity. Qed.

Lemma shrink_at_end_ok (d : deque_t A) (k : Z) :
  wf d -> 0 <= k ->
  exists d',
    _shrink_at_end d k = Ok d' /\ wf d' /\
    _t_typeinfo d' = _t_typeinfo d /\ _t_mapsize d' = _t_mapsize d /\
    length (_ppc_map d') = length (_ppc_map d) /\
    _t_start d' = _t_start d /\ iter_ok d (_t_finish d') /\
    idx (_t_finish d')
    = idx (_t_finish d) - Z.min k (idx (_t_finish d) - idx (_t_start d)) /\
    (forall j, idx (_t_start d) <= j < idx (_t_finish d') ->
               elem_val d' j = elem_val d j /\ elem_ptr d' j = elem_ptr d j) /\
    (forall i, _ppc_mappos (_t_finish d') < i <= _ppc_mappos (_t_finish d) ->
               _ppc_map d' !! Z.to_nat i = Some None /\
               _t_allocater d' !! slot_block d i = Some None) /\
    (forall x : nat,
        ~ (_ppc_mappos (_t_finish d') < Z.of_nat x <= _ppc_mappos (_t_finish d)) ->
        _ppc_map d' !! x = _ppc_map d !! x) /\
    (forall b, (forall i, _ppc_mappos (_t_finish d') < i <= _ppc_mappos (_t_finish d) ->
                          slot_block d i <> b) ->
               _t_allocater d' !! b = _t_allocater d !! b) /\
    trace d' = trace d ++
               map (fun j => EvDestroy (ptr_at d j))
                   (zrange (idx (_t_finish d'))
                           (Z.to_nat (Z.min k (idx (_t_finish d) - idx (_t_start d))))) ++
               map (fun j => EvFree (slot_block d (_ppc_mappos (_t_finish d') + 1 + Z.of_nat j)))
                   (seq 0 (Z.to_nat (_ppc_mappos (_t_finish d)
                                     - _ppc_mappos (_t_finish d')))).
Proof.
  intros H Hk. pose proof (wf_le d H) as Hle.
  set (n := idx (_t_finish d) - idx (_t_start d)).
  unfold _shrink_at_end. rewrite (deque_size_ok d H). rsimpl. fold n.
  replace (if k <? n then k else n) with (Z.min k n)
    by (destruct (Z.ltb_spec k n); lia).
  unfold deque_end.
  destruct (iterator_prev_n_ok d (_t_finish d) (Z.min k n) H (iter_ok_finish d H))
    as (ne & En & Hne & Ine); [lia | lia |].
  rewrite En. rsimpl. rewrite (belong_ok d ne H Hne). rsimpl.
  assert (Hneoff : _pc_corepos ne < _DEQUE_ELEM_COUNT).
  { unfold _deque_iterator_prev_n, _deque_iterator_next_n in En.
    destruct (Z.geb_spec (- Z.min k n) 0).
    - replace (Z.to_nat (- Z.min k n)) with 0%nat in En by lia. simpl in En.
      injection En as <-. apply (wf_fo d H).
    - apply (iterate_prev_off d _ _ ne H (iter_ok_finish d H)) in En;
        [exact En | lia | apply (wf_fo d H)]. }
  destruct (destroy_range_ok d ne (_t_finish d) H Hne (iter_ok_finish d H))
    as (d1 & Ed1 & Sh1 & W1 & Ha1 & Tr1); [lia|].
  rewrite Ed1. rsimpl. cbn [_t_finish set_finish].
  pose proof (io_slot d ne Hne) as Sne.
  pose proof (wf_s d H) as Hs0. pose proof (wf_f d H) as Hfm.
  pose proof (wf_len d H) as Hlen.
  destruct (deallocate_containers_ok 1 (or_introl eq_refl)
              (Z.to_nat (_ppc_mappos (_t_finish d) - _ppc_mappos ne))
              (set_finish d1 ne) (_ppc_mappos ne + 1))
    as (d' & Ed & Ti & Ms & St & Fi & Len & Mv & Mo & Hf & Ho & Tr).
  { intros i Hv. apply visited_up in Hv. split; [lia|].
    destruct (wf_blocks d H i) as (b & blk & Hm & Hh & _); [lia|].
    exists b, blk. simpl. rewrite (se_map _ _ Sh1), Ha1. split; assumption. }
  { intros i j b Hi Hj Mi Mj. apply visited_up in Hi, Hj. simpl in Mi, Mj.
    rewrite (se_map _ _ Sh1) in Mi, Mj.
    apply (wf_inj d H i j b); (lia || assumption). }
  simpl in Ti, Ms, St, Fi, Len, Mo, Tr.
  rewrite (se_info _ _ Sh1) in Ti. rewrite (se_mapsize _ _ Sh1) in Ms.
  rewrite (se_start _ _ Sh1) in St. rewrite (se_map _ _ Sh1) in Len.
  assert (Mo' : forall x : nat,
             ~ (_ppc_mappos ne < Z.of_nat x <= _ppc_mappos (_t_finish d)) ->
             _ppc_map d' !! x = _ppc_map d !! x).
  { intros x Hx. rewrite Mo; [rewrite (se_map _ _ Sh1); reflexivity|].
    intros Hv. apply visited_up in Hv. lia. }
  assert (Ho' : forall b,
             (forall i, _ppc_mappos ne < i <= _ppc_mappos (_t_finish d) ->
                        slot_block d i <> b) ->
             _t_allocater d' !! b = _t_allocater d !! b).
  { intros b Hb. rewrite Ho; [simpl; rewrite Ha1; reflexivity|].
    intros (i & Hv & Mi). apply visited_up in Hv. simpl in Mi.
    rewrite (se_map _ _ Sh1) in Mi. apply (Hb i); [lia|].
    apply slot_block_lookup. exact Mi. }
  assert (Hkeep : forall i b, _ppc_mappos (_t_start d) <= i <= _ppc_mappos ne ->
                              _ppc_map d !! Z.to_nat i = Some (Some b) ->
                              _ppc_map d' !! Z.to_nat i = Some (Some b) /\
                              _t_allocater d' !! b = _t_allocater d !! b).
  { intros i b Hi Mi. split.
    - rewrite Mo'; [exact Mi|]. rewrite Z2Nat.id by lia. lia.
    - apply Ho'. intros j Hj Ej.
      destruct (wf_blocks d H j) as (bj & _ & Mj & _); [lia|].
      rewrite (slot_block_lookup d j bj Mj) in Ej. subst bj.
      pose proof (wf_inj d H i j b ltac:(lia) ltac:(lia) Mi Mj). lia. }
  exists d'. rewrite Fi. split; [exact Ed|].
  split; [|split; [exact Ti|split; [exact Ms|split; [exact Len|split; [exact St|
          split; [exact Hne|split; [exact Ine|split; [|split; [|split; [exact Mo'|
          split; [exact Ho'|]]]]]]]]]]].
  - constructor; rewrite ?Fi, ?St, ?Ms.
    + rewrite Len. exact Hlen.
    + apply (wf_bound d H).
    + exact Hs0.
    + lia.
    + apply (wf_so d H).
    + pose proof (io_off d ne Hne). lia.
    + pose proof (io_range d ne Hne). lia.
    + rewrite Mo'; [apply (wf_sfirst d H)|]. rewrite Z2Nat.id by lia. lia.
    + rewrite Mo'; [apply (io_first d ne Hne)|]. rewrite Z2Nat.id by lia. lia.
    + intros i Hi. destruct (wf_blocks d H i) as (b & blk & Hm & Hh & Hl); [lia|].
      destruct (Hkeep i b Hi Hm) as [Km Kh].
      exists b, blk. rewrite Kh. repeat split; assumption.
    + intros i j b Hi Hj Mi Mj.
      rewrite Mo' in Mi by (rewrite Z2Nat.id by lia; lia).
      rewrite Mo' in Mj by (rewrite Z2Nat.id by lia; lia).
      apply (wf_inj d H i j b); (lia || assumption).
  - intros j Hj.
    assert (Hj' : idx (_t_start d) <= j < idx (_t_finish d)) by lia.
    pose proof (slot_of_position d j H Hj') as Sj.
    assert (Sj' : j / _DEQUE_ELEM_COUNT <= _ppc_mappos ne).
    { pose proof (io_off d ne Hne). unfold idx, _DEQUE_ELEM_COUNT in *.
      pose proof (Z.div_mod j 16 ltac:(lia)).
      pose proof (Z.mod_pos_bound j 16 ltac:(lia)). lia. }
    destruct (wf_blocks d H _ Sj) as (b & _ & Mj & _).
    destruct (Hkeep (j / _DEQUE_ELEM_COUNT) b ltac:(lia) Mj) as [Km Kh].
    apply elem_val_ext; [exact Len | congruence |].
    intros b' Mb'. assert (b' = b) by congruence. subst b'. exact Kh.
  - intros i Hi. split; [apply Mv; apply visited_up; lia|].
    destruct (wf_blocks d H i) as (b & _ & Mi & _); [lia|].
    rewrite (slot_block_lookup d i b Mi). apply Hf. exists i.
    split; [apply visited_up; lia|]. simpl. rewrite (se_map _ _ Sh1). exact Mi.
  - rewrite Tr. simpl. rewrite Tr1, <- app_assoc. f_equal. f_equal.
    + rewrite Ine. fold n.
      replace (Z.to_nat (idx (_t_finish d) - (idx (_t_finish d) - Z.min k n)))
        with (Z.to_nat (Z.min k n)) by lia.
      reflexivity.
    + apply map_ext_in. intros j Hj. unfold slot_block, slot_at. simpl.
      rewrite (se_map _ _ Sh1).
      replace (_ppc_mappos ne + 1 + 1 * Z.of_nat j)
        with (_ppc_mappos ne + 1 + Z.of_nat j) by lia.
      reflexivity.
Qed.

Lemma shrink_at_begin_ok (d : deque_t A) (k : Z) :
  wf d -> 0 <= k ->
  exists d',
    _shrink_at_begin d k = Ok d' /\ wf d' /\
    _t_typeinfo d' = _t_typeinfo d /\ _t_mapsize d' = _t_mapsize d /\
    length (_ppc_map d') = length (_ppc_map d) /\
    _t_finish d' = _t_finish d /\ iter_ok d (_t_start d') /\
    idx (_t_start d')
    = idx (_t_start d) + Z.min k (idx (_t_finish d) - idx (_t_start d)) /\
    (forall j, idx (_t_start d') <= j < idx (_t_finish d) ->
               elem_val d' j = elem_val d j /\ elem_ptr d' j = elem_ptr d j) /\
    (forall i, _ppc_mappos (_t_start d) <= i < _ppc_mappos (_t_start d') ->
               _ppc_map d' !! Z.to_nat i = Some None /\
               _t_allocater d' !! slot_block d i = Some None) /\
    (forall x : nat,
        ~ (_ppc_mappos (_t_start d) <= Z.of_nat x < _ppc_mappos (_t_start d')) ->
        _ppc_map d' !! x = _ppc_map d !! x) /\
    (forall b, (forall i, _ppc_mappos (_t_start d) <= i < _ppc_mappos (_t_start d') ->
                          slot_block d i <> b) ->
               _t_allocater d' !! b = _t_allocater d !! b) /\
    trace d' = trace d ++
               map (fun j => EvDestroy (ptr_at d j))
                   (zrange (idx (_t_start d))
                           (Z.to_nat (Z.min k (idx (_t_finish d) - idx (_t_start d))))) ++
               map (fun j => EvFree (slot_block d (_ppc_mappos (_t_start d') - 1 - Z.of_nat j)))
                   (seq 0 (Z.to_nat (_ppc_mappos (_t_start d')
                                     - _ppc_mappos (_t_start d)))).
Proof.
  intros H Hk. pose proof (wf_le d H) as Hle.
  set (n := idx (_t_finish d) - idx (_t_start d)).
  unfold _shrink_at_begin. rewrite (deque_size_ok d H). rsimpl. fold n.
  replace (if k <? n then k else n) with (Z.min k n)
    by (destruct (Z.ltb_spec k n); lia).
  unfold deque_begin.
  destruct (iterator_next_n_ok d (_t_start d) (Z.min k n) H (iter_ok_start d H))
    as (nb & En & Hnb & Inb); [lia | lia |].
  rewrite En. rsimpl. rewrite (belong_ok d nb H Hnb). rsimpl.
  destruct (destroy_range_ok d (_t_start d) nb H (iter_ok_start d H) Hnb)
    as (d1 & Ed1 & Sh1 & W1 & Ha1 & Tr1); [lia|].
  rewrite Ed1. rsimpl. cbn [_t_start set_start].
  pose proof (io_slot d nb Hnb) as Snb.
  pose proof (wf_s d H) as Hs0. pose proof (wf_f d H) as Hfm.
  pose proof (wf_len d H) as Hlen.
  destruct (deallocate_containers_ok (-1) (or_intror eq_refl)
              (Z.to_nat (_ppc_mappos nb - _ppc_mappos (_t_start d)))
              (set_start d1 nb) (_ppc_mappos nb - 1))
    as (d' & Ed & Ti & Ms & St & Fi & Len & Mv & Mo & Hf & Ho & Tr).
  { intros i Hv. apply visited_down in Hv. split; [lia|].
    destruct (wf_blocks d H i) as (b & blk & Hm & Hh & _); [lia|].
    exists b, blk. simpl. rewrite (se_map _ _ Sh1), Ha1. split; assumption. }
  { intros i j b Hi Hj Mi Mj. apply visited_down in Hi, Hj. simpl in Mi, Mj.
    rewrite (se_map _ _ Sh1) in Mi, Mj.
    apply (wf_inj d H i j b); (lia || assumption). }
  simpl in Ti, Ms, St, Fi, Len, Mo, Tr.
  rewrite (se_info _ _ Sh1) in Ti. rewrite (se_mapsize _ _ Sh1) in Ms.
  rewrite (se_finish _ _ Sh1) in Fi. rewrite (se_map _ _ Sh1) in Len.
  assert (Mo' : forall x : nat,
             ~ (_ppc_mappos (_t_start d) <= Z.of_nat x < _ppc_mappos nb) ->
             _ppc_map d' !! x = _ppc_map d !! x).
  { intros x Hx. rewrite Mo; [rewrite (se_map _ _ Sh1); reflexivity|].
    intros Hv. apply visited_down in Hv. lia. }
  assert (Ho' : forall b,
             (forall i, _ppc_mappos (_t_start d) <= i < _ppc_mappos nb ->
                        slot_block d i <> b) ->
             _t_allocater d' !! b = _t_allocater d !! b).
  { intros b Hb. rewrite Ho; [simpl; rewrite Ha1; reflexivity|].
    intros (i & Hv & Mi). apply visited_down in Hv. simpl in Mi.
    rewrite (se_map _ _ Sh1) in Mi. apply (Hb i); [lia|].
    apply slot_block_lookup. exact Mi. }
  assert (Hkeep : forall i b, _ppc_mappos nb <= i <= _ppc_mappos (_t_finish d) ->
                              _ppc_map d !! Z.to_nat i = Some (Some b) ->
                              _ppc_map d' !! Z.to_nat i = Some (Some b) /\
                              _t_allocater d' !! b = _t_allocater d !! b).
  { intros i b Hi Mi. split.
    - rewrite Mo'; [exact Mi|]. rewrite Z2Nat.id by lia. lia.
    - apply Ho'. intros j Hj Ej.
      destruct (wf_blocks d H j) as (bj & _ & Mj & _); [lia|].
      rewrite (slot_block_lookup d j bj Mj) in Ej. subst bj.
      pose proof (wf_inj d H i j b ltac:(lia) ltac:(lia) Mi Mj). lia. }
  exists d'. rewrite St. split; [exact Ed|].
  split; [|split; [exact Ti|split; [exact Ms|split; [exact Len|split; [exact Fi|
          split; [exact Hnb|split; [exact Inb|split; [|split; [|split; [exact Mo'|
          split; [exact Ho'|]]]]]]]]]]].
  - constructor; rewrite ?Fi, ?St, ?Ms.
    + rewrite Len. exact Hlen.
    + apply (wf_bound d H).
    + lia.
    + exact Hfm.
    + apply (io_off d nb Hnb).
    + apply (wf_fo d H).
    + pose proof (io_range d nb Hnb). lia.
    + rewrite Mo'; [apply (io_first d nb Hnb)|]. rewrite Z2Nat.id by lia. lia.
    + rewrite Mo'; [apply (wf_ffirst d H)|]. rewrite Z2Nat.id by lia. lia.
    + intros i Hi. destruct (wf_blocks d H i) as (b & blk & Hm & Hh & Hl); [lia|].
      destruct (Hkeep i b Hi Hm) as [Km Kh].
      exists b, blk. rewrite Kh. repeat split; assumption.
    + intros i j b Hi Hj Mi Mj.
      rewrite Mo' in Mi by (rewrite Z2Nat.id by lia; lia).
      rewrite Mo' in Mj by (rewrite Z2Nat.id by lia; lia).
      apply (wf_inj d H i j b); (lia || assumption).
  - intros j Hj.
    assert (Hj' : idx (_t_start d) <= j < idx (_t_finish d)) by lia.
    pose proof (slot_of_position d j H Hj') as Sj.
    assert (Sj' : _ppc_mappos nb <= j / _DEQUE_ELEM_COUNT).
    { pose proof (io_off d nb Hnb). unfold idx, _DEQUE_ELEM_COUNT in *.
      pose proof (Z.div_mod j 16 ltac:(lia)).
      pose proof (Z.mod_pos_bound j 16 ltac:(lia)). lia. }
    destruct (wf_blocks d H _ Sj) as (b & _ & Mj & _).
    destruct (Hkeep (j / _DEQUE_ELEM_COUNT) b ltac:(lia) Mj) as [Km Kh].
    apply elem_val_ext; [exact Len | congruence |].
    intros b' Mb'. assert (b' = b) by congruence. subst b'. exact Kh.
  - intros i Hi. split; [apply Mv; apply visited_down; lia|].
    destruct (wf_blocks d H i) as (b & _ & Mi & _); [lia|].
    rewrite (slot_block_lookup d i b Mi). apply Hf. exists i.
    split; [apply visited_down; lia|]. simpl. rewrite (se_map _ _ Sh1). exact Mi.
  - rewrite Tr. simpl. rewrite Tr1, <- app_assoc. f_equal. f_equal.
    + rewrite Inb. fold n.
      replace (Z.to_nat (idx (_t_start d) + Z.min k n - idx (_t_start d)))
        with (Z.to_nat (Z.min k n)) by lia.
      reflexivity.
    + apply map_ext_in. intros j Hj. unfold slot_block, slot_at. simpl.
      rewrite (se_map _ _ Sh1).
      replace (_ppc_mappos nb - 1 + -1 * Z.of_nat j)
        with (_ppc_mappos nb - 1 - Z.of_nat j) by lia.
      reflexivity.
Qed.

Lemma elems_from_ext (d d' : deque_t A) (a : Z) (n : nat) :
  idx (_t_finish d') - a = Z.of_nat n ->
  Z.of_nat n <= idx (_t_finish d) - a ->
  (forall j, a <= j < a + Z.of_nat n -> elem_val d' j = elem_val d j) ->
  elems_from d' a = take n (elems_from d a).
Proof.
  intros Hn Hle Hv. unfold elems_from.
  rewrite Hn, Nat2Z.id, firstn_map, take_seq.
  replace (Init.Nat.min n (Z.to_nat (idx (_t_finish d) - a))) with n by lia.
  apply map_ext_in. intros i Hi. apply in_seq in Hi. rewrite Hv by lia. reflexivity.
Qed.

Lemma elems_from_drop (d : deque_t A) (n : nat) :
  forall a, elems_from d (a + Z.of_nat n) = drop n (elems_from d a).
Proof.
  induction n as [|n IH]; intros a.
  - simpl. rewrite Z.add_0_r. reflexivity.
  - destruct (Z_lt_dec a (idx (_t_finish d))) as [L|L].
    + rewrite (elems_from_cons d a L). simpl. rewrite <- IH. f_equal. lia.
    + rewrite !elems_from_end by lia. reflexivity.
Qed.

Lemma elems_from_same (d d' : deque_t A) (a : Z) :
  idx (_t_finish d') = idx (_t_finish d) ->
  (forall j, a <= j < idx (_t_finish d) -> elem_val d' j = elem_val d j) ->
  elems_from d' a = elems_from d a.
Proof.
  intros Hf Hv. unfold elems_from. rewrite Hf. apply map_ext_in.
  intros i Hi. apply in_seq in Hi. rewrite Hv by lia. reflexivity.
Qed.

Lemma wf_range_backed (d : deque_t A) : wf d -> range_backed d.
Proof.
  intros H j Hj.
  destruct (elem_ptr_ok d j H Hj) as (b & blk & a & _ & Ep & _ & _ & _ & Hc).
  exists (b, j mod _DEQUE_ELEM_COUNT), a. split; assumption.
Qed.

Lemma shrink_both_ok (d : deque_t A) (k : Z) :
  wf d -> 0 <= k ->
  let n := Z.of_nat (length (to_list d)) in
  let m := Z.min k n in
  (exists d',
      _shrink_at_end d k = Ok d' /\ wf d' /\
      _t_mapsize d' = _t_mapsize d /\ _t_start d' = _t_start d /\
      idx (_t_finish d') = idx (_t_finish d) - m /\
      to_list d' = take (Z.to_nat (n - m)) (to_list d) /\
      trace d' = trace d ++
                 map (fun j => EvDestroy (ptr_at d j))
                     (zrange (idx (_t_finish d) - m) (Z.to_nat m)) ++
                 map (fun j => EvFree (slot_block d (_ppc_mappos (_t_finish d') + 1
                                                     + Z.of_nat j)))
                     (seq 0 (Z.to_nat (_ppc_mappos (_t_finish d)
                                       - _ppc_mappos (_t_finish d')))) /\
      frees_slots d d' (_ppc_mappos (_t_finish d') + 1) (_ppc_mappos (_t_finish d)) /\
      range_backed d') /\
  (exists d',
      _shrink_at_begin d k = Ok d' /\ wf d' /\
      _t_mapsize d' = _t_mapsize d /\ _t_finish d' = _t_finish d /\
      idx (_t_start d') = idx (_t_start d) + m /\
      to_list d' = drop (Z.to_nat m) (to_list d) /\
      trace d' = trace d ++
                 map (fun j => EvDestroy (ptr_at d j))
                     (zrange (idx (_t_start d)) (Z.to_nat m)) ++
                 map (fun j => EvFree (slot_block d (_ppc_mappos (_t_start d') - 1
                                                     - Z.of_nat j)))
                     (seq 0 (Z.to_nat (_ppc_mappos (_t_start d')
                                       - _ppc_mappos (_t_start d)))) /\
      frees_slots d d' (_ppc_mappos (_t_start d)) (_ppc_mappos (_t_start d') - 1) /\
      range_backed d').
Proof.
  intros V Hk n m. pose proof (wf_le d V) as Hle.
  assert (En : n = idx (_t_finish d) - idx (_t_start d)).
  { unfold n. rewrite length_to_list. lia. }
  split.
  - destruct (shrink_at_end_ok d k V Hk)
      as (d' & Ed & W & _ & Ms & Len & St & Hne & Ine & Hv & Hfr & Mo & Ho & Tr).
    rewrite <- En in Ine, Tr. fold m in Ine, Tr.
    exists d'. split; [exact Ed|]. split; [exact W|]. split; [exact Ms|].
    split; [exact St|]. split; [exact Ine|]. split; [|split; [|split]].
    + unfold to_list. rewrite St. apply elems_from_ext; [lia | lia |].
      intros j Hj. apply Hv. lia.
    + rewrite Tr, Ine. reflexivity.
    + split; [intros i Hi; apply Hfr; lia|]. split; [intros x Hx; apply Mo; lia|].
      intros b Hb. apply Ho. intros i Hi. apply Hb. lia.
    + apply wf_range_backed. exact W.
  - destruct (shrink_at_begin_ok d k V Hk)
      as (d' & Ed & W & _ & Ms & Len & Fi & Hnb & Inb & Hv & Hfr & Mo & Ho & Tr).
    rewrite <- En in Inb, Tr. fold m in Inb, Tr.
    exists d'. split; [exact Ed|]. split; [exact W|]. split; [exact Ms|].
    split; [exact Fi|]. split; [exact Inb|]. split; [|split; [|split]].
    + unfold to_list. rewrite Inb.
      replace (idx (_t_start d) + m) with (idx (_t_start d) + Z.of_nat (Z.to_nat m))
        by lia.
      rewrite <- elems_from_drop. apply elems_from_same; [rewrite Fi; reflexivity|].
      intros j Hj. apply Hv. lia.
    + exact Tr.
    + split; [intros i Hi; apply Hfr; lia|]. split; [intros x Hx; apply Mo; lia|].
      intros b Hb. apply Ho. intros i Hi. apply Hb. lia.
    + apply wf_range_backed. exact W.
Qed.

(** C5 (amended): for a well-formed deque of size [n], a shrink by [k]
    destroys the [min k n] elements at that end and nothing else, moves the
    end (begin) iterator inward by [min k n] so that the new sequence is the
    old one without them, deallocates exactly the blocks of the directory
    slots strictly beyond the slot of the new boundary iterator, up to the
    old boundary slot, nulling those slots, and leaves every position of the
    new range backed by its block.  The block the new boundary iterator
    points into is kept. *)
Theorem shrink_engine_spec (d : deque_t A) (k : Z) :
  deque_valid d = true -> 0 <= k ->
  let n := Z.of_nat (length (to_list d)) in
  let m := Z.min k n in
  (exists d',
      _shrink_at_end d k = Ok d' /\ wf d' /\
      _t_mapsize d' = _t_mapsize d /\ _t_start d' = _t_start d /\
      idx (_t_finish d') = idx (_t_finish d) - m /\
      to_list d' = take (Z.to_nat (n - m)) (to_list d) /\
      trace d' = trace d ++
                 map (fun j => EvDestroy (ptr_at d j))
                     (zrange (idx (_t_finish d) - m) (Z.to_nat m)) ++
                 map (fun j => EvFree (slot_block d (_ppc_mappos (_t_finish d') + 1
                                                     + Z.of_nat j)))
                     (seq 0 (Z.to_nat (_ppc_mappos (_t_finish d)
                                       - _ppc_mappos (_t_finish d')))) /\
      frees_slots d d' (_ppc_mappos (_t_finish d') + 1) (_ppc_mappos (_t_finish d)) /\
      range_backed d') /\
  (exists d',
      _shrink_at_begin d k = Ok d' /\ wf d' /\
      _t_mapsize d' = _t_mapsize d /\ _t_finish d' = _t_finish d /\
      idx (_t_start d') = idx (_t_start d) + m /\
      to_list d' = drop (Z.to_nat m) (to_list d) /\
      trace d' = trace d ++
                 map (fun j => EvDestroy (ptr_at d j))
                     (zrange (idx (_t_start d)) (Z.to_nat m)) ++
                 map (fun j => EvFree (slot_block d (_ppc_mappos (_t_start d') - 1
                                                     - Z.of_nat j)))
                     (seq 0 (Z.to_nat (_ppc_mappos (_t_start d')
                                       - _ppc_mappos (_t_start d)))) /\
      frees_slots d d' (_ppc_mappos (_t_start d)) (_ppc_mappos (_t_start d') - 1) /\
      range_backed d').
Proof.
  intros V Hk. apply shrink_both_ok; [apply deque_valid_wf; exact V | exact Hk].
Qed.

Lemma iterator_valid_ok (d : deque_t A) (it : deque_iterator_t) :
  iterator_valid d it = true -> iter_ok d it.
Proof.
  unfold iterator_valid. intros Hv.
  repeat (apply andb_true_iff in Hv; destruct Hv as [Hv ?]).
  repeat match goal with
         | H : (_ <=? _) = true |- _ => apply Z.leb_le in H
         end.
  constructor; try lia. apply first_cached_lookup. assumption.
Qed.

Lemma set_finish_same (d : deque_t A) : set_finish d (_t_finish d) = d.
Proof. destruct d. reflexivity. Qed.

Lemma set_start_same (d : deque_t A) : set_start d (_t_start d) = d.
Proof. destruct d. reflexivity. Qed.

Lemma prev_n_zero (d : deque_t A) (it : deque_iterator_t) :
  _deque_iterator_prev_n d it 0 = Ok it.
Proof. reflexivity. Qed.

Lemma for_range_empty (body : deque_t A -> deque_iterator_t -> result (deque_t A))
      (d x : deque_t A) (a b : deque_iterator_t) :
  wf x -> iter_ok x a -> iter_ok x b -> idx a = idx b ->
  for_range (loop_fuel d) body x a b = Ok x.
Proof.
  intros H Ha Hb E. unfold loop_fuel. simpl.
  rewrite (iterator_equal_idx x a b H Ha Hb), E, Z.eqb_refl. reflexivity.
Qed.

Lemma shrink_at_end_zero (d : deque_t A) : wf d -> _shrink_at_end d 0 = Ok d.
Proof.
  intros H. pose proof (wf_le d H). unfold _shrink_at_end.
  rewrite (deque_size_ok d H). rsimpl.
  replace (if 0 <? idx (_t_finish d) - idx (_t_start d)
           then 0 else idx (_t_finish d) - idx (_t_start d)) with 0
    by (destruct (Z.ltb_spec 0 (idx (_t_finish d) - idx (_t_start d))); lia).
  unfold deque_end. rewrite prev_n_zero. rsimpl.
  rewrite (belong_ok d _ H (iter_ok_finish d H)). rsimpl.
  rewrite (for_range_empty _ d d _ _ H (iter_ok_finish d H) (iter_ok_finish d H) eq_refl).
  rsimpl. rewrite set_finish_same, Z.sub_diag. reflexivity.
Qed.

(** C10: erasing the empty range [p, p) of a well-formed deque returns the
    deque as it was, state and trace included, together with [p]. *)
Theorem deque_erase_range_empty (d : deque_t A) (p : deque_iterator_t) :
  deque_valid d = true -> iterator_valid d p = true ->
  deque_erase_range d p p = Ok (d, p).
Proof.
  intros V Hp. apply deque_valid_wf in V. apply iterator_valid_ok in Hp.
  unfold deque_erase_range, iterator_distance.
  rewrite (belong_ok d p V Hp). rsimpl.
  rewrite (iterator_equal_idx d p p V Hp Hp), Z.eqb_refl. rsimpl.
  rewrite (iterator_minus_ok d p p V Hp Hp), Z.sub_diag. rsimpl.
  unfold _move_elem_to_begin, deque_end.
  rewrite (iterator_equal_idx d p _ V Hp (iter_ok_finish d V)).
  replace (rand (rnot (Ok (idx p =? idx (_t_finish d)))) (Ok (negb (0 =? 0))))
    with (@Ok bool false) by (destruct (idx p =? idx (_t_finish d)); reflexivity).
  rsimpl. rewrite prev_n_zero. rsimpl.
  rewrite (iterator_minus_ok d p p V Hp Hp), Z.sub_diag. rsimpl.
  rewrite (shrink_at_end_zero d V). reflexivity.
Qed.

(** *** The move engine on a well-formed deque *)

Lemma iterator_less_shape (d d' : deque_t A) (a b : deque_iterator_t) :
  shape_eq d d' -> wf d' -> iter_ok d a -> iter_ok d b ->
  _deque_iterator_less d' a b = Ok (idx a <? idx b).
Proof.
  intros Sh W Ha Hb.
  apply iterator_less_ok; [exact W | |]; apply (iter_ok_shape d); assumption.
Qed.

Lemma move_to_begin_loop_ok (d0 : deque_t A) (c tb0 : Z) (te e : deque_iterator_t) :
  wf d0 -> 1 <= c -> iter_ok d0 e -> iter_ok d0 te -> idx te = idx e - c ->
  idx (_t_start d0) <= tb0 ->
  forall (fuel : nat) (x : deque_t A) (tb b : deque_iterator_t),
    shape_eq d0 x -> wf x -> iter_ok d0 tb -> iter_ok d0 b ->
    idx tb = idx b - c -> tb0 <= idx tb -> idx b <= idx e ->
    idx e - idx b < Z.of_nat fuel ->
    moved_to_begin d0 x c tb0 (idx tb) ->
    exists x' tb' b',
      move_to_begin_loop fuel x tb te b e = Ok (x', tb', b') /\
      shape_eq d0 x' /\ wf x' /\ moved_to_begin d0 x' c tb0 (idx te) /\
      iter_ok d0 tb' /\ iter_ok d0 b' /\ idx tb' = idx te /\ idx b' = idx e.
Proof.
  intros H0 Hc He Hte Ite Htb0.
  pose proof (io_range d0 e He) as Re.
  induction fuel as [|fuel IH]; intros x tb b Sh W Htb Hb Itb Lo Hle Hfuel Inv.
  - lia.
  - simpl. rewrite (iterator_less_shape d0 x tb te Sh W Htb Hte). rsimpl.
    destruct (Z.ltb_spec (idx tb) (idx te)) as [L|L]; rsimpl.
    + rewrite (iterator_less_shape d0 x b e Sh W Hb He). rsimpl.
      destruct (Z.ltb_spec (idx b) (idx e)) as [L2|L2]; [|lia]. rsimpl.
      pose proof (io_range d0 tb Htb) as Rtb. pose proof (io_range d0 b Hb) as Rb.
      pose proof (se_start _ _ Sh) as Es. pose proof (se_finish _ _ Sh) as Ef.
      destruct (copy_elem_ok x tb b W (iter_ok_shape _ _ _ Sh Htb)
                             (iter_ok_shape _ _ _ Sh Hb))
        as (pd & ps & a & x1 & Epd & Eps & Va & Ec & Sh1 & W1 & Tr1 & V1 & O1);
        [rewrite Ef; lia | rewrite Ef; lia |].
      rewrite Ec. rsimpl.
      destruct (iterator_next_ok d0 tb H0 Htb) as (tb' & Ntb & Htb' & Itb'); [lia|].
      destruct (iterator_next_ok d0 b H0 Hb) as (b' & Nb & Hb' & Ib'); [lia|].
      assert (Sh01 : shape_eq d0 x1) by (apply (shape_eq_trans _ x); assumption).
      rewrite (iterator_next_shape _ _ _ Sh01), Ntb. rsimpl.
      rewrite (iterator_next_shape _ _ _ Sh01), Nb. rsimpl.
      destruct Inv as (I1 & I2 & I3).
      apply (IH x1 tb' b'); try assumption; try lia.
      rewrite Itb'. split; [|split].
      * intros j Hj. destruct (Z.eq_dec j (idx tb)) as [->|Hne].
        -- rewrite V1, <- Va. replace (idx tb + c) with (idx b) by lia.
           apply I2; lia.
        -- rewrite O1 by (rewrite ?Es, ?Ef; lia). apply I1. lia.
      * intros j Hj Hn. rewrite O1 by (rewrite ?Es, ?Ef; lia). apply I2; lia.
      * rewrite Tr1, I3, <- app_assoc. f_equal.
        replace (Z.to_nat (idx tb + 1 - tb0)) with (S (Z.to_nat (idx tb - tb0))) by lia.
        rewrite zrange_snoc, map_app. simpl. f_equal.
        rewrite Z2Nat.id by lia.
        replace (tb0 + (idx tb - tb0)) with (idx tb) by lia.
        unfold ptr_at. rewrite <- (elem_ptr_shape _ _ _ Sh), Epd.
        replace (idx tb + c) with (idx b) by lia.
        rewrite <- (elem_ptr_shape _ _ _ Sh), Eps. reflexivity.
    + exists x, tb, b. split; [reflexivity|]. split; [exact Sh|]. split; [exact W|].
      split; [replace (idx te) with (idx tb) by lia; exact Inv|].
      split; [exact Htb|]. split; [exact Hb|]. lia.
Qed.

Lemma moved_to_begin_init (d : deque_t A) (c tb0 : Z) : moved_to_begin d d c tb0 tb0.
Proof.
  split; [intros j Hj; lia|]. split; [reflexivity|].
  rewrite Z.sub_diag. simpl. rewrite app_nil_r. reflexivity.
Qed.

Lemma move_elem_to_begin_ok (d : deque_t A) (b e : deque_iterator_t) (c : Z) :
  wf d -> 1 <= c -> iter_ok d b -> iter_ok d e -> idx b <= idx e ->
  idx (_t_start d) <= idx b - c ->
  exists d1 te,
    _move_elem_to_begin d b e c = Ok (d1, te) /\
    iter_ok d te /\ idx te = idx e - c /\ shape_eq d d1 /\ wf d1 /\
    moved_to_begin d d1 c (idx b - c) (idx e - c).
Proof.
  intros H Hc Hb He Hle Hlo. unfold _move_elem_to_begin, _deque_iterator_before.
  rewrite (iterator_equal_idx d b e H Hb He).
  destruct (iterator_prev_n_ok d e c H He) as (te & Ete & Hte & Ite); [lia | lia |].
  replace (c =? 0) with false by (symmetry; apply Z.eqb_neq; lia).
  destruct (Z.eqb_spec (idx b) (idx e)) as [E|E]; rsimpl.
  - rewrite Ete. rsimpl. exists d, te. split; [reflexivity|].
    split; [exact Hte|]. split; [exact Ite|]. split; [apply shape_eq_refl|].
    split; [exact H|]. rewrite E. apply moved_to_begin_init.
  - destruct (iterator_prev_n_ok d b c H Hb) as (tb & Etb & Htb & Itb); [lia | lia |].
    rewrite (belong_ok d b H Hb). rsimpl.
    rewrite (iterator_less_ok d b e H Hb He).
    replace (idx b <? idx e) with true by (symmetry; apply Z.ltb_lt; lia).
    rsimpl. rewrite Etb, Ete. rsimpl.
    rewrite (iterator_less_ok d tb te H Htb Hte).
    replace (idx tb <? idx te) with true by (symmetry; apply Z.ltb_lt; lia).
    rsimpl.
    destruct (move_to_begin_loop_ok d c (idx b - c) te e H Hc He Hte Ite Hlo
                                    (loop_fuel d) d tb b)
      as (d1 & tb' & b' & El & Sh & W & Inv & Htb' & Hb' & Itb' & Ib');
      try assumption; try lia.
    + apply shape_eq_refl.
    + pose proof (loop_fuel_enough d b H Hb). pose proof (io_range d e He). lia.
    + rewrite Itb. apply moved_to_begin_init.
    + rewrite El. rsimpl. rewrite !(iterator_equal_shape d d1 _ _ Sh).
      rewrite (iterator_equal_idx d tb' te H Htb' Hte).
      rewrite (iterator_equal_idx d b' e H Hb' He).
      rewrite Itb', Ib', !Z.eqb_refl. rsimpl.
      exists d1, te. split; [reflexivity|].
      split; [exact Hte|]. split; [exact Ite|]. split; [exact Sh|].
      split; [exact W|]. rewrite <- Ite. exact Inv.
Qed.

Lemma to_list_lookup (d : deque_t A) (x : nat) :
  Z.of_nat x < idx (_t_finish d) - idx (_t_start d) ->
  to_list d !! x = Some (value_or (elem_val d (idx (_t_start d) + Z.of_nat x))).
Proof.
  intros Hx. unfold to_list, elems_from. rewrite list_lookup_fmap.
  rewrite lookup_seq_lt by lia. reflexivity.
Qed.

Lemma to_list_lookup_ge (d : deque_t A) (x : nat) :
  idx (_t_finish d) - idx (_t_start d) <= Z.of_nat x -> to_list d !! x = None.
Proof.
  intros Hx. apply lookup_ge_None_2. rewrite length_to_list. lia.
Qed.

Lemma no_copy_app (t1 t2 : list event) :
  no_copy (t1 ++ t2) = no_copy t1 && no_copy t2.
Proof. apply forallb_app. Qed.

Lemma no_copy_destroy (f : Z -> pointer) (l : list Z) :
  no_copy (map (fun j => EvDestroy (f j)) l) = true.
Proof. induction l; simpl; auto. Qed.

Lemma no_copy_free (f : nat -> nat) (l : list nat) :
  no_copy (map (fun j => EvFree (f j)) l) = true.
Proof. induction l; simpl; auto. Qed.

Lemma deque_pop_front_ok (d : deque_t A) :
  wf d -> idx (_t_start d) < idx (_t_finish d) ->
  exists d1 t,
    deque_pop_front d = Ok d1 /\ wf d1 /\ trace d1 = trace d ++ t /\
    no_copy t = true /\ to_list d1 = drop 1 (to_list d).
Proof.
  intros H Hne. unfold deque_pop_front. rewrite (deque_size_ok d H). rsimpl.
  replace (idx (_t_finish d) - idx (_t_start d) >? 0) with true
    by (symmetry; apply Z.gtb_lt; lia).
  rsimpl.
  destruct (shrink_both_ok d 1 H ltac:(lia)) as [_ (d1 & E & W & _ & _ & _ & L & T & _)].
  exists d1. eexists. split; [exact E|]. split; [exact W|]. split; [exact T|].
  split; [rewrite no_copy_app, no_copy_destroy, no_copy_free; reflexivity|].
  rewrite L, length_to_list. f_equal. lia.
Qed.

Lemma deque_pop_back_ok (d : deque_t A) :
  wf d -> idx (_t_start d) < idx (_t_finish d) ->
  exists d1 t,
    deque_pop_back d = Ok d1 /\ wf d1 /\ trace d1 = trace d ++ t /\
    no_copy t = true /\ to_list d1 = take (length (to_list d) - 1) (to_list d).
Proof.
  intros H Hne. unfold deque_pop_back. rewrite (deque_size_ok d H). rsimpl.
  replace (idx (_t_finish d) - idx (_t_start d) >? 0) with true
    by (symmetry; apply Z.gtb_lt; lia).
  rsimpl.
  destruct (shrink_both_ok d 1 H ltac:(lia)) as [(d1 & E & W & _ & _ & _ & L & T & _) _].
  exists d1. eexists. split; [exact E|]. split; [exact W|]. split; [exact T|].
  split; [rewrite no_copy_app, no_copy_destroy, no_copy_free; reflexivity|].
  rewrite L, length_to_list. f_equal. lia.
Qed.

(** Erasing an interior position: the elements behind it move one position
    to the front, then the deque shrinks by one at the end. *)
Lemma deque_erase_interior (d : deque_t A) (p : deque_iterator_t) :
  wf d -> iter_ok d p ->
  idx (_t_start d) < idx p < idx (_t_finish d) - 1 ->
  exists d' t_free,
    deque_erase d p = Ok (d', p) /\ wf d' /\
    to_list d' = take (Z.to_nat (idx p - idx (_t_start d))) (to_list d) ++
                 drop (S (Z.to_nat (idx p - idx (_t_start d)))) (to_list d) /\
    trace d' = trace d ++
               map (fun j => EvCopy (ptr_at d j) (FromElem (ptr_at d (j + 1))))
                   (zrange (idx p) (Z.to_nat (idx (_t_finish d) - 1 - idx p))) ++
               [EvDestroy (ptr_at d (idx (_t_finish d) - 1))] ++ t_free /\
    (forall e, In e t_free -> exists b, e = EvFree b).
Proof.
  intros H Hp Hr. pose proof (iter_ok_finish d H) as Hf.
  pose proof (iter_ok_start d H) as Hs.
  unfold deque_erase, deque_end, deque_begin.
  rewrite (belong_ok d p H Hp).
  rewrite (iterator_equal_idx d p _ H Hp Hf), (iterator_equal_idx d p _ H Hp Hs).
  replace (idx p =? idx (_t_finish d)) with false by (symmetry; apply Z.eqb_neq; lia).
  replace (idx p =? idx (_t_start d)) with false by (symmetry; apply Z.eqb_neq; lia).
  rsimpl.
  destruct (iterator_prev_ok d (_t_finish d) H Hf) as (tl & El & Hl & Il); [lia|].
  rewrite El. rsimpl. rewrite (iterator_equal_idx d p tl H Hp Hl).
  replace (idx p =? idx tl) with false by (symmetry; apply Z.eqb_neq; lia).
  destruct (iterator_next_ok d p H Hp) as (p1 & E1 & Hp1 & I1); [lia|].
  rewrite E1. rsimpl.
  destruct (move_elem_to_begin_ok d p1 (_t_finish d) 1 H ltac:(lia) Hp1 Hf)
    as (d1 & te & Em & Hte & Ite & Sh & W1 & (M1 & M2 & M3)); [lia | lia |].
  rewrite Em. rsimpl.
  pose proof (se_start _ _ Sh) as Es. pose proof (se_finish _ _ Sh) as Ef.
  destruct (shrink_at_end_ok d1 1 W1 ltac:(lia))
    as (d2 & Ed & W2 & _ & _ & _ & St & _ & Ine & Hv & _ & _ & _ & Tr).
  rewrite Ed. rsimpl. rewrite Es, Ef in *.
  replace (Z.min 1 (idx (_t_finish d) - idx (_t_start d))) with 1 in * by lia.
  exists d2. eexists. split; [reflexivity|]. split; [exact W2|].
  split; [|split].
  - apply list_eq. intros x.
    destruct (Z_lt_dec (Z.of_nat x) (idx (_t_finish d) - 1 - idx (_t_start d)))
      as [Lx|Lx].
    + rewrite to_list_lookup by (rewrite St, Ine; lia). rewrite St.
      destruct (Hv (idx (_t_start d) + Z.of_nat x)) as [Hv1 _]; [rewrite Ine; lia|].
      rewrite Hv1.
      destruct (Z_lt_dec (Z.of_nat x) (idx p - idx (_t_start d))) as [Lp|Lp].
      * rewrite lookup_app_l by (rewrite length_take, length_to_list; lia).
        rewrite lookup_take_lt by lia. rewrite to_list_lookup by lia.
        rewrite M2 by lia. reflexivity.
      * rewrite lookup_app_r by (rewrite length_take, length_to_list; lia).
        rewrite length_take, length_to_list, lookup_drop.
        rewrite to_list_lookup by lia. rewrite M1 by lia.
        do 3 f_equal. lia.
    + rewrite to_list_lookup_ge by (rewrite St, Ine; lia). symmetry.
      apply lookup_ge_None_2.
      rewrite length_app, length_take, length_drop, length_to_list. lia.
  - rewrite Tr, M3, <- !app_assoc. f_equal.
    replace (idx p1 - 1) with (idx p) by lia.
    replace (Z.to_nat (idx (_t_finish d) - 1 - (idx p1 - 1)))
      with (Z.to_nat (idx (_t_finish d) - 1 - idx p)) by lia.
    f_equal. rewrite Ine. simpl. rewrite Z.add_0_r.
    rewrite (ptr_at_shape _ _ _ Sh). reflexivity.
  - intros e He. apply in_map_iff in He as (j & <- & _). eexists. reflexivity.
Qed.

(** Erase at any position that holds an element returns, and the resulting
    sequence is the original without the element at that position. *)
Lemma deque_erase_removes (d : deque_t A) (p : deque_iterator_t) :
  wf d -> iter_ok d p -> idx p < idx (_t_finish d) ->
  exists d' r,
    deque_erase d p = Ok (d', r) /\ wf d' /\
    to_list d' = take (Z.to_nat (idx p - idx (_t_start d))) (to_list d) ++
                 drop (S (Z.to_nat (idx p - idx (_t_start d)))) (to_list d).
Proof.
  intros H Hp Hlt. pose proof (iter_ok_finish d H) as Hf.
  pose proof (iter_ok_start d H) as Hs. pose proof (io_range d p Hp) as Rp.
  destruct (Z.eq_dec (idx p) (idx (_t_start d))) as [E|E].
  - destruct (deque_pop_front_ok d H) as (d1 & t & E1 & W1 & _ & _ & L); [lia|].
    exists d1, (deque_begin d1). split; [|split; [exact W1|]].
    + unfold deque_erase, deque_end, deque_begin.
      rewrite (belong_ok d p H Hp).
      rewrite (iterator_equal_idx d p _ H Hp Hf), (iterator_equal_idx d p _ H Hp Hs).
      replace (idx p =? idx (_t_finish d)) with false
        by (symmetry; apply Z.eqb_neq; lia).
      rewrite E, Z.eqb_refl. rsimpl. rewrite E1. reflexivity.
    + rewrite L, E, Z.sub_diag. reflexivity.
  - destruct (Z.eq_dec (idx p) (idx (_t_finish d) - 1)) as [E2|E2].
    + destruct (deque_pop_back_ok d H) as (d1 & t & E1 & W1 & _ & _ & L); [lia|].
      exists d1, (deque_end d1). split; [|split; [exact W1|]].
      * unfold deque_erase, deque_end, deque_begin.
        rewrite (belong_ok d p H Hp).
        rewrite (iterator_equal_idx d p _ H Hp Hf), (iterator_equal_idx d p _ H Hp Hs).
        replace (idx p =? idx (_t_finish d)) with false
          by (symmetry; apply Z.eqb_neq; lia).
        replace (idx p =? idx (_t_start d)) with false
          by (symmetry; apply Z.eqb_neq; lia).
        rsimpl.
        destruct (iterator_prev_ok d (_t_finish d) H Hf) as (tl & El & Hl & Il); [lia|].
        rewrite El. rsimpl. rewrite (iterator_equal_idx d p tl H Hp Hl).
        replace (idx p =? idx tl) with true by (symmetry; apply Z.eqb_eq; lia).
        rewrite E1. reflexivity.
      * rewrite L. rewrite (drop_ge (to_list d)) by (rewrite length_to_list; lia).
        rewrite app_nil_r. f_equal. rewrite length_to_list. lia.
    + destruct (deque_erase_interior d p H Hp) as (d' & tf & Ee & W' & L & _); [lia|].
      exists d', p. split; [exact Ee|]. split; [exact W' | exact L].
Qed.

(** C6 (amended): for a well-formed deque and a position [p] that holds an
    element, erase returns and the resulting sequence is the original without
    the element at [p].  Erase at the first position is the call of
    [deque_pop_front] and erase at the last position, when that is not also
    the first, is the call of [deque_pop_back]; neither copies an element.
    At an interior position erase copies each element behind [p] one position
    to the front, destroys the last one and shrinks by one at the end. *)
Theorem deque_erase_spec (d : deque_t A) (p : deque_iterator_t) :
  deque_valid d = true -> iterator_valid d p = true ->
  idx p < idx (_t_finish d) ->
  (exists d' r,
     deque_erase d p = Ok (d', r) /\
     to_list d' = take (Z.to_nat (idx p - idx (_t_start d))) (to_list d) ++
                  drop (S (Z.to_nat (idx p - idx (_t_start d)))) (to_list d)) /\
  (idx p = idx (_t_start d) ->
   deque_erase d p = (let* d1 := deque_pop_front d in Ok (d1, deque_begin d1)) /\
   exists d1 t, deque_pop_front d = Ok d1 /\ trace d1 = trace d ++ t /\
                no_copy t = true /\ to_list d1 = drop 1 (to_list d)) /\
  (idx p = idx (_t_finish d) - 1 -> idx p <> idx (_t_start d) ->
   deque_erase d p = (let* d1 := deque_pop_back d in Ok (d1, deque_end d1)) /\
   exists d1 t, deque_pop_back d = Ok d1 /\ trace d1 = trace d ++ t /\
                no_copy t = true /\
                to_list d1 = take (length (to_list d) - 1) (to_list d)) /\
  (idx (_t_start d) < idx p < idx (_t_finish d) - 1 ->
   exists d' t_free,
     deque_erase d p = Ok (d', p) /\
     to_list d' = take (Z.to_nat (idx p - idx (_t_start d))) (to_list d) ++
                  drop (S (Z.to_nat (idx p - idx (_t_start d)))) (to_list d) /\
     trace d' = trace d ++
                map (fun j => EvCopy (ptr_at d j) (FromElem (ptr_at d (j + 1))))
                    (zrange (idx p) (Z.to_nat (idx (_t_finish d) - 1 - idx p))) ++
                [EvDestroy (ptr_at d (idx (_t_finish d) - 1))] ++ t_free /\
     (forall e, In e t_free -> exists b, e = EvFree b)).
Proof.
  intros V Hp Hlt. apply deque_valid_wf in V. apply iterator_valid_ok in Hp.
  pose proof (iter_ok_finish d V) as Hf. pose proof (iter_ok_start d V) as Hs.
  pose proof (io_range d p Hp) as Rp.
  split; [|split; [|split]].
  - destruct (deque_erase_removes d p V Hp Hlt) as (d' & r & E & _ & L).
    exists d', r. split; assumption.
  - intros E. split.
    + unfold deque_erase, deque_end, deque_begin.
      rewrite (belong_ok d p V Hp).
      rewrite (iterator_equal_idx d p _ V Hp Hf), (iterator_equal_idx d p _ V Hp Hs).
      replace (idx p =? idx (_t_finish d)) with false
        by (symmetry; apply Z.eqb_neq; lia).
      rewrite E, Z.eqb_refl. reflexivity.
    + destruct (deque_pop_front_ok d V) as (d1 & t & E1 & _ & T & N & L); [lia|].
      exists d1, t. repeat split; assumption.
  - intros E Hne. split.
    + unfold deque_erase, deque_end, deque_begin.
      rewrite (belong_ok d p V Hp).
      rewrite (iterator_equal_idx d p _ V Hp Hf), (iterator_equal_idx d p _ V Hp Hs).
      replace (idx p =? idx (_t_finish d)) with false
        by (symmetry; apply Z.eqb_neq; lia).
      replace (idx p =? idx (_t_start d)) with false
        by (symmetry; apply Z.eqb_neq; lia).
      rsimpl.
      destruct (iterator_prev_ok d (_t_finish d) V Hf) as (tl & El & Hl & Il); [lia|].
      rewrite El. rsimpl. rewrite (iterator_equal_idx d p tl V Hp Hl).
      replace (idx p =? idx tl) with true by (symmetry; apply Z.eqb_eq; lia).
      reflexivity.
    + destruct (deque_pop_back_ok d V) as (d1 & t & E1 & _ & T & N & L); [lia|].
      exists d1, t. repeat split; assumption.
  - intros Hr.
    destruct (deque_erase_interior d p V Hp Hr) as (d' & tf & E & _ & L & T & F).
    exists d', tf. repeat split; assumption.
Qed.

Lemma cell_write_heap_length (d d1 : deque_t A) (p : pointer) (a : A) :
  cell_write d p a = Ok d1 -> length (_t_allocater d1) = length (_t_allocater d).
Proof.
  unfold cell_write. destruct (block_of _ _); try discriminate. rsimpl.
  destruct (_ && _); try discriminate. intros E. injection E as <-.
  simpl. apply length_insert.
Qed.

Lemma init_elem_heap_length (d d1 : deque_t A) (it : deque_iterator_t) :
  init_elem d it = Ok d1 -> length (_t_allocater d1) = length (_t_allocater d).
Proof.
  unfold init_elem, type_init.
  destruct (_deque_iterator_get_pointer_auxiliary d it); try discriminate. rsimpl.
  destruct (cell_write d x t_typeinit) eqn:E; try discriminate. rsimpl.
  intros E1. injection E1 as <-. simpl. apply (cell_write_heap_length _ _ _ _ E).
Qed.

(** The init loop: every position of the range holds [t_typeinit] afterwards,
    no other position changes, no block is allocated and one init event per
    position is recorded. *)
Lemma init_range_ok (d : deque_t A) (t_begin t_end : deque_iterator_t) :
  wf d -> iter_ok d t_begin -> iter_ok d t_end -> idx t_begin <= idx t_end ->
  exists d', _deque_init_elem_range_auxiliary d t_begin t_end = Ok d' /\
             shape_eq d d' /\ wf d' /\
             length (_t_allocater d') = length (_t_allocater d) /\
             (forall j, idx t_begin <= j < idx t_end ->
                        elem_val d' j = Ok t_typeinit) /\
             (forall j, idx (_t_start d) <= j < idx (_t_finish d) ->
                        ~ (idx t_begin <= j < idx t_end) ->
                        elem_val d' j = elem_val d j) /\
             trace d' = trace d ++
                        map (fun k => EvInit (ptr_at d k))
                            (zrange (idx t_begin) (Z.to_nat (idx t_end - idx t_begin))).
Proof.
  intros H Hb He Hle. unfold _deque_init_elem_range_auxiliary.
  pose (Inv := fun (k : Z) (x : deque_t A) =>
                 idx t_begin <= k /\ shape_eq d x /\
                 length (_t_allocater x) = length (_t_allocater d) /\
                 (forall j, idx t_begin <= j < k -> elem_val x j = Ok t_typeinit) /\
                 (forall j, idx (_t_start d) <= j < idx (_t_finish d) ->
                            ~ (idx t_begin <= j < k) -> elem_val x j = elem_val d j) /\
                 trace x = trace d ++
                           map (fun k => EvInit (ptr_at d k))
                               (zrange (idx t_begin) (Z.to_nat (k - idx t_begin)))).
  destruct (for_range_inv init_elem t_end Inv) with (fuel := loop_fuel d) (d := d)
                                                     (it := t_begin)
    as (d' & Ef & Sh & W & _ & _ & Hl & Hi & Ho & Ht); try assumption.
  - intros x it Wx Hit Hend Hlt (Rb & Shx & Hlx & Hix & Hox & Htx).
    pose proof (io_range x t_end Hend) as Rend.
    pose proof (io_range x it Hit) as Rit.
    pose proof (se_start _ _ Shx) as Es. pose proof (se_finish _ _ Shx) as Ef.
    destruct (init_elem_ok x it Wx Hit) as (p & x1 & Ep & Ei & Sh1 & W1 & T1 & V1 & O1);
      [lia|].
    exists x1. split; [exact Ei|]. split; [exact Sh1|]. split; [exact W1|].
    split; [lia|].
    split; [apply (shape_eq_trans _ x); assumption|].
    split; [rewrite (init_elem_heap_length _ _ _ Ei); exact Hlx|].
    split; [|split].
    + pose proof (io_range d t_begin Hb) as Rbeg. rewrite Es, Ef in *.
      intros j Hj. destruct (Z.eq_dec j (idx it)) as [->|Hne]; [exact V1|].
      rewrite O1 by lia. apply Hix. lia.
    + rewrite Es, Ef in *.
      intros j Hj Hn. rewrite O1 by lia. apply Hox; [exact Hj | lia].
    + rewrite T1, Htx.
      replace (Z.to_nat (idx it + 1 - idx t_begin))
        with (S (Z.to_nat (idx it - idx t_begin))) by lia.
      rewrite zrange_snoc, map_app, <- app_assoc. simpl. repeat f_equal.
      rewrite Z2Nat.id by lia. unfold ptr_at.
      rewrite <- (elem_ptr_shape _ _ _ Shx).
      replace (idx t_begin + (idx it - idx t_begin)) with (idx it) by lia.
      rewrite Ep. reflexivity.
  - pose proof (loop_fuel_enough d t_begin H Hb). pose proof (io_range d t_end He). lia.
  - split; [lia|]. split; [apply shape_eq_refl|]. split; [reflexivity|].
    split; [intros j Hj; lia|]. split; [reflexivity|].
    rewrite Z.sub_diag. simpl. rewrite app_nil_r. reflexivity.
  - exists d'. split; [exact Ef|]. split; [exact Sh|]. split; [exact W|].
    split; [exact Hl|]. split; [exact Hi|]. split; assumption.
Qed.

Lemma to_next_container_ok (d : deque_t A) (it : deque_iterator_t) :
  wf d -> iter_pos d it ->
  exists it', to_next_container d it = Ok it' /\ iter_ok d it' /\ idx it' = idx it.
Proof.
  intros H Hok. pose proof (wf_fo d H). destruct Hok as [Sl Fi Of Ra].
  unfold to_next_container.
  destruct (Z.eqb_spec (_pc_corepos it) _DEQUE_ELEM_COUNT) as [E|E].
  - unfold idx, _DEQUE_ELEM_COUNT in *.
    destruct (wf_slot_read d (_ppc_mappos it + 1) H) as (b & blk & Hm & Hr & _); [lia|].
    rewrite Hr. rsimpl. eexists. split; [reflexivity|].
    split; [constructor|]; simpl; unfold idx, _DEQUE_ELEM_COUNT; simpl;
      try lia; assumption.
  - exists it. split; [reflexivity|].
    split; [constructor; assumption || contradiction | reflexivity].
Qed.

Lemma expand_at_end_in_block (d : deque_t A) (t : Z) (pt_pos : option deque_iterator_t) :
  wf d -> 0 <= t -> t < _DEQUE_ELEM_COUNT - _pc_corepos (_t_finish d) ->
  exists d',
    _expand_at_end d t pt_pos = Ok (d', _t_finish d, pt_pos) /\ wf d' /\
    _ppc_map d' = _ppc_map d /\ _t_mapsize d' = _t_mapsize d /\
    length (_t_allocater d') = length (_t_allocater d) /\
    _t_start d' = _t_start d /\
    _t_finish d' = set_corepos (_t_finish d) (_pc_corepos (_t_finish d) + t) /\
    trace d' = trace d ++
               map (fun k => EvInit (ptr_at d k))
                   (zrange (idx (_t_finish d)) (Z.to_nat t)) /\
    to_list d' = to_list d ++ replicate (Z.to_nat t) t_typeinit /\
    (forall j, idx (_t_start d) <= j < idx (_t_finish d) ->
               elem_val d' j = elem_val d j).
Proof.
  intros H Ht Hr. pose proof (wf_le d H) as Hle. pose proof (wf_fo d H) as Hfo.
  unfold _expand_at_end, deque_end.
  replace (t <? _DEQUE_ELEM_COUNT - _pc_corepos (_t_finish d)) with true
    by (symmetry; apply Z.ltb_lt; lia).
  rsimpl.
  set (d1 := set_finish d (set_corepos (_t_finish d) (_pc_corepos (_t_finish d) + t))).
  assert (W1 : wf d1).
  { destruct H. constructor; try assumption; simpl; unfold idx in *; simpl; lia. }
  assert (Hoe : iter_ok d1 (_t_finish d)).
  { constructor; simpl.
    - pose proof (wf_slots_ordered d H). lia.
    - apply (wf_ffirst d H).
    - lia.
    - unfold idx in *. simpl. lia.
    - unfold _DEQUE_ELEM_COUNT in *. lia. }
  destruct (init_range_ok d1 (_t_finish d) (_t_finish d1) W1 Hoe (iter_ok_finish d1 W1))
    as (d' & Ei & Sh & W & Hl & Hi & Ho & Tr).
  { unfold idx. simpl. lia. }
  rewrite Ei. rsimpl.
  assert (Ifin : idx (_t_finish d1) = idx (_t_finish d) + t)
    by (unfold idx; simpl; lia).
  exists d'. split; [reflexivity|]. split; [exact W|].
  split; [apply (se_map _ _ Sh)|]. split; [apply (se_mapsize _ _ Sh)|].
  split; [exact Hl|]. split; [apply (se_start _ _ Sh)|].
  split; [apply (se_finish _ _ Sh)|]. split; [|split].
  - rewrite Tr, Ifin.
    replace (idx (_t_finish d) + t - idx (_t_finish d)) with t by lia. reflexivity.
  - apply list_eq. intros x.
    pose proof (se_start _ _ Sh) as Es. pose proof (se_finish _ _ Sh) as Ef.
    simpl in Es.
    destruct (Z_lt_dec (Z.of_nat x) (idx (_t_finish d) - idx (_t_start d))) as [L|L].
    + rewrite lookup_app_l by (rewrite length_to_list; lia).
      rewrite !to_list_lookup by (rewrite ?Es, ?Ef, ?Ifin; lia).
      rewrite Es, Ho; [reflexivity | rewrite Ifin; simpl; lia | lia].
    + rewrite lookup_app_r by (rewrite length_to_list; lia).
      rewrite length_to_list.
      destruct (Z_lt_dec (Z.of_nat x) (idx (_t_finish d) + t - idx (_t_start d)))
        as [L2|L2].
      * rewrite to_list_lookup by (rewrite ?Es, ?Ef, ?Ifin; lia).
        rewrite Es, Hi by (rewrite Ifin; lia). simpl. symmetry.
        apply lookup_replicate_2. lia.
      * rewrite to_list_lookup_ge by (rewrite ?Es, ?Ef, ?Ifin; lia). symmetry.
        apply lookup_ge_None_2. rewrite length_replicate. lia.
  - intros j Hj. rewrite Ho; [reflexivity | rewrite Ifin; simpl; lia | lia].
Qed.

Lemma expand_at_begin_in_block (d : deque_t A) (t : Z) (pt_pos : option deque_iterator_t) :
  wf d -> 0 <= t -> t < _pc_corepos (_t_start d) ->
  match pt_pos with Some p => iter_ok d p | None => True end ->
  exists d' ob pos',
    _expand_at_begin d t pt_pos = Ok (d', ob, pos') /\ wf d' /\
    idx ob = idx (_t_start d) /\ iter_ok d' ob /\ same_position d' pt_pos pos' /\
    _ppc_map d' = _ppc_map d /\ _t_mapsize d' = _t_mapsize d /\
    length (_t_allocater d') = length (_t_allocater d) /\
    _t_finish d' = _t_finish d /\
    _t_start d' = set_corepos (_t_start d) (_pc_corepos (_t_start d) - t) /\
    trace d' = trace d ++
               map (fun k => EvInit (ptr_at d k))
                   (zrange (idx (_t_start d) - t) (Z.to_nat t)) /\
    to_list d' = replicate (Z.to_nat t) t_typeinit ++ to_list d /\
    (forall j, idx (_t_start d) <= j < idx (_t_finish d) ->
               elem_val d' j = elem_val d j).
Proof.
  intros H Ht Hr Hpos. pose proof (wf_le d H) as Hle. pose proof (wf_so d H) as Hso.
  unfold _expand_at_begin, deque_begin.
  replace (t <? _pc_corepos (_t_start d) - 0) with true
    by (symmetry; apply Z.ltb_lt; lia).
  rsimpl.
  set (d1 := set_start d (set_corepos (_t_start d) (_pc_corepos (_t_start d) - t))).
  assert (W1 : wf d1).
  { destruct H. constructor; try assumption; simpl; unfold idx in *; simpl; lia. }
  assert (Ist : idx (_t_start d1) = idx (_t_start d) - t)
    by (unfold idx; simpl; lia).
  assert (Hup : forall it, iter_ok d it -> iter_pos d1 it).
  { intros it [Sl Fi Of Ra No]. constructor; try assumption. rewrite Ist. simpl. lia. }
  destruct (to_next_container_ok d1 (_t_start d) W1 (Hup _ (iter_ok_start d H)))
    as (ob & Eob & Hob & Iob).
  rewrite Eob. rsimpl.
  assert (Epos : exists pos',
             match pt_pos with
             | Some p => let* p' := to_next_container d1 p in Ok (Some p')
             | None => Ok None
             end = Ok pos' /\
             match pt_pos, pos' with
             | Some p, Some p' => idx p' = idx p /\ iter_ok d1 p'
             | None, None => True
             | _, _ => False
             end).
  { destruct pt_pos as [p|]; [|exists None; split; [reflexivity | exact I]].
    destruct (to_next_container_ok d1 p W1 (Hup _ Hpos)) as (p' & Ep & Hp' & Ip).
    exists (Some p'). rewrite Ep. split; [reflexivity | split; assumption]. }
  destruct Epos as (pos' & Epos & Hpos').
  rewrite Epos. rsimpl.
  destruct (init_range_ok d1 (_t_start d1) ob W1 (iter_ok_start d1 W1) Hob)
    as (d' & Ei & Sh & W & Hl & Hi & Ho & Tr); [lia|].
  rewrite Ei. rsimpl.
  exists d', ob, pos'. split; [reflexivity|]. split; [exact W|].
  split; [exact Iob|]. split; [apply (iter_ok_shape _ _ _ Sh Hob)|].
  split.
  { unfold same_position. destruct pt_pos, pos'; try assumption.
    destruct Hpos' as [I1 I2]. split; [exact I1 | apply (iter_ok_shape _ _ _ Sh I2)]. }
  split; [apply (se_map _ _ Sh)|]. split; [apply (se_mapsize _ _ Sh)|].
  split; [exact Hl|]. split; [apply (se_finish _ _ Sh)|].
  split; [apply (se_start _ _ Sh)|]. split; [|split].
  - rewrite Tr, Iob, Ist.
    replace (idx (_t_start d) - (idx (_t_start d) - t)) with t by lia. reflexivity.
  - apply list_eq. intros x.
    pose proof (se_start _ _ Sh) as Es. pose proof (se_finish _ _ Sh) as Ef.
    simpl in Ef.
    destruct (Z_lt_dec (Z.of_nat x) t) as [L|L].
    + rewrite lookup_app_l by (rewrite length_replicate; lia).
      rewrite to_list_lookup by (rewrite ?Es, ?Ef, ?Ist; lia).
      rewrite Es, Hi by (rewrite ?Ist, ?Iob; lia). simpl. symmetry.
      apply lookup_replicate_2. lia.
    + rewrite lookup_app_r by (rewrite length_replicate; lia).
      rewrite length_replicate.
      destruct (Z_lt_dec (Z.of_nat x) (idx (_t_finish d) - idx (_t_start d) + t))
        as [L2|L2].
      * rewrite !to_list_lookup by (rewrite ?Es, ?Ef, ?Ist; lia).
        rewrite Es, Ho; [| rewrite Ist; simpl; lia | rewrite ?Ist, ?Iob; lia].
        rewrite Ist. do 3 f_equal. lia.
      * rewrite !to_list_lookup_ge by (rewrite ?Es, ?Ef, ?Ist; lia). reflexivity.
  - intros j Hj.
    rewrite Ho; [reflexivity | rewrite Ist; simpl; lia | rewrite ?Ist, ?Iob; lia].
Qed.


(** ** The directory capacity *)

(** Inversion of a successful bind. *)
Lemma rbind_ok {X Y : Type} (c : result X) (k : X -> result Y) (y : Y) :
  rbind c k = Ok y -> exists x, c = Ok x /\ k x = Ok y.
Proof. destruct c; try discriminate. intros E. exists x. split; [reflexivity | exact E]. Qed.

Ltac bind_inv H :=
  let x := fresh "x" in
  let E := fresh "E" in
  apply rbind_ok in H as (x & E & H).

Lemma cell_write_shape (d d1 : deque_t A) (p : pointer) (a : A) :
  cell_write d p a = Ok d1 -> shape_eq d d1.
Proof.
  unfold cell_write. intros E. bind_inv E.
  destruct (_ && _); try discriminate. injection E as <-. constructor; reflexivity.
Qed.

Lemma init_elem_shape (d d1 : deque_t A) (it : deque_iterator_t) :
  init_elem d it = Ok d1 -> shape_eq d d1.
Proof.
  unfold init_elem, type_init. intros E. bind_inv E. bind_inv E.
  injection E as <-. apply (shape_eq_trans _ x0); [|apply shape_eq_log].
  apply (cell_write_shape _ _ _ _ E1).
Qed.

Lemma destroy_elem_shape (d d1 : deque_t A) (it : deque_iterator_t) :
  destroy_elem d it = Ok d1 -> shape_eq d d1.
Proof.
  unfold destroy_elem, type_destroy. intros E. bind_inv E. bind_inv E.
  injection E as <-. apply shape_eq_log.
Qed.

Lemma copy_value_elem_shape (a : A) (d d1 : deque_t A) (it : deque_iterator_t) :
  copy_value_elem a d it = Ok d1 -> shape_eq d d1.
Proof.
  unfold copy_value_elem, type_copy_value. intros E. bind_inv E. bind_inv E.
  injection E as <-. apply (shape_eq_trans _ x0); [|apply shape_eq_log].
  apply (cell_write_shape _ _ _ _ E1).
Qed.

Lemma copy_elem_shape (d d1 : deque_t A) (t_dst t_src : deque_iterator_t) :
  copy_elem d t_dst t_src = Ok d1 -> shape_eq d d1.
Proof.
  unfold copy_elem, type_copy. intros E. bind_inv E. bind_inv E. bind_inv E.
  bind_inv E. injection E as <-.
  apply (shape_eq_trans _ x2); [|apply shape_eq_log].
  apply (cell_write_shape _ _ _ _ E3).
Qed.

Lemma for_range_shape (body : deque_t A -> deque_iterator_t -> result (deque_t A)) :
  (forall d d1 it, body d it = Ok d1 -> shape_eq d d1) ->
  forall (fuel : nat) (d d' : deque_t A) (a b : deque_iterator_t),
    for_range fuel body d a b = Ok d' -> shape_eq d d'.
Proof.
  intros Hb. induction fuel as [|fuel IH]; intros d d' a b E; [discriminate|].
  simpl in E. bind_inv E. destruct x.
  - injection E as <-. apply shape_eq_refl.
  - bind_inv E. bind_inv E.
    apply (shape_eq_trans _ x); [apply (Hb _ _ _ E1) | apply (IH _ _ _ _ E)].
Qed.

Lemma fill_n_shape (a : A) (n : nat) :
  forall (d d' : deque_t A) (it : deque_iterator_t),
    fill_n n a d it = Ok d' -> shape_eq d d'.
Proof.
  induction n as [|n IH]; intros d d' it E; simpl in E.
  - injection E as <-. apply shape_eq_refl.
  - bind_inv E. bind_inv E.
    apply (shape_eq_trans _ x); [apply (copy_value_elem_shape _ _ _ _ E0)|].
    apply (IH _ _ _ E).
Qed.

(** Inversion of every bind of a successful call, splitting the tuples the
    binds return. *)
Ltac bind_inv_all H :=
  repeat (bind_inv H;
          repeat match goal with x : (_ * _)%type |- _ => destruct x end).

Lemma move_to_begin_loop_shape (fuel : nat) :
  forall (d d' : deque_t A) (tb te b e tb' b' : deque_iterator_t),
    move_to_begin_loop fuel d tb te b e = Ok (d', tb', b') -> shape_eq d d'.
Proof.
  induction fuel as [|fuel IH]; intros d d' tb te b e tb' b' E; [discriminate|].
  simpl in E. bind_inv E. destruct x.
  - bind_inv_all E.
    match goal with
    | H : copy_elem _ _ _ = Ok ?y |- _ =>
        apply (shape_eq_trans _ y); [apply (copy_elem_shape _ _ _ _ H)|]
    end.
    apply (IH _ _ _ _ _ _ _ _ E).
  - injection E as <- _ _. apply shape_eq_refl.
Qed.

Lemma move_to_end_loop_shape (fuel : nat) :
  forall (d d' : deque_t A) (te tb e b te' e' : deque_iterator_t),
    move_to_end_loop fuel d te tb e b = Ok (d', te', e') -> shape_eq d d'.
Proof.
  induction fuel as [|fuel IH]; intros d d' te tb e b te' e' E; [discriminate|].
  simpl in E. bind_inv E. destruct x.
  - bind_inv_all E.
    match goal with
    | H : copy_elem _ _ _ = Ok ?y |- _ =>
        apply (shape_eq_trans _ y); [apply (copy_elem_shape _ _ _ _ H)|]
    end.
    apply (IH _ _ _ _ _ _ _ _ E).
  - injection E as <- _ _. apply shape_eq_refl.
Qed.

Lemma move_elem_to_begin_shape (d d' : deque_t A) (b e t : deque_iterator_t) (c : Z) :
  _move_elem_to_begin d b e c = Ok (d', t) -> shape_eq d d'.
Proof.
  unfold _move_elem_to_begin. intros E. bind_inv E. destruct x.
  - bind_inv_all E. injection E as <- _.
    match goal with
    | H : move_to_begin_loop _ _ _ _ _ _ = Ok _ |- _ =>
        exact (move_to_begin_loop_shape _ _ _ _ _ _ _ _ _ H)
    end.
  - bind_inv E. injection E as <- _. apply shape_eq_refl.
Qed.

Lemma move_elem_to_end_shape (d d' : deque_t A) (b e t : deque_iterator_t) (c : Z) :
  _move_elem_to_end d b e c = Ok (d', t) -> shape_eq d d'.
Proof.
  unfold _move_elem_to_end. intros E. bind_inv E. destruct x.
  - bind_inv_all E. injection E as <- _.
    match goal with
    | H : move_to_end_loop _ _ _ _ _ _ = Ok _ |- _ =>
        exact (move_to_end_loop_shape _ _ _ _ _ _ _ _ _ H)
    end.
  - injection E as <- _. apply shape_eq_refl.
Qed.

Lemma same_directory_refl (d : deque_t A) : same_directory d d.
Proof. split; reflexivity. Qed.

Lemma same_directory_trans (d1 d2 d3 : deque_t A) :
  same_directory d1 d2 -> same_directory d2 d3 -> same_directory d1 d3.
Proof. intros [] []. split; congruence. Qed.

Lemma shape_same_directory (d d' : deque_t A) : shape_eq d d' -> same_directory d d'.
Proof. intros [_ Em Ez _ _]. split; congruence. Qed.

Lemma map_write_length (m m' : list (option nat)) (i : Z) (v : option nat) :
  map_write m i v = Ok m' -> length m' = length m.
Proof.
  unfold map_write. destruct (_ && _); try discriminate.
  intros E. injection E as <-. apply length_insert.
Qed.

Lemma allocate_containers_directory (n : nat) :
  forall (d d' : deque_t A) (slot dir : Z),
    allocate_containers n d slot dir = Ok d' -> same_directory d d'.
Proof.
  induction n as [|n IH]; intros d d' slot dir E; simpl in E.
  - injection E as <-. apply same_directory_refl.
  - bind_inv E. apply IH in E. destruct E as [E1 E2]. simpl in E1, E2.
    split; [exact E1|]. rewrite E2. apply (map_write_length _ _ _ _ E0).
Qed.

Lemma deallocate_containers_directory (n : nat) :
  forall (d d' : deque_t A) (slot dir : Z),
    deallocate_containers n d slot dir = Ok d' -> same_directory d d'.
Proof.
  induction n as [|n IH]; intros d d' slot dir E; simpl in E.
  - injection E as <-. apply same_directory_refl.
  - bind_inv E. bind_inv E. bind_inv E.
    apply IH in E. destruct E as [E3 E4]. simpl in E3, E4.
    unfold deallocate_block in E1. destruct x; try discriminate.
    bind_inv E1. injection E1 as <-. simpl in *.
    split; [exact E3|]. rewrite E4. apply (map_write_length _ _ _ _ E2).
Qed.

Lemma copy_slots_length (dst src m : list (option nat)) (dstpos srcpos n : Z) :
  copy_slots dst dstpos src srcpos n = Ok m -> length m = length dst.
Proof.
  unfold copy_slots.
  destruct ((0 <=? n) && (0 <=? srcpos) && (srcpos + n <=? Z.of_nat (length src)) &&
            (0 <=? dstpos) && (dstpos + n <=? Z.of_nat (length dst))) eqn:C;
    try discriminate.
  intros E. injection E as <-.
  repeat (apply andb_true_iff in C; destruct C as [C ?]).
  repeat match goal with
         | H : (_ <=? _) = true |- _ => apply Z.leb_le in H
         end.
  rewrite !length_app, !length_take, !length_drop. lia.
Qed.

Lemma shrink_at_end_directory (d d' : deque_t A) (k : Z) :
  _shrink_at_end d k = Ok d' -> same_directory d d'.
Proof.
  unfold _shrink_at_end. intros E. do 4 bind_inv E.
  apply deallocate_containers_directory in E.
  apply (for_range_shape _ destroy_elem_shape) in E3.
  apply shape_same_directory in E3.
  apply (same_directory_trans _ x2); [exact E3|]. exact E.
Qed.

Lemma shrink_at_begin_directory (d d' : deque_t A) (k : Z) :
  _shrink_at_begin d k = Ok d' -> same_directory d d'.
Proof.
  unfold _shrink_at_begin. intros E. do 4 bind_inv E.
  apply deallocate_containers_directory in E.
  apply (for_range_shape _ destroy_elem_shape) in E3.
  apply shape_same_directory in E3.
  apply (same_directory_trans _ x2); [exact E3|]. exact E.
Qed.

Lemma directory_after_trans (d d1 d2 : deque_t A) (c : Z) :
  directory_after d d1 c -> same_directory d1 d2 -> directory_after d d2 c.
Proof.
  unfold directory_after. intros H [E1 E2]. destruct (c >? spare_slots d).
  - destruct H as [H1 H2]. split; congruence.
  - apply (same_directory_trans _ d1); [exact H | split; assumption].
Qed.

Lemma expand_at_end_directory (d d' : deque_t A) (t : Z)
      (pt_pos pt_pos' : option deque_iterator_t) (oe : deque_iterator_t) :
  _expand_at_end d t pt_pos = Ok (d', oe, pt_pos') ->
  if t <? _DEQUE_ELEM_COUNT - _pc_corepos (_t_finish d)
  then same_directory d d'
  else directory_after d d'
         (containers_needed (t - (_DEQUE_ELEM_COUNT - _pc_corepos (_t_finish d)))).
Proof.
  unfold _expand_at_end, deque_end. intros E. bind_inv E.
  destruct x as [[d1 oe1] pos1]. bind_inv E. injection E as <- _ _.
  apply (for_range_shape _ init_elem_shape) in E1. apply shape_same_directory in E1.
  destruct (t <? _DEQUE_ELEM_COUNT - _pc_corepos (_t_finish d)).
  - injection E0 as <- _ _. exact E1.
  - bind_inv E0. destruct x0 as [[d2 oe2] pos2]. bind_inv E0. bind_inv E0.
    injection E0 as <- _ _.
    apply allocate_containers_directory in E2.
    apply (directory_after_trans _ x0); [|exact E1].
    apply (directory_after_trans _ d2); [|exact E2].
    unfold directory_after, containers_needed, spare_slots, ceil_div.
    set (c := if (t - (_DEQUE_ELEM_COUNT - _pc_corepos (_t_finish d)))
                   mod _DEQUE_ELEM_COUNT =? 0
              then (t - (_DEQUE_ELEM_COUNT - _pc_corepos (_t_finish d))
                    + _DEQUE_ELEM_COUNT - 1) / _DEQUE_ELEM_COUNT + 1
              else (t - (_DEQUE_ELEM_COUNT - _pc_corepos (_t_finish d))
                    + _DEQUE_ELEM_COUNT - 1) / _DEQUE_ELEM_COUNT) in *.
    set (r := _t_mapsize d - (_ppc_mappos (_t_finish d) - _ppc_mappos (_t_start d) + 1))
      in *.
    destruct (c >? r).
    + bind_inv E. injection E as <- _ _. simpl. split; [reflexivity|].
      rewrite (copy_slots_length _ _ _ _ _ _ E0), length_replicate. reflexivity.
    + destruct (_ && _).
      * bind_inv E. injection E as <- _ _. split; [reflexivity|]. simpl.
        apply (copy_slots_length _ _ _ _ _ _ E0).
      * injection E as <- _ _. apply same_directory_refl.
Qed.

Lemma expand_at_begin_directory (d d' : deque_t A) (t : Z)
      (pt_pos pt_pos' : option deque_iterator_t) (ob : deque_iterator_t) :
  _expand_at_begin d t pt_pos = Ok (d', ob, pt_pos') ->
  if t <? _pc_corepos (_t_start d)
  then same_directory d d'
  else directory_after d d' (containers_needed (t - _pc_corepos (_t_start d))).
Proof.
  unfold _expand_at_begin, deque_begin. intros E. bind_inv E.
  destruct x as [[d1 ob1] pos1]. bind_inv E. bind_inv E. bind_inv E.
  injection E as <- _ _.
  apply (for_range_shape _ init_elem_shape) in E3. apply shape_same_directory in E3.
  rewrite Z.sub_0_r in E0.
  destruct (t <? _pc_corepos (_t_start d)).
  - injection E0 as <- _ _. exact E3.
  - bind_inv E0. destruct x2 as [[d2 ob2] pos2]. bind_inv E0. bind_inv E0.
    injection E0 as <- _ _.
    apply allocate_containers_directory in E4.
    apply (directory_after_trans _ x2); [|exact E3].
    apply (directory_after_trans _ d2); [|exact E4].
    unfold directory_after, containers_needed, spare_slots, ceil_div.
    set (c := if (t - _pc_corepos (_t_start d)) mod _DEQUE_ELEM_COUNT =? 0
              then (t - _pc_corepos (_t_start d) + _DEQUE_ELEM_COUNT - 1)
                     / _DEQUE_ELEM_COUNT + 1
              else (t - _pc_corepos (_t_start d) + _DEQUE_ELEM_COUNT - 1)
                     / _DEQUE_ELEM_COUNT) in *.
    set (r := _t_mapsize d - (_ppc_mappos (_t_finish d) - _ppc_mappos (_t_start d) + 1))
      in *.
    destruct (c >? r).
    + bind_inv E. injection E as <- _ _. simpl. split; [reflexivity|].
      rewrite (copy_slots_length _ _ _ _ _ _ E0), length_replicate. reflexivity.
    + destruct (_ && _).
      * bind_inv E. injection E as <- _ _. split; [reflexivity|]. simpl.
        apply (copy_slots_length _ _ _ _ _ _ E0).
      * injection E as <- _ _. apply same_directory_refl.
Qed.

Lemma ceil_div_grow_step (s : Z) :
  (ceil_div s _DEQUE_MAP_GROW_STEP * _DEQUE_MAP_GROW_STEP) mod _DEQUE_MAP_GROW_STEP = 0 /\
  s <= ceil_div s _DEQUE_MAP_GROW_STEP * _DEQUE_MAP_GROW_STEP < s + _DEQUE_MAP_GROW_STEP.
Proof.
  unfold ceil_div, _DEQUE_MAP_GROW_STEP. split.
  - apply Z.mod_mul. lia.
  - pose proof (Z.div_mod (s + 8 - 1) 8 ltac:(lia)).
    pose proof (Z.mod_pos_bound (s + 8 - 1) 8 ltac:(lia)). lia.
Qed.


Lemma directory_step_trans (d1 d2 d3 : deque_t A) :
  directory_step d1 d2 -> directory_step d2 d3 -> directory_step d1 d3.
Proof.
  intros [[E1 L1]|H1] [[E2 L2]|H2].
  - left. split; congruence.
  - right. lia.
  - right. lia.
  - right. lia.
Qed.

Lemma same_directory_step (d d' : deque_t A) : same_directory d d' -> directory_step d d'.
Proof. intros H. left. exact H. Qed.

Lemma directory_after_step (d d' : deque_t A) (c : Z) :
  directory_after d d' c -> directory_step d d'.
Proof.
  unfold directory_after. destruct (Z.gtb_spec c (spare_slots d)) as [G|G].
  - intros [E _]. right.
    pose proof (ceil_div_grow_step (c - spare_slots d)) as [_ Hg].
    unfold _DEQUE_MAP_GROW_STEP in *. lia.
  - intros H. left. exact H.
Qed.

Lemma expand_at_end_step (d d' : deque_t A) (t : Z)
      (pt_pos pt_pos' : option deque_iterator_t) (oe : deque_iterator_t) :
  _expand_at_end d t pt_pos = Ok (d', oe, pt_pos') -> directory_step d d'.
Proof.
  intros E. apply expand_at_end_directory in E.
  destruct (t <? _); [left; exact E | apply (directory_after_step _ _ _ E)].
Qed.

Lemma expand_at_begin_step (d d' : deque_t A) (t : Z)
      (pt_pos pt_pos' : option deque_iterator_t) (ob : deque_iterator_t) :
  _expand_at_begin d t pt_pos = Ok (d', ob, pt_pos') -> directory_step d d'.
Proof.
  intros E. apply expand_at_begin_directory in E.
  destruct (t <? _); [left; exact E | apply (directory_after_step _ _ _ E)].
Qed.

(** *** Sequences of operations *)

Lemma deque_pop_back_directory (d d' : deque_t A) :
  deque_pop_back d = Ok d' -> same_directory d d'.
Proof.
  unfold deque_pop_back. intros E. bind_inv E. bind_inv E.
  apply (shrink_at_end_directory _ _ _ E).
Qed.

Lemma deque_pop_front_directory (d d' : deque_t A) :
  deque_pop_front d = Ok d' -> same_directory d d'.
Proof.
  unfold deque_pop_front. intros E. bind_inv E. bind_inv E.
  apply (shrink_at_begin_directory _ _ _ E).
Qed.

Lemma deque_erase_directory (d d' : deque_t A) (p r : deque_iterator_t) :
  deque_erase d p = Ok (d', r) -> same_directory d d'.
Proof.
  unfold deque_erase. intros E. do 3 bind_inv E.
  match goal with e : bool |- _ => destruct e end.
  - bind_inv E. injection E as <- _.
    eapply deque_pop_front_directory; eassumption.
  - do 2 bind_inv E. match goal with e : bool |- _ => destruct e end.
    + bind_inv E. injection E as <- _.
      eapply deque_pop_back_directory; eassumption.
    + bind_inv_all E. injection E as <- _.
      match goal with
      | H : _move_elem_to_begin _ _ _ _ = Ok _ |- _ =>
          apply move_elem_to_begin_shape in H; apply shape_same_directory in H
      end.
      eapply same_directory_trans; [eassumption|].
      eapply shrink_at_end_directory; eassumption.
Qed.

Lemma deque_erase_range_directory (d d' : deque_t A) (p q r : deque_iterator_t) :
  deque_erase_range d p q = Ok (d', r) -> same_directory d d'.
Proof.
  unfold deque_erase_range. intros E. bind_inv_all E. injection E as <- _.
  match goal with
  | H : _move_elem_to_begin _ _ _ _ = Ok _ |- _ =>
      apply move_elem_to_begin_shape in H; apply shape_same_directory in H
  end.
  eapply same_directory_trans; [eassumption|].
  eapply shrink_at_end_directory; eassumption.
Qed.

Lemma deque_insert_n_step (d d' : deque_t A) (p r : deque_iterator_t) (n : Z) (a : A) :
  _deque_insert_n d p n a = Ok (d', r) -> directory_step d d'.
Proof.
  unfold _deque_insert_n. intros E. do 3 bind_inv E.
  destruct (_ <? _).
  - bind_inv_all E. injection E as <- _.
    repeat match goal with
           | H : _expand_at_begin _ _ _ = Ok _ |- _ => apply expand_at_begin_step in H
           | H : _move_elem_to_begin _ _ _ _ = Ok _ |- _ =>
               apply move_elem_to_begin_shape in H
           | H : for_range _ _ _ _ _ = Ok _ |- _ =>
               apply (for_range_shape _ (copy_value_elem_shape a)) in H
           end.
    eapply directory_step_trans; [eassumption|]. left.
    apply shape_same_directory. eapply shape_eq_trans; eassumption.
  - bind_inv_all E. injection E as <- _.
    repeat match goal with
           | H : _expand_at_end _ _ _ = Ok _ |- _ => apply expand_at_end_step in H
           | H : _move_elem_to_end _ _ _ _ = Ok _ |- _ =>
               apply move_elem_to_end_shape in H
           | H : fill_n _ _ _ _ = Ok _ |- _ => apply fill_n_shape in H
           end.
    eapply directory_step_trans; [eassumption|]. left.
    apply shape_same_directory. eapply shape_eq_trans; eassumption.
Qed.

Lemma run_op_step (d d' : deque_t A) (op : deque_op A) :
  run_op d op = Ok d' ->
  directory_step d d' /\ (removes_only op = true -> same_directory d d').
Proof.
  destruct op; simpl; intros E.
  - split; [|discriminate]. unfold _deque_push_back in E. bind_inv E.
    destruct x as [[d1 oe] pos]. apply expand_at_end_step in E0. bind_inv E.
    apply copy_value_elem_shape in E. apply (directory_step_trans _ d1); [exact E0|].
    left. apply shape_same_directory. exact E.
  - split; [|discriminate]. unfold _deque_push_front in E. bind_inv E.
    destruct x as [[d1 ob] pos]. apply expand_at_begin_step in E0.
    apply copy_value_elem_shape in E. apply (directory_step_trans _ d1); [exact E0|].
    left. apply shape_same_directory. exact E.
  - apply deque_pop_back_directory in E. split; [left|intros _]; exact E.
  - apply deque_pop_front_directory in E. split; [left|intros _]; exact E.
  - split; [|discriminate]. bind_inv E. bind_inv E. destruct x0 as [d1 r].
    injection E as <-. apply (deque_insert_n_step _ _ _ _ _ _ E1).
  - bind_inv E. bind_inv E. destruct x0 as [d1 r]. injection E as <-.
    apply deque_erase_directory in E1. split; [left|intros _]; exact E1.
  - bind_inv E. bind_inv E. bind_inv E. destruct x1 as [d1 r]. injection E as <-.
    apply deque_erase_range_directory in E2. split; [left|intros _]; exact E2.
  - split; [|discriminate]. unfold deque_resize in E. bind_inv E.
    destruct (n <? x).
    + left. apply (shrink_at_end_directory _ _ _ E).
    + destruct (n >? x).
      * bind_inv E. destruct x0 as [[d1 oe] pos]. injection E as <-.
        apply (expand_at_end_step _ _ _ _ _ _ E1).
      * injection E as <-. left. apply same_directory_refl.
  - unfold deque_clear in E. bind_inv E. destruct x as [d1 r]. injection E as <-.
    apply deque_erase_range_directory in E0. split; [left|intros _]; exact E0.
Qed.


(** Two deques and their swap: each directory keeps its capacity or is
    replaced by a strictly larger one, and a swap hands it to the other
    deque as it is. *)
Lemma directory_follows_swap (ops : list (pair_op A)) :
  forall a b a' b' : deque_t A,
    run_pair_ops (a, b) ops = Ok (a', b') ->
    if exchanged ops
    then directory_step a b' /\ directory_step b a'
    else directory_step a a' /\ directory_step b b'.
Proof.
  induction ops as [|op ops IH]; intros a b a' b' E; simpl in E.
  - injection E as <- <-. simpl. split; left; apply same_directory_refl.
  - bind_inv E. destruct x as [a1 b1]. specialize (IH _ _ _ _ E).
    destruct op as [o|o|]; simpl in E0; simpl.
    + bind_inv E0. injection E0 as <- <-.
      destruct (run_op_step _ _ _ E1) as [S _].
      destruct (exchanged ops); destruct IH as [I1 I2];
        (split; [apply (directory_step_trans _ x); assumption | assumption]).
    + bind_inv E0. injection E0 as <- <-.
      destruct (run_op_step _ _ _ E1) as [S _].
      destruct (exchanged ops); destruct IH as [I1 I2];
        (split; [assumption | apply (directory_step_trans _ x); assumption]).
    + unfold deque_swap in E0. bind_inv E0. injection E0 as <- <-.
      destruct (exchanged ops); simpl; destruct IH as [I1 I2]; split; assumption.
Qed.

(** C4 (amended): for two deques whose element types differ, [deque_less] is
    a contract failure raised by its assertion, whereas [deque_equal] reports
    the mismatch through its return value: on initialised deques it returns
    false, and [deque_not_equal] true. *)
Theorem deque_compare_type_mismatch (d1 d2 : deque_t A) :
  _deque_same_type d1 d2 = false ->
  deque_less d1 d2 = AssertFail /\
  ((_t_mapsize d1 >? 0) && (_t_mapsize d2 >? 0) = true ->
   deque_equal d1 d2 = Ok false /\ deque_not_equal d1 d2 = Ok true).
Proof.
  intros Hty. split.
  - unfold deque_less. rewrite Hty. reflexivity.
  - intros Hm. unfold deque_not_equal, deque_equal. rewrite Hm, Hty.
    split; reflexivity.
Qed.

(** *** Insertion inside the boundary blocks *)

(** The gap-filling loop of the front branch of the insert: every position of
    the range holds the value afterwards, no other position changes and one
    copy from the value is recorded per position. *)
Lemma fill_range_ok (d : deque_t A) (t_begin t_end : deque_iterator_t) (a : A) :
  wf d -> iter_ok d t_begin -> iter_ok d t_end -> idx t_begin <= idx t_end ->
  exists d', for_range (loop_fuel d) (copy_value_elem a) d t_begin t_end = Ok d' /\
             shape_eq d d' /\ wf d' /\
             (forall j, idx t_begin <= j < idx t_end -> elem_val d' j = Ok a) /\
             (forall j, idx (_t_start d) <= j < idx (_t_finish d) ->
                        ~ (idx t_begin <= j < idx t_end) ->
                        elem_val d' j = elem_val d j) /\
             trace d' = trace d ++
                        map (fun k => EvCopy (ptr_at d k) FromValue)
                            (zrange (idx t_begin) (Z.to_nat (idx t_end - idx t_begin))).
Proof.
  intros H Hb He Hle.
  pose (Inv := fun (k : Z) (x : deque_t A) =>
                 idx t_begin <= k /\ shape_eq d x /\
                 (forall j, idx t_begin <= j < k -> elem_val x j = Ok a) /\
                 (forall j, idx (_t_start d) <= j < idx (_t_finish d) ->
                            ~ (idx t_begin <= j < k) -> elem_val x j = elem_val d j) /\
                 trace x = trace d ++
                           map (fun k => EvCopy (ptr_at d k) FromValue)
                               (zrange (idx t_begin) (Z.to_nat (k - idx t_begin)))).
  destruct (for_range_inv (copy_value_elem a) t_end Inv)
    with (fuel := loop_fuel d) (d := d) (it := t_begin)
    as (d' & Ef & Sh & W & _ & _ & Hi & Ho & Ht); try assumption.
  - intros x it Wx Hit Hend Hlt (Rb & Shx & Hix & Hox & Htx).
    pose proof (io_range x t_end Hend) as Rend.
    pose proof (io_range x it Hit) as Rit.
    pose proof (se_start _ _ Shx) as Es. pose proof (se_finish _ _ Shx) as Ef.
    destruct (copy_value_elem_ok x it a Wx Hit)
      as (p & x1 & Ep & Ei & Sh1 & W1 & T1 & V1 & O1); [lia|].
    exists x1. split; [exact Ei|]. split; [exact Sh1|]. split; [exact W1|].
    split; [lia|].
    split; [apply (shape_eq_trans _ x); assumption|].
    split; [|split].
    + pose proof (io_range d t_begin Hb) as Rbeg. rewrite Es, Ef in *.
      intros j Hj. destruct (Z.eq_dec j (idx it)) as [->|Hne]; [exact V1|].
      rewrite O1 by lia. apply Hix. lia.
    + rewrite Es, Ef in *.
      intros j Hj Hn. rewrite O1 by lia. apply Hox; [exact Hj | lia].
    + rewrite T1, Htx.
      replace (Z.to_nat (idx it + 1 - idx t_begin))
        with (S (Z.to_nat (idx it - idx t_begin))) by lia.
      rewrite zrange_snoc, map_app, <- app_assoc. simpl. repeat f_equal.
      rewrite Z2Nat.id by lia. unfold ptr_at.
      rewrite <- (elem_ptr_shape _ _ _ Shx).
      replace (idx t_begin + (idx it - idx t_begin)) with (idx it) by lia.
      rewrite Ep. reflexivity.
  - pose proof (loop_fuel_enough d t_begin H Hb). pose proof (io_range d t_end He). lia.
  - split; [lia|]. split; [apply shape_eq_refl|].
    split; [intros j Hj; lia|]. split; [reflexivity|].
    rewrite Z.sub_diag. simpl. rewrite app_nil_r. reflexivity.
  - exists d'. split; [exact Ef|]. split; [exact Sh|]. split; [exact W|].
    split; [exact Hi|]. split; assumption.
Qed.

(** Lookup in a list into which [c] copies of [a] were spliced at index [p]. *)
Lemma lookup_splice (l : list A) (p c : nat) (a : A) (x : nat) :
  (p <= length l)%nat ->
  (take p l ++ replicate c a ++ drop p l) !! x
  = if (x <? p)%nat then l !! x
    else if (x <? p + c)%nat then Some a else l !! (x - c)%nat.
Proof.
  intros Hp.
  destruct (Nat.ltb_spec x p) as [L|L].
  - rewrite lookup_app_l by (rewrite length_take; lia).
    apply lookup_take_lt. exact L.
  - rewrite lookup_app_r by (rewrite length_take; lia).
    rewrite length_take. replace (p `min` length l)%nat with p by lia.
    destruct (Nat.ltb_spec x (p + c)) as [L2|L2].
    + rewrite lookup_app_l by (rewrite length_replicate; lia).
      apply lookup_replicate_2. lia.
    + rewrite lookup_app_r by (rewrite length_replicate; lia).
      rewrite length_replicate, lookup_drop. f_equal. lia.
Qed.

(** The value of every stored element can be read. *)
Lemma elem_val_value (d : deque_t A) (k : Z) :
  wf d -> idx (_t_start d) <= k < idx (_t_finish d) ->
  elem_val d k = Ok (value_or (elem_val d k)).
Proof.
  intros H Hk. destruct (elem_val_ok d k H Hk) as (a & E). rewrite E. reflexivity.
Qed.

(** An insert that leaves positions [pos ..] alone, moves the positions before
    [pos] down by [c] and fills the gap with [a] splices [c] copies of [a] into
    the sequence. *)
Lemma to_list_insert_front (d d' : deque_t A) (pos c : Z) (a : A) :
  wf d -> wf d' -> 0 <= c ->
  idx (_t_start d) <= pos <= idx (_t_finish d) ->
  _t_finish d' = _t_finish d -> idx (_t_start d') = idx (_t_start d) - c ->
  (forall j, pos <= j < idx (_t_finish d) -> elem_val d' j = elem_val d j) ->
  (forall j, idx (_t_start d) <= j < pos -> elem_val d' (j - c) = elem_val d j) ->
  (forall j, pos - c <= j < pos -> elem_val d' j = Ok a) ->
  to_list d' = take (Z.to_nat (pos - idx (_t_start d))) (to_list d)
               ++ replicate (Z.to_nat c) a
               ++ drop (Z.to_nat (pos - idx (_t_start d))) (to_list d).
Proof.
  intros H H' Hc Hpos Ef Es Hkeep Hmove Hfill.
  apply list_eq. intros x.
  rewrite lookup_splice by (rewrite length_to_list; lia).
  destruct (Z_lt_dec (Z.of_nat x) (idx (_t_finish d) - idx (_t_start d) + c)) as [Lx|Lx].
  - rewrite to_list_lookup by (rewrite Ef, Es; lia). rewrite Es.
    destruct (Nat.ltb_spec x (Z.to_nat (pos - idx (_t_start d)))) as [L|L].
    + rewrite to_list_lookup by lia. f_equal. f_equal.
      replace (idx (_t_start d) - c + Z.of_nat x)
        with (idx (_t_start d) + Z.of_nat x - c) by lia.
      apply Hmove. lia.
    + destruct (Nat.ltb_spec x (Z.to_nat (pos - idx (_t_start d)) + Z.to_nat c))
        as [L2|L2].
      * rewrite Hfill by lia. reflexivity.
      * rewrite to_list_lookup by lia. f_equal. f_equal.
        rewrite Hkeep by lia. f_equal. lia.
  - rewrite to_list_lookup_ge by (rewrite Ef, Es; lia).
    destruct (Nat.ltb_spec x (Z.to_nat (pos - idx (_t_start d)))) as [L|L]; [lia|].
    destruct (Nat.ltb_spec x (Z.to_nat (pos - idx (_t_start d)) + Z.to_nat c))
      as [L2|L2]; [lia|].
    symmetry. apply to_list_lookup_ge. lia.
Qed.

(** Insert in the front half when the first block has room for the new
    elements: the function returns; the elements from [pos] on keep their
    cells and values, the elements before [pos] are found [c] positions lower,
    the gap holds the value. *)
Lemma insert_front_in_block (d : deque_t A) (pos : deque_iterator_t) (c : Z) (a : A) :
  wf d -> iter_ok d pos -> 1 <= c -> c < _pc_corepos (_t_start d) ->
  idx pos - idx (_t_start d) < Z.quot (idx (_t_finish d) - idx (_t_start d)) 2 ->
  exists d' gap,
    _deque_insert_n d pos c a = Ok (d', gap) /\ wf d' /\
    _ppc_map d' = _ppc_map d /\ _t_finish d' = _t_finish d /\
    idx (_t_start d') = idx (_t_start d) - c /\
    iter_ok d' gap /\ idx gap = idx pos - c /\
    (forall j, idx pos <= j < idx (_t_finish d) -> elem_val d' j = elem_val d j) /\
    (forall j, idx (_t_start d) <= j < idx pos -> elem_val d' (j - c) = elem_val d j) /\
    (forall j, idx pos - c <= j < idx pos -> elem_val d' j = Ok a) /\
    trace d' = trace d ++ insert_front_events d (idx pos) c.
Proof.
  intros H Hpos Hc Hroom Hhalf.
  pose proof (io_range d pos Hpos) as Rpos.
  pose proof (wf_bound d H) as Hbd.
  pose proof (loop_fuel_enough d _ H (iter_ok_start d H)) as Hfu.
  unfold _deque_insert_n, iterator_distance, deque_begin.
  rewrite (belong_ok d pos H Hpos). rsimpl.
  rewrite (iterator_minus_ok d pos (_t_start d) H Hpos (iter_ok_start d H)). rsimpl.
  rewrite (deque_size_ok d H). rsimpl.
  rewrite to_int_small by (unfold loop_fuel in Hfu; lia).
  replace (idx pos - idx (_t_start d) <? _) with true
    by (symmetry; apply Z.ltb_lt; exact Hhalf).
  destruct (expand_at_begin_in_block d c (Some pos) H ltac:(lia) Hroom Hpos)
    as (d1 & ob & pos' & E1 & W1 & Iob & Hob & SP & M1 & Z1 & L1 & F1 & S1 & T1 & _ & V1).
  rewrite E1. rsimpl. destruct pos' as [p'|]; [|destruct SP]. destruct SP as [Ip' Hp'].
  assert (Is1 : idx (_t_start d1) = idx (_t_start d) - c)
    by (rewrite S1; unfold idx; simpl; lia).
  destruct (move_elem_to_begin_ok d1 ob p' c W1 Hc Hob Hp')
    as (d2 & te & E2 & Hte & Ite & Sh2 & W2 & (Mv1 & Mv2 & Mv3)); [lia | lia |].
  rewrite E2. rsimpl. unfold iterator_distance.
  rewrite (iterator_minus_ok d2 p' te W2 (iter_ok_shape _ _ _ Sh2 Hp')
                             (iter_ok_shape _ _ _ Sh2 Hte)).
  rsimpl. pose proof (wf_so d H) as Hso.
  rewrite to_int_small by (unfold _DEQUE_ELEM_COUNT in Hso; lia).
  replace (idx p' - idx te =? c) with true by (symmetry; apply Z.eqb_eq; lia).
  rsimpl.
  destruct (fill_range_ok d2 te p' a W2 (iter_ok_shape _ _ _ Sh2 Hte)
                          (iter_ok_shape _ _ _ Sh2 Hp'))
    as (d3 & E3 & Sh3 & W3 & Fi & Fo & T3); [lia|].
  rewrite E3. rsimpl.
  pose proof (se_start _ _ Sh2) as Es2. pose proof (se_finish _ _ Sh2) as Ef2.
  pose proof (se_start _ _ Sh3) as Es3. pose proof (se_finish _ _ Sh3) as Ef3.
  assert (Sh13 : shape_eq d1 d3) by (apply (shape_eq_trans _ d2); assumption).
  exists d3, te. split; [reflexivity|]. split; [exact W3|].
  split; [rewrite (se_map _ _ Sh13); exact M1|].
  split; [rewrite Ef3, Ef2; exact F1|].
  split; [rewrite Es3, Es2; exact Is1|].
  split; [apply (iter_ok_shape d1); assumption|].
  split; [lia|].
  split; [|split; [|split]].
  - intros j Hj.
    rewrite Fo by (rewrite ?Es2, ?Ef2, ?F1, ?Is1; lia).
    rewrite Mv2 by (rewrite ?F1, ?Is1; lia). apply V1. lia.
  - intros j Hj.
    rewrite Fo by (rewrite ?Es2, ?Ef2, ?F1, ?Is1; lia).
    rewrite Mv1 by lia. replace (j - c + c) with j by lia. apply V1. lia.
  - intros j Hj. apply Fi. lia.
  - rewrite T3, Mv3, T1. unfold insert_front_events. rewrite <- !app_assoc.
    f_equal. f_equal. f_equal.
    + rewrite Iob, Ip'.
      replace (idx pos - c - (idx (_t_start d) - c)) with (idx pos - idx (_t_start d))
        by lia.
      apply map_ext. intros j. unfold ptr_at, elem_ptr. rewrite M1. reflexivity.
    + rewrite Ite, Ip'. replace (idx pos - (idx pos - c)) with c by lia.
      apply map_ext. intros j. unfold ptr_at, elem_ptr.
      rewrite (se_map _ _ Sh2), M1. reflexivity.
Qed.

Lemma ptr_eqb_eq (p q : pointer) : ptr_eqb p q = true -> p = q.
Proof.
  destruct p as [b o], q as [b' o']. unfold ptr_eqb. simpl. intros E.
  apply andb_prop in E. destruct E as [E1 E2].
  apply Nat.eqb_eq in E1. apply Z.eqb_eq in E2. subst. reflexivity.
Qed.

Lemma ptr_at_ne (d : deque_t A) (j k : Z) :
  wf d ->
  idx (_t_start d) <= j < idx (_t_finish d) ->
  idx (_t_start d) <= k < idx (_t_finish d) ->
  j <> k -> ptr_eqb (ptr_at d j) (ptr_at d k) = false.
Proof.
  intros H Hj Hk Hne.
  destruct (ptr_eqb (ptr_at d j) (ptr_at d k)) eqn:E; [|reflexivity].
  apply ptr_eqb_eq in E. exfalso. apply Hne.
  destruct (elem_ptr_ok d j H Hj) as (bj & _ & _ & _ & Ej & _).
  destruct (elem_ptr_ok d k H Hk) as (bk & _ & _ & _ & Ek & _).
  unfold ptr_at in E. rewrite Ej, Ek in E.
  apply (elem_ptr_inj d j k _ H Hj Hk Ej). rewrite Ek, E. reflexivity.
Qed.

Lemma in_zrange (a k : Z) (n : nat) : In k (zrange a n) -> a <= k < a + Z.of_nat n.
Proof.
  unfold zrange. rewrite in_map_iff. intros (i & <- & Hi).
  apply in_seq in Hi. lia.
Qed.

(** The front branch of the insert, inside the first block, does not read or
    write any cell of the elements from [pos] on. *)
Lemma insert_front_untouched (d d' : deque_t A) (pos c j : Z) :
  wf d' -> 0 <= c -> _ppc_map d' = _ppc_map d -> _t_finish d' = _t_finish d ->
  idx (_t_start d') = idx (_t_start d) - c ->
  idx (_t_start d) <= pos -> pos <= j < idx (_t_finish d) ->
  untouched (ptr_at d j) (insert_front_events d pos c) = true.
Proof.
  intros W Hc Em Ef Es Hpos Hj.
  assert (P : forall k, ptr_at d k = ptr_at d' k).
  { intros k. unfold ptr_at, elem_ptr. rewrite Em. reflexivity. }
  assert (N : forall k, idx (_t_start d) - c <= k < pos ->
                        ptr_eqb (ptr_at d k) (ptr_at d j) = false).
  { intros k Hk. rewrite !P. apply ptr_at_ne; [exact W | | | lia]; rewrite Es, Ef; lia. }
  unfold untouched, insert_front_events. rewrite !forallb_app.
  repeat (apply andb_true_intro; split); apply forallb_forall; intros e He;
    apply in_map_iff in He; destruct He as (k & <- & Hk); apply in_zrange in Hk;
    simpl; rewrite ?N by lia; reflexivity.
Qed.

(** *** The backward move loop *)

Lemma iterator_prev_shape (d d' : deque_t A) (it : deque_iterator_t) :
  shape_eq d d' -> _deque_iterator_prev d' it = _deque_iterator_prev d it.
Proof.
  intros Sh. unfold _deque_iterator_prev. rewrite (belong_shape d d' _ Sh).
  assert (E : prev_step d' = prev_step d).
  { destruct Sh as [_ Em _ Es _]. unfold prev_step. rewrite Em, Es. reflexivity. }
  rewrite E. destruct (assert_r (_deque_iterator_belong_to_deque d it)); try reflexivity.
  rsimpl. destruct (prev_step d it) as [t| | |]; try reflexivity.
  rsimpl. rewrite (belong_shape d d' _ Sh). reflexivity.
Qed.

(** The step back from the first position leaves the stored range: the
    membership assertion at the exit of [_deque_iterator_prev] fails. *)
Lemma iterator_prev_of_begin (d : deque_t A) (e : deque_iterator_t) :
  wf d -> iter_ok d e -> idx e = idx (_t_start d) ->
  _deque_iterator_prev d e = AssertFail.
Proof.
  intros H Hok Ie. pose proof Hok as [Sl Fi Of Ra No].
  pose proof (wf_so d H) as Hso. pose proof (wf_fo d H) as Hfo.
  unfold _deque_iterator_prev. rewrite (belong_ok d e H Hok). rsimpl.
  unfold prev_step, idx, _DEQUE_ELEM_COUNT in *.
  destruct (Z.ltb_spec (_pc_corepos e - 1) 0) as [G|G].
  - destruct (Z.gtb_spec (_ppc_mappos e) (_ppc_mappos (_t_start d))) as [L|L].
    + destruct (wf_slot_read d (_ppc_mappos e - 1) H) as (b & blk & Hm & Hr & _); [lia|].
      rewrite Hr. rsimpl. rewrite belong_spec by (simpl; assumption). simpl.
      replace (_ppc_mappos e - 1 =? _ppc_mappos (_t_start d)) with true
        by (symmetry; apply Z.eqb_eq; lia).
      replace (_pc_corepos (_t_start d) =? 16) with true
        by (symmetry; apply Z.eqb_eq; lia).
      rewrite !andb_false_r. reflexivity.
    + rsimpl. rewrite belong_spec by (simpl; assumption). simpl.
      replace (_ppc_mappos e =? _ppc_mappos (_t_start d)) with true
        by (symmetry; apply Z.eqb_eq; lia).
      replace (_pc_corepos (_t_start d) =? 16) with false
        by (symmetry; apply Z.eqb_neq; lia).
      replace (_pc_corepos (_t_start d) <=? _pc_corepos e - 1) with false
        by (symmetry; apply Z.leb_gt; lia).
      rewrite !andb_false_r. reflexivity.
  - rsimpl. rewrite belong_spec by (simpl; assumption). simpl.
    replace (_ppc_mappos e =? _ppc_mappos (_t_start d)) with true
      by (symmetry; apply Z.eqb_eq; lia).
    destruct (Z.eqb_spec (_pc_corepos (_t_start d)) 16) as [C|C].
    + replace (_pc_corepos e - 1 =? 16) with false
        by (symmetry; apply Z.eqb_neq; lia).
      rewrite !andb_false_r. reflexivity.
    + replace (_pc_corepos (_t_start d) <=? _pc_corepos e - 1) with false
        by (symmetry; apply Z.leb_gt; lia).
      rewrite !andb_false_r. reflexivity.
Qed.

Lemma zrange_down_snoc (a : Z) (n : nat) :
  zrange_down (a - 1) (S n) = zrange_down a n ++ [a - 1].
Proof.
  unfold zrange_down. rewrite zrange_cons. simpl.
  replace (a - 1 + 1) with a by lia. reflexivity.
Qed.

Lemma moved_to_end_init (d : deque_t A) (c te0 : Z) : moved_to_end d d c te0 te0.
Proof.
  split; [intros j Hj; lia|]. split; [reflexivity|].
  rewrite Z.sub_diag. simpl. rewrite app_nil_r. reflexivity.
Qed.

Lemma move_to_end_loop_ok (d0 : deque_t A) (c te0 : Z) (tb b : deque_iterator_t) :
  wf d0 -> 1 <= c -> iter_ok d0 b -> iter_ok d0 tb -> idx tb = idx b + c ->
  idx (_t_start d0) < idx b ->
  te0 < idx (_t_finish d0) ->
  forall (fuel : nat) (x : deque_t A) (te e : deque_iterator_t),
    shape_eq d0 x -> wf x -> iter_ok d0 te -> idx tb - 1 <= idx te <= te0 ->
    iter_ok d0 e -> idx e = idx te - c ->
    idx te - idx tb + 1 < Z.of_nat fuel ->
    moved_to_end d0 x c (idx te) te0 ->
    exists x' te' e',
      move_to_end_loop fuel x te tb e b = Ok (x', te', e') /\
      shape_eq d0 x' /\ wf x' /\ moved_to_end d0 x' c (idx tb - 1) te0 /\
      iter_ok d0 te' /\ idx te' = idx tb - 1 /\
      iter_ok d0 e' /\ idx e' = idx b - 1.
Proof.
  intros H0 Hc Hb Htb Itb Hlo Hte0.
  pose proof (io_range d0 b Hb) as Rb.
  induction fuel as [|fuel IH]; intros x te e Sh W Hte Rte Hie Ie Hfuel Inv.
  - lia.
  - simpl. rewrite (iterator_less_shape d0 x te tb Sh W Hte Htb). rsimpl.
    destruct (Z.ltb_spec (idx te) (idx tb)) as [L|L]; rsimpl.
    + exists x, te, e. split; [reflexivity|]. split; [exact Sh|]. split; [exact W|].
      replace (idx tb - 1) with (idx te) by lia.
      split; [exact Inv|]. split; [exact Hte|]. split; [reflexivity|].
      split; [exact Hie | lia].
    + rewrite (iterator_less_shape d0 x e b Sh W Hie Hb). rsimpl.
      destruct (Z.ltb_spec (idx e) (idx b)) as [L2|L2]; [lia|]. rsimpl.
      pose proof (se_start _ _ Sh) as Es. pose proof (se_finish _ _ Sh) as Ef.
      destruct (copy_elem_ok x te e W (iter_ok_shape _ _ _ Sh Hte)
                             (iter_ok_shape _ _ _ Sh Hie))
        as (pd & ps & a & x1 & Epd & Eps & Va & Ec & Sh1 & W1 & Tr1 & V1 & O1);
        [rewrite Ef; lia | rewrite Ef; lia |].
      rewrite Ec. rsimpl.
      assert (Sh01 : shape_eq d0 x1) by (apply (shape_eq_trans _ x); assumption).
      destruct (iterator_prev_ok d0 te H0 Hte) as (te' & Pte & Hte' & Ite'); [lia|].
      rewrite (iterator_prev_shape _ _ _ Sh01), Pte. rsimpl.
      destruct (iterator_prev_ok d0 e H0 Hie) as (e' & Pe & He' & Ie'); [lia|].
      rewrite (iterator_prev_shape _ _ _ Sh01), Pe. rsimpl.
      destruct Inv as (I1 & I2 & I3).
      apply (IH x1 te' e'); try assumption; try lia.
      rewrite Ite'. split; [|split].
      * intros j Hj. destruct (Z.eq_dec j (idx te)) as [->|Hne].
        -- rewrite V1, <- Va. replace (idx te - c) with (idx e) by lia.
           apply I2; lia.
        -- rewrite O1 by (rewrite ?Es, ?Ef; lia). apply I1. lia.
      * intros j Hj Hn. rewrite O1 by (rewrite ?Es, ?Ef; lia). apply I2; lia.
      * rewrite Tr1, I3, <- app_assoc. f_equal.
        replace (Z.to_nat (te0 - (idx te - 1)))
          with (S (Z.to_nat (te0 - idx te))) by lia.
        replace (idx te - 1 + 1) with (idx te + 1 - 1) by lia.
        rewrite zrange_down_snoc, map_app. simpl. f_equal.
        replace (idx te + 1 - 1) with (idx te) by lia.
        unfold ptr_at. rewrite <- (elem_ptr_shape _ _ _ Sh), Epd.
        replace (idx te - c) with (idx e) by lia.
        rewrite <- (elem_ptr_shape _ _ _ Sh), Eps. reflexivity.
Qed.

(** The move toward the end decrements its source iterator once below
    [b]; [b] must not be the first position of the deque. *)
Lemma move_elem_to_end_ok (d : deque_t A) (b e : deque_iterator_t) (c : Z) :
  wf d -> 1 <= c -> iter_ok d b -> iter_ok d e -> idx b <= idx e ->
  (idx b < idx e -> idx (_t_start d) < idx b) ->
  idx e + c <= idx (_t_finish d) ->
  exists d1,
    _move_elem_to_end d b e c = Ok (d1, b) /\ shape_eq d d1 /\ wf d1 /\
    moved_to_end d d1 c (idx b + c - 1) (idx e + c - 1).
Proof.
  intros H Hc Hb He Hle Hlo Hhi. unfold _move_elem_to_end, _deque_iterator_before.
  pose proof (io_range d b Hb) as Rb.
  rewrite (iterator_equal_idx d b e H Hb He).
  replace (c =? 0) with false by (symmetry; apply Z.eqb_neq; lia).
  destruct (Z.eqb_spec (idx b) (idx e)) as [E|E]; rsimpl.
  - exists d. split; [reflexivity|]. split; [apply shape_eq_refl|].
    split; [exact H|]. rewrite E. apply moved_to_end_init.
  - assert (Hlo' : idx (_t_start d) < idx b) by (apply Hlo; lia).
    destruct (iterator_next_n_ok d b c H Hb) as (tb & Etb & Htb & Itb); [lia | lia |].
    destruct (iterator_next_n_ok d e c H He) as (te1 & Ete1 & Hte1 & Ite1); [lia | lia |].
    destruct (iterator_prev_ok d te1 H Hte1) as (te & Ete & Hte & Ite); [lia|].
    destruct (iterator_prev_ok d e H He) as (e1 & Ee1 & He1 & Ie1); [lia|].
    rewrite (belong_ok d b H Hb). rsimpl.
    rewrite (iterator_less_ok d b e H Hb He).
    replace (idx b <? idx e) with true by (symmetry; apply Z.ltb_lt; lia).
    rsimpl. rewrite Etb, Ete1. rsimpl.
    rewrite (iterator_less_ok d tb te1 H Htb Hte1).
    replace (idx tb <? idx te1) with true by (symmetry; apply Z.ltb_lt; lia).
    rsimpl. rewrite Ete. rsimpl. rewrite Ee1. rsimpl.
    destruct (move_to_end_loop_ok d c (idx e + c - 1) tb b H Hc Hb Htb Itb Hlo'
                                  ltac:(lia) (loop_fuel d) d te e1)
      as (d1 & te' & e' & El & Sh & W & Inv & Hte' & Ite' & He' & Ie');
      try assumption; try lia.
    + apply shape_eq_refl.
    + pose proof (loop_fuel_enough d tb H Htb). lia.
    + replace (idx te) with (idx e + c - 1) by lia. apply moved_to_end_init.
    + rewrite El. rsimpl.
      destruct (iterator_next_ok d te' H Hte') as (t1 & N1 & Ht1 & It1); [lia|].
      rewrite (iterator_next_shape _ _ _ Sh), N1. rsimpl.
      destruct (iterator_next_ok d e' H He') as (e3 & N3 & He3 & Ie3); [lia|].
      rewrite (iterator_next_shape _ _ _ Sh), N3. rsimpl.
      rewrite !(iterator_equal_shape d d1 _ _ Sh).
      rewrite (iterator_equal_idx d b e3 H Hb He3).
      rewrite (iterator_equal_idx d tb t1 H Htb Ht1).
      replace (idx b =? idx e3) with true by (symmetry; apply Z.eqb_eq; lia).
      replace (idx tb =? idx t1) with true by (symmetry; apply Z.eqb_eq; lia).
      rsimpl.
      exists d1. split; [reflexivity|]. split; [exact Sh|]. split; [exact W|].
      replace (idx b + c - 1) with (idx tb - 1) by lia. exact Inv.
Qed.

(** The gap-filling loop of the back branch of the insert. *)
Lemma fill_n_ok (a : A) (n : nat) :
  forall (d : deque_t A) (pos : deque_iterator_t),
    wf d -> iter_ok d pos -> idx pos + Z.of_nat n <= idx (_t_finish d) ->
    exists d', fill_n n a d pos = Ok d' /\ shape_eq d d' /\ wf d' /\
               (forall j, idx pos <= j < idx pos + Z.of_nat n -> elem_val d' j = Ok a) /\
               (forall j, idx (_t_start d) <= j < idx (_t_finish d) ->
                          ~ (idx pos <= j < idx pos + Z.of_nat n) ->
                          elem_val d' j = elem_val d j) /\
               trace d' = trace d ++
                          map (fun k => EvCopy (ptr_at d k) FromValue) (zrange (idx pos) n).
Proof.
  induction n as [|n IH]; intros d pos H Hpos Hle.
  - exists d. split; [reflexivity|]. split; [apply shape_eq_refl|]. split; [exact H|].
    split; [intros j Hj; lia|]. split; [reflexivity|].
    simpl. rewrite app_nil_r. reflexivity.
  - pose proof (io_range d pos Hpos) as Rpos.
    destruct (copy_value_elem_ok d pos a H Hpos)
      as (p & d1 & Ep & Ec & Sh1 & W1 & T1 & V1 & O1); [lia|].
    destruct (iterator_next_ok d pos H Hpos) as (t & En & Ht & It); [lia|].
    pose proof (se_start _ _ Sh1) as Es. pose proof (se_finish _ _ Sh1) as Ef.
    destruct (IH d1 t W1 (iter_ok_shape _ _ _ Sh1 Ht))
      as (d' & E' & Sh' & W' & Fi & Fo & T'); [rewrite Ef; lia|].
    exists d'. split.
    { cbn [fill_n]. rewrite Ec. rsimpl.
      rewrite (iterator_next_shape _ _ _ Sh1), En. rsimpl. exact E'. }
    split; [apply (shape_eq_trans _ d1); assumption|]. split; [exact W'|].
    split; [|split].
    + intros j Hj. destruct (Z.eq_dec j (idx pos)) as [->|Hne].
      * rewrite Fo by (rewrite ?Es, ?Ef; lia). exact V1.
      * apply Fi. lia.
    + intros j Hj Hn. rewrite Fo by (rewrite ?Es, ?Ef; lia). apply O1; lia.
    + rewrite T', T1, <- app_assoc. f_equal. rewrite zrange_cons. simpl.
      f_equal; [unfold ptr_at; rewrite Ep; reflexivity|].
      rewrite It. apply map_ext. intros k. rewrite (ptr_at_shape _ _ _ Sh1). reflexivity.
Qed.

(** An insert that leaves the positions before [pos] alone, moves the
    positions from [pos] on up by [c] and fills the gap with [a] splices [c]
    copies of [a] into the sequence. *)
Lemma to_list_insert_back (d d' : deque_t A) (pos c : Z) (a : A) :
  wf d -> wf d' -> 0 <= c ->
  idx (_t_start d) <= pos <= idx (_t_finish d) ->
  _t_start d' = _t_start d -> idx (_t_finish d') = idx (_t_finish d) + c ->
  (forall j, idx (_t_start d) <= j < pos -> elem_val d' j = elem_val d j) ->
  (forall j, pos <= j < idx (_t_finish d) -> elem_val d' (j + c) = elem_val d j) ->
  (forall j, pos <= j < pos + c -> elem_val d' j = Ok a) ->
  to_list d' = take (Z.to_nat (pos - idx (_t_start d))) (to_list d)
               ++ replicate (Z.to_nat c) a
               ++ drop (Z.to_nat (pos - idx (_t_start d))) (to_list d).
Proof.
  intros H H' Hc Hpos Es Ef Hkeep Hmove Hfill.
  apply list_eq. intros x.
  rewrite lookup_splice by (rewrite length_to_list; lia).
  destruct (Z_lt_dec (Z.of_nat x) (idx (_t_finish d) - idx (_t_start d) + c)) as [Lx|Lx].
  - rewrite to_list_lookup by (rewrite Ef, Es; lia). rewrite Es.
    destruct (Nat.ltb_spec x (Z.to_nat (pos - idx (_t_start d)))) as [L|L].
    + rewrite to_list_lookup by lia. f_equal. f_equal. apply Hkeep. lia.
    + destruct (Nat.ltb_spec x (Z.to_nat (pos - idx (_t_start d)) + Z.to_nat c))
        as [L2|L2].
      * rewrite Hfill by lia. reflexivity.
      * rewrite to_list_lookup by lia. f_equal. f_equal.
        replace (idx (_t_start d) + Z.of_nat x)
          with (idx (_t_start d) + Z.of_nat (x - Z.to_nat c) + c) by lia.
        apply Hmove. lia.
  - rewrite to_list_lookup_ge by (rewrite Ef, Es; lia).
    destruct (Nat.ltb_spec x (Z.to_nat (pos - idx (_t_start d)))) as [L|L]; [lia|].
    destruct (Nat.ltb_spec x (Z.to_nat (pos - idx (_t_start d)) + Z.to_nat c))
      as [L2|L2]; [lia|].
    symmetry. apply to_list_lookup_ge. lia.
Qed.

(** Insert in the back half when the last block has room for the new
    elements: the function returns the position it was given; the elements
    before [pos] keep their cells and values, the elements from [pos] on are
    found [c] positions higher, the gap holds the value.  The position is
    not the first one unless the deque is empty: in the back half that
    leaves out the insert at begin of a deque of one element. *)
Lemma insert_back_in_block (d : deque_t A) (pos : deque_iterator_t) (c : Z) (a : A) :
  wf d -> iter_ok d pos -> 1 <= c ->
  c < _DEQUE_ELEM_COUNT - _pc_corepos (_t_finish d) ->
  Z.quot (idx (_t_finish d) - idx (_t_start d)) 2 <= idx pos - idx (_t_start d) ->
  idx (_t_start d) < idx pos \/ idx pos = idx (_t_finish d) ->
  exists d',
    _deque_insert_n d pos c a = Ok (d', pos) /\ wf d' /\
    _ppc_map d' = _ppc_map d /\ _t_start d' = _t_start d /\
    idx (_t_finish d') = idx (_t_finish d) + c /\ iter_ok d' pos /\
    (forall j, idx (_t_start d) <= j < idx pos -> elem_val d' j = elem_val d j) /\
    (forall j, idx pos <= j < idx (_t_finish d) -> elem_val d' (j + c) = elem_val d j) /\
    (forall j, idx pos <= j < idx pos + c -> elem_val d' j = Ok a) /\
    trace d' = trace d ++ insert_back_events d (idx pos) c.
Proof.
  intros H Hpos Hc Hroom Hhalf Hnb.
  pose proof (io_range d pos Hpos) as Rpos.
  pose proof (wf_bound d H) as Hbd.
  pose proof (loop_fuel_enough d _ H (iter_ok_start d H)) as Hfu.
  unfold _deque_insert_n, iterator_distance, deque_begin.
  rewrite (belong_ok d pos H Hpos). rsimpl.
  rewrite (iterator_minus_ok d pos (_t_start d) H Hpos (iter_ok_start d H)). rsimpl.
  rewrite (deque_size_ok d H). rsimpl.
  rewrite to_int_small by (unfold loop_fuel in Hfu; lia).
  replace (idx pos - idx (_t_start d) <? _) with false
    by (symmetry; apply Z.ltb_ge; exact Hhalf).
  destruct (expand_at_end_in_block d c (Some pos) H ltac:(lia) Hroom)
    as (d1 & E1 & W1 & M1 & Z1 & L1 & S1 & F1 & T1 & _ & V1).
  rewrite E1. rsimpl.
  assert (If1 : idx (_t_finish d1) = idx (_t_finish d) + c)
    by (rewrite F1; unfold idx; simpl; lia).
  assert (Hup : forall it, iter_ok d it -> iter_ok d1 it).
  { intros it [Sl Fi Of Ra No]. constructor; rewrite ?M1, ?S1; try assumption.
    - rewrite F1. simpl. exact Sl.
    - rewrite If1. lia. }
  destruct (move_elem_to_end_ok d1 pos (_t_finish d) c W1 Hc (Hup _ Hpos)
                                (Hup _ (iter_ok_finish d H)))
    as (d2 & E2 & Sh2 & W2 & (Mv1 & Mv2 & Mv3)); [lia | rewrite S1; lia | lia |].
  rewrite E2. rsimpl.
  rewrite (iterator_equal_shape d1 d2 _ _ Sh2).
  rewrite (iterator_equal_idx d1 pos pos W1 (Hup _ Hpos) (Hup _ Hpos)), Z.eqb_refl.
  rsimpl.
  pose proof (se_start _ _ Sh2) as Es2. pose proof (se_finish _ _ Sh2) as Ef2.
  destruct (fill_n_ok a (Z.to_nat c) d2 pos W2 (iter_ok_shape _ _ _ Sh2 (Hup _ Hpos)))
    as (d3 & E3 & Sh3 & W3 & Fi & Fo & T3); [rewrite Ef2; lia|].
  rewrite E3. rsimpl.
  pose proof (se_start _ _ Sh3) as Es3. pose proof (se_finish _ _ Sh3) as Ef3.
  assert (Sh13 : shape_eq d1 d3) by (apply (shape_eq_trans _ d2); assumption).
  exists d3. split; [reflexivity|]. split; [exact W3|].
  split; [rewrite (se_map _ _ Sh13); exact M1|].
  split; [rewrite Es3, Es2; exact S1|].
  split; [rewrite Ef3, Ef2; exact If1|].
  split; [apply (iter_ok_shape d1); [exact Sh13 | apply Hup; exact Hpos]|].
  split; [|split; [|split]].
  - intros j Hj.
    rewrite Fo by (rewrite ?Es2, ?Ef2, ?S1, ?If1; lia).
    rewrite Mv2 by (rewrite ?S1, ?If1; lia). apply V1. lia.
  - intros j Hj.
    rewrite Fo by (rewrite ?Es2, ?Ef2, ?S1, ?If1; lia).
    rewrite Mv1 by lia. replace (j + c - c) with j by lia. apply V1. lia.
  - intros j Hj. apply Fi. lia.
  - rewrite T3, Mv3, T1. unfold insert_back_events. rewrite <- !app_assoc.
    f_equal. f_equal. f_equal.
    + replace (idx pos + c - 1 + 1) with (idx pos + c) by lia.
      replace (idx (_t_finish d) + c - 1 - (idx pos + c - 1))
        with (idx (_t_finish d) - idx pos) by lia.
      apply map_ext. intros j. unfold ptr_at, elem_ptr. rewrite M1. reflexivity.
    + apply map_ext. intros j. unfold ptr_at, elem_ptr.
      rewrite (se_map _ _ Sh2), M1. reflexivity.
Qed.

(** Insert at begin of a deque of one element takes the back branch, and
    the move toward the end steps its source iterator back from the first
    position: the call stops at the membership assertion of
    [_deque_iterator_prev]. *)
Lemma insert_begin_of_single (d : deque_t A) (pos : deque_iterator_t) (c : Z) (a : A) :
  wf d -> iter_ok d pos ->
  idx (_t_finish d) - idx (_t_start d) = 1 -> idx pos = idx (_t_start d) ->
  1 <= c -> c < _DEQUE_ELEM_COUNT - _pc_corepos (_t_finish d) ->
  _deque_insert_n d pos c a = AssertFail.
Proof.
  intros H Hpos Hone Ipos Hc Hroom.
  pose proof (wf_bound d H) as Hbd.
  unfold _deque_insert_n, iterator_distance, deque_begin.
  rewrite (belong_ok d pos H Hpos). rsimpl.
  rewrite (iterator_minus_ok d pos (_t_start d) H Hpos (iter_ok_start d H)). rsimpl.
  rewrite (deque_size_ok d H). rsimpl. rewrite Hone, Ipos, Z.sub_diag.
  change (0 <? Z.quot (to_int 1) 2) with false. cbn iota.
  destruct (expand_at_end_in_block d c (Some pos) H ltac:(lia) Hroom)
    as (d1 & E1 & W1 & M1 & Z1 & L1 & S1 & F1 & T1 & _ & V1).
  rewrite E1. rsimpl.
  assert (If1 : idx (_t_finish d1) = idx (_t_finish d) + c)
    by (rewrite F1; unfold idx; simpl; lia).
  assert (Hup : forall it, iter_ok d it -> iter_ok d1 it).
  { intros it [Sl Fi Of Ra No]. constructor; rewrite ?M1, ?S1; try assumption.
    - rewrite F1. simpl. exact Sl.
    - rewrite If1. lia. }
  pose proof (Hup _ Hpos) as Hb. pose proof (Hup _ (iter_ok_finish d H)) as He.
  unfold _move_elem_to_end, _deque_iterator_before.
  rewrite (iterator_equal_idx d1 pos _ W1 Hb He).
  replace (idx pos =? idx (_t_finish d)) with false by (symmetry; apply Z.eqb_neq; lia).
  replace (c =? 0) with false by (symmetry; apply Z.eqb_neq; lia).
  rsimpl. rewrite (belong_ok d1 pos W1 Hb). rsimpl.
  rewrite (iterator_less_ok d1 pos _ W1 Hb He).
  replace (idx pos <? idx (_t_finish d)) with true by (symmetry; apply Z.ltb_lt; lia).
  rsimpl.
  destruct (iterator_next_n_ok d1 pos c W1 Hb) as (tb & Etb & Htb & Itb); [lia | lia |].
  destruct (iterator_next_n_ok d1 (_t_finish d) c W1 He)
    as (te1 & Ete1 & Hte1 & Ite1); [lia | lia |].
  destruct (iterator_prev_ok d1 te1 W1 Hte1) as (te & Ete & Hte & Ite);
    [rewrite S1; lia|].
  destruct (iterator_prev_ok d1 (_t_finish d) W1 He) as (e1 & Ee1 & He1 & Ie1);
    [rewrite S1; lia|].
  rewrite Etb, Ete1. rsimpl.
  rewrite (iterator_less_ok d1 tb te1 W1 Htb Hte1).
  replace (idx tb <? idx te1) with true by (symmetry; apply Z.ltb_lt; lia).
  rsimpl. rewrite Ete. rsimpl. rewrite Ee1. rsimpl.
  unfold loop_fuel. cbn [move_to_end_loop].
  rewrite (iterator_less_ok d1 te tb W1 Hte Htb).
  replace (idx te <? idx tb) with false by (symmetry; apply Z.ltb_ge; lia).
  rsimpl. rewrite (iterator_less_ok d1 e1 pos W1 He1 Hb).
  replace (idx e1 <? idx pos) with false by (symmetry; apply Z.ltb_ge; lia).
  rsimpl.
  destruct (copy_elem_ok d1 te e1 W1 Hte He1)
    as (pd & ps & v & x1 & _ & _ & _ & Ec & Sh1 & _); [lia | lia |].
  rewrite Ec. rsimpl.
  destruct (iterator_prev_ok d1 te W1 Hte) as (te' & Pte & _); [rewrite S1; lia|].
  rewrite (iterator_prev_shape _ _ _ Sh1), Pte. rsimpl.
  rewrite (iterator_prev_shape _ _ _ Sh1).
  rewrite (iterator_prev_of_begin d1 e1 W1 He1) by (rewrite S1; lia).
  reflexivity.
Qed.

(** *** Erase on the sequence, and insert followed by erase *)

(** Removing the element that was spliced in gives the list back. *)
Lemma splice_remove (a : A) (p : nat) :
  forall l : list A,
    (p <= length l)%nat ->
    take p (take p l ++ replicate 1 a ++ drop p l) ++
    drop (S p) (take p l ++ replicate 1 a ++ drop p l) = l.
Proof.
  induction p as [|p IH]; intros l Hl.
  - simpl. rewrite drop_0. reflexivity.
  - destruct l as [|x l]; [simpl in Hl; lia|]. simpl in Hl.
    specialize (IH l ltac:(lia)). simpl in *. f_equal. exact IH.
Qed.

(** Insert of [c] elements when both boundary blocks have room for them,
    except at begin of a deque of one element: the function returns an
    iterator to the first new element, at the same distance from the start as
    [pos] was, and the sequence is the original with [c] copies of the value
    spliced in at that distance. *)
Lemma insert_in_block (d : deque_t A) (pos : deque_iterator_t) (c : Z) (a : A) :
  wf d -> iter_ok d pos -> 1 <= c ->
  c < _pc_corepos (_t_start d) -> c < _DEQUE_ELEM_COUNT - _pc_corepos (_t_finish d) ->
  (idx (_t_finish d) - idx (_t_start d) = 1 -> idx (_t_start d) < idx pos) ->
  exists d' r,
    _deque_insert_n d pos c a = Ok (d', r) /\ wf d' /\ iter_ok d' r /\
    idx r - idx (_t_start d') = idx pos - idx (_t_start d) /\
    idx r < idx (_t_finish d') /\
    to_list d' = take (Z.to_nat (idx pos - idx (_t_start d))) (to_list d)
                 ++ replicate (Z.to_nat c) a
                 ++ drop (Z.to_nat (idx pos - idx (_t_start d))) (to_list d).
Proof.
  intros H Hpos Hc Hfront Hback Hone. pose proof (io_range d pos Hpos) as Rpos.
  destruct (Z_lt_dec (idx pos - idx (_t_start d))
                     (Z.quot (idx (_t_finish d) - idx (_t_start d)) 2)) as [L|L].
  - destruct (insert_front_in_block d pos c a H Hpos Hc Hfront L)
      as (d' & gap & E & W & _ & Ef & Es & Hgap & Igap & K & M & F & _).
    exists d', gap. split; [exact E|]. split; [exact W|]. split; [exact Hgap|].
    split; [lia|]. split; [rewrite Ef; lia|].
    apply to_list_insert_front; try assumption; lia.
  - assert (Hnb : idx (_t_start d) < idx pos \/ idx pos = idx (_t_finish d)).
    { destruct (Z_le_dec 2 (idx (_t_finish d) - idx (_t_start d))) as [G|G].
      - pose proof (Z.quot_le_lower_bound (idx (_t_finish d) - idx (_t_start d)) 2 1
                      ltac:(lia) ltac:(lia)).
        lia.
      - lia. }
    destruct (insert_back_in_block d pos c a H Hpos Hc Hback ltac:(lia) Hnb)
      as (d' & E & W & _ & Es & Ef & Hp' & K & M & F & _).
    exists d', pos. split; [exact E|]. split; [exact W|]. split; [exact Hp'|].
    split; [rewrite Es; lia|]. split; [lia|].
    apply to_list_insert_back; try assumption; lia.
Qed.

(** Insert of one element followed by erase at the returned position, when
    both boundary blocks have room for one more element and the insert is not
    at begin of a deque of one element: both calls return and the sequence is
    the one before the insert. *)
Lemma insert_erase_in_block (d : deque_t A) (pos : deque_iterator_t) (a : A) :
  wf d -> iter_ok d pos ->
  1 < _pc_corepos (_t_start d) -> 1 < _DEQUE_ELEM_COUNT - _pc_corepos (_t_finish d) ->
  (idx (_t_finish d) - idx (_t_start d) = 1 -> idx (_t_start d) < idx pos) ->
  exists d1 r d2 r',
    _deque_insert_n d pos 1 a = Ok (d1, r) /\ deque_erase d1 r = Ok (d2, r') /\
    wf d2 /\ to_list d2 = to_list d.
Proof.
  intros H Hpos Hfront Hback Hone. pose proof (io_range d pos Hpos) as Rpos.
  destruct (insert_in_block d pos 1 a H Hpos ltac:(lia) Hfront Hback Hone)
    as (d1 & r & E1 & W1 & Hr & Ir & Lr & L1).
  destruct (deque_erase_removes d1 r W1 Hr Lr) as (d2 & r' & E2 & W2 & L2).
  exists d1, r, d2, r'. split; [exact E1|]. split; [exact E2|]. split; [exact W2|].
  rewrite L2, Ir, L1. apply splice_remove. rewrite length_to_list. lia.
Qed.

(** Frame of the front branch of the insert, inside the first block: the
    sequence gets the new elements spliced in, and every element from [pos]
    on keeps its cell and its value, and no event of the call reads or writes
    its cell. *)
Lemma insert_front_frame (d : deque_t A) (pos : deque_iterator_t) (c : Z) (a : A) :
  deque_valid d = true -> iterator_valid d pos = true ->
  1 <= c -> c < _pc_corepos (_t_start d) ->
  idx pos - idx (_t_start d) < Z.quot (idx (_t_finish d) - idx (_t_start d)) 2 ->
  exists d' gap t,
    _deque_insert_n d pos c a = Ok (d', gap) /\
    to_list d' = take (Z.to_nat (idx pos - idx (_t_start d))) (to_list d)
                 ++ replicate (Z.to_nat c) a
                 ++ drop (Z.to_nat (idx pos - idx (_t_start d))) (to_list d) /\
    trace d' = trace d ++ t /\
    forall j, idx pos <= j < idx (_t_finish d) ->
              elem_ptr d' j = elem_ptr d j /\ elem_val d' j = elem_val d j /\
              untouched (ptr_at d j) t = true.
Proof.
  intros V Hp Hc Hroom Hhalf. apply deque_valid_wf in V. apply iterator_valid_ok in Hp.
  pose proof (io_range d pos Hp) as Rpos.
  destruct (insert_front_in_block d pos c a V Hp Hc Hroom Hhalf)
    as (d' & gap & E & W & Em & Ef & Es & Hgap & Igap & K & M & F & T).
  exists d', gap, (insert_front_events d (idx pos) c).
  split; [exact E|]. split; [|split; [exact T|]].
  - apply to_list_insert_front; try assumption; lia.
  - intros j Hj. split; [|split].
    + unfold elem_ptr. rewrite Em. reflexivity.
    + apply K. exact Hj.
    + apply (insert_front_untouched d d'); try assumption; lia.
Qed.

(** ** Further properties of the embedding *)

(** *** Iterators *)

(** X1: on a valid deque a step forward from an iterator before the end
    followed by a step back, and a step back from an iterator behind the
    begin followed by a step forward, both return and give an iterator that
    [_deque_iterator_equal] finds equal to the one they started from. *)
Theorem iterator_next_prev (d : deque_t A) (it : deque_iterator_t) :
  deque_valid d = true -> iterator_valid d it = true ->
  (idx it < idx (_t_finish d) ->
   exists n p, _deque_iterator_next d it = Ok n /\ idx n = idx it + 1 /\
               _deque_iterator_prev d n = Ok p /\
               _deque_iterator_equal d p it = Ok true) /\
  (idx (_t_start d) < idx it ->
   exists p n, _deque_iterator_prev d it = Ok p /\ idx p = idx it - 1 /\
               _deque_iterator_next d p = Ok n /\
               _deque_iterator_equal d n it = Ok true).
Proof.
  intros V Hit. apply deque_valid_wf in V. apply iterator_valid_ok in Hit.
  pose proof (io_range d it Hit) as R. split; intros Hlt.
  - destruct (iterator_next_ok d it V Hit Hlt) as (n & En & Hn & In).
    destruct (iterator_prev_ok d n V Hn) as (p & Ep & Hp & Ip); [lia|].
    exists n, p. split; [exact En|]. split; [exact In|]. split; [exact Ep|].
    rewrite (iterator_equal_idx d p it V Hp Hit). f_equal. apply Z.eqb_eq. lia.
  - destruct (iterator_prev_ok d it V Hit Hlt) as (p & Ep & Hp & Ip).
    destruct (iterator_next_ok d p V Hp) as (n & En & Hn & In); [lia|].
    exists p, n. split; [exact Ep|]. split; [exact Ip|]. split; [exact En|].
    rewrite (iterator_equal_idx d n it V Hn Hit). f_equal. apply Z.eqb_eq. lia.
Qed.

(** X2: [n] steps forward from a valid iterator, when the deque has that
    many positions left, give an iterator at distance [n]:
    [_deque_iterator_minus] returns [n] one way and [- n] the other, and
    [n] steps back return to an iterator equal to the first. *)
Theorem iterator_next_n_minus (d : deque_t A) (it : deque_iterator_t) (n : Z) :
  deque_valid d = true -> iterator_valid d it = true ->
  0 <= n -> idx it + n <= idx (_t_finish d) ->
  exists t b,
    _deque_iterator_next_n d it n = Ok t /\
    _deque_iterator_minus d t it = Ok n /\
    _deque_iterator_minus d it t = Ok (- n) /\
    _deque_iterator_prev_n d t n = Ok b /\
    _deque_iterator_equal d b it = Ok true.
Proof.
  intros V Hit Hn Hle. apply deque_valid_wf in V. apply iterator_valid_ok in Hit.
  pose proof (io_range d it Hit) as R.
  destruct (iterator_next_n_ok d it n V Hit Hn Hle) as (t & Et & Ht & It).
  destruct (iterator_prev_n_ok d t n V Ht Hn) as (b & Eb & Hb & Ib); [lia|].
  exists t, b. split; [exact Et|].
  rewrite (iterator_minus_ok d t it V Ht Hit), (iterator_minus_ok d it t V Hit Ht).
  split; [f_equal; lia|]. split; [f_equal; lia|]. split; [exact Eb|].
  rewrite (iterator_equal_idx d b it V Hb Hit). f_equal. apply Z.eqb_eq. lia.
Qed.

(** X3: two valid iterators of a valid deque are ordered by the sign of
    their difference: [_deque_iterator_equal], [_deque_iterator_less] and
    [_deque_iterator_minus] all return, exactly one of equal, less and
    greater holds, and it is the one the sign of the difference names. *)
Theorem iterator_trichotomy (d : deque_t A) (a b : deque_iterator_t) :
  deque_valid d = true -> iterator_valid d a = true -> iterator_valid d b = true ->
  exists (e l g : bool) (m : Z),
    _deque_iterator_equal d a b = Ok e /\
    _deque_iterator_less d a b = Ok l /\
    _deque_iterator_less d b a = Ok g /\
    _deque_iterator_minus d a b = Ok m /\
    (e = true <-> m = 0) /\ (l = true <-> m < 0) /\ (g = true <-> 0 < m).
Proof.
  intros V Ha Hb. apply deque_valid_wf in V.
  apply iterator_valid_ok in Ha. apply iterator_valid_ok in Hb.
  exists (idx a =? idx b), (idx a <? idx b), (idx b <? idx a), (idx a - idx b).
  split; [apply iterator_equal_idx; assumption|].
  split; [apply iterator_less_ok; assumption|].
  split; [apply iterator_less_ok; assumption|].
  split; [apply iterator_minus_ok; assumption|].
  rewrite Z.eqb_eq, !Z.ltb_lt. lia.
Qed.

(** Case analysis on the integer tests of a goal. *)
Ltac test_cases :=
  repeat match goal with
         | |- context [?a <=? ?b] => destruct (Z.leb_spec a b)
         | |- context [?a =? ?b] => destruct (Z.eqb_spec a b)
         end;
  cbn [andb orb negb]; try reflexivity; try lia.

Lemma iterator_next_of_end (d : deque_t A) :
  wf d ->
  (_ppc_mappos (_t_start d) < _ppc_mappos (_t_finish d) \/
   _pc_corepos (_t_finish d) = _DEQUE_ELEM_COUNT - 1 ->
   _deque_iterator_next d (deque_end d) = AssertFail) /\
  (_ppc_mappos (_t_start d) = _ppc_mappos (_t_finish d) ->
   _pc_corepos (_t_finish d) < _DEQUE_ELEM_COUNT - 1 ->
   exists t, _deque_iterator_next d (deque_end d) = Ok t /\
             idx t = idx (_t_finish d) + 1 /\
             _deque_iterator_belong_to_deque d t = Ok true).
Proof.
  intros H. pose proof (iter_ok_finish d H) as Hf. pose proof Hf as [Sl Fi Of Ra No].
  pose proof (wf_so d H) as Hso. pose proof (wf_fo d H) as Hfo.
  pose proof (wf_le d H) as Hle.
  unfold deque_end, _deque_iterator_next. rewrite (belong_ok d _ H Hf). rsimpl.
  assert (Es : next_step d (_t_finish d)
               = Ok (set_corepos (_t_finish d) (_pc_corepos (_t_finish d) + 1))).
  { unfold next_step, _DEQUE_ELEM_COUNT in *. rewrite Z.ltb_irrefl.
    destruct (Z.geb_spec (_pc_corepos (_t_finish d) + 1) 16);
      [rewrite beyond_ok by lia|]; reflexivity. }
  rewrite Es. rsimpl.
  pose proof (belong_spec d (set_corepos (_t_finish d) (_pc_corepos (_t_finish d) + 1))
                          H Fi) as B.
  simpl in B. unfold idx, _DEQUE_ELEM_COUNT in *. split.
  - intros Hc. rewrite B.
    match goal with
    | |- context [Ok ?b] => replace b with false by (symmetry; test_cases)
    end.
    reflexivity.
  - intros Hm Hc.
    assert (B' : _deque_iterator_belong_to_deque
                   d (set_corepos (_t_finish d) (_pc_corepos (_t_finish d) + 1))
                 = Ok true) by (rewrite B; f_equal; test_cases).
    rewrite B'. rsimpl. eexists. split; [reflexivity|].
    split; [simpl; lia | exact B'].
Qed.

(** X4: the steps that leave the deque.  A step back from begin fails the
    membership assertion.  A step forward from end fails it when the end is
    in another block than begin or on the last cell of its block; when begin
    and end share a block with a cell left behind the end, the step returns
    an iterator one position past the end, and the membership test accepts
    it. *)
Theorem iterator_step_outside (d : deque_t A) :
  deque_valid d = true ->
  _deque_iterator_prev d (deque_begin d) = AssertFail /\
  (_ppc_mappos (_t_start d) < _ppc_mappos (_t_finish d) \/
   _pc_corepos (_t_finish d) = _DEQUE_ELEM_COUNT - 1 ->
   _deque_iterator_next d (deque_end d) = AssertFail) /\
  (_ppc_mappos (_t_start d) = _ppc_mappos (_t_finish d) ->
   _pc_corepos (_t_finish d) < _DEQUE_ELEM_COUNT - 1 ->
   exists t, _deque_iterator_next d (deque_end d) = Ok t /\
             idx t = idx (_t_finish d) + 1 /\
             _deque_iterator_belong_to_deque d t = Ok true).
Proof.
  intros V. apply deque_valid_wf in V. split.
  - apply (iterator_prev_of_begin d _ V (iter_ok_start d V)). reflexivity.
  - apply iterator_next_of_end. exact V.
Qed.

(** *** Size and element access *)

Lemma deque_empty_ok (d : deque_t A) :
  wf d -> deque_empty d = Ok (idx (_t_start d) =? idx (_t_finish d)).
Proof.
  intros H. unfold deque_empty.
  apply (iterator_equal_idx d _ _ H (iter_ok_start d H) (iter_ok_finish d H)).
Qed.

Lemma mapsize_positive (d : deque_t A) : wf d -> (_t_mapsize d >? 0) = true.
Proof.
  intros H. apply Z.gtb_lt. pose proof (wf_s d H). pose proof (wf_f d H).
  pose proof (wf_slots_ordered d H). lia.
Qed.

Lemma deque_at_ptr (d : deque_t A) (i : Z) :
  wf d -> 0 <= i < idx (_t_finish d) - idx (_t_start d) ->
  deque_at d i = elem_ptr d (idx (_t_start d) + i).
Proof.
  intros H Hi. unfold deque_at. rewrite (mapsize_positive d H). rsimpl.
  rewrite (deque_size_ok d H). rsimpl.
  replace (i <? idx (_t_finish d) - idx (_t_start d)) with true
    by (symmetry; apply Z.ltb_lt; lia).
  rsimpl. unfold deque_begin.
  destruct (iterator_next_n_ok d (_t_start d) i H (iter_ok_start d H))
    as (it & En & Hok & I); [lia | lia |].
  rewrite En. rsimpl. rewrite (belong_ok d it H Hok). rsimpl.
  rewrite (get_pointer_ok d it H Hok) by lia. rewrite I. reflexivity.
Qed.

Lemma deque_at_outside (d : deque_t A) (i : Z) :
  wf d -> idx (_t_finish d) - idx (_t_start d) <= i -> deque_at d i = AssertFail.
Proof.
  intros H Hi. unfold deque_at. rewrite (mapsize_positive d H). rsimpl.
  rewrite (deque_size_ok d H). rsimpl.
  replace (i <? idx (_t_finish d) - idx (_t_start d)) with false
    by (symmetry; apply Z.ltb_ge; lia).
  reflexivity.
Qed.

(** The element at an index of the sequence, through its address. *)
Lemma to_list_at (d : deque_t A) (i : nat) (a : A) :
  wf d -> to_list d !! i = Some a ->
  exists p, elem_ptr d (idx (_t_start d) + Z.of_nat i) = Ok p /\ cell_read d p = Ok a.
Proof.
  intros H Hl. pose proof (lookup_lt_Some _ _ _ Hl) as Hlt.
  rewrite length_to_list in Hlt.
  rewrite to_list_lookup in Hl by lia. injection Hl as Hl.
  destruct (elem_ptr_ok d (idx (_t_start d) + Z.of_nat i) H)
    as (b & blk & a' & _ & Ep & _ & _ & _ & Hc); [lia|].
  exists (b, (idx (_t_start d) + Z.of_nat i) mod _DEQUE_ELEM_COUNT).
  split; [exact Ep|]. unfold elem_val in Hl. rewrite Ep in Hl. rsimpl in Hl.
  rewrite Hc in Hl. simpl in Hl. subst a'. exact Hc.
Qed.

(** X5: on a valid deque [deque_size] is the length of the element sequence
    and [deque_empty] tells whether that sequence is empty. *)
Theorem deque_size_empty (d : deque_t A) :
  deque_valid d = true ->
  deque_size d = Ok (Z.of_nat (length (to_list d))) /\
  deque_empty d = Ok (match to_list d with [] => true | _ :: _ => false end).
Proof.
  intros V. apply deque_valid_wf in V. pose proof (wf_le d V) as Hle.
  pose proof (length_to_list d) as Hl.
  split; [rewrite (deque_size_ok d V), Hl; f_equal; lia|].
  rewrite (deque_empty_ok d V). f_equal.
  destruct (to_list d); simpl in Hl.
  - apply Z.eqb_eq. lia.
  - apply Z.eqb_neq. lia.
Qed.

(** X6: [deque_at] on a valid deque: an index below the size gives the
    address of the element of the sequence at that index; an index from the
    size on fails the assertion. *)
Theorem deque_at_bounds (d : deque_t A) (i : nat) :
  deque_valid d = true ->
  (forall a, to_list d !! i = Some a ->
             exists p, deque_at d (Z.of_nat i) = Ok p /\ cell_read d p = Ok a) /\
  (to_list d !! i = None -> deque_at d (Z.of_nat i) = AssertFail).
Proof.
  intros V. apply deque_valid_wf in V. pose proof (wf_le d V) as Hle. split.
  - intros a Hl. pose proof (lookup_lt_Some _ _ _ Hl) as Hlt.
    rewrite length_to_list in Hlt.
    destruct (to_list_at d i a V Hl) as (p & Ep & Hc).
    exists p. rewrite deque_at_ptr by (assumption || lia). split; assumption.
  - intros Hn. apply lookup_ge_None in Hn. rewrite length_to_list in Hn.
    apply deque_at_outside; [assumption | lia].
Qed.

(** X7: [deque_front] and [deque_back] on a valid deque return NULL when the
    deque is empty; otherwise they return the addresses of the first and of
    the last element of the sequence. *)
Theorem deque_front_back (d : deque_t A) :
  deque_valid d = true ->
  (to_list d = [] -> deque_front d = Ok None /\ deque_back d = Ok None) /\
  (forall a, head (to_list d) = Some a ->
             exists p, deque_front d = Ok (Some p) /\ cell_read d p = Ok a) /\
  (forall a, last (to_list d) = Some a ->
             exists p, deque_back d = Ok (Some p) /\ cell_read d p = Ok a).
Proof.
  intros V. apply deque_valid_wf in V. pose proof (wf_le d V) as Hle.
  pose proof (length_to_list d) as Hl.
  pose proof (loop_fuel_enough d _ V (iter_ok_start d V)) as Hfu.
  pose proof (wf_bound d V) as Hbd.
  unfold deque_front, deque_back. rewrite (deque_empty_ok d V).
  split; [|split].
  - intros E. rewrite E in Hl. simpl in Hl.
    replace (idx (_t_start d) =? idx (_t_finish d)) with true
      by (symmetry; apply Z.eqb_eq; lia).
    split; reflexivity.
  - intros a Ha. rewrite head_lookup in Ha.
    pose proof (lookup_lt_Some _ _ _ Ha) as Hlt.
    destruct (to_list_at d 0 a V Ha) as (p & Ep & Hc).
    replace (idx (_t_start d) =? idx (_t_finish d)) with false
      by (symmetry; apply Z.eqb_neq; lia).
    rsimpl. rewrite deque_at_ptr by (assumption || lia).
    change (Z.of_nat 0) with 0 in Ep. rewrite Ep. rsimpl.
    exists p. split; [reflexivity | exact Hc].
  - intros a Ha. rewrite last_lookup in Ha.
    pose proof (lookup_lt_Some _ _ _ Ha) as Hlt.
    destruct (to_list_at d _ a V Ha) as (p & Ep & Hc).
    replace (idx (_t_start d) =? idx (_t_finish d)) with false
      by (symmetry; apply Z.eqb_neq; lia).
    rsimpl. rewrite (deque_size_ok d V). rsimpl.
    rewrite wrap_size_t_small by (unfold loop_fuel in Hfu; lia).
    rewrite deque_at_ptr by (assumption || lia).
    replace (idx (_t_start d) + (idx (_t_finish d) - idx (_t_start d) - 1))
      with (idx (_t_start d) + Z.of_nat (pred (length (to_list d)))) by lia.
    rewrite Ep. rsimpl. exists p. split; [reflexivity | exact Hc].
Qed.

Lemma get_value_ok (d : deque_t A) (it : deque_iterator_t) :
  wf d -> iter_ok d it -> idx it < idx (_t_finish d) ->
  _deque_iterator_get_value d it = elem_val d (idx it).
Proof.
  intros H Hok Hlt. unfold _deque_iterator_get_value, deque_end.
  rewrite (belong_ok d it H Hok). rsimpl.
  rewrite (iterator_equal_idx d it _ H Hok (iter_ok_finish d H)).
  replace (idx it =? idx (_t_finish d)) with false by (symmetry; apply Z.eqb_neq; lia).
  rsimpl. rewrite (get_pointer_ok d it H Hok Hlt). reflexivity.
Qed.

(** X8: the reverse boundaries of a valid deque.  [deque_rbegin] fails the
    assertion on an empty deque and otherwise returns an iterator to the last
    element.  [deque_rend] returns an iterator that the membership test
    rejects, so that a comparison of a valid iterator with it by
    [_deque_iterator_equal] fails the assertion. *)
Theorem deque_reverse_boundaries (d : deque_t A) :
  deque_valid d = true ->
  (to_list d = [] -> deque_rbegin d = AssertFail) /\
  (forall a, last (to_list d) = Some a ->
             exists it, deque_rbegin d = Ok it /\
                        _deque_iterator_get_value d it = Ok a) /\
  exists r, deque_rend d = Ok r /\
            _deque_iterator_belong_to_deque d r = Ok false /\
            forall it, iterator_valid d it = true ->
                       _deque_iterator_equal d it r = AssertFail /\
                       _deque_iterator_equal d r it = AssertFail.
Proof.
  intros V. apply deque_valid_wf in V. pose proof (wf_le d V) as Hle.
  pose proof (length_to_list d) as Hl. pose proof (wf_so d V) as Hso.
  unfold deque_rbegin, deque_rend. rewrite (mapsize_positive d V). rsimpl.
  split; [|split].
  - intros E. rewrite E in Hl. simpl in Hl.
    apply (iterator_prev_of_begin d _ V (iter_ok_finish d V)). lia.
  - intros a Ha. rewrite last_lookup in Ha.
    pose proof (lookup_lt_Some _ _ _ Ha) as Hlt.
    destruct (iterator_prev_ok d _ V (iter_ok_finish d V)) as (it & Ep & Hit & I);
      [lia|].
    exists it. split; [exact Ep|]. rewrite get_value_ok by (assumption || lia).
    rewrite to_list_lookup in Ha by lia. injection Ha as Ha.
    replace (idx it) with (idx (_t_start d) + Z.of_nat (pred (length (to_list d))))
      by lia.
    destruct (elem_val_ok d (idx (_t_start d) + Z.of_nat (pred (length (to_list d)))) V)
      as (a' & Ea); [lia|].
    rewrite Ea in *. simpl in Ha. congruence.
  - eexists. split; [reflexivity|].
    assert (B : _deque_iterator_belong_to_deque
                  d (set_corepos (_t_start d) (_pc_corepos (_t_start d) - 1))
                = Ok false).
    { rewrite (belong_spec d _ V) by (simpl; apply (wf_sfirst d V)). simpl. f_equal.
      unfold _DEQUE_ELEM_COUNT in *. test_cases. }
    split; [exact B|]. intros it Hit. apply iterator_valid_ok in Hit.
    unfold _deque_iterator_equal. rewrite B, (belong_ok d it V Hit).
    split; reflexivity.
Qed.

(** X9: [_deque_iterator_at] on a valid deque, for a valid iterator and an
    offset that stays before the end.  It returns the address of the element
    at that offset, except for offset 0 from an iterator that stands on the
    after-last position of its block (the begin of a deque whose first block
    holds no element): there it returns the after-last address of that
    block, which holds no element. *)
Theorem deque_iterator_at_spec (d : deque_t A) (it : deque_iterator_t) (n : Z) :
  deque_valid d = true -> iterator_valid d it = true ->
  0 <= n -> idx it + n < idx (_t_finish d) ->
  (0 < n \/ _pc_corepos it < _DEQUE_ELEM_COUNT ->
   exists p a, _deque_iterator_at d it n = Ok p /\ cell_read d p = Ok a /\
               to_list d !! Z.to_nat (idx it + n - idx (_t_start d)) = Some a) /\
  (n = 0 -> _pc_corepos it = _DEQUE_ELEM_COUNT ->
   exists p, _deque_iterator_at d it n = Ok p /\ cell_read d p = Undefined).
Proof.
  intros V Hit Hn Hlt. apply deque_valid_wf in V. apply iterator_valid_ok in Hit.
  pose proof (io_range d it Hit) as R.
  unfold _deque_iterator_at. rewrite (belong_ok d it V Hit). rsimpl.
  destruct (iterator_next_n_ok d it n V Hit Hn) as (t & Et & Ht & It); [lia|].
  rewrite Et. rsimpl. pose proof Ht as [Sl Fi Of Ra No].
  destruct (wf_blocks d V (_ppc_mappos t) Sl) as (b & blk & Hm & Hh & Hlen).
  rewrite Hm in Fi. injection Fi as Fi. rewrite <- Fi. split.
  - intros Hc.
    assert (Hoff : _pc_corepos t < _DEQUE_ELEM_COUNT).
    { destruct (Z.eq_dec n 0) as [->|Hn0].
      - unfold _deque_iterator_next_n in Et. simpl in Et. injection Et as <-.
        destruct Hc as [Hc|Hc]; [lia | exact Hc].
      - destruct (Z.eq_dec (_pc_corepos t) _DEQUE_ELEM_COUNT) as [E|E]; [|lia].
        specialize (No E). lia. }
    destruct (elem_ptr_ok d (idx t) V) as (b' & blk' & a & Mk & Ep & _ & _ & _ & Hc');
      [lia|].
    unfold idx, _DEQUE_ELEM_COUNT in Mk, Ep, Hc', Hoff.
    destruct (div_mod_16 (_ppc_mappos t) (_pc_corepos t) ltac:(lia)) as [Ed Em].
    unfold _DEQUE_ELEM_COUNT in *. rewrite Ed in Mk. rewrite Em in Ep, Hc'.
    rewrite Hm in Mk. injection Mk as <-.
    exists (b, _pc_corepos t), a. split; [reflexivity|]. split; [exact Hc'|].
    rewrite to_list_lookup by lia. rewrite Z2Nat.id by lia.
    replace (idx (_t_start d) + (idx it + n - idx (_t_start d))) with (idx t) by lia.
    unfold elem_val, elem_ptr, idx, _DEQUE_ELEM_COUNT. rewrite Ed, Em.
    assert (Hm0 : 0 <= _ppc_mappos t) by (pose proof (wf_s d V); lia).
    rewrite (map_read_lookup _ _ _ Hm0 Hm). rsimpl.
    rewrite Hc'. reflexivity.
  - intros -> Hc. unfold _deque_iterator_next_n in Et. simpl in Et.
    injection Et as <-. exists (b, _pc_corepos it). split; [reflexivity|].
    unfold cell_read, block_of. simpl. rewrite Hh. rsimpl. rewrite Hc. reflexivity.
Qed.

(** X10: [_deque_iterator_set_value] through a valid iterator before the end
    returns; afterwards [_deque_iterator_get_value] through the same iterator
    returns the value stored, and the sequence is the old one with that
    element replaced. *)
Theorem iterator_set_get (d : deque_t A) (it : deque_iterator_t) (a : A) :
  deque_valid d = true -> iterator_valid d it = true ->
  idx it < idx (_t_finish d) ->
  exists d',
    _deque_iterator_set_value d it a = Ok d' /\
    _deque_iterator_get_value d' it = Ok a /\
    to_list d' = <[Z.to_nat (idx it - idx (_t_start d)) := a]> (to_list d).
Proof.
  intros V Hit Hlt. apply deque_valid_wf in V. apply iterator_valid_ok in Hit.
  pose proof (io_range d it Hit) as R.
  destruct (copy_value_elem_ok d it a V Hit Hlt)
    as (p & d1 & Ep & Ec & Sh & W & T & Va & Vo).
  pose proof (se_start _ _ Sh) as Es. pose proof (se_finish _ _ Sh) as Ef.
  exists d1. split; [|split].
  - unfold _deque_iterator_set_value, deque_end.
    rewrite (belong_ok d it V Hit). rsimpl.
    rewrite (iterator_equal_idx d it _ V Hit (iter_ok_finish d V)).
    replace (idx it =? idx (_t_finish d)) with false
      by (symmetry; apply Z.eqb_neq; lia).
    rsimpl. exact Ec.
  - rewrite get_value_ok; [exact Va | exact W | apply (iter_ok_shape d); assumption |].
    rewrite Ef. exact Hlt.
  - apply list_eq. intros x.
    destruct (Z_lt_dec (Z.of_nat x) (idx (_t_finish d) - idx (_t_start d))) as [L|L].
    + rewrite to_list_lookup by (rewrite Es, Ef; lia). rewrite Es.
      destruct (Z.eq_dec (idx (_t_start d) + Z.of_nat x) (idx it)) as [E|E].
      * replace (Z.to_nat (idx it - idx (_t_start d))) with x by lia.
        rewrite list_lookup_insert_eq by (rewrite length_to_list; lia).
        rewrite E, Va. reflexivity.
      * rewrite list_lookup_insert_ne by lia.
        rewrite to_list_lookup by lia. rewrite Vo by lia. reflexivity.
    + rewrite to_list_lookup_ge by (rewrite Es, Ef; lia). symmetry.
      apply lookup_ge_None_2. rewrite length_insert, length_to_list. lia.
Qed.

(** *** Removal at the ends *)

Lemma to_list_nil_iff (d : deque_t A) :
  wf d -> (to_list d = [] <-> idx (_t_finish d) = idx (_t_start d)).
Proof.
  intros H. pose proof (wf_le d H). pose proof (length_to_list d) as Hl.
  split; intros E.
  - rewrite E in Hl. simpl in Hl. lia.
  - apply length_zero_iff_nil. lia.
Qed.

(** X11: [deque_pop_back] on a valid deque fails the assertion when the deque
    is empty; otherwise it returns a well-formed deque whose sequence is the
    old one without its last element, and it copies no element. *)
Theorem deque_pop_back_spec (d : deque_t A) :
  deque_valid d = true ->
  (to_list d = [] -> deque_pop_back d = AssertFail) /\
  (to_list d <> [] ->
   exists d' t, deque_pop_back d = Ok d' /\ wf d' /\
                to_list d' = take (length (to_list d) - 1) (to_list d) /\
                trace d' = trace d ++ t /\ no_copy t = true).
Proof.
  intros V. apply deque_valid_wf in V. pose proof (wf_le d V) as Hle.
  pose proof (to_list_nil_iff d V) as Hn. split.
  - intros E. apply Hn in E. unfold deque_pop_back.
    rewrite (deque_size_ok d V), E, Z.sub_diag. reflexivity.
  - intros E.
    destruct (deque_pop_back_ok d V) as (d' & t & Ep & W & T & N & L);
      [destruct (Z.eq_dec (idx (_t_finish d)) (idx (_t_start d))) as [E'|E'];
       [apply Hn in E'; contradiction | lia]|].
    exists d', t. split; [exact Ep|]. split; [exact W|]. split; [exact L|].
    split; assumption.
Qed.

(** X12: [deque_pop_front] on a valid deque fails the assertion when the
    deque is empty; otherwise it returns a well-formed deque whose sequence
    is the old one without its first element, and it copies no element. *)
Theorem deque_pop_front_spec (d : deque_t A) :
  deque_valid d = true ->
  (to_list d = [] -> deque_pop_front d = AssertFail) /\
  (to_list d <> [] ->
   exists d' t, deque_pop_front d = Ok d' /\ wf d' /\
                to_list d' = drop 1 (to_list d) /\
                trace d' = trace d ++ t /\ no_copy t = true).
Proof.
  intros V. apply deque_valid_wf in V. pose proof (wf_le d V) as Hle.
  pose proof (to_list_nil_iff d V) as Hn. split.
  - intros E. apply Hn in E. unfold deque_pop_front.
    rewrite (deque_size_ok d V), E, Z.sub_diag. reflexivity.
  - intros E.
    destruct (deque_pop_front_ok d V) as (d' & t & Ep & W & T & N & L);
      [destruct (Z.eq_dec (idx (_t_finish d)) (idx (_t_start d))) as [E'|E'];
       [apply Hn in E'; contradiction | lia]|].
    exists d', t. split; [exact Ep|]. split; [exact W|]. split; [exact L|].
    split; assumption.
Qed.

(** *** Comparison *)

Lemma deque_equal_value (d1 d2 : deque_t A) :
  wf d1 -> wf d2 -> _deque_same_type d1 d2 = true ->
  deque_equal d1 d2
  = Ok (Nat.eqb (length (to_list d1)) (length (to_list d2)) &&
        pairwise_equiv (to_list d1) (to_list d2)).
Proof.
  intros V1 V2 Hty.
  pose proof (wf_le d1 V1) as L1. pose proof (wf_le d2 V2) as L2.
  unfold deque_equal.
  rewrite (mapsize_positive d1 V1), (mapsize_positive d2 V2), Hty. rsimpl.
  rewrite (deque_size_ok d1 V1), (deque_size_ok d2 V2). rsimpl.
  rewrite !length_to_list.
  destruct (Z.eqb_spec (idx (_t_finish d1) - idx (_t_start d1))
                       (idx (_t_finish d2) - idx (_t_start d2))) as [E|E].
  - cbn [negb]. rewrite E, Nat.eqb_refl. cbn [andb]. unfold deque_begin.
    apply (equal_loop_ok d1 d2 V1 V2 _ _ _ (iter_ok_start d1 V1) (iter_ok_start d2 V2) E).
    apply loop_fuel_enough; [assumption | apply iter_ok_start; assumption].
  - cbn [negb]. f_equal. symmetry. apply andb_false_iff. left.
    apply Nat.eqb_neq. lia.
Qed.

Lemma deque_less_value (d1 d2 : deque_t A) :
  wf d1 -> wf d2 -> _deque_same_type d1 d2 = true ->
  deque_less d1 d2 = Ok (lex_less (to_list d1) (to_list d2)).
Proof.
  intros V1 V2 Hty.
  destruct (less_elem_loop_ok d1 d2 V1 V2 (loop_fuel d1) _ _
              (iter_ok_start d1 V1) (iter_ok_start d2 V2)
              (loop_fuel_enough d1 _ V1 (iter_ok_start d1 V1)))
    as (r & Er & Hr).
  unfold deque_less. rewrite Hty. rsimpl. unfold deque_begin. rewrite Er. rsimpl.
  unfold to_list. rewrite <- Hr. destruct r as [b|]; [reflexivity|].
  rewrite (deque_size_ok d1 V1), (deque_size_ok d2 V2). reflexivity.
Qed.

(** X13: the derived comparisons on valid deques.  For deques of the same
    type [deque_greater] is [deque_less] with the arguments exchanged, and
    [deque_less_equal] and [deque_greater_equal] add the case that
    [deque_equal] accepts.  For deques of different types all three fail
    the assertion of [deque_less]; none of them returns false. *)
Theorem deque_derived_comparisons (d1 d2 : deque_t A) :
  deque_valid d1 = true -> deque_valid d2 = true ->
  (_deque_same_type d1 d2 = true -> _deque_same_type d2 d1 = true ->
   let e := Nat.eqb (length (to_list d1)) (length (to_list d2)) &&
            pairwise_equiv (to_list d1) (to_list d2) in
   deque_greater d1 d2 = Ok (lex_less (to_list d2) (to_list d1)) /\
   deque_less_equal d1 d2 = Ok (lex_less (to_list d1) (to_list d2) || e) /\
   deque_greater_equal d1 d2 = Ok (lex_less (to_list d2) (to_list d1) || e)) /\
  (_deque_same_type d1 d2 = false -> deque_less_equal d1 d2 = AssertFail) /\
  (_deque_same_type d2 d1 = false ->
   deque_greater d1 d2 = AssertFail /\ deque_greater_equal d1 d2 = AssertFail).
Proof.
  intros V1 V2. apply deque_valid_wf in V1, V2.
  unfold deque_less_equal, deque_greater_equal, deque_greater.
  split; [|split].
  - intros T12 T21.
    rewrite (deque_less_value d1 d2 V1 V2 T12), (deque_less_value d2 d1 V2 V1 T21).
    rewrite (deque_equal_value d1 d2 V1 V2 T12).
    split; [reflexivity|].
    split; rsimpl; destruct (lex_less _ _); reflexivity.
  - intros T12. unfold deque_less. rewrite T12. reflexivity.
  - intros T21. unfold deque_less. rewrite T21. split; reflexivity.
Qed.

Lemma pairwise_equiv_sym (la lb : list A) :
  pairwise_equiv la lb = pairwise_equiv lb la.
Proof.
  revert lb. induction la as [|a la IH]; intros [|b lb]; simpl; try reflexivity.
  rewrite (orb_comm (t_typeless a b)), IH. reflexivity.
Qed.

Lemma lex_less_asym (la lb : list A) :
  (forall a b, t_typeless a b = true -> t_typeless b a = false) ->
  lex_less la lb = true -> lex_less lb la = false.
Proof.
  intros Has. revert lb. induction la as [|a la IH]; intros [|b lb]; simpl;
    try reflexivity; try discriminate.
  destruct (t_typeless a b) eqn:Eab.
  - intros _. rewrite (Has a b Eab). reflexivity.
  - destruct (t_typeless b a); [discriminate|]. apply IH.
Qed.

(** X14: on valid deques whose types are the same in both directions,
    [deque_equal] is symmetric; and when the element order is asymmetric,
    [deque_less] is asymmetric too. *)
Theorem deque_equal_sym_less_asym (d1 d2 : deque_t A) :
  deque_valid d1 = true -> deque_valid d2 = true ->
  _deque_same_type d1 d2 = true -> _deque_same_type d2 d1 = true ->
  deque_equal d1 d2 = deque_equal d2 d1 /\
  ((forall a b, t_typeless a b = true -> t_typeless b a = false) ->
   deque_less d1 d2 = Ok true -> deque_less d2 d1 = Ok false).
Proof.
  intros V1 V2 T12 T21. apply deque_valid_wf in V1, V2. split.
  - rewrite (deque_equal_value d1 d2 V1 V2 T12), (deque_equal_value d2 d1 V2 V1 T21).
    rewrite pairwise_equiv_sym, Nat.eqb_sym. reflexivity.
  - intros Has.
    rewrite (deque_less_value d1 d2 V1 V2 T12), (deque_less_value d2 d1 V2 V1 T21).
    intros E. injection E as E. f_equal. apply lex_less_asym; assumption.
Qed.

(** *** Insert and erase *)

(** The value that an iterator at index [i] of the sequence reads. *)
Lemma get_value_at (d : deque_t A) (it : deque_iterator_t) (i : nat) (a : A) :
  wf d -> iter_ok d it -> idx it = idx (_t_start d) + Z.of_nat i ->
  to_list d !! i = Some a -> _deque_iterator_get_value d it = Ok a.
Proof.
  intros H Hit Ii Hl. pose proof (lookup_lt_Some _ _ _ Hl) as Hlt.
  rewrite length_to_list in Hlt. pose proof (wf_le d H).
  rewrite get_value_ok by (assumption || lia).
  rewrite to_list_lookup in Hl by lia. injection Hl as Hl. rewrite Ii.
  destruct (elem_val_ok d (idx (_t_start d) + Z.of_nat i) H) as (a' & Ea); [lia|].
  rewrite Ea in *. simpl in Hl. congruence.
Qed.

(** X15: insert of [c] copies of a value at a valid position, when both
    boundary blocks have room for them and the insert is not at begin of a
    deque of one element: the call returns a well-formed deque whose sequence
    is the old one with the copies spliced in at the index of the position,
    together with an iterator that reads the first of them. *)
Theorem deque_insert_n_splice (d : deque_t A) (pos : deque_iterator_t) (c : Z) (a : A) :
  deque_valid d = true -> iterator_valid d pos = true ->
  1 <= c -> c < _pc_corepos (_t_start d) ->
  c < _DEQUE_ELEM_COUNT - _pc_corepos (_t_finish d) ->
  (length (to_list d) = 1%nat -> idx (_t_start d) < idx pos) ->
  exists d' r,
    _deque_insert_n d pos c a = Ok (d', r) /\ wf d' /\
    to_list d' = take (Z.to_nat (idx pos - idx (_t_start d))) (to_list d)
                 ++ replicate (Z.to_nat c) a
                 ++ drop (Z.to_nat (idx pos - idx (_t_start d))) (to_list d) /\
    _deque_iterator_get_value d' r = Ok a.
Proof.
  intros V Hp Hc Hf Hb Hone. apply deque_valid_wf in V. apply iterator_valid_ok in Hp.
  pose proof (io_range d pos Hp) as R. pose proof (length_to_list d) as Hl.
  destruct (insert_in_block d pos c a V Hp Hc Hf Hb)
    as (d' & r & E & W & Hr & Ir & Lr & L); [intros E1; apply Hone; lia|].
  exists d', r. split; [exact E|]. split; [exact W|]. split; [exact L|].
  apply (get_value_at d' r (Z.to_nat (idx pos - idx (_t_start d))));
    [exact W | exact Hr | lia |].
  rewrite L, lookup_app_r by (rewrite length_take, Hl; lia).
  rewrite length_take, Hl.
  rewrite lookup_app_l by (rewrite length_replicate; lia).
  apply lookup_replicate_2. lia.
Qed.

(** X16: insert at begin of a valid deque of one element, when the last
    block has room: the call takes the back branch and fails the membership
    assertion met when the move toward the end steps back from the first
    position. *)
Theorem deque_insert_begin_of_single
        (d : deque_t A) (pos : deque_iterator_t) (c : Z) (a : A) :
  deque_valid d = true -> iterator_valid d pos = true ->
  length (to_list d) = 1%nat -> idx pos = idx (_t_start d) ->
  1 <= c -> c < _DEQUE_ELEM_COUNT - _pc_corepos (_t_finish d) ->
  _deque_insert_n d pos c a = AssertFail.
Proof.
  intros V Hp Hone Ip Hc Hroom. apply deque_valid_wf in V. apply iterator_valid_ok in Hp.
  pose proof (wf_le d V). rewrite length_to_list in Hone.
  apply insert_begin_of_single; try assumption. lia.
Qed.

(** X17: insert of one value at a valid position followed by erase at the
    iterator the insert returned, when both boundary blocks have room for one
    more element and the insert is not at begin of a deque of one element:
    both calls return and the sequence is the one before the insert. *)
Theorem deque_insert_erase_round_trip (d : deque_t A) (pos : deque_iterator_t) (a : A) :
  deque_valid d = true -> iterator_valid d pos = true ->
  1 < _pc_corepos (_t_start d) ->
  1 < _DEQUE_ELEM_COUNT - _pc_corepos (_t_finish d) ->
  (length (to_list d) = 1%nat -> idx (_t_start d) < idx pos) ->
  exists d1 r d2 r',
    _deque_insert_n d pos 1 a = Ok (d1, r) /\ deque_erase d1 r = Ok (d2, r') /\
    to_list d2 = to_list d.
Proof.
  intros V Hp Hf Hb Hone. apply deque_valid_wf in V. apply iterator_valid_ok in Hp.
  pose proof (length_to_list d) as Hl.
  destruct (insert_erase_in_block d pos a V Hp Hf Hb)
    as (d1 & r & d2 & r' & E1 & E2 & _ & L); [intros E; apply Hone; lia|].
  exists d1, r, d2, r'. repeat split; assumption.
Qed.

(** The iterator that erase returns stands at the index of the erased
    element. *)
Lemma deque_erase_result (d : deque_t A) (p : deque_iterator_t) :
  wf d -> iter_ok d p -> idx p < idx (_t_finish d) ->
  exists d' r,
    deque_erase d p = Ok (d', r) /\ wf d' /\ iter_ok d' r /\
    idx r - idx (_t_start d') = idx p - idx (_t_start d) /\
    to_list d' = take (Z.to_nat (idx p - idx (_t_start d))) (to_list d) ++
                 drop (S (Z.to_nat (idx p - idx (_t_start d)))) (to_list d).
Proof.
  intros H Hp Hlt. pose proof (iter_ok_finish d H) as Hf.
  pose proof (iter_ok_start d H) as Hs. pose proof (io_range d p Hp) as Rp.
  pose proof (length_to_list d) as Hl.
  destruct (deque_erase_removes d p H Hp Hlt) as (d' & r & E & W & L).
  exists d', r. split; [exact E|]. split; [exact W|].
  assert (Hl' : length (to_list d') = (length (to_list d) - 1)%nat).
  { rewrite L, length_app, length_take, length_drop. lia. }
  pose proof (length_to_list d') as Hl2. pose proof (wf_le d' W) as Hle'.
  revert E. unfold deque_erase, deque_end, deque_begin.
  rewrite (belong_ok d p H Hp).
  rewrite (iterator_equal_idx d p _ H Hp Hf), (iterator_equal_idx d p _ H Hp Hs).
  replace (idx p =? idx (_t_finish d)) with false by (symmetry; apply Z.eqb_neq; lia).
  rsimpl.
  destruct (Z.eqb_spec (idx p) (idx (_t_start d))) as [E0|E0].
  - intros E. bind_inv E. injection E as <- <-.
    split; [apply iter_ok_start; exact W|]. split; [lia | exact L].
  - destruct (iterator_prev_ok d (_t_finish d) H Hf) as (tl & El & Htl & Il); [lia|].
    rewrite El. rsimpl. rewrite (iterator_equal_idx d p tl H Hp Htl).
    destruct (Z.eqb_spec (idx p) (idx tl)) as [E1|E1]; rsimpl.
    + intros E. bind_inv E. injection E as <- <-.
      split; [apply iter_ok_finish; exact W|]. split; [lia | exact L].
    + destruct (iterator_next_ok d p H Hp) as (p1 & En & Hp1 & I1); [lia|].
      rewrite En. rsimpl.
      destruct (move_elem_to_begin_ok d p1 (_t_finish d) 1 H ltac:(lia) Hp1 Hf)
        as (d1 & te & Em & Hte & Ite & Sh & W1 & _); [lia | lia |].
      rewrite Em. rsimpl.
      pose proof (se_start _ _ Sh) as Es. pose proof (se_finish _ _ Sh) as Ef.
      destruct (shrink_at_end_ok d1 1 W1 ltac:(lia))
        as (d2 & Ed & W2 & _ & _ & _ & St & _ & Ine & _ & _ & Mo & _).
      rewrite Ed. rsimpl. intros E. injection E as <- <-.
      rewrite Es, Ef in *.
      replace (Z.min 1 (idx (_t_finish d) - idx (_t_start d))) with 1 in Ine by lia.
      pose proof (wf_fo d2 W) as Hfo'. pose proof Hp as [Sl Fi Of Ra No].
      assert (Hm : _ppc_mappos p <= _ppc_mappos (_t_finish d2))
        by (unfold idx, _DEQUE_ELEM_COUNT in *; lia).
      split; [|split; [rewrite St; reflexivity | exact L]].
      constructor; rewrite ?St.
      * lia.
      * rewrite Mo by (rewrite Z2Nat.id by (pose proof (wf_s d H); lia); lia).
        rewrite (se_map _ _ Sh). exact Fi.
      * exact Of.
      * lia.
      * exact No.
Qed.

(** X18: erase at a valid position that holds an element returns an iterator
    to the element that followed the erased one: through it
    [_deque_iterator_get_value] reads that element from the new deque, and
    when the erased element was the last the iterator is equal to end. *)
Theorem deque_erase_returns_next (d : deque_t A) (p : deque_iterator_t) :
  deque_valid d = true -> iterator_valid d p = true ->
  idx p < idx (_t_finish d) ->
  exists d' r,
    deque_erase d p = Ok (d', r) /\
    match to_list d !! S (Z.to_nat (idx p - idx (_t_start d))) with
    | Some a => _deque_iterator_get_value d' r = Ok a
    | None => _deque_iterator_equal d' r (deque_end d') = Ok true
    end.
Proof.
  intros V Hp Hlt. apply deque_valid_wf in V. apply iterator_valid_ok in Hp.
  pose proof (io_range d p Hp) as Rp. pose proof (length_to_list d) as Hl.
  destruct (deque_erase_result d p V Hp Hlt) as (d' & r & E & W & Hr & Ir & L).
  exists d', r. split; [exact E|].
  assert (Hl' : length (to_list d') = (length (to_list d) - 1)%nat).
  { rewrite L, length_app, length_take, length_drop. lia. }
  pose proof (length_to_list d') as Hl2. pose proof (wf_le d' W) as Hle'.
  destruct (to_list d !! S (Z.to_nat (idx p - idx (_t_start d)))) as [a|] eqn:Ea.
  - apply (get_value_at d' r (Z.to_nat (idx p - idx (_t_start d))));
      [exact W | exact Hr | lia |].
    rewrite L, lookup_app_r by (rewrite length_take; lia).
    rewrite length_take, lookup_drop. rewrite <- Ea. f_equal. lia.
  - apply lookup_ge_None in Ea. unfold deque_end.
    rewrite (iterator_equal_idx d' r _ W Hr (iter_ok_finish d' W)). f_equal.
    apply Z.eqb_eq. lia.
Qed.

(** *** Erasing a range, clearing and resizing *)

(** The sequence after the elements behind position [e] have been moved to
    position [b] and the sequence has been cut to its new length. *)
Lemma to_list_erase_range (d d1 d2 : deque_t A) (b e : Z) :
  wf d -> wf d2 ->
  idx (_t_start d) <= b -> b <= e -> e <= idx (_t_finish d) ->
  _t_start d2 = _t_start d -> idx (_t_finish d2) = idx (_t_finish d) - (e - b) ->
  (forall j, idx (_t_start d) <= j < idx (_t_finish d2) ->
             elem_val d2 j = elem_val d1 j) ->
  (forall j, b <= j < idx (_t_finish d) - (e - b) ->
             elem_val d1 j = elem_val d (j + (e - b))) ->
  (forall j, idx (_t_start d) <= j < b -> elem_val d1 j = elem_val d j) ->
  to_list d2 = take (Z.to_nat (b - idx (_t_start d))) (to_list d) ++
               drop (Z.to_nat (e - idx (_t_start d))) (to_list d).
Proof.
  intros H W2 Hb Hbe He St Fi V2 M1 M2. apply list_eq. intros x.
  pose proof (length_to_list d) as Hl.
  destruct (Z_lt_dec (Z.of_nat x) (idx (_t_finish d) - (e - b) - idx (_t_start d)))
    as [Lx|Lx].
  - rewrite to_list_lookup by (rewrite St, Fi; lia). rewrite St.
    rewrite V2 by (rewrite Fi; lia).
    destruct (Z_lt_dec (Z.of_nat x) (b - idx (_t_start d))) as [Lp|Lp].
    + rewrite lookup_app_l by (rewrite length_take, Hl; lia).
      rewrite lookup_take_lt by lia. rewrite to_list_lookup by lia.
      rewrite M2 by lia. reflexivity.
    + rewrite lookup_app_r by (rewrite length_take, Hl; lia).
      rewrite length_take, Hl, lookup_drop.
      rewrite to_list_lookup by lia. rewrite M1 by lia.
      do 3 f_equal. lia.
  - rewrite to_list_lookup_ge by (rewrite St, Fi; lia). symmetry.
    apply lookup_ge_None_2.
    rewrite length_app, length_take, length_drop, Hl. lia.
Qed.

Lemma deque_erase_range_ok (d : deque_t A) (b e : deque_iterator_t) :
  wf d -> iter_ok d b -> iter_ok d e -> idx b <= idx e ->
  exists d',
    deque_erase_range d b e = Ok (d', b) /\ wf d' /\
    _t_mapsize d' = _t_mapsize d /\ _t_start d' = _t_start d /\
    idx (_t_finish d') = idx (_t_finish d) - (idx e - idx b) /\
    to_list d' = take (Z.to_nat (idx b - idx (_t_start d))) (to_list d) ++
                 drop (Z.to_nat (idx e - idx (_t_start d))) (to_list d) /\
    (idx b = idx e -> d' = d) /\
    (idx b < idx e ->
     exists t_free,
       trace d' = trace d ++
                  map (fun j => EvCopy (ptr_at d j)
                                       (FromElem (ptr_at d (j + (idx e - idx b)))))
                      (zrange (idx b) (Z.to_nat (idx (_t_finish d) - idx e))) ++
                  map (fun j => EvDestroy (ptr_at d j))
                      (zrange (idx (_t_finish d) - (idx e - idx b))
                              (Z.to_nat (idx e - idx b))) ++ t_free /\
       no_copy t_free = true).
Proof.
  intros H Hb He Hle. pose proof (iter_ok_finish d H) as Hf.
  pose proof (io_range d b Hb) as Rb. pose proof (io_range d e He) as Re.
  pose proof (length_to_list d) as Hl.
  unfold deque_erase_range, _deque_iterator_before, iterator_distance.
  rewrite (belong_ok d b H Hb). rsimpl.
  rewrite (iterator_equal_idx d b e H Hb He).
  rewrite (iterator_less_ok d b e H Hb He).
  replace (ror (Ok (idx b =? idx e)) (Ok (idx b <? idx e))) with (@Ok bool true).
  2:{ unfold ror. rsimpl. destruct (Z.eqb_spec (idx b) (idx e)); [reflexivity|].
      f_equal. symmetry. apply Z.ltb_lt. lia. }
  rsimpl. rewrite (iterator_minus_ok d e b H He Hb). rsimpl.
  destruct (Z.eq_dec (idx e) (idx b)) as [E|E].
  - rewrite E, Z.sub_diag. unfold _move_elem_to_begin, deque_end.
    rewrite (iterator_equal_idx d e _ H He Hf).
    replace (rand (rnot (Ok (idx e =? idx (_t_finish d)))) (Ok (negb (0 =? 0))))
      with (@Ok bool false) by (destruct (idx e =? idx (_t_finish d)); reflexivity).
    rsimpl. rewrite prev_n_zero. rsimpl.
    rewrite (iterator_minus_ok d e b H He Hb), E, Z.sub_diag. rsimpl.
    rewrite (shrink_at_end_zero d H). exists d. split; [reflexivity|].
    split; [exact H|]. split; [reflexivity|]. split; [reflexivity|].
    split; [lia|]. split; [|split; [reflexivity | lia]].
    rewrite <- (take_drop (Z.to_nat (idx b - idx (_t_start d))) (to_list d)) at 1.
    reflexivity.
  - destruct (move_elem_to_begin_ok d e (_t_finish d) (idx e - idx b) H ltac:(lia) He Hf)
      as (d1 & te & Em & Hte & Ite & Sh & W1 & (M1 & M2 & M3)); [lia | lia |].
    unfold deque_end. rewrite Em. rsimpl.
    rewrite (iterator_minus_ok d1 e b W1 (iter_ok_shape d d1 e Sh He)
                               (iter_ok_shape d d1 b Sh Hb)). rsimpl.
    pose proof (se_start _ _ Sh) as Es. pose proof (se_finish _ _ Sh) as Ef.
    pose proof (se_mapsize _ _ Sh) as Ez.
    destruct (shrink_at_end_ok d1 (idx e - idx b) W1 ltac:(lia))
      as (d2 & Ed & W2 & _ & Mz & _ & St & _ & Ine & Hv & _ & _ & _ & Tr).
    rewrite Ed. rsimpl. rewrite Es, Ef in *.
    replace (Z.min (idx e - idx b) (idx (_t_finish d) - idx (_t_start d)))
      with (idx e - idx b) in * by lia.
    exists d2. split; [reflexivity|]. split; [exact W2|].
    split; [congruence|]. split; [exact St|]. split; [exact Ine|].
    split; [|split; [lia|]].
    + apply (to_list_erase_range d d1 d2 (idx b) (idx e) H W2); try lia; try assumption.
      * intros j Hj. apply (Hv j Hj).
      * intros j Hj. apply M1. lia.
      * intros j Hj. apply M2; lia.
    + intros _. eexists. split.
      * rewrite Tr, M3, <- !app_assoc. f_equal.
        replace (idx e - (idx e - idx b)) with (idx b) by lia.
        replace (idx (_t_finish d) - (idx e - idx b) - idx b)
          with (idx (_t_finish d) - idx e) by lia.
        f_equal. rewrite Ine. f_equal. apply map_ext. intros j.
        rewrite (ptr_at_shape _ _ _ Sh). reflexivity.
      * apply no_copy_free.
Qed.

(** X19: [deque_erase_range] on a valid deque, for valid iterators [b] not
    behind [e]: the call returns [b] and a well-formed deque whose sequence is
    the old one without the elements from [b] up to [e], with the directory
    size and the start iterator unchanged.  When the range is not empty, each
    element behind it is copied once to the position that is the length of
    the range further to the front, then the last positions, as many as the
    range is long, are destroyed. *)
Theorem deque_erase_range_spec (d : deque_t A) (b e : deque_iterator_t) :
  deque_valid d = true -> iterator_valid d b = true -> iterator_valid d e = true ->
  idx b <= idx e ->
  exists d',
    deque_erase_range d b e = Ok (d', b) /\ wf d' /\
    _t_mapsize d' = _t_mapsize d /\ _t_start d' = _t_start d /\
    to_list d' = take (Z.to_nat (idx b - idx (_t_start d))) (to_list d) ++
                 drop (Z.to_nat (idx e - idx (_t_start d))) (to_list d) /\
    (idx b < idx e ->
     exists t_free,
       trace d' = trace d ++
                  map (fun j => EvCopy (ptr_at d j)
                                       (FromElem (ptr_at d (j + (idx e - idx b)))))
                      (zrange (idx b) (Z.to_nat (idx (_t_finish d) - idx e))) ++
                  map (fun j => EvDestroy (ptr_at d j))
                      (zrange (idx (_t_finish d) - (idx e - idx b))
                              (Z.to_nat (idx e - idx b))) ++ t_free /\
       no_copy t_free = true).
Proof.
  intros V Hb He Hle. apply deque_valid_wf in V.
  apply iterator_valid_ok in Hb, He.
  destruct (deque_erase_range_ok d b e V Hb He Hle)
    as (d' & E & W & Mz & St & _ & L & _ & Tr).
  exists d'. repeat (split; [assumption|]). exact Tr.
Qed.

(** X20: [deque_clear] on a valid deque returns a well-formed deque with no
    element, the directory size and the start iterator unchanged.  It copies
    no element, and when the deque held elements it destroys the element of
    every position, from the first to the last. *)
Theorem deque_clear_spec (d : deque_t A) :
  deque_valid d = true ->
  exists d',
    deque_clear d = Ok d' /\ wf d' /\ to_list d' = [] /\
    deque_empty d' = Ok true /\
    _t_mapsize d' = _t_mapsize d /\ _t_start d' = _t_start d /\
    (to_list d = [] -> d' = d) /\
    (to_list d <> [] ->
     exists t_free,
       trace d' = trace d ++
                  map (fun j => EvDestroy (ptr_at d j))
                      (zrange (idx (_t_start d)) (length (to_list d))) ++ t_free /\
       no_copy t_free = true).
Proof.
  intros V. apply deque_valid_wf in V. pose proof (wf_le d V) as Hle.
  pose proof (length_to_list d) as Hl.
  destruct (deque_erase_range_ok d (_t_start d) (_t_finish d) V
                                 (iter_ok_start d V) (iter_ok_finish d V) Hle)
    as (d' & E & W & Mz & St & Fi & L & Same & Tr).
  assert (Ln : to_list d' = []).
  { rewrite L, Z.sub_diag. simpl.
    apply drop_ge. rewrite Hl. lia. }
  exists d'. split.
  { unfold deque_clear, deque_begin, deque_end. rewrite E. reflexivity. }
  split; [exact W|]. split; [exact Ln|]. split.
  { rewrite (deque_empty_ok d' W). f_equal.
    pose proof (length_to_list d') as Hl'. rewrite Ln in Hl'. simpl in Hl'.
    pose proof (wf_le d' W). apply Z.eqb_eq. lia. }
  split; [exact Mz|]. split; [exact St|]. split.
  - intros En. apply Same. rewrite En in Hl. simpl in Hl. lia.
  - intros Nn.
    assert (Hlt : idx (_t_start d) < idx (_t_finish d)).
    { destruct (Z.eq_dec (idx (_t_start d)) (idx (_t_finish d))) as [Q|Q]; [|lia].
      exfalso. apply Nn. apply nil_length_inv. lia. }
    destruct (Tr Hlt) as (tf & T & Nc). exists tf. split; [|exact Nc].
    rewrite T, Z.sub_diag. simpl. f_equal. f_equal.
    replace (idx (_t_finish d) - (idx (_t_finish d) - idx (_t_start d)))
      with (idx (_t_start d)) by lia.
    replace (Z.to_nat (idx (_t_finish d) - idx (_t_start d)))
      with (length (to_list d)) by lia.
    reflexivity.
Qed.

(** *** Allocation of blocks and growth beyond the boundary block *)

Lemma allocate_containers_ok (dir : Z) :
  dir = 1 \/ dir = -1 ->
  forall (n : nat) (d : deque_t A) (slot : Z),
    (forall i, visited slot dir n i -> 0 <= i < Z.of_nat (length (_ppc_map d))) ->
    exists d',
      allocate_containers n d slot dir = Ok d' /\
      _t_typeinfo d' = _t_typeinfo d /\ _t_mapsize d' = _t_mapsize d /\
      _t_start d' = _t_start d /\ _t_finish d' = _t_finish d /\
      length (_ppc_map d') = length (_ppc_map d) /\
      (forall j : nat, (j < n)%nat ->
                       _ppc_map d' !! Z.to_nat (slot + dir * Z.of_nat j)
                       = Some (Some (length (_t_allocater d) + j)%nat)) /\
      (forall x : nat, ~ visited slot dir n (Z.of_nat x) ->
                       _ppc_map d' !! x = _ppc_map d !! x) /\
      _t_allocater d' = _t_allocater d ++
                        replicate n (Some (replicate (Z.to_nat _DEQUE_ELEM_COUNT) uninit)) /\
      trace d' = trace d ++ map EvAlloc (seq (length (_t_allocater d)) n).
Proof.
  intros Hdir. induction n as [|n IH]; intros d slot Hpre.
  - exists d. simpl. rewrite !app_nil_r.
    repeat (split; [reflexivity|]).
    split; [intros j Hj; lia|]. split; [reflexivity|]. split; reflexivity.
  - destruct (Hpre slot) as [Hs0 Hs1]; [apply visited_S; left; reflexivity|].
    simpl. unfold map_write. simpl.
    replace (0 <=? slot) with true by (symmetry; apply Z.leb_le; lia).
    replace (slot <? Z.of_nat (length (_ppc_map d))) with true
      by (symmetry; apply Z.ltb_lt; lia).
    rsimpl.
    set (blk := replicate (Z.to_nat _DEQUE_ELEM_COUNT) uninit).
    set (b := length (_t_allocater d)).
    set (d2 := set_map (log (set_heap d (_t_allocater d ++ [Some blk])) (EvAlloc b))
                       (<[Z.to_nat slot:=Some b]> (_ppc_map d))).
    assert (Hnot : forall i, visited (slot + dir) dir n i -> i <> slot).
    { intros i (j & Hj & ->). destruct Hdir; subst dir; lia. }
    destruct (IH d2 (slot + dir)) as
        (d' & Ed & Ti & Ms & St & Fi & Len & Mv & Mo & Hh & Tr).
    { intros i Hv. simpl. rewrite length_insert. apply Hpre.
      apply visited_S. right. exact Hv. }
    exists d'. split; [exact Ed|].
    split; [rewrite Ti; reflexivity|]. split; [rewrite Ms; reflexivity|].
    split; [rewrite St; reflexivity|]. split; [rewrite Fi; reflexivity|].
    split; [rewrite Len; simpl; apply length_insert|].
    split; [|split; [|split]].
    + intros j Hj. destruct j as [|j].
      * replace (slot + dir * Z.of_nat 0) with slot by lia.
        destruct (classic_visited (slot + dir) dir n slot Hdir) as [Hin|Hout].
        -- exfalso. apply (Hnot slot Hin). reflexivity.
        -- specialize (Mo (Z.to_nat slot)). rewrite Z2Nat.id in Mo by lia.
           rewrite (Mo Hout). simpl. rewrite Nat.add_0_r.
           apply list_lookup_insert_eq. lia.
      * replace (slot + dir * Z.of_nat (S j)) with (slot + dir + dir * Z.of_nat j) by lia.
        rewrite Mv by lia. simpl. rewrite length_app. simpl. do 2 f_equal. lia.
    + intros x Hx. rewrite Mo.
      * simpl. apply list_lookup_insert_ne. intros E. apply Hx.
        apply visited_S. left. lia.
      * intros Hv. apply Hx. apply visited_S. right. exact Hv.
    + rewrite Hh. simpl. rewrite <- app_assoc. reflexivity.
    + rewrite Tr. simpl. rewrite <- app_assoc. simpl. rewrite length_app. simpl.
      subst b. rewrite Nat.add_1_r. reflexivity.
Qed.

Lemma container_count (m : Z) :
  0 <= m ->
  let v := m mod _DEQUE_ELEM_COUNT in
  let c := (m + _DEQUE_ELEM_COUNT - 1) / _DEQUE_ELEM_COUNT in
  let c' := if v =? 0 then c + 1 else c in
  _DEQUE_ELEM_COUNT * c' + v = m + _DEQUE_ELEM_COUNT /\
  0 <= v < _DEQUE_ELEM_COUNT /\ 1 <= c'.
Proof.
  intros Hm v c c'. subst v c c'. unfold _DEQUE_ELEM_COUNT.
  pose proof (Z.div_mod m 16 ltac:(lia)) as D.
  pose proof (Z.mod_pos_bound m 16 ltac:(lia)) as B.
  pose proof (Z.div_mod (m + 16 - 1) 16 ltac:(lia)) as D'.
  pose proof (Z.mod_pos_bound (m + 16 - 1) 16 ltac:(lia)) as B'.
  destruct (Z.eqb_spec (m mod 16) 0) as [E|E]; lia.
Qed.

(** The deque [d3] is [d] with [n] new blocks in directory slots next to the
    run of [d] and with the boundary iterators moved outward over them. *)
Lemma wf_grow (d d3 : deque_t A) (n : nat) (nb : Z -> nat) :
  wf d ->
  _t_mapsize d3 = _t_mapsize d -> length (_ppc_map d3) = length (_ppc_map d) ->
  (forall x : nat,
      _ppc_mappos (_t_start d) <= Z.of_nat x <= _ppc_mappos (_t_finish d) ->
      _ppc_map d3 !! x = _ppc_map d !! x) ->
  _t_allocater d3 = _t_allocater d ++
                    replicate n (Some (replicate (Z.to_nat _DEQUE_ELEM_COUNT) uninit)) ->
  0 <= _ppc_mappos (_t_start d3) <= _ppc_mappos (_t_start d) ->
  _ppc_mappos (_t_finish d) <= _ppc_mappos (_t_finish d3) < _t_mapsize d ->
  (forall i, _ppc_mappos (_t_start d3) <= i <= _ppc_mappos (_t_finish d3) ->
             ~ (_ppc_mappos (_t_start d) <= i <= _ppc_mappos (_t_finish d)) ->
             (nb i < n)%nat /\
             _ppc_map d3 !! Z.to_nat i
             = Some (Some (length (_t_allocater d) + nb i)%nat)) ->
  (forall i j, _ppc_mappos (_t_start d3) <= i <= _ppc_mappos (_t_finish d3) ->
               _ppc_mappos (_t_start d3) <= j <= _ppc_mappos (_t_finish d3) ->
               ~ (_ppc_mappos (_t_start d) <= i <= _ppc_mappos (_t_finish d)) ->
               ~ (_ppc_mappos (_t_start d) <= j <= _ppc_mappos (_t_finish d)) ->
               nb i = nb j -> i = j) ->
  0 <= _pc_corepos (_t_start d3) <= _DEQUE_ELEM_COUNT ->
  0 <= _pc_corepos (_t_finish d3) < _DEQUE_ELEM_COUNT ->
  idx (_t_start d3) <= idx (_t_finish d3) ->
  _ppc_map d3 !! Z.to_nat (_ppc_mappos (_t_start d3)) = Some (_pc_first (_t_start d3)) ->
  _ppc_map d3 !! Z.to_nat (_ppc_mappos (_t_finish d3)) = Some (_pc_first (_t_finish d3)) ->
  wf d3.
Proof.
  intros H Ms Len Old Heap Hs Hf New Inj Hso Hfo Hle Sf Ff.
  assert (Hold : forall i, _ppc_mappos (_t_start d) <= i <= _ppc_mappos (_t_finish d) ->
                           exists b blk, _ppc_map d3 !! Z.to_nat i = Some (Some b) /\
                                         _t_allocater d !! b = Some (Some blk) /\
                                         length blk = Z.to_nat _DEQUE_ELEM_COUNT).
  { intros i Hi. destruct (wf_blocks d H i Hi) as (b & blk & Hm & Hh & Hl).
    exists b, blk. rewrite Old by (pose proof (wf_s d H); lia).
    split; [exact Hm|]. split; assumption. }
  constructor; try assumption.
  - rewrite Len, Ms. apply (wf_len d H).
  - rewrite Ms. apply (wf_bound d H).
  - lia.
  - rewrite Ms. lia.
  - intros i Hi.
    destruct (Z_le_dec (_ppc_mappos (_t_start d)) i) as [L1|L1];
      [destruct (Z_le_dec i (_ppc_mappos (_t_finish d))) as [L2|L2]|].
    + destruct (Hold i ltac:(lia)) as (b & blk & Hm & Hh & Hl).
      exists b, blk. split; [exact Hm|]. split; [|exact Hl].
      rewrite Heap. apply lookup_app_l_Some. exact Hh.
    + destruct (New i Hi ltac:(lia)) as (Hn & Hm).
      eexists. eexists. split; [exact Hm|]. split.
      * rewrite Heap, lookup_app_r by lia.
        replace (length (_t_allocater d) + nb i - length (_t_allocater d))%nat
          with (nb i) by lia.
        apply lookup_replicate_2. exact Hn.
      * apply length_replicate.
    + destruct (New i Hi ltac:(lia)) as (Hn & Hm).
      eexists. eexists. split; [exact Hm|]. split.
      * rewrite Heap, lookup_app_r by lia.
        replace (length (_t_allocater d) + nb i - length (_t_allocater d))%nat
          with (nb i) by lia.
        apply lookup_replicate_2. exact Hn.
      * apply length_replicate.
  - intros i j b Hi Hj Mi Mj.
    assert (Cl : forall k, _ppc_mappos (_t_start d3) <= k <= _ppc_mappos (_t_finish d3) ->
                           _ppc_map d3 !! Z.to_nat k = Some (Some b) ->
                           (_ppc_mappos (_t_start d) <= k <= _ppc_mappos (_t_finish d) /\
                            (b < length (_t_allocater d))%nat) \/
                           (~ (_ppc_mappos (_t_start d) <= k <= _ppc_mappos (_t_finish d)) /\
                            b = (length (_t_allocater d) + nb k)%nat)).
    { intros k Hk Mk.
      destruct (Z_le_dec (_ppc_mappos (_t_start d)) k) as [L1|L1];
        [destruct (Z_le_dec k (_ppc_mappos (_t_finish d))) as [L2|L2]|].
      - left. split; [lia|]. destruct (Hold k ltac:(lia)) as (b' & blk & Hm & Hh & _).
        assert (b' = b) by congruence. subst b'. apply lookup_lt_Some in Hh. exact Hh.
      - right. split; [lia|]. destruct (New k Hk ltac:(lia)) as (_ & Hm). congruence.
      - right. split; [lia|]. destruct (New k Hk ltac:(lia)) as (_ & Hm). congruence. }
    destruct (Cl i Hi Mi) as [(Oi & Bi)|(Ni & Bi)];
      destruct (Cl j Hj Mj) as [(Oj & Bj)|(Nj & Bj)]; try lia.
    + apply (wf_inj d H i j b Oi Oj).
      * rewrite <- Old by (pose proof (wf_s d H); lia). exact Mi.
      * rewrite <- Old by (pose proof (wf_s d H); lia). exact Mj.
    + apply (Inj i j Hi Hj Ni Nj). lia.
Qed.

Lemma elem_val_grow (d d3 : deque_t A) (l : list (option (list A))) (k : Z) :
  wf d -> idx (_t_start d) <= k < idx (_t_finish d) ->
  length (_ppc_map d3) = length (_ppc_map d) ->
  (forall x : nat,
      _ppc_mappos (_t_start d) <= Z.of_nat x <= _ppc_mappos (_t_finish d) ->
      _ppc_map d3 !! x = _ppc_map d !! x) ->
  _t_allocater d3 = _t_allocater d ++ l ->
  elem_val d3 k = elem_val d k /\ elem_ptr d3 k = elem_ptr d k.
Proof.
  intros H Hk Len Old Heap. pose proof (slot_of_position d k H Hk) as Hs.
  pose proof (wf_s d H) as Hs0.
  apply elem_val_ext; [exact Len | apply Old; lia |].
  intros b Hb. destruct (wf_blocks d H _ Hs) as (b' & blk & Hm & Hh & _).
  assert (b' = b) by congruence. subst b'.
  rewrite Heap, Hh. apply lookup_app_l_Some. exact Hh.
Qed.

Lemma expand_at_end_alloc (d : deque_t A) (t : Z) (pt_pos : option deque_iterator_t) :
  wf d -> _DEQUE_ELEM_COUNT - _pc_corepos (_t_finish d) <= t ->
  idx (_t_finish d) + t < _DEQUE_ELEM_COUNT * _t_mapsize d ->
  exists d',
    _expand_at_end d t pt_pos = Ok (d', _t_finish d, pt_pos) /\ wf d' /\
    _t_mapsize d' = _t_mapsize d /\ _t_start d' = _t_start d /\
    idx (_t_finish d') = idx (_t_finish d) + t /\
    iter_ok d' (_t_finish d) /\
    (forall x : nat,
        _ppc_mappos (_t_start d) <= Z.of_nat x <= _ppc_mappos (_t_finish d) ->
        _ppc_map d' !! x = _ppc_map d !! x) /\
    to_list d' = to_list d ++ replicate (Z.to_nat t) t_typeinit /\
    (forall j, idx (_t_start d) <= j < idx (_t_finish d) ->
               elem_val d' j = elem_val d j) /\
    trace d' = trace d ++
               map EvAlloc (seq (length (_t_allocater d))
                                (Z.to_nat (_ppc_mappos (_t_finish d')
                                           - _ppc_mappos (_t_finish d)))) ++
               map (fun k => EvInit (ptr_at d' k))
                   (zrange (idx (_t_finish d)) (Z.to_nat t)).
Proof.
  intros H Ht Hroom. pose proof (wf_le d H) as Hle. pose proof (wf_fo d H) as Hfo.
  pose proof (wf_s d H) as Hs0. pose proof (wf_slots_ordered d H) as Hord.
  pose proof (wf_len d H) as Hlen.
  unfold _expand_at_end, deque_end. cbv zeta.
  replace (t <? _DEQUE_ELEM_COUNT - _pc_corepos (_t_finish d)) with false
    by (symmetry; apply Z.ltb_ge; lia).
  set (m := t - (_DEQUE_ELEM_COUNT - _pc_corepos (_t_finish d))).
  destruct (container_count m ltac:(unfold m; lia)) as (Hc & Hv & Hc1).
  set (v := m mod _DEQUE_ELEM_COUNT) in *.
  set (c := if v =? 0 then (m + _DEQUE_ELEM_COUNT - 1) / _DEQUE_ELEM_COUNT + 1
            else (m + _DEQUE_ELEM_COUNT - 1) / _DEQUE_ELEM_COUNT) in *.
  assert (Hfit : _ppc_mappos (_t_finish d) + c < _t_mapsize d).
  { unfold idx, m, _DEQUE_ELEM_COUNT in *. lia. }
  replace (c >? _t_mapsize d
                - (_ppc_mappos (_t_finish d) - _ppc_mappos (_t_start d) + 1))
    with false by (symmetry; rewrite Z.gtb_ltb; apply Z.ltb_ge; lia).
  replace (c >? _t_mapsize d - _ppc_mappos (_t_finish d) - 1)
    with false by (symmetry; rewrite Z.gtb_ltb; apply Z.ltb_ge; lia).
  rsimpl.
  destruct (allocate_containers_ok 1 (or_introl eq_refl) (Z.to_nat c) d
                                   (_ppc_mappos (_t_finish d) + 1))
    as (d3 & Ea & Ti & Ms & St & Fi & Len & Mv & Mo & Hh & Tr).
  { intros i Hi. apply visited_up in Hi. lia. }
  rewrite Ea. rsimpl.
  assert (Mlast : _ppc_map d3 !! Z.to_nat (_ppc_mappos (_t_finish d) + c)
                  = Some (Some (length (_t_allocater d) + Z.to_nat (c - 1))%nat)).
  { rewrite <- (Mv (Z.to_nat (c - 1))) by lia. f_equal. lia. }
  assert (Hpos : 0 <= _ppc_mappos (_t_finish d) + c) by lia.
  rewrite (map_read_lookup _ _ _ Hpos Mlast). rsimpl.
  set (nf := mk_iter (_ppc_mappos (_t_finish d) + c)
                     (Some (length (_t_allocater d) + Z.to_nat (c - 1))%nat) (0 + v)).
  set (d1 := set_finish d3 nf).
  assert (Old : forall x : nat,
             _ppc_mappos (_t_start d) <= Z.of_nat x <= _ppc_mappos (_t_finish d) ->
             _ppc_map d1 !! x = _ppc_map d !! x).
  { intros x Hx. simpl. apply Mo. intros Hvis. apply visited_up in Hvis. lia. }
  assert (Inf : idx nf = idx (_t_finish d) + t).
  { unfold idx, nf, m, _DEQUE_ELEM_COUNT in *. simpl. lia. }
  assert (W1 : wf d1).
  { apply (wf_grow d d1 (Z.to_nat c)
                   (fun i => Z.to_nat (i - (_ppc_mappos (_t_finish d) + 1))) H);
      simpl; rewrite ?St; try assumption; try lia.
    - intros i Hi Hn.
      assert (Hj : (Z.to_nat (i - (_ppc_mappos (_t_finish d) + 1)) < Z.to_nat c)%nat)
        by lia.
      split; [exact Hj|]. rewrite <- (Mv _ Hj). f_equal. lia.
    - apply (wf_so d H).
    - rewrite Mo; [apply (wf_sfirst d H)|].
      intros Hvis. apply visited_up in Hvis. lia. }
  assert (Hoe : iter_ok d1 (_t_finish d)).
  { constructor; simpl; rewrite ?St.
    - lia.
    - rewrite Mo; [apply (wf_ffirst d H)|].
      intros Hvis. apply visited_up in Hvis. lia.
    - lia.
    - fold nf. rewrite Inf. lia.
    - unfold _DEQUE_ELEM_COUNT in *. lia. }
  destruct (init_range_ok d1 (_t_finish d) (_t_finish d1) W1 Hoe (iter_ok_finish d1 W1))
    as (d' & Ei & Sh & W & Hl & Hi & Ho & Tr').
  { simpl. rewrite Inf. lia. }
  rewrite Ei. rsimpl.
  pose proof (se_start _ _ Sh) as Es. pose proof (se_finish _ _ Sh) as Ef.
  pose proof (se_map _ _ Sh) as Em. pose proof (se_mapsize _ _ Sh) as Ez.
  simpl in Es, Ef, Em, Ez. rewrite St in Es.
  assert (Keep : forall j, idx (_t_start d) <= j < idx (_t_finish d) ->
                           elem_val d' j = elem_val d j).
  { intros j Hj. rewrite Ho; [|simpl; rewrite St, Inf; lia | lia].
    apply (elem_val_grow d d1 (replicate (Z.to_nat c)
                                 (Some (replicate (Z.to_nat _DEQUE_ELEM_COUNT) uninit)))
                         j H Hj); [simpl; exact Len | exact Old | exact Hh]. }
  exists d'. split; [reflexivity|]. split; [exact W|].
  split; [rewrite Ez; exact Ms|]. split; [exact Es|].
  split; [rewrite Ef; exact Inf|].
  split; [apply (iter_ok_shape d1 d' _ Sh Hoe)|].
  split; [intros x Hx; rewrite Em; apply Old; exact Hx|].
  split; [|split; [exact Keep|]].
  - rewrite (to_list_insert_back d d' (idx (_t_finish d)) t t_typeinit H W);
      try lia; try assumption.
    + rewrite take_ge, drop_ge by (rewrite length_to_list; lia).
      rewrite app_nil_r. reflexivity.
    + rewrite Ef. exact Inf.
    + intros j Hj. apply Hi. simpl. rewrite Inf. lia.
  - rewrite Tr'. simpl. rewrite Tr, <- app_assoc. f_equal. f_equal.
    + rewrite Ef. simpl. do 2 f_equal. lia.
    + rewrite Inf.
      replace (idx (_t_finish d) + t - idx (_t_finish d)) with t by lia.
      apply map_ext. intros k. rewrite (ptr_at_shape _ _ _ Sh). reflexivity.
Qed.


Lemma expand_at_begin_alloc (d : deque_t A) (t : Z) :
  wf d -> _pc_corepos (_t_start d) <= t -> t < idx (_t_start d) ->
  exists d' ob,
    _expand_at_begin d t None = Ok (d', ob, None) /\ wf d' /\
    idx ob = idx (_t_start d) /\ iter_ok d' ob /\
    _t_mapsize d' = _t_mapsize d /\ _t_finish d' = _t_finish d /\
    idx (_t_start d') = idx (_t_start d) - t /\
    1 <= _pc_corepos (_t_start d') /\
    (forall x : nat,
        _ppc_mappos (_t_start d) <= Z.of_nat x <= _ppc_mappos (_t_finish d) ->
        _ppc_map d' !! x = _ppc_map d !! x) /\
    to_list d' = replicate (Z.to_nat t) t_typeinit ++ to_list d /\
    (forall j, idx (_t_start d) <= j < idx (_t_finish d) ->
               elem_val d' j = elem_val d j) /\
    trace d' = trace d ++
               map EvAlloc (seq (length (_t_allocater d))
                                (Z.to_nat (_ppc_mappos (_t_start d)
                                           - _ppc_mappos (_t_start d')))) ++
               map (fun k => EvInit (ptr_at d' k))
                   (zrange (idx (_t_start d) - t) (Z.to_nat t)).
Proof.
  intros H Ht Hroom. pose proof (wf_le d H) as Hle. pose proof (wf_so d H) as Hso.
  pose proof (wf_fo d H) as Hfo. pose proof (wf_f d H) as Hf.
  pose proof (wf_s d H) as Hs0. pose proof (wf_slots_ordered d H) as Hord.
  pose proof (wf_len d H) as Hlen.
  unfold _expand_at_begin, deque_begin. cbv zeta.
  replace (t <? _pc_corepos (_t_start d) - 0) with false
    by (symmetry; apply Z.ltb_ge; lia).
  set (m := t - (_pc_corepos (_t_start d) - 0)).
  destruct (container_count m ltac:(unfold m; lia)) as (Hc & Hv & Hc1).
  set (v := m mod _DEQUE_ELEM_COUNT) in *.
  set (c := if v =? 0 then (m + _DEQUE_ELEM_COUNT - 1) / _DEQUE_ELEM_COUNT + 1
            else (m + _DEQUE_ELEM_COUNT - 1) / _DEQUE_ELEM_COUNT) in *.
  assert (Hfit : c <= _ppc_mappos (_t_start d)).
  { unfold idx, m, _DEQUE_ELEM_COUNT in *. lia. }
  replace (c >? _t_mapsize d
                - (_ppc_mappos (_t_finish d) - _ppc_mappos (_t_start d) + 1))
    with false by (symmetry; rewrite Z.gtb_ltb; apply Z.ltb_ge; lia).
  replace (c >? _ppc_mappos (_t_start d) - 0)
    with false by (symmetry; rewrite Z.gtb_ltb; apply Z.ltb_ge; lia).
  rsimpl.
  destruct (allocate_containers_ok (-1) (or_intror eq_refl) (Z.to_nat c) d
                                   (_ppc_mappos (_t_start d) - 1))
    as (d3 & Ea & Ti & Ms & St & Fi & Len & Mv & Mo & Hh & Tr).
  { intros i Hi. apply visited_down in Hi. lia. }
  rewrite Ea. rsimpl.
  assert (Mfirst : _ppc_map d3 !! Z.to_nat (_ppc_mappos (_t_start d) - c)
                   = Some (Some (length (_t_allocater d) + Z.to_nat (c - 1))%nat)).
  { rewrite <- (Mv (Z.to_nat (c - 1))) by lia. f_equal. lia. }
  assert (Hpos : 0 <= _ppc_mappos (_t_start d) - c) by lia.
  rewrite (map_read_lookup _ _ _ Hpos Mfirst). rsimpl.
  set (ns := mk_iter (_ppc_mappos (_t_start d) - c)
                     (Some (length (_t_allocater d) + Z.to_nat (c - 1))%nat)
                     (_DEQUE_ELEM_COUNT - v)).
  set (d1 := set_start d3 ns).
  assert (Old : forall x : nat,
             _ppc_mappos (_t_start d) <= Z.of_nat x <= _ppc_mappos (_t_finish d) ->
             _ppc_map d1 !! x = _ppc_map d !! x).
  { intros x Hx. simpl. apply Mo. intros Hvis. apply visited_down in Hvis. lia. }
  assert (Ins : idx ns = idx (_t_start d) - t).
  { unfold idx, ns, m, _DEQUE_ELEM_COUNT in *. simpl. lia. }
  assert (W1 : wf d1).
  { apply (wf_grow d d1 (Z.to_nat c)
                   (fun i => Z.to_nat (_ppc_mappos (_t_start d) - 1 - i)) H);
      simpl; rewrite ?Fi; try assumption; try lia.
    - intros i Hi Hn.
      assert (Hj : (Z.to_nat (_ppc_mappos (_t_start d) - 1 - i) < Z.to_nat c)%nat)
        by lia.
      split; [exact Hj|]. rewrite <- (Mv _ Hj). f_equal. lia.
    - rewrite Mo; [apply (wf_ffirst d H)|].
      intros Hvis. apply visited_down in Hvis. lia. }
  assert (Hob : iter_pos d1 (_t_start d)).
  { constructor; simpl; rewrite ?Fi.
    - lia.
    - rewrite Mo; [apply (wf_sfirst d H)|].
      intros Hvis. apply visited_down in Hvis. lia.
    - lia.
    - fold ns. rewrite Ins. lia. }
  destruct (to_next_container_ok d1 (_t_start d) W1 Hob) as (ob & Eob & Hob' & Iob).
  rewrite Eob. rsimpl.
  destruct (init_range_ok d1 (_t_start d1) ob W1 (iter_ok_start d1 W1) Hob')
    as (d' & Ei & Sh & W & Hl & Hi & Ho & Tr').
  { simpl. rewrite Ins, Iob. lia. }
  rewrite Ei. rsimpl.
  pose proof (se_start _ _ Sh) as Es. pose proof (se_finish _ _ Sh) as Ef.
  pose proof (se_map _ _ Sh) as Em. pose proof (se_mapsize _ _ Sh) as Ez.
  simpl in Es, Ef, Em, Ez. rewrite Fi in Ef.
  assert (Keep : forall j, idx (_t_start d) <= j < idx (_t_finish d) ->
                           elem_val d' j = elem_val d j).
  { intros j Hj. rewrite Ho; [|simpl; rewrite Fi, Ins; lia | simpl; rewrite Ins, Iob; lia].
    apply (elem_val_grow d d1 (replicate (Z.to_nat c)
                                 (Some (replicate (Z.to_nat _DEQUE_ELEM_COUNT) uninit)))
                         j H Hj); [simpl; exact Len | exact Old | exact Hh]. }
  exists d', ob. split; [reflexivity|]. split; [exact W|].
  split; [exact Iob|]. split; [apply (iter_ok_shape d1 d' _ Sh Hob')|].
  split; [rewrite Ez; exact Ms|]. split; [exact Ef|].
  split; [rewrite Es; exact Ins|].
  split; [rewrite Es; simpl; lia|].
  split; [intros x Hx; rewrite Em; apply Old; exact Hx|].
  split; [|split; [exact Keep|]].
  - rewrite (to_list_insert_front d d' (idx (_t_start d)) t t_typeinit H W);
      try lia; try assumption.
    + rewrite Z.sub_diag. reflexivity.
    + rewrite Es. exact Ins.
    + intros j Hj. apply Hi. simpl. rewrite Ins, Iob. lia.
  - rewrite Tr'. simpl. rewrite Tr, <- app_assoc. f_equal. f_equal.
    + rewrite Es. simpl. do 2 f_equal. lia.
    + rewrite Ins, Iob.
      replace (idx (_t_start d) - (idx (_t_start d) - t)) with t by lia.
      apply map_ext. intros k. rewrite (ptr_at_shape _ _ _ Sh). reflexivity.
Qed.

(** Growth at the end while the directory has a free slot for every block
    that is needed: no slot is moved and the directory keeps its size. *)
Lemma expand_at_end_room (d : deque_t A) (t : Z) (pt_pos : option deque_iterator_t) :
  wf d -> 0 <= t -> idx (_t_finish d) + t < _DEQUE_ELEM_COUNT * _t_mapsize d ->
  exists d',
    _expand_at_end d t pt_pos = Ok (d', _t_finish d, pt_pos) /\ wf d' /\
    _t_mapsize d' = _t_mapsize d /\ _t_start d' = _t_start d /\
    idx (_t_finish d') = idx (_t_finish d) + t /\
    iter_ok d' (_t_finish d) /\
    to_list d' = to_list d ++ replicate (Z.to_nat t) t_typeinit /\
    (forall j, idx (_t_start d) <= j < idx (_t_finish d) ->
               elem_val d' j = elem_val d j) /\
    trace d' = trace d ++
               map EvAlloc (seq (length (_t_allocater d))
                                (Z.to_nat (_ppc_mappos (_t_finish d')
                                           - _ppc_mappos (_t_finish d)))) ++
               map (fun k => EvInit (ptr_at d' k))
                   (zrange (idx (_t_finish d)) (Z.to_nat t)).
Proof.
  intros H Ht Hroom.
  destruct (Z_lt_dec t (_DEQUE_ELEM_COUNT - _pc_corepos (_t_finish d))) as [L|L].
  - destruct (expand_at_end_in_block d t pt_pos H Ht L)
      as (d' & E & W & Em & Ez & _ & Es & Ef & Tr & Li & Keep).
    pose proof (iter_ok_finish d H) as [Sl Fi Of Ra No].
    exists d'. split; [exact E|]. split; [exact W|]. split; [exact Ez|].
    split; [exact Es|].
    assert (If : idx (_t_finish d') = idx (_t_finish d) + t).
    { rewrite Ef. unfold idx. simpl. lia. }
    split; [exact If|]. split.
    { constructor; rewrite ?Em, ?Es, ?If; try assumption; try lia.
      rewrite Ef. simpl. exact Sl. }
    split; [exact Li|]. split; [exact Keep|].
    rewrite Tr, Ef. simpl. rewrite Z.sub_diag. simpl. f_equal.
    apply map_ext. intros k. unfold ptr_at, elem_ptr. rewrite Em. reflexivity.
  - destruct (expand_at_end_alloc d t pt_pos H ltac:(lia) Hroom)
      as (d' & E & W & Ez & Es & If & Io & _ & Li & Keep & Tr).
    exists d'. repeat (split; [assumption|]). exact Tr.
Qed.

(** The same at the begin. *)
Lemma expand_at_begin_room (d : deque_t A) (t : Z) :
  wf d -> 0 <= t -> t < idx (_t_start d) ->
  exists d' ob,
    _expand_at_begin d t None = Ok (d', ob, None) /\ wf d' /\
    idx ob = idx (_t_start d) /\ iter_ok d' ob /\
    _t_mapsize d' = _t_mapsize d /\ _t_finish d' = _t_finish d /\
    idx (_t_start d') = idx (_t_start d) - t /\
    (0 < t -> 1 <= _pc_corepos (_t_start d')) /\
    to_list d' = replicate (Z.to_nat t) t_typeinit ++ to_list d /\
    (forall j, idx (_t_start d) <= j < idx (_t_finish d) ->
               elem_val d' j = elem_val d j) /\
    trace d' = trace d ++
               map EvAlloc (seq (length (_t_allocater d))
                                (Z.to_nat (_ppc_mappos (_t_start d)
                                           - _ppc_mappos (_t_start d')))) ++
               map (fun k => EvInit (ptr_at d' k))
                   (zrange (idx (_t_start d) - t) (Z.to_nat t)).
Proof.
  intros H Ht Hroom.
  destruct (Z_lt_dec t (_pc_corepos (_t_start d))) as [L|L].
  - destruct (expand_at_begin_in_block d t None H Ht L I)
      as (d' & ob & pos' & E & W & Iob & Hob & Hp & Em & Ez & _ & Ef & Es & Tr & Li & Keep).
    destruct pos' as [p|]; [destruct Hp|].
    exists d', ob. split; [exact E|]. split; [exact W|]. split; [exact Iob|].
    split; [exact Hob|]. split; [exact Ez|]. split; [exact Ef|].
    split; [rewrite Es; unfold idx; simpl; lia|].
    split; [intros _; rewrite Es; simpl; lia|].
    split; [exact Li|]. split; [exact Keep|].
    rewrite Tr, Es. simpl. rewrite Z.sub_diag. simpl. f_equal.
    apply map_ext. intros k. unfold ptr_at, elem_ptr. rewrite Em. reflexivity.
  - destruct (expand_at_begin_alloc d t H ltac:(lia) Hroom)
      as (d' & ob & E & W & Iob & Hob & Ez & Ef & Is & Co & _ & Li & Keep & Tr).
    exists d', ob. do 7 (split; [assumption|]). split; [intros _; exact Co|].
    repeat (split; [assumption|]). exact Tr.
Qed.

Lemma deque_push_back_ok (d : deque_t A) (a : A) :
  wf d -> idx (_t_finish d) + 1 < _DEQUE_ELEM_COUNT * _t_mapsize d ->
  exists d',
    _deque_push_back d a = Ok d' /\ wf d' /\
    _t_mapsize d' = _t_mapsize d /\ _t_start d' = _t_start d /\
    idx (_t_finish d') = idx (_t_finish d) + 1 /\
    to_list d' = to_list d ++ [a] /\
    elem_val d' (idx (_t_finish d)) = Ok a /\
    trace d' = trace d ++
               map EvAlloc (seq (length (_t_allocater d))
                                (Z.to_nat (_ppc_mappos (_t_finish d')
                                           - _ppc_mappos (_t_finish d)))) ++
               [EvInit (ptr_at d' (idx (_t_finish d)));
                EvCopy (ptr_at d' (idx (_t_finish d))) FromValue].
Proof.
  intros H Hroom. pose proof (wf_le d H) as Hle.
  destruct (expand_at_end_room d 1 None H ltac:(lia) Hroom)
    as (d1 & E & W1 & Ez & Es & If & Io & Li & Keep & Tr).
  unfold _deque_push_back. rewrite E. rsimpl.
  rewrite (belong_ok d1 _ W1 Io). rsimpl.
  destruct (copy_value_elem_ok d1 (_t_finish d) a W1 Io ltac:(lia))
    as (p & d2 & Ep & Ec & Sh & W2 & Tr2 & Va & Vo).
  pose proof (se_start _ _ Sh) as Es2. pose proof (se_finish _ _ Sh) as Ef2.
  exists d2. split; [exact Ec|]. split; [exact W2|].
  split; [rewrite (se_mapsize _ _ Sh); exact Ez|].
  split; [congruence|]. split; [rewrite Ef2; exact If|].
  split; [|split; [exact Va|]].
  - rewrite (to_list_insert_back d d2 (idx (_t_finish d)) 1 a H W2);
      try lia; try congruence.
    + rewrite take_ge, drop_ge by (rewrite length_to_list; lia).
      rewrite app_nil_r. reflexivity.
    + intros j Hj. rewrite Vo; [apply Keep; exact Hj | rewrite Es, If; lia | lia].
    + intros j Hj. replace j with (idx (_t_finish d)) by lia. exact Va.
  - assert (P : ptr_at d1 (idx (_t_finish d)) = p)
      by (unfold ptr_at; rewrite Ep; reflexivity).
    rewrite Tr2, Tr, <- !app_assoc. rewrite Ef2. do 2 f_equal. simpl.
    rewrite !(ptr_at_shape _ _ _ Sh), Z.add_0_r, P. reflexivity.
Qed.

Lemma deque_push_front_ok (d : deque_t A) (a : A) :
  wf d -> 1 < idx (_t_start d) ->
  exists d',
    _deque_push_front d a = Ok d' /\ wf d' /\
    _t_mapsize d' = _t_mapsize d /\ _t_finish d' = _t_finish d /\
    idx (_t_start d') = idx (_t_start d) - 1 /\
    1 <= _pc_corepos (_t_start d') /\
    to_list d' = a :: to_list d /\
    elem_val d' (idx (_t_start d) - 1) = Ok a /\
    trace d' = trace d ++
               map EvAlloc (seq (length (_t_allocater d))
                                (Z.to_nat (_ppc_mappos (_t_start d)
                                           - _ppc_mappos (_t_start d')))) ++
               [EvInit (ptr_at d' (idx (_t_start d) - 1));
                EvCopy (ptr_at d' (idx (_t_start d) - 1)) FromValue].
Proof.
  intros H Hroom. pose proof (wf_le d H) as Hle.
  destruct (expand_at_begin_room d 1 H ltac:(lia) Hroom)
    as (d1 & ob & E & W1 & Iob & Hob & Ez & Ef & Is & Co & Li & Keep & Tr).
  unfold _deque_push_front, deque_begin. rewrite E. rsimpl.
  destruct (copy_value_elem_ok d1 (_t_start d1) a W1 (iter_ok_start d1 W1) ltac:(rewrite Ef; lia))
    as (p & d2 & Ep & Ec & Sh & W2 & Tr2 & Va & Vo).
  pose proof (se_start _ _ Sh) as Es2. pose proof (se_finish _ _ Sh) as Ef2.
  rewrite Is in *.
  exists d2. split; [exact Ec|]. split; [exact W2|].
  split; [rewrite (se_mapsize _ _ Sh); exact Ez|].
  split; [congruence|]. split; [rewrite Es2; exact Is|].
  split; [rewrite Es2; apply Co; lia|].
  split; [|split; [exact Va|]].
  - rewrite (to_list_insert_front d d2 (idx (_t_start d)) 1 a H W2);
      try lia; try congruence.
    + rewrite Z.sub_diag. reflexivity.
    + intros j Hj. rewrite Vo; [apply Keep; exact Hj | rewrite Ef; lia | lia].
    + intros j Hj. replace j with (idx (_t_start d) - 1) by lia. exact Va.
  - assert (P : ptr_at d1 (idx (_t_start d) - 1) = p)
      by (unfold ptr_at; rewrite Ep; reflexivity).
    rewrite Tr2, Tr, <- !app_assoc. rewrite Es2. do 2 f_equal. simpl.
    rewrite !(ptr_at_shape _ _ _ Sh), Z.add_0_r, P. reflexivity.
Qed.

(** The ends of a deque that holds an element, through their addresses. *)
Lemma deque_ends_ok (d : deque_t A) :
  wf d -> idx (_t_start d) < idx (_t_finish d) ->
  deque_front d = (let* p := elem_ptr d (idx (_t_start d)) in Ok (Some p)) /\
  deque_back d = (let* p := elem_ptr d (idx (_t_finish d) - 1) in Ok (Some p)).
Proof.
  intros H Hne.
  pose proof (loop_fuel_enough d _ H (iter_ok_start d H)) as Hfu.
  pose proof (wf_bound d H) as Hbd.
  unfold deque_front, deque_back. rewrite (deque_empty_ok d H).
  replace (idx (_t_start d) =? idx (_t_finish d)) with false
    by (symmetry; apply Z.eqb_neq; lia).
  rsimpl. split.
  - rewrite deque_at_ptr by (assumption || lia). rewrite Z.add_0_r. reflexivity.
  - rewrite (deque_size_ok d H). rsimpl.
    rewrite wrap_size_t_small by (unfold loop_fuel in Hfu; lia).
    rewrite deque_at_ptr by (assumption || lia).
    replace (idx (_t_start d) + (idx (_t_finish d) - idx (_t_start d) - 1))
      with (idx (_t_finish d) - 1) by lia.
    reflexivity.
Qed.

Lemma elem_val_ptr (d : deque_t A) (k : Z) (a : A) :
  elem_val d k = Ok a -> exists p, elem_ptr d k = Ok p /\ cell_read d p = Ok a.
Proof.
  unfold elem_val. intros E. destruct (elem_ptr d k) as [p| | |]; try discriminate.
  exists p. split; [reflexivity | exact E].
Qed.

(** X22: [_deque_push_back] on a valid deque, unless the end stands on the
    last cell of the last directory slot: the call returns a well-formed
    deque whose sequence is the old one with the value appended, in a
    directory of the same size, and [deque_back] then gives the address of
    the new element.  It initialises the cell of the old end and copies the
    value into it; when the old end stood on the last cell of its block it
    first allocates one block for the new end, and otherwise none.  No
    element is moved. *)
Theorem deque_push_back_spec (d : deque_t A) (a : A) :
  deque_valid d = true ->
  idx (_t_finish d) + 1 < _DEQUE_ELEM_COUNT * _t_mapsize d ->
  exists d' p,
    _deque_push_back d a = Ok d' /\ wf d' /\
    to_list d' = to_list d ++ [a] /\
    _t_mapsize d' = _t_mapsize d /\ _t_start d' = _t_start d /\
    deque_back d' = Ok (Some p) /\ cell_read d' p = Ok a /\
    trace d' = trace d ++
               (if _pc_corepos (_t_finish d) <? _DEQUE_ELEM_COUNT - 1
                then [] else [EvAlloc (length (_t_allocater d))]) ++
               [EvInit p; EvCopy p FromValue].
Proof.
  intros V Hroom. apply deque_valid_wf in V. pose proof (wf_le d V) as Hle.
  pose proof (wf_fo d V) as Hfo.
  destruct (deque_push_back_ok d a V Hroom)
    as (d' & E & W & Ez & Es & If & L & Va & Tr).
  destruct (elem_val_ptr d' _ a Va) as (p & Ep & Hc).
  destruct (deque_ends_ok d' W) as [_ B]; [rewrite Es, If; lia|].
  exists d', p. split; [exact E|]. split; [exact W|]. split; [exact L|].
  split; [exact Ez|]. split; [exact Es|]. split.
  { rewrite B, If. replace (idx (_t_finish d) + 1 - 1) with (idx (_t_finish d)) by lia.
    rewrite Ep. reflexivity. }
  split; [exact Hc|].
  assert (P : ptr_at d' (idx (_t_finish d)) = p)
    by (unfold ptr_at; rewrite Ep; reflexivity).
  rewrite Tr, P. f_equal. f_equal.
  pose proof (wf_fo d' W) as Hfo'. unfold idx, _DEQUE_ELEM_COUNT in *.
  destruct (Z.ltb_spec (_pc_corepos (_t_finish d)) (16 - 1)) as [C|C].
  - replace (_ppc_mappos (_t_finish d') - _ppc_mappos (_t_finish d)) with 0 by lia.
    reflexivity.
  - replace (_ppc_mappos (_t_finish d') - _ppc_mappos (_t_finish d)) with 1 by lia.
    reflexivity.
Qed.

(** X23: [_deque_push_front] on a valid deque, unless the position before
    begin would leave the directory: the call returns a well-formed deque
    whose sequence is the value followed by the old sequence, in a directory
    of the same size, and [deque_front] then gives the address of the new
    element.  It initialises the cell before the old begin and copies the
    value into it; when that cell is the first of its block, or lies in the
    block before, it first allocates one block, and otherwise none.  No
    element is moved. *)
Theorem deque_push_front_spec (d : deque_t A) (a : A) :
  deque_valid d = true -> 1 < idx (_t_start d) ->
  exists d' p,
    _deque_push_front d a = Ok d' /\ wf d' /\
    to_list d' = a :: to_list d /\
    _t_mapsize d' = _t_mapsize d /\ _t_finish d' = _t_finish d /\
    deque_front d' = Ok (Some p) /\ cell_read d' p = Ok a /\
    trace d' = trace d ++
               (if 1 <? _pc_corepos (_t_start d)
                then [] else [EvAlloc (length (_t_allocater d))]) ++
               [EvInit p; EvCopy p FromValue].
Proof.
  intros V Hroom. apply deque_valid_wf in V. pose proof (wf_le d V) as Hle.
  pose proof (wf_so d V) as Hso.
  destruct (deque_push_front_ok d a V Hroom)
    as (d' & E & W & Ez & Ef & Is & Co & L & Va & Tr).
  destruct (elem_val_ptr d' _ a Va) as (p & Ep & Hc).
  destruct (deque_ends_ok d' W) as [F _]; [rewrite Ef, Is; lia|].
  exists d', p. split; [exact E|]. split; [exact W|]. split; [exact L|].
  split; [exact Ez|]. split; [exact Ef|]. split.
  { rewrite F, Is, Ep. reflexivity. }
  split; [exact Hc|].
  assert (P : ptr_at d' (idx (_t_start d) - 1) = p)
    by (unfold ptr_at; rewrite Ep; reflexivity).
  rewrite Tr, P. f_equal. f_equal.
  pose proof (wf_so d' W) as Hso'. unfold idx, _DEQUE_ELEM_COUNT in *.
  destruct (Z.ltb_spec 1 (_pc_corepos (_t_start d))) as [C|C].
  - replace (_ppc_mappos (_t_start d) - _ppc_mappos (_t_start d')) with 0 by lia.
    reflexivity.
  - replace (_ppc_mappos (_t_start d) - _ppc_mappos (_t_start d')) with 1 by lia.
    reflexivity.
Qed.

(** X24: a push followed by a pop.  On a valid deque with room for the push,
    [_deque_push_back] followed by [deque_pop_back], and [_deque_push_front]
    followed by [deque_pop_front], both return and give back the old
    sequence; [_deque_push_back] followed by [deque_pop_front] gives the old
    sequence with the value appended and the first element removed. *)
Theorem deque_push_pop_round_trip (d : deque_t A) (a : A) :
  deque_valid d = true ->
  (idx (_t_finish d) + 1 < _DEQUE_ELEM_COUNT * _t_mapsize d ->
   (exists d1 d2, _deque_push_back d a = Ok d1 /\ deque_pop_back d1 = Ok d2 /\
                  to_list d2 = to_list d) /\
   (exists d1 d2, _deque_push_back d a = Ok d1 /\ deque_pop_front d1 = Ok d2 /\
                  to_list d2 = drop 1 (to_list d ++ [a]))) /\
  (1 < idx (_t_start d) ->
   exists d1 d2, _deque_push_front d a = Ok d1 /\ deque_pop_front d1 = Ok d2 /\
                 to_list d2 = to_list d).
Proof.
  intros V. apply deque_valid_wf in V. pose proof (wf_le d V) as Hle. split.
  - intros Hroom.
    destruct (deque_push_back_ok d a V Hroom)
      as (d1 & E & W & _ & Es & If & L & _).
    assert (Hne : idx (_t_start d1) < idx (_t_finish d1)) by (rewrite Es, If; lia).
    split.
    + destruct (deque_pop_back_ok d1 W Hne) as (d2 & t & E2 & _ & _ & _ & L2).
      exists d1, d2. split; [exact E|]. split; [exact E2|].
      rewrite L2, L, length_app. simpl.
      replace (length (to_list d) + 1 - 1)%nat with (length (to_list d)) by lia.
      apply take_app_length.
    + destruct (deque_pop_front_ok d1 W Hne) as (d2 & t & E2 & _ & _ & _ & L2).
      exists d1, d2. split; [exact E|]. split; [exact E2|]. rewrite L2, L. reflexivity.
  - intros Hroom.
    destruct (deque_push_front_ok d a V Hroom)
      as (d1 & E & W & _ & Ef & Is & _ & L & _).
    assert (Hne : idx (_t_start d1) < idx (_t_finish d1)) by (rewrite Ef, Is; lia).
    destruct (deque_pop_front_ok d1 W Hne) as (d2 & t & E2 & _ & _ & _ & L2).
    exists d1, d2. split; [exact E|]. split; [exact E2|]. rewrite L2, L. reflexivity.
Qed.

(** X21: [deque_resize] on a valid deque.  To a size below the current one
    it returns a well-formed deque that holds the first elements of the old
    sequence and copies nothing; to the current size it returns the deque
    unchanged; to a larger size, while the directory has a free slot behind
    the run for every block that is needed, it returns a well-formed deque
    with default-initialised elements appended, in a directory of the same
    size: it allocates the blocks and initialises the new cells, and moves
    no element. *)
Theorem deque_resize_spec (d : deque_t A) (n : Z) :
  deque_valid d = true -> 0 <= n ->
  let size := Z.of_nat (length (to_list d)) in
  (n < size ->
   exists d' t, deque_resize d n = Ok d' /\ wf d' /\
                to_list d' = take (Z.to_nat n) (to_list d) /\
                trace d' = trace d ++ t /\ no_copy t = true) /\
  (n = size -> deque_resize d n = Ok d) /\
  (size < n -> idx (_t_finish d) + (n - size) < _DEQUE_ELEM_COUNT * _t_mapsize d ->
   exists d', deque_resize d n = Ok d' /\ wf d' /\
              to_list d' = to_list d ++ replicate (Z.to_nat (n - size)) t_typeinit /\
              _t_mapsize d' = _t_mapsize d /\ _t_start d' = _t_start d /\
              trace d' = trace d ++
                         map EvAlloc
                             (seq (length (_t_allocater d))
                                  (Z.to_nat (_ppc_mappos (_t_finish d')
                                             - _ppc_mappos (_t_finish d)))) ++
                         map (fun k => EvInit (ptr_at d' k))
                             (zrange (idx (_t_finish d)) (Z.to_nat (n - size)))).
Proof.
  intros V Hn size. apply deque_valid_wf in V. pose proof (wf_le d V) as Hle.
  pose proof (length_to_list d) as Hl.
  assert (Hs : deque_size d = Ok size).
  { rewrite (deque_size_ok d V). f_equal. unfold size. lia. }
  unfold deque_resize. rewrite Hs. rsimpl.
  split; [|split].
  - intros Hlt.
    replace (n <? size) with true by (symmetry; apply Z.ltb_lt; lia).
    destruct (shrink_both_ok d (size - n) V ltac:(lia))
      as [(d' & E & W & _ & _ & _ & L & Tr & _) _].
    exists d'. eexists. split; [exact E|]. split; [exact W|]. split; [|split].
    + rewrite L. f_equal. fold size. lia.
    + exact Tr.
    + rewrite no_copy_app, no_copy_destroy, no_copy_free. reflexivity.
  - intros ->. rewrite Z.ltb_irrefl.
    replace (size >? size) with false
      by (symmetry; rewrite Z.gtb_ltb; apply Z.ltb_irrefl).
    reflexivity.
  - intros Hgt Hroom.
    replace (n <? size) with false by (symmetry; apply Z.ltb_ge; lia).
    replace (n >? size) with true by (symmetry; rewrite Z.gtb_ltb; apply Z.ltb_lt; lia).
    destruct (expand_at_end_room d (n - size) None V ltac:(lia) Hroom)
      as (d' & E & W & Ez & Es & _ & _ & L & _ & Tr).
    exists d'. rewrite E. rsimpl. split; [reflexivity|]. split; [exact W|].
    split; [exact L|]. split; [exact Ez|]. split; [exact Es | exact Tr].
Qed.

(** *** Initialisation, assignment and copies between deques *)

Lemma NoDup_distinct (l : list (option nat)) : NoDup l -> distinct l = true.
Proof.
  induction 1 as [|x l Hx Hl IH]; simpl; [reflexivity|].
  rewrite IH, andb_true_r. apply negb_true_iff.
  destruct (existsb (option_nat_eqb x) l) eqn:E; [|reflexivity].
  apply existsb_exists in E as (y & Hy & Exy). apply option_nat_eqb_eq in Exy.
  subst y. exfalso. apply Hx. apply list_elem_of_In. exact Hy.
Qed.

Lemma valid_run_lookup_inv (d : deque_t A) (x : nat) (i : Z) :
  valid_run d !! x = Some i ->
  i = _ppc_mappos (_t_start d) + Z.of_nat x /\
  _ppc_mappos (_t_start d) <= i <= _ppc_mappos (_t_finish d).
Proof.
  unfold valid_run. rewrite list_lookup_fmap. intros E.
  destruct (seq 0 (Z.to_nat (_ppc_mappos (_t_finish d) - _ppc_mappos (_t_start d) + 1))
                !! x) as [k|] eqn:Ek; [|discriminate].
  apply lookup_seq in Ek as [-> Hk]. simpl in E. injection E as <-. lia.
Qed.

(** The checker accepts every well-formed deque. *)
Lemma wf_deque_valid (d : deque_t A) : wf d -> deque_valid d = true.
Proof.
  intros H. unfold deque_valid.
  pose proof (wf_len d H). pose proof (wf_bound d H). pose proof (wf_s d H).
  pose proof (wf_f d H). pose proof (wf_so d H). pose proof (wf_fo d H).
  pose proof (wf_le d H).
  repeat (apply andb_true_iff; split);
    try (apply Z.eqb_eq; lia); try (apply Z.ltb_lt; lia); try (apply Z.leb_le; lia).
  - unfold first_cached. rewrite (wf_sfirst d H). apply option_nat_eqb_refl.
  - unfold first_cached. rewrite (wf_ffirst d H). apply option_nat_eqb_refl.
  - apply forallb_forall. intros i Hin. apply list_elem_of_In in Hin.
    apply list_elem_of_lookup in Hin as (x & Hx).
    apply valid_run_lookup_inv in Hx as [_ Hi].
    destruct (wf_blocks d H i Hi) as (b & blk & Hm & Hh & Hl).
    unfold slot_valid, slot_at. rewrite Hm, Hh. apply Nat.eqb_eq. exact Hl.
  - apply NoDup_distinct. apply NoDup_alt. intros x y s Hx Hy.
    rewrite list_lookup_fmap in Hx, Hy.
    destruct (valid_run d !! x) as [i|] eqn:Ei; [|discriminate].
    destruct (valid_run d !! y) as [j|] eqn:Ej; [|discriminate].
    apply valid_run_lookup_inv in Ei as [Ei Hi], Ej as [Ej Hj].
    simpl in Hx, Hy. injection Hx as Hx. injection Hy as Hy.
    destruct (wf_blocks d H i Hi) as (b & blk & Hm & _).
    destruct (wf_blocks d H j Hj) as (b' & blk' & Hm' & _).
    unfold slot_at in Hx, Hy. rewrite Hm in Hx. rewrite Hm' in Hy.
    assert (b = b') by congruence. subst b'.
    pose proof (wf_inj d H i j b Hi Hj Hm Hm'). lia.
Qed.

(** The layout that [deque_init_n] and [_deque_init_elem_varg] build for [n]
    elements: a run of [n / 16 + 2] new blocks in the middle of a new
    directory, the first of them empty. *)
Lemma init_layout_ok (ti : _typeinfo_t) (n : Z) :
  0 <= n < 2 ^ 30 ->
  exists d,
    init_layout ti n = Ok d /\ wf d /\ _t_typeinfo d = ti /\
    idx (_t_finish d) - idx (_t_start d) = n /\
    _t_mapsize d = init_mapsize n /\
    _ppc_mappos (_t_start d) = (init_mapsize n - init_blocks n) / 2 /\
    _pc_corepos (_t_start d) = _DEQUE_ELEM_COUNT /\
    _ppc_mappos (_t_finish d) = _ppc_mappos (_t_start d) + init_blocks n - 1 /\
    trace d = [EvMapAlloc (init_mapsize n)] ++
              map EvAlloc (seq 0 (Z.to_nat (init_blocks n))).
Proof.
  intros Hn. unfold init_layout. cbv zeta.
  set (e := if n >? 0 then n mod _DEQUE_ELEM_COUNT else 0).
  set (v := if n >? 0
            then if negb (e =? 0)
                 then (n + _DEQUE_ELEM_COUNT - 1) / _DEQUE_ELEM_COUNT + 1
                 else (n + _DEQUE_ELEM_COUNT - 1) / _DEQUE_ELEM_COUNT + 2
            else 2).
  assert (He : e = n mod _DEQUE_ELEM_COUNT).
  { unfold e. destruct (Z.gtb_spec n 0) as [G|G]; [reflexivity|].
    replace n with 0 by lia. reflexivity. }
  assert (Hv : v = init_blocks n).
  { unfold v, init_blocks. rewrite He. unfold _DEQUE_ELEM_COUNT.
    pose proof (Z.div_mod n 16 ltac:(lia)) as D.
    pose proof (Z.mod_pos_bound n 16 ltac:(lia)) as B.
    pose proof (Z.div_mod (n + 16 - 1) 16 ltac:(lia)) as D'.
    pose proof (Z.mod_pos_bound (n + 16 - 1) 16 ltac:(lia)) as B'.
    destruct (Z.gtb_spec n 0) as [G|G].
    - destruct (Z.eqb_spec (n mod 16) 0) as [E|E]; simpl; lia.
    - replace n with 0 by lia. reflexivity. }
  set (ms := if n >? 0
             then if v >? _DEQUE_MAP_COUNT
                  then _DEQUE_MAP_COUNT
                       + (v - _DEQUE_MAP_COUNT + _DEQUE_MAP_GROW_STEP - 1)
                           / _DEQUE_MAP_GROW_STEP * _DEQUE_MAP_GROW_STEP
                  else _DEQUE_MAP_COUNT
             else _DEQUE_MAP_COUNT).
  assert (Hms : ms = init_mapsize n).
  { unfold ms, init_mapsize. rewrite Hv. destruct (Z.gtb_spec n 0) as [G|G]; [reflexivity|].
    replace n with 0 by lia. reflexivity. }
  rewrite <- Hv, <- Hms.
  assert (Hvb : 2 <= v /\ _DEQUE_ELEM_COUNT * (v - 2) + e = n /\
                0 <= e < _DEQUE_ELEM_COUNT).
  { rewrite Hv, He. unfold init_blocks, _DEQUE_ELEM_COUNT.
    pose proof (Z.div_mod n 16 ltac:(lia)) as D.
    pose proof (Z.mod_pos_bound n 16 ltac:(lia)) as B.
    pose proof (Z.div_pos n 16 ltac:(lia) ltac:(lia)). lia. }
  destruct Hvb as (Hv2 & Hcount & Heb).
  assert (Hmsb : v <= ms < v + _DEQUE_MAP_COUNT /\ _DEQUE_MAP_COUNT <= ms).
  { rewrite Hms. unfold init_mapsize. rewrite <- Hv.
    unfold _DEQUE_MAP_COUNT, _DEQUE_MAP_GROW_STEP.
    pose proof (Z.div_mod (v - 16 + 8 - 1) 8 ltac:(lia)) as D.
    pose proof (Z.mod_pos_bound (v - 16 + 8 - 1) 8 ltac:(lia)) as B.
    destruct (Z.gtb_spec v 16) as [G|G]; lia. }
  destruct Hmsb as (Hmv & Hm16).
  set (s := (ms - v) / 2).
  assert (Hs : 0 <= s /\ s + v <= ms).
  { unfold s. pose proof (Z.div_mod (ms - v) 2 ltac:(lia)) as D.
    pose proof (Z.mod_pos_bound (ms - v) 2 ltac:(lia)) as B. lia. }
  set (d0 := mk_deque ti (replicate (Z.to_nat ms) None) ms (mk_iter 0 None 0)
                      (mk_iter 0 None 0) [] [EvMapAlloc ms]).
  destruct (allocate_containers_ok 1 (or_introl eq_refl) (Z.to_nat v) d0 s)
    as (d1 & Ea & Ti & Ms & _ & _ & Len & Mv & Mo & Hh & Tr).
  { intros i Hi. apply visited_up in Hi. simpl. rewrite length_replicate. lia. }
  rewrite Ea. rsimpl. simpl in Ti, Ms, Len, Mv, Hh, Tr. rewrite length_replicate in Len.
  assert (Mslot : forall i, s <= i < s + v ->
                            _ppc_map d1 !! Z.to_nat i = Some (Some (Z.to_nat (i - s)))).
  { intros i Hi. rewrite <- (Mv (Z.to_nat (i - s))) by lia. f_equal. lia. }
  assert (Hs0 : 0 <= s) by lia.
  assert (Hs1 : 0 <= s + v - 1) by lia.
  rewrite (map_read_lookup _ _ _ Hs0 (Mslot s ltac:(lia))). rsimpl.
  rewrite (map_read_lookup _ _ _ Hs1 (Mslot (s + v - 1) ltac:(lia))). rsimpl.
  set (st := mk_iter s (Some (Z.to_nat (s - s))) _DEQUE_ELEM_COUNT).
  set (fi := mk_iter (s + v - 1) (Some (Z.to_nat (s + v - 1 - s))) (0 + e)).
  set (d2 := set_finish (set_start d1 st) fi).
  assert (W2 : wf d2).
  { constructor; simpl; rewrite ?Ms, ?Len; unfold idx; simpl;
      unfold _DEQUE_ELEM_COUNT, _DEQUE_MAP_COUNT in *; try lia.
    - apply Mslot. lia.
    - apply Mslot. lia.
    - intros i Hi. exists (Z.to_nat (i - s)). eexists.
      split; [apply Mslot; lia|]. split.
      + rewrite Hh. apply lookup_replicate_2. lia.
      + reflexivity.
    - intros i j b Hi Hj Mi Mj.
      rewrite Mslot in Mi by lia. rewrite Mslot in Mj by lia.
      injection Mi as Mi. injection Mj as Mj. lia. }
  assert (Icount : idx fi - idx st = n).
  { unfold idx, fi, st. simpl. unfold _DEQUE_ELEM_COUNT in *. lia. }
  exists d2. split; [reflexivity|]. split; [exact W2|]. split; [exact Ti|].
  split; [exact Icount|]. split; [exact Ms|].
  split; [reflexivity|]. split; [reflexivity|]. split; [reflexivity|].
  simpl. rewrite Tr. reflexivity.
Qed.

Lemma deque_init_n_layout (ti : _typeinfo_t) (n : Z) :
  deque_init_n ti n
  = let* d := init_layout ti n in
    for_range (loop_fuel d) init_elem d (deque_begin d) (deque_end d).
Proof.
  unfold deque_init_n, init_layout. cbv zeta.
  destruct (allocate_containers _ _ _ _) as [d1| | |]; try reflexivity. rsimpl.
  destruct (map_read (_ppc_map d1) _) as [f1| | |]; try reflexivity. rsimpl.
  destruct (map_read (_ppc_map d1) _) as [f2| | |]; reflexivity.
Qed.

Lemma to_list_replicate (d : deque_t A) (n : Z) (a : A) :
  idx (_t_finish d) - idx (_t_start d) = n ->
  (forall j, idx (_t_start d) <= j < idx (_t_finish d) -> elem_val d j = Ok a) ->
  to_list d = replicate (Z.to_nat n) a.
Proof.
  intros Hn Hv. apply list_eq. intros x.
  destruct (Z_lt_dec (Z.of_nat x) n) as [L|L].
  - rewrite to_list_lookup by lia. rewrite Hv by lia. simpl. symmetry.
    apply lookup_replicate_2. lia.
  - rewrite to_list_lookup_ge by lia. symmetry.
    apply lookup_ge_None_2. rewrite length_replicate. lia.
Qed.

Lemma deque_init_n_ok (ti : _typeinfo_t) (n : Z) :
  0 <= n < 2 ^ 30 ->
  exists d,
    deque_init_n ti n = Ok d /\ wf d /\ _t_typeinfo d = ti /\
    to_list d = replicate (Z.to_nat n) t_typeinit /\
    _t_mapsize d = init_mapsize n /\
    _ppc_mappos (_t_start d) = (init_mapsize n - init_blocks n) / 2 /\
    _pc_corepos (_t_start d) = _DEQUE_ELEM_COUNT /\
    _ppc_mappos (_t_finish d) = _ppc_mappos (_t_start d) + init_blocks n - 1 /\
    trace d = [EvMapAlloc (init_mapsize n)] ++
              map EvAlloc (seq 0 (Z.to_nat (init_blocks n))) ++
              map (fun k => EvInit (ptr_at d k))
                  (zrange (idx (_t_start d)) (Z.to_nat n)).
Proof.
  intros Hn. rewrite deque_init_n_layout.
  destruct (init_layout_ok ti n Hn) as (d2 & E & W2 & Ti & Ic & Ms & Sm & Sc & Fm & Tr).
  rewrite E. rsimpl. unfold deque_begin, deque_end.
  destruct (init_range_ok d2 (_t_start d2) (_t_finish d2) W2 (iter_ok_start d2 W2)
                          (iter_ok_finish d2 W2) (wf_le d2 W2))
    as (d' & Ei & Sh & W & Hl & Hi & Ho & Tr').
  unfold _deque_init_elem_range_auxiliary in Ei. rewrite Ei.
  pose proof (se_start _ _ Sh) as Es. pose proof (se_finish _ _ Sh) as Ef.
  exists d'. split; [reflexivity|]. split; [exact W|].
  split; [rewrite (se_info _ _ Sh); exact Ti|].
  split; [apply to_list_replicate; rewrite Es, Ef; assumption|].
  split; [rewrite (se_mapsize _ _ Sh); exact Ms|].
  split; [rewrite Es; exact Sm|]. split; [rewrite Es; exact Sc|].
  split; [rewrite Es, Ef; exact Fm|].
  rewrite Tr', Tr, Ic, Es, <- app_assoc. do 2 f_equal.
  apply map_ext. intros k. rewrite (ptr_at_shape _ _ _ Sh). reflexivity.
Qed.

(** The loop of [_deque_init_elem_varg]: every position of the range is
    initialised and then holds the value. *)
Lemma init_value_range_ok (d : deque_t A) (t_begin t_end : deque_iterator_t) (a : A) :
  wf d -> iter_ok d t_begin -> iter_ok d t_end -> idx t_begin <= idx t_end ->
  exists d', for_range (loop_fuel d) (init_value_elem a) d t_begin t_end = Ok d' /\
             shape_eq d d' /\ wf d' /\
             (forall j, idx t_begin <= j < idx t_end -> elem_val d' j = Ok a) /\
             (forall j, idx (_t_start d) <= j < idx (_t_finish d) ->
                        ~ (idx t_begin <= j < idx t_end) ->
                        elem_val d' j = elem_val d j) /\
             trace d' = trace d ++
                        concat (map (fun k => [EvInit (ptr_at d k);
                                               EvCopy (ptr_at d k) FromValue])
                                    (zrange (idx t_begin)
                                            (Z.to_nat (idx t_end - idx t_begin)))).
Proof.
  intros H Hb He Hle.
  pose (Inv := fun (k : Z) (x : deque_t A) =>
                 idx t_begin <= k /\ shape_eq d x /\
                 (forall j, idx t_begin <= j < k -> elem_val x j = Ok a) /\
                 (forall j, idx (_t_start d) <= j < idx (_t_finish d) ->
                            ~ (idx t_begin <= j < k) -> elem_val x j = elem_val d j) /\
                 trace x = trace d ++
                           concat (map (fun k => [EvInit (ptr_at d k);
                                                  EvCopy (ptr_at d k) FromValue])
                                       (zrange (idx t_begin)
                                               (Z.to_nat (k - idx t_begin))))).
  destruct (for_range_inv (init_value_elem a) t_end Inv)
    with (fuel := loop_fuel d) (d := d) (it := t_begin)
    as (d' & Ef & Sh & W & _ & _ & Hi & Ho & Ht); try assumption.
  - intros x it Wx Hit Hend Hlt (Rb & Shx & Hix & Hox & Htx).
    pose proof (io_range x t_end Hend) as Rend.
    pose proof (io_range x it Hit) as Rit.
    pose proof (se_start _ _ Shx) as Es. pose proof (se_finish _ _ Shx) as Ef.
    destruct (init_elem_ok x it Wx Hit)
      as (p & x1 & Ep & Ei & Sh1 & W1 & T1 & V1 & O1); [lia|].
    pose proof (se_start _ _ Sh1) as Es1. pose proof (se_finish _ _ Sh1) as Ef1.
    destruct (copy_value_elem_ok x1 it a W1 (iter_ok_shape _ _ _ Sh1 Hit))
      as (p' & x2 & Ep' & Ec & Sh2 & W2 & T2 & V2 & O2); [rewrite Ef1; lia|].
    assert (p' = p).
    { rewrite (elem_ptr_shape _ _ _ Sh1) in Ep'. congruence. }
    subst p'.
    exists x2. split; [unfold init_value_elem; rewrite Ei; exact Ec|].
    split; [apply (shape_eq_trans _ x1); assumption|]. split; [exact W2|].
    split; [lia|].
    split; [apply (shape_eq_trans _ x); [exact Shx|];
            apply (shape_eq_trans _ x1); assumption|].
    split; [|split].
    + pose proof (io_range d t_begin Hb) as Rbeg. rewrite Es, Ef in *.
      intros j Hj. destruct (Z.eq_dec j (idx it)) as [->|Hne]; [exact V2|].
      rewrite O2 by (rewrite ?Es1, ?Ef1, ?Es, ?Ef; lia).
      rewrite O1 by (rewrite ?Es, ?Ef; lia). apply Hix. lia.
    + rewrite Es, Ef in *.
      intros j Hj Hn. rewrite O2 by (rewrite ?Es1, ?Ef1, ?Es, ?Ef; lia).
      rewrite O1 by (rewrite ?Es, ?Ef; lia). apply Hox; [exact Hj | lia].
    + rewrite T2, T1, Htx.
      replace (Z.to_nat (idx it + 1 - idx t_begin))
        with (S (Z.to_nat (idx it - idx t_begin))) by lia.
      rewrite zrange_snoc, map_app, concat_app. simpl.
      rewrite <- !app_assoc. simpl. do 2 f_equal.
      replace (idx t_begin + Z.of_nat (Z.to_nat (idx it - idx t_begin)))
        with (idx it) by lia.
      assert (P : ptr_at d (idx it) = p).
      { unfold ptr_at. rewrite <- (elem_ptr_shape _ _ _ Shx), Ep. reflexivity. }
      rewrite P. reflexivity.
  - pose proof (loop_fuel_enough d t_begin H Hb). pose proof (io_range d t_end He). lia.
  - split; [lia|]. split; [apply shape_eq_refl|].
    split; [intros j Hj; lia|]. split; [intros j Hj Hn; reflexivity|].
    rewrite Z.sub_diag. simpl. rewrite app_nil_r. reflexivity.
  - exists d'. repeat (split; [assumption|]). exact Ht.
Qed.

Lemma deque_init_elem_ok (ti : _typeinfo_t) (n : Z) (a : A) :
  0 <= n < 2 ^ 30 ->
  exists d,
    _deque_init_elem ti n a = Ok d /\ wf d /\ _t_typeinfo d = ti /\
    to_list d = replicate (Z.to_nat n) a /\
    _t_mapsize d = init_mapsize n /\
    trace d = [EvMapAlloc (init_mapsize n)] ++
              map EvAlloc (seq 0 (Z.to_nat (init_blocks n))) ++
              concat (map (fun k => [EvInit (ptr_at d k); EvCopy (ptr_at d k) FromValue])
                          (zrange (idx (_t_start d)) (Z.to_nat n))).
Proof.
  intros Hn. unfold _deque_init_elem.
  destruct (init_layout_ok ti n Hn) as (d2 & E & W2 & Ti & Ic & Ms & Sm & Sc & Fm & Tr).
  rewrite E. rsimpl. unfold deque_begin, deque_end.
  destruct (init_value_range_ok d2 (_t_start d2) (_t_finish d2) a W2 (iter_ok_start d2 W2)
                                (iter_ok_finish d2 W2) (wf_le d2 W2))
    as (d' & Ei & Sh & W & Hi & Ho & Tr').
  rewrite Ei.
  pose proof (se_start _ _ Sh) as Es. pose proof (se_finish _ _ Sh) as Ef.
  exists d'. split; [reflexivity|]. split; [exact W|].
  split; [rewrite (se_info _ _ Sh); exact Ti|].
  split; [apply to_list_replicate; rewrite Es, Ef; assumption|].
  split; [rewrite (se_mapsize _ _ Sh); exact Ms|].
  rewrite Tr', Tr, Ic, Es, <- app_assoc. do 3 f_equal.
  apply map_ext. intros k. rewrite (ptr_at_shape _ _ _ Sh). reflexivity.
Qed.

Lemma deque_resize_elem_ok (d : deque_t A) (n : Z) (a : A) :
  wf d -> 0 <= n ->
  let size := idx (_t_finish d) - idx (_t_start d) in
  (n <= size -> _deque_resize_elem d n a = deque_resize d n) /\
  (size < n -> idx (_t_finish d) + (n - size) < _DEQUE_ELEM_COUNT * _t_mapsize d ->
   exists d', _deque_resize_elem d n a = Ok d' /\ wf d' /\
              _t_mapsize d' = _t_mapsize d /\ _t_start d' = _t_start d /\
              idx (_t_finish d') = idx (_t_finish d) + (n - size) /\
              to_list d' = to_list d ++ replicate (Z.to_nat (n - size)) a /\
              trace d' = trace d ++
                         map EvAlloc
                             (seq (length (_t_allocater d))
                                  (Z.to_nat (_ppc_mappos (_t_finish d')
                                             - _ppc_mappos (_t_finish d)))) ++
                         map (fun k => EvInit (ptr_at d' k))
                             (zrange (idx (_t_finish d)) (Z.to_nat (n - size))) ++
                         map (fun k => EvCopy (ptr_at d' k) FromValue)
                             (zrange (idx (_t_finish d)) (Z.to_nat (n - size)))).
Proof.
  intros H Hn size. pose proof (wf_le d H) as Hle.
  unfold _deque_resize_elem, deque_resize. rewrite (deque_size_ok d H). rsimpl.
  fold size. split.
  - intros Hs. destruct (Z.ltb_spec n size) as [L|L]; [reflexivity|].
    replace (n >? size) with false
      by (symmetry; rewrite Z.gtb_ltb; apply Z.ltb_ge; lia).
    reflexivity.
  - intros Hgt Hroom.
    replace (n <? size) with false by (symmetry; apply Z.ltb_ge; lia).
    replace (n >? size) with true by (symmetry; rewrite Z.gtb_ltb; apply Z.ltb_lt; lia).
    destruct (expand_at_end_room d (n - size) None H ltac:(lia) Hroom)
      as (d1 & E & W1 & Ez & Es & If & Io & Li & Keep & Tr).
    rewrite E. rsimpl. unfold deque_end.
    destruct (fill_range_ok d1 (_t_finish d) (_t_finish d1) a W1 Io (iter_ok_finish d1 W1))
      as (d' & Ef & Sh & W & Hi & Ho & Tr'); [lia|].
    rewrite Ef.
    pose proof (se_start _ _ Sh) as Es'. pose proof (se_finish _ _ Sh) as Ef'.
    exists d'. split; [reflexivity|]. split; [exact W|].
    split; [rewrite (se_mapsize _ _ Sh); exact Ez|]. split; [congruence|].
    split; [rewrite Ef'; exact If|]. split.
    + rewrite (to_list_insert_back d d' (idx (_t_finish d)) (n - size) a H W);
        try lia; try congruence.
      * rewrite take_ge, drop_ge by (rewrite length_to_list; lia).
        rewrite app_nil_r. reflexivity.
      * intros j Hj. rewrite Ho; [apply Keep; exact Hj | rewrite Es, If; lia | lia].
      * intros j Hj. apply Hi. lia.
    + rewrite Tr', Tr, If, Ef', <- !app_assoc. do 2 f_equal.
      replace (idx (_t_finish d) + (n - size) - idx (_t_finish d)) with (n - size) by lia.
      f_equal.
      * apply map_ext. intros k. rewrite (ptr_at_shape _ _ _ Sh). reflexivity.
      * apply map_ext. intros k. rewrite (ptr_at_shape _ _ _ Sh). reflexivity.
Qed.

Lemma no_copy_alloc (l : list nat) : no_copy (map EvAlloc l) = true.
Proof. induction l; simpl; auto. Qed.

Lemma no_copy_init (f : Z -> pointer) (l : list Z) :
  no_copy (map (fun j => EvInit (f j)) l) = true.
Proof. induction l; simpl; auto. Qed.

(** [deque_resize] to a size for which the directory has room. *)
Lemma deque_resize_ok (d : deque_t A) (n : Z) :
  wf d -> 0 <= n ->
  (idx (_t_finish d) - idx (_t_start d) < n ->
   idx (_t_start d) + n < _DEQUE_ELEM_COUNT * _t_mapsize d) ->
  exists d1 t,
    deque_resize d n = Ok d1 /\ wf d1 /\
    _t_mapsize d1 = _t_mapsize d /\ _t_start d1 = _t_start d /\
    idx (_t_finish d1) = idx (_t_start d) + n /\
    trace d1 = trace d ++ t /\ no_copy t = true.
Proof.
  intros H Hn Hroom. pose proof (wf_le d H) as Hle.
  pose proof (length_to_list d) as Hl.
  unfold deque_resize. rewrite (deque_size_ok d H). rsimpl.
  set (size := idx (_t_finish d) - idx (_t_start d)) in *.
  destruct (Z.ltb_spec n size) as [L|L].
  - destruct (shrink_at_end_ok d (size - n) H ltac:(lia))
      as (d1 & E & W & Ti & Ez & _ & Es & _ & If & _ & _ & _ & _ & Tr).
    exists d1. eexists. split; [exact E|]. split; [exact W|].
    split; [exact Ez|]. split; [exact Es|]. split; [rewrite If; fold size; lia|].
    split; [exact Tr|]. rewrite no_copy_app, no_copy_destroy, no_copy_free. reflexivity.
  - destruct (Z.gtb_spec n size) as [G|G].
    + destruct (expand_at_end_room d (n - size) None H ltac:(lia))
        as (d1 & E & W & Ez & Es & If & _ & _ & _ & Tr); [specialize (Hroom G); lia|].
      rewrite E. rsimpl. exists d1. eexists. split; [reflexivity|]. split; [exact W|].
      split; [exact Ez|]. split; [exact Es|]. split; [rewrite If; unfold size; lia|].
      split; [exact Tr|]. rewrite no_copy_app, no_copy_alloc, no_copy_init. reflexivity.
    + exists d, []. split; [reflexivity|]. split; [exact H|].
      repeat (split; [reflexivity|]). split; [unfold size in *; lia|].
      split; [rewrite app_nil_r; reflexivity | reflexivity].
Qed.

Lemma deque_assign_elem_ok (d : deque_t A) (n : Z) (a : A) :
  wf d -> 0 <= n ->
  (idx (_t_finish d) - idx (_t_start d) < n ->
   idx (_t_start d) + n < _DEQUE_ELEM_COUNT * _t_mapsize d) ->
  exists d' t,
    _deque_assign_elem d n a = Ok d' /\ wf d' /\
    _t_mapsize d' = _t_mapsize d /\ _t_start d' = _t_start d /\
    to_list d' = replicate (Z.to_nat n) a /\
    trace d' = trace d ++ t ++
               map (fun k => EvCopy (ptr_at d' k) FromValue)
                   (zrange (idx (_t_start d)) (Z.to_nat n)) /\
    no_copy t = true.
Proof.
  intros H Hn Hroom.
  destruct (deque_resize_ok d n H Hn Hroom) as (d1 & t & E & W1 & Ez & Es & If & Tr & Nc).
  unfold _deque_assign_elem. rewrite E. rsimpl.
  destruct (Z.gtb_spec n 0) as [G|G].
  - unfold deque_begin, deque_end.
    destruct (fill_range_ok d1 (_t_start d1) (_t_finish d1) a W1 (iter_ok_start d1 W1)
                            (iter_ok_finish d1 W1) (wf_le d1 W1))
      as (d' & Ef & Sh & W & Hi & _ & Tr').
    rewrite Ef.
    pose proof (se_start _ _ Sh) as Es'. pose proof (se_finish _ _ Sh) as Ef'.
    exists d', t. split; [reflexivity|]. split; [exact W|].
    split; [rewrite (se_mapsize _ _ Sh); exact Ez|]. split; [congruence|].
    split; [apply to_list_replicate; rewrite ?Es', ?Ef'; [rewrite Es; lia | exact Hi]|].
    split; [|exact Nc].
    rewrite Tr', Tr, If, Es, <- app_assoc. do 2 f_equal.
    replace (idx (_t_start d) + n - idx (_t_start d)) with n by lia.
    apply map_ext. intros k. rewrite (ptr_at_shape _ _ _ Sh). reflexivity.
  - assert (n = 0) by lia. subst n.
    exists d1, t. split; [reflexivity|]. split; [exact W1|]. split; [exact Ez|].
    split; [exact Es|].
    split; [apply to_list_replicate; [rewrite Es; lia | intros j Hj; rewrite Es in Hj; lia]|].
    split; [simpl; rewrite app_nil_r; exact Tr | exact Nc].
Qed.







(** X25: [deque_init_n] for a count below 2^30 returns a deque that the
    checker accepts, of the given type, holding that many default-initialised
    elements.  It allocates a directory of 16 slots, or of the next size in
    steps of 8 that has room, and [n / 16 + 2] blocks in the middle of it;
    the first block holds no element, and every element cell is initialised
    once. *)
Theorem deque_init_n_spec (ti : _typeinfo_t) (n : Z) :
  0 <= n < 2 ^ 30 ->
  exists d,
    deque_init_n ti n = Ok d /\ deque_valid d = true /\ _t_typeinfo d = ti /\
    to_list d = replicate (Z.to_nat n) t_typeinit /\
    _t_mapsize d = init_mapsize n /\
    _ppc_mappos (_t_start d) = (init_mapsize n - init_blocks n) / 2 /\
    _pc_corepos (_t_start d) = _DEQUE_ELEM_COUNT /\
    _ppc_mappos (_t_finish d) = _ppc_mappos (_t_start d) + init_blocks n - 1 /\
    trace d = [EvMapAlloc (init_mapsize n)] ++
              map EvAlloc (seq 0 (Z.to_nat (init_blocks n))) ++
              map (fun k => EvInit (ptr_at d k))
                  (zrange (idx (_t_start d)) (Z.to_nat n)).
Proof.
  intros Hn.
  destruct (deque_init_n_ok ti n Hn) as (d & E & W & R).
  exists d. split; [exact E|]. split; [apply wf_deque_valid; exact W | exact R].
Qed.

(** X26: [_deque_init_elem_varg] for a count below 2^30 and a value returns
    a deque that the checker accepts, of the given type, holding that many
    copies of the value, in the same layout as [deque_init_n]; every element
    cell is initialised and then receives one copy of the value. *)
Theorem deque_init_elem_spec (ti : _typeinfo_t) (n : Z) (a : A) :
  0 <= n < 2 ^ 30 ->
  exists d,
    _deque_init_elem ti n a = Ok d /\ deque_valid d = true /\ _t_typeinfo d = ti /\
    to_list d = replicate (Z.to_nat n) a /\
    _t_mapsize d = init_mapsize n /\
    trace d = [EvMapAlloc (init_mapsize n)] ++
              map EvAlloc (seq 0 (Z.to_nat (init_blocks n))) ++
              concat (map (fun k => [EvInit (ptr_at d k); EvCopy (ptr_at d k) FromValue])
                          (zrange (idx (_t_start d)) (Z.to_nat n))).
Proof.
  intros Hn.
  destruct (deque_init_elem_ok ti n a Hn) as (d & E & W & R).
  exists d. split; [exact E|]. split; [apply wf_deque_valid; exact W | exact R].
Qed.

(** X27: [_deque_resize_elem_varg] on a valid deque.  To a size not above
    the current one it does what [deque_resize] does and the value is not
    used.  To a larger size, while the directory has a free slot behind the
    run for every block that is needed, it returns a well-formed deque with
    copies of the value appended: the new cells are initialised first and
    then each receives one copy; no old element is touched. *)
Theorem deque_resize_elem_spec (d : deque_t A) (n : Z) (a : A) :
  deque_valid d = true -> 0 <= n ->
  let size := Z.of_nat (length (to_list d)) in
  (n <= size -> _deque_resize_elem d n a = deque_resize d n) /\
  (size < n -> idx (_t_finish d) + (n - size) < _DEQUE_ELEM_COUNT * _t_mapsize d ->
   exists d', _deque_resize_elem d n a = Ok d' /\ wf d' /\
              _t_mapsize d' = _t_mapsize d /\ _t_start d' = _t_start d /\
              to_list d' = to_list d ++ replicate (Z.to_nat (n - size)) a /\
              trace d' = trace d ++
                         map EvAlloc
                             (seq (length (_t_allocater d))
                                  (Z.to_nat (_ppc_mappos (_t_finish d')
                                             - _ppc_mappos (_t_finish d)))) ++
                         map (fun k => EvInit (ptr_at d' k))
                             (zrange (idx (_t_finish d)) (Z.to_nat (n - size))) ++
                         map (fun k => EvCopy (ptr_at d' k) FromValue)
                             (zrange (idx (_t_finish d)) (Z.to_nat (n - size)))).
Proof.
  intros V Hn size. apply deque_valid_wf in V. pose proof (wf_le d V) as Hle.
  assert (Hs : size = idx (_t_finish d) - idx (_t_start d)).
  { unfold size. rewrite length_to_list. lia. }
  destruct (deque_resize_elem_ok d n a V Hn) as [S G]. rewrite <- Hs in S, G.
  split; [exact S|]. intros Hgt Hroom.
  destruct (G Hgt Hroom) as (d' & E & W & Ez & Es & _ & L & Tr).
  exists d'. repeat (split; [assumption|]). exact Tr.
Qed.

(** X28: [_deque_assign_elem_varg] on a valid deque, for a count that is not
    above the current size or for which the directory has a free slot behind
    the run for every block that is needed: it returns a well-formed deque
    that holds that many copies of the value, start iterator and directory
    size unchanged.  After the resize, which copies nothing, every position
    receives one copy of the value. *)
Theorem deque_assign_elem_spec (d : deque_t A) (n : Z) (a : A) :
  deque_valid d = true -> 0 <= n ->
  (Z.of_nat (length (to_list d)) < n ->
   idx (_t_start d) + n < _DEQUE_ELEM_COUNT * _t_mapsize d) ->
  exists d' t,
    _deque_assign_elem d n a = Ok d' /\ wf d' /\
    _t_mapsize d' = _t_mapsize d /\ _t_start d' = _t_start d /\
    to_list d' = replicate (Z.to_nat n) a /\
    trace d' = trace d ++ t ++
               map (fun k => EvCopy (ptr_at d' k) FromValue)
                   (zrange (idx (_t_start d)) (Z.to_nat n)) /\
    no_copy t = true.
Proof.
  intros V Hn Hroom. apply deque_valid_wf in V. pose proof (wf_le d V) as Hle.
  apply (deque_assign_elem_ok d n a V Hn).
  intros Hlt. apply Hroom. rewrite length_to_list. lia.
Qed.



End DequeTheory.

(** * The properties on concrete deques *)

(** ** Comparison *)

Example equal_123_123 : deque_equal deque_123 deque_123 = Ok true.
Proof. vm_compute. reflexivity. Qed.

Example less_123_124 : deque_less deque_123 deque_124 = Ok true.
Proof. vm_compute. reflexivity. Qed.

Lemma deque_equal_less_spec_witness :
  deque_valid deque_123 = true /\ deque_valid deque_124 = true /\
  _deque_same_type deque_123 deque_124 = true /\
  exists (l1 l2 : list Z) (eb lb : bool),
    represents deque_123 l1 /\ represents deque_124 l2 /\
    deque_equal deque_123 deque_124 = Ok eb /\
    deque_less deque_123 deque_124 = Ok lb /\
    (eb = true <->
     length l1 = length l2 /\
     forall (i : nat) (a b : Z), l1 !! i = Some a -> l2 !! i = Some b ->
                                 t_typeless a b = false /\ t_typeless b a = false) /\
    (lb = true <-> lex_lt l1 l2).
Proof.
  split; [vm_compute; reflexivity|]. split; [vm_compute; reflexivity|].
  split; [vm_compute; reflexivity|].
  apply (deque_equal_less_spec deque_123 deque_124); vm_compute; reflexivity.
Defined.

(** [deque_equal] on an int deque and a long deque returns false; in
    particular it does not fail an assertion. *)
Lemma deque_equal_type_mismatch_returns :
  _deque_same_type deque_123 empty_long_deque = false /\
  deque_equal deque_123 empty_long_deque = Ok false /\
  deque_equal deque_123 empty_long_deque <> AssertFail.
Proof.
  split; [vm_compute; reflexivity|]. split; [vm_compute; reflexivity|].
  vm_compute. discriminate.
Qed.

Lemma deque_compare_type_mismatch_witness :
  _deque_same_type deque_123 empty_long_deque = false /\
  deque_less deque_123 empty_long_deque = AssertFail /\
  ((_t_mapsize deque_123 >? 0) && (_t_mapsize empty_long_deque >? 0) = true ->
   deque_equal deque_123 empty_long_deque = Ok false /\
   deque_not_equal deque_123 empty_long_deque = Ok true).
Proof.
  split; [vm_compute; reflexivity|].
  apply (deque_compare_type_mismatch deque_123 empty_long_deque).
  vm_compute. reflexivity.
Defined.

(** ** Erasing an empty range *)

Lemma deque_erase_range_empty_witness :
  deque_valid deque_123 = true /\
  iterator_valid deque_123 (mk_iter 8 (Some 1%nat) 2) = true /\
  deque_erase_range deque_123 (mk_iter 8 (Some 1%nat) 2) (mk_iter 8 (Some 1%nat) 2)
  = Ok (deque_123, mk_iter 8 (Some 1%nat) 2).
Proof.
  split; [vm_compute; reflexivity|]. split; [vm_compute; reflexivity|].
  apply (deque_erase_range_empty deque_123 (mk_iter 8 (Some 1%nat) 2));
    vm_compute; reflexivity.
Defined.

(** ** Directory growth *)


Example directory_growth_240 :
  _t_mapsize empty_deque = 16 /\ _t_mapsize (fst (fst expanded_240)) = 24.
Proof. split; vm_compute; reflexivity. Qed.


(** A swap hands the directory of 24 slots to the second deque and the
    directory of 16 slots to the first, each as it is. *)
Example swap_exchanges_directories :
  run_pair_ops (fst (fst expanded_240), empty_deque) [OpSwap]
  = Ok (empty_deque, fst (fst expanded_240)) /\
  _t_mapsize (fst (fst expanded_240)) = 24 /\ _t_mapsize empty_deque = 16.
Proof. repeat split; vm_compute; reflexivity. Qed.

(** ** Expansion inside the boundary block *)



Example expand_within_block_rooms :
  2 < _DEQUE_ELEM_COUNT - _pc_corepos (_t_finish deque_123) /\
  2 < _pc_corepos (_t_start deque_123).
Proof. split; vm_compute; reflexivity. Qed.

(** ** Shrinking *)

(** Shrinking the 19-element deque by 3 at the end leaves the finish iterator
    at the first cell of the block in directory slot 8: no element of the new
    range lies in that block, and it stays allocated. *)
Lemma shrink_keeps_boundary_block :
  _shrink_at_end deque_19 3 = Ok deque_19_shrunk /\
  (forall j, idx (_t_start deque_19_shrunk) <= j < idx (_t_finish deque_19_shrunk) ->
             j / _DEQUE_ELEM_COUNT <> 8) /\
  _ppc_map deque_19 !! 8%nat = Some (Some 2%nat) /\
  _ppc_map deque_19_shrunk !! 8%nat = Some (Some 2%nat) /\
  exists blk, _t_allocater deque_19_shrunk !! 2%nat = Some (Some blk).
Proof.
  split; [vm_compute; reflexivity|]. split.
  - intros j Hj.
    change (idx (_t_start deque_19_shrunk)) with 112 in Hj.
    change (idx (_t_finish deque_19_shrunk)) with 128 in Hj.
    unfold _DEQUE_ELEM_COUNT.
    pose proof (Z.div_mod j 16 ltac:(lia)).
    pose proof (Z.mod_pos_bound j 16 ltac:(lia)). lia.
  - split; [reflexivity|]. split; [reflexivity|]. eexists. reflexivity.
Qed.

Lemma shrink_engine_spec_witness :
  deque_valid deque_19 = true /\ 0 <= 3 /\
  let n := Z.of_nat (length (to_list deque_19)) in
  let m := Z.min 3 n in
  (exists d',
      _shrink_at_end deque_19 3 = Ok d' /\ wf d' /\
      _t_mapsize d' = _t_mapsize deque_19 /\
      _t_start d' = _t_start deque_19 /\
      idx (_t_finish d') = idx (_t_finish deque_19) - m /\
      to_list d' = take (Z.to_nat (n - m)) (to_list deque_19) /\
      trace d' = trace deque_19 ++
                 map (fun j => EvDestroy (ptr_at deque_19 j))
                     (zrange (idx (_t_finish deque_19) - m) (Z.to_nat m)) ++
                 map (fun j => EvFree (slot_block deque_19
                                         (_ppc_mappos (_t_finish d') + 1
                                          + Z.of_nat j)))
                     (seq 0 (Z.to_nat (_ppc_mappos (_t_finish deque_19)
                                       - _ppc_mappos (_t_finish d')))) /\
      frees_slots deque_19 d' (_ppc_mappos (_t_finish d') + 1)
                  (_ppc_mappos (_t_finish deque_19)) /\
      range_backed d') /\
  (exists d',
      _shrink_at_begin deque_19 3 = Ok d' /\ wf d' /\
      _t_mapsize d' = _t_mapsize deque_19 /\
      _t_finish d' = _t_finish deque_19 /\
      idx (_t_start d') = idx (_t_start deque_19) + m /\
      to_list d' = drop (Z.to_nat m) (to_list deque_19) /\
      trace d' = trace deque_19 ++
                 map (fun j => EvDestroy (ptr_at deque_19 j))
                     (zrange (idx (_t_start deque_19)) (Z.to_nat m)) ++
                 map (fun j => EvFree (slot_block deque_19
                                         (_ppc_mappos (_t_start d') - 1
                                          - Z.of_nat j)))
                     (seq 0 (Z.to_nat (_ppc_mappos (_t_start d')
                                       - _ppc_mappos (_t_start deque_19)))) /\
      frees_slots deque_19 d' (_ppc_mappos (_t_start deque_19))
                  (_ppc_mappos (_t_start d') - 1) /\
      range_backed d').
Proof.
  split; [vm_compute; reflexivity|]. split; [lia|].
  apply (shrink_engine_spec deque_19 3); [vm_compute; reflexivity | lia].
Defined.

(** Shrinking by one more element frees the block of slot 8. *)
Example shrink_19_by_4 :
  exists d', _shrink_at_end deque_19 4 = Ok d' /\
             _ppc_map d' !! 8%nat = Some None /\
             _t_allocater d' !! 2%nat = Some None /\
             int_elems d' = replicate 15 0.
Proof. eexists. split; [vm_compute; reflexivity|]. vm_compute. auto. Qed.

(** ** Erase *)

(** In a deque of one element the first position is also the last, and erase
    takes the [deque_pop_front] path: its outcome differs from that of
    [deque_pop_back]. *)
Lemma deque_erase_single_is_not_pop_back :
  idx (deque_begin deque_5) = idx (deque_end deque_5) - 1 /\
  deque_erase deque_5 (deque_begin deque_5)
  = (let* d1 := deque_pop_front deque_5 in Ok (d1, deque_begin d1)) /\
  deque_erase deque_5 (deque_begin deque_5)
  <> (let* d1 := deque_pop_back deque_5 in Ok (d1, deque_end d1)).
Proof.
  split; [reflexivity|]. split; [vm_compute; reflexivity|].
  vm_compute. intros E. discriminate E.
Qed.

Lemma deque_erase_spec_witness :
  deque_valid deque_123 = true /\
  iterator_valid deque_123 (mk_iter 8 (Some 1%nat) 1) = true /\
  idx (mk_iter 8 (Some 1%nat) 1) < idx (_t_finish deque_123) /\
  let d := deque_123 in
  let p := mk_iter 8 (Some 1%nat) 1 in
  (exists d' r,
     deque_erase d p = Ok (d', r) /\
     to_list d' = take (Z.to_nat (idx p - idx (_t_start d))) (to_list d) ++
                  drop (S (Z.to_nat (idx p - idx (_t_start d)))) (to_list d)) /\
  (idx p = idx (_t_start d) ->
   deque_erase d p = (let* d1 := deque_pop_front d in Ok (d1, deque_begin d1)) /\
   exists d1 t, deque_pop_front d = Ok d1 /\ trace d1 = trace d ++ t /\
                no_copy t = true /\ to_list d1 = drop 1 (to_list d)) /\
  (idx p = idx (_t_finish d) - 1 -> idx p <> idx (_t_start d) ->
   deque_erase d p = (let* d1 := deque_pop_back d in Ok (d1, deque_end d1)) /\
   exists d1 t, deque_pop_back d = Ok d1 /\ trace d1 = trace d ++ t /\
                no_copy t = true /\
                to_list d1 = take (length (to_list d) - 1) (to_list d)) /\
  (idx (_t_start d) < idx p < idx (_t_finish d) - 1 ->
   exists d' t_free,
     deque_erase d p = Ok (d', p) /\
     to_list d' = take (Z.to_nat (idx p - idx (_t_start d))) (to_list d) ++
                  drop (S (Z.to_nat (idx p - idx (_t_start d)))) (to_list d) /\
     trace d' = trace d ++
                map (fun j => EvCopy (ptr_at d j) (FromElem (ptr_at d (j + 1))))
                    (zrange (idx p) (Z.to_nat (idx (_t_finish d) - 1 - idx p))) ++
                [EvDestroy (ptr_at d (idx (_t_finish d) - 1))] ++ t_free /\
     (forall e, In e t_free -> exists b, e = EvFree b)).
Proof.
  split; [vm_compute; reflexivity|]. split; [vm_compute; reflexivity|].
  split; [vm_compute; reflexivity|].
  apply (deque_erase_spec deque_123 (mk_iter 8 (Some 1%nat) 1));
    vm_compute; reflexivity.
Defined.

Example erase_middle_of_123 :
  exists d' p, deque_erase deque_123 (mk_iter 8 (Some 1%nat) 1) = Ok (d', p) /\
               int_elems d' = [1; 3].
Proof. eexists. eexists. split; vm_compute; reflexivity. Qed.

(** ** Insert on a directory whose run of blocks is not centred *)

(** After 143 [push_front] the run starts in directory slot 0 with one free
    cell.  An insert of one element at begin (distance 0, below half the
    size) needs a new block in front; the directory has spare slots, but the
    shift that [_expand_at_begin] computes from the centred position is 0,
    and the new block is stored before the directory. *)
Lemma insert_front_overruns_directory :
  int_run (push_fronts 143) = Ok deque_front_143 /\
  deque_valid deque_front_143 = true /\
  iterator_distance deque_front_143 (deque_begin deque_front_143)
                    (deque_begin deque_front_143)
  = Ok 0 /\
  deque_size deque_front_143 = Ok 143 /\
  _ppc_mappos (_t_start deque_front_143) = 0 /\
  spare_slots deque_front_143 = 6 /\
  _expand_at_begin deque_front_143 1 (Some (deque_begin deque_front_143))
  = Undefined /\
  _deque_insert_n deque_front_143 (deque_begin deque_front_143) 1 7 = Undefined.
Proof. repeat split; vm_compute; reflexivity. Qed.

(** After 127 [push_back] the run ends in the last directory slot with one
    free cell.  An insert of one element at end needs a new block behind; the
    shift that [_expand_at_end] computes is 0 and the new block is stored
    past the directory, so the insert of the round trip does not complete. *)
Lemma insert_erase_overruns_directory :
  int_run (push_backs 127) = Ok deque_back_127 /\
  deque_valid deque_back_127 = true /\
  deque_size deque_back_127 = Ok 127 /\
  _ppc_mappos (_t_finish deque_back_127) = _t_mapsize deque_back_127 - 1 /\
  spare_slots deque_back_127 = 7 /\
  _deque_insert_n deque_back_127 (deque_end deque_back_127) 1 7 = Undefined /\
  run_ops deque_back_127 [OpInsertN 127 1 7; OpErase 127] = Undefined /\
  _deque_push_back deque_back_127 7 = Undefined.
Proof. repeat split; vm_compute; reflexivity. Qed.

(** ** Insert at begin of a deque of one element *)

(** On [5], the deque after [deque_init] and one [push_back], both boundary
    blocks have room.  An insert at begin takes the back branch, since
    distance 0 is not below 1 / 2 = 0; the move toward the end steps its
    source iterator back from the first position, and the membership
    assertion at the exit of [_deque_iterator_prev] fails. *)
Example insert_begin_of_5 :
  deque_valid deque_5 = true /\
  deque_size deque_5 = Ok 1 /\
  _deque_iterator_prev deque_5 (deque_begin deque_5) = AssertFail /\
  _deque_insert_n deque_5 (deque_begin deque_5) 1 7 = AssertFail /\
  run_ops deque_5 [OpInsertN 0 1 7; OpErase 0] = AssertFail.
Proof. repeat split; vm_compute; reflexivity. Qed.

(** ** Insert inside the boundary blocks, on concrete deques *)

(** Two elements inserted at index 1 of [0; 1; 2; 3; 4]: the front branch,
    with room in the first block. *)
Example insert_front_frame_01234 :
  exists d' gap t,
    _deque_insert_n deque_01234 (mk_iter 7 (Some 0%nat) 15) 2 9 = Ok (d', gap) /\
    int_elems d' = [0; 9; 9; 1; 2; 3; 4] /\
    trace d' = trace deque_01234 ++ t /\
    forall j, 127 <= j < 131 ->
              elem_val d' j = elem_val deque_01234 j /\
              untouched (ptr_at deque_01234 j) t = true.
Proof.
  destruct (insert_front_frame deque_01234 (mk_iter 7 (Some 0%nat) 15) 2 9)
    as (d' & gap & t & E & L & T & F);
    try (vm_compute; reflexivity); try lia.
  exists d', gap, t. split; [exact E|]. split; [|split; [exact T|]].
  - unfold int_elems. rewrite L. vm_compute. reflexivity.
  - intros j Hj. destruct (F j) as (_ & Fv & Fu); [exact Hj|]. split; assumption.
Qed.

Example insert_front_events_01234 :
  insert_front_events deque_01234 127 2
  = [EvInit (0%nat, 12); EvInit (0%nat, 13);
     EvCopy (0%nat, 12) (FromElem (0%nat, 14));
     EvCopy (0%nat, 13) FromValue; EvCopy (0%nat, 14) FromValue].
Proof. vm_compute. reflexivity. Qed.

(** One element inserted at index 1 of [0; 1; 2] and erased again. *)
Example insert_erase_012 :
  exists d1 r d2 r',
    _deque_insert_n deque_012 (mk_iter 8 (Some 1%nat) 0) 1 99 = Ok (d1, r) /\
    deque_erase d1 r = Ok (d2, r') /\ int_elems d2 = [0; 1; 2].
Proof.
  destruct (insert_erase_in_block deque_012 (mk_iter 8 (Some 1%nat) 0) 99)
    as (d1 & r & d2 & r' & E1 & E2 & _ & L).
  - apply deque_valid_wf. vm_compute. reflexivity.
  - apply iterator_valid_ok. vm_compute. reflexivity.
  - vm_compute. reflexivity.
  - vm_compute. reflexivity.
  - intros _. vm_compute. reflexivity.
  - exists d1, r, d2, r'. split; [exact E1|]. split; [exact E2|].
    unfold int_elems. rewrite L. vm_compute. reflexivity.
Qed.

(** ** The further properties on concrete deques *)

Lemma iterator_next_prev_witness :
  let d := deque_123 in
  let it := mk_iter 8 (Some 1%nat) 1 in
  deque_valid d = true /\ iterator_valid d it = true /\
  (exists n p, _deque_iterator_next d it = Ok n /\ idx n = idx it + 1 /\
               _deque_iterator_prev d n = Ok p /\
               _deque_iterator_equal d p it = Ok true) /\
  (exists p n, _deque_iterator_prev d it = Ok p /\ idx p = idx it - 1 /\
               _deque_iterator_next d p = Ok n /\
               _deque_iterator_equal d n it = Ok true).
Proof.
  intros d it.
  assert (V : deque_valid d = true) by (vm_compute; reflexivity).
  assert (I : iterator_valid d it = true) by (vm_compute; reflexivity).
  split; [exact V|]. split; [exact I|].
  destruct (iterator_next_prev d it V I) as [F B].
  split; [apply F | apply B]; vm_compute; reflexivity.
Defined.

Lemma iterator_next_n_minus_witness :
  let d := deque_123 in
  let it := mk_iter 7 (Some 0%nat) 16 in
  deque_valid d = true /\ iterator_valid d it = true /\
  0 <= 2 /\ idx it + 2 <= idx (_t_finish d) /\
  exists t b,
    _deque_iterator_next_n d it 2 = Ok t /\
    _deque_iterator_minus d t it = Ok 2 /\
    _deque_iterator_minus d it t = Ok (- 2) /\
    _deque_iterator_prev_n d t 2 = Ok b /\
    _deque_iterator_equal d b it = Ok true.
Proof.
  intros d it.
  assert (V : deque_valid d = true) by (vm_compute; reflexivity).
  assert (I : iterator_valid d it = true) by (vm_compute; reflexivity).
  assert (H0 : 0 <= 2) by lia.
  assert (H1 : idx it + 2 <= idx (_t_finish d)) by (vm_compute; discriminate).
  split; [exact V|]. split; [exact I|]. split; [exact H0|]. split; [exact H1|].
  apply (iterator_next_n_minus d it 2 V I H0 H1).
Defined.

Lemma iterator_trichotomy_witness :
  let d := deque_123 in
  let a := mk_iter 8 (Some 1%nat) 1 in
  let b := mk_iter 8 (Some 1%nat) 2 in
  deque_valid d = true /\ iterator_valid d a = true /\ iterator_valid d b = true /\
  exists (e l g : bool) (m : Z),
    _deque_iterator_equal d a b = Ok e /\
    _deque_iterator_less d a b = Ok l /\
    _deque_iterator_less d b a = Ok g /\
    _deque_iterator_minus d a b = Ok m /\
    (e = true <-> m = 0) /\ (l = true <-> m < 0) /\ (g = true <-> 0 < m).
Proof.
  intros d a b.
  assert (V : deque_valid d = true) by (vm_compute; reflexivity).
  assert (Ia : iterator_valid d a = true) by (vm_compute; reflexivity).
  assert (Ib : iterator_valid d b = true) by (vm_compute; reflexivity).
  split; [exact V|]. split; [exact Ia|]. split; [exact Ib|].
  apply (iterator_trichotomy d a b V Ia Ib).
Defined.

Lemma iterator_step_outside_witness :
  deque_valid deque_123 = true /\ deque_valid deque_23 = true /\
  _deque_iterator_prev deque_123 (deque_begin deque_123) = AssertFail /\
  _deque_iterator_next deque_123 (deque_end deque_123) = AssertFail /\
  exists t, _deque_iterator_next deque_23 (deque_end deque_23) = Ok t /\
            idx t = idx (_t_finish deque_23) + 1 /\
            _deque_iterator_belong_to_deque deque_23 t = Ok true.
Proof.
  assert (V : deque_valid deque_123 = true) by (vm_compute; reflexivity).
  assert (V' : deque_valid deque_23 = true) by (vm_compute; reflexivity).
  split; [exact V|]. split; [exact V'|].
  destruct (iterator_step_outside deque_123 V) as (P & N & _).
  destruct (iterator_step_outside deque_23 V') as (_ & _ & L).
  split; [exact P|]. split.
  - apply N. left. vm_compute. reflexivity.
  - apply L; vm_compute; reflexivity.
Defined.

Lemma deque_size_empty_witness :
  deque_valid deque_123 = true /\
  deque_size deque_123 = Ok 3 /\ deque_empty deque_123 = Ok false.
Proof.
  assert (V : deque_valid deque_123 = true) by (vm_compute; reflexivity).
  split; [exact V|]. exact (deque_size_empty deque_123 V).
Defined.

Lemma deque_at_bounds_witness :
  deque_valid deque_123 = true /\
  (exists p, deque_at deque_123 1 = Ok p /\ cell_read deque_123 p = Ok 2) /\
  deque_at deque_123 3 = AssertFail.
Proof.
  assert (V : deque_valid deque_123 = true) by (vm_compute; reflexivity).
  split; [exact V|]. split.
  - apply (proj1 (deque_at_bounds deque_123 1 V) 2). vm_compute. reflexivity.
  - apply (proj2 (deque_at_bounds deque_123 3 V)). vm_compute. reflexivity.
Defined.

Lemma deque_front_back_witness :
  deque_valid deque_123 = true /\
  (exists p, deque_front deque_123 = Ok (Some p) /\ cell_read deque_123 p = Ok 1) /\
  (exists p, deque_back deque_123 = Ok (Some p) /\ cell_read deque_123 p = Ok 3).
Proof.
  assert (V : deque_valid deque_123 = true) by (vm_compute; reflexivity).
  split; [exact V|].
  destruct (deque_front_back deque_123 V) as (_ & F & B).
  split; [apply F | apply B]; vm_compute; reflexivity.
Defined.

Lemma deque_reverse_boundaries_witness :
  deque_valid deque_123 = true /\
  (exists it, deque_rbegin deque_123 = Ok it /\
              _deque_iterator_get_value deque_123 it = Ok 3) /\
  exists r, deque_rend deque_123 = Ok r /\
            _deque_iterator_belong_to_deque deque_123 r = Ok false /\
            forall it, iterator_valid deque_123 it = true ->
                       _deque_iterator_equal deque_123 it r = AssertFail /\
                       _deque_iterator_equal deque_123 r it = AssertFail.
Proof.
  assert (V : deque_valid deque_123 = true) by (vm_compute; reflexivity).
  split; [exact V|].
  destruct (deque_reverse_boundaries deque_123 V) as (_ & B & E).
  split; [apply B; vm_compute; reflexivity | exact E].
Defined.

Lemma deque_iterator_at_spec_witness :
  let d := deque_123 in
  let it := mk_iter 7 (Some 0%nat) 16 in
  deque_valid d = true /\ iterator_valid d it = true /\
  (exists p a, _deque_iterator_at d it 1 = Ok p /\ cell_read d p = Ok a /\
               to_list d !! Z.to_nat (idx it + 1 - idx (_t_start d)) = Some a) /\
  (exists p, _deque_iterator_at d it 0 = Ok p /\ cell_read d p = Undefined).
Proof.
  intros d it.
  assert (V : deque_valid d = true) by (vm_compute; reflexivity).
  assert (I : iterator_valid d it = true) by (vm_compute; reflexivity).
  split; [exact V|]. split; [exact I|]. split.
  - apply (deque_iterator_at_spec d it 1 V I); [lia | vm_compute; reflexivity | left; lia].
  - apply (deque_iterator_at_spec d it 0 V I); [lia | vm_compute; reflexivity | | ];
      reflexivity.
Defined.

Lemma iterator_set_get_witness :
  let d := deque_123 in
  let it := mk_iter 8 (Some 1%nat) 1 in
  deque_valid d = true /\ iterator_valid d it = true /\
  idx it < idx (_t_finish d) /\
  exists d',
    _deque_iterator_set_value d it 7 = Ok d' /\
    _deque_iterator_get_value d' it = Ok 7 /\
    to_list d' = [1; 7; 3].
Proof.
  intros d it.
  assert (V : deque_valid d = true) by (vm_compute; reflexivity).
  assert (I : iterator_valid d it = true) by (vm_compute; reflexivity).
  assert (L : idx it < idx (_t_finish d)) by (vm_compute; reflexivity).
  split; [exact V|]. split; [exact I|]. split; [exact L|].
  destruct (iterator_set_get d it 7 V I L) as (d' & E & G & T).
  exists d'. split; [exact E|]. split; [exact G|]. rewrite T. vm_compute. reflexivity.
Defined.

Lemma deque_pop_back_spec_witness :
  deque_valid deque_123 = true /\
  exists d' t, deque_pop_back deque_123 = Ok d' /\ wf d' /\
               to_list d' = [1; 2] /\
               trace d' = trace deque_123 ++ t /\ no_copy t = true.
Proof.
  assert (V : deque_valid deque_123 = true) by (vm_compute; reflexivity).
  split; [exact V|].
  destruct (proj2 (deque_pop_back_spec deque_123 V)) as (d' & t & E & W & L & T & N).
  { vm_compute. discriminate. }
  exists d', t. split; [exact E|]. split; [exact W|]. split; [|split; assumption].
  rewrite L. vm_compute. reflexivity.
Defined.

Lemma deque_pop_front_spec_witness :
  deque_valid deque_123 = true /\
  exists d' t, deque_pop_front deque_123 = Ok d' /\ wf d' /\
               to_list d' = [2; 3] /\
               trace d' = trace deque_123 ++ t /\ no_copy t = true.
Proof.
  assert (V : deque_valid deque_123 = true) by (vm_compute; reflexivity).
  split; [exact V|].
  destruct (proj2 (deque_pop_front_spec deque_123 V)) as (d' & t & E & W & L & T & N).
  { vm_compute. discriminate. }
  exists d', t. split; [exact E|]. split; [exact W|]. split; [|split; assumption].
  rewrite L. vm_compute. reflexivity.
Defined.

Lemma deque_derived_comparisons_witness :
  deque_valid deque_123 = true /\ deque_valid deque_124 = true /\
  deque_valid empty_long_deque = true /\
  deque_greater deque_123 deque_124 = Ok false /\
  deque_less_equal deque_123 deque_124 = Ok true /\
  deque_greater_equal deque_123 deque_124 = Ok false /\
  deque_less_equal deque_123 empty_long_deque = AssertFail /\
  deque_greater deque_123 empty_long_deque = AssertFail /\
  deque_greater_equal deque_123 empty_long_deque = AssertFail.
Proof.
  assert (V1 : deque_valid deque_123 = true) by (vm_compute; reflexivity).
  assert (V2 : deque_valid deque_124 = true) by (vm_compute; reflexivity).
  assert (V3 : deque_valid empty_long_deque = true) by (vm_compute; reflexivity).
  split; [exact V1|]. split; [exact V2|]. split; [exact V3|].
  destruct (deque_derived_comparisons deque_123 deque_124 V1 V2) as (S & _ & _).
  destruct (deque_derived_comparisons deque_123 empty_long_deque V1 V3)
    as (_ & L & G).
  destruct S as (Sg & Sl & Se); try (vm_compute; reflexivity).
  destruct G as (Gg & Ge); [vm_compute; reflexivity|].
  split; [exact Sg|]. split; [exact Sl|]. split; [exact Se|].
  split; [apply L; vm_compute; reflexivity|]. split; assumption.
Defined.

Lemma deque_equal_sym_less_asym_witness :
  deque_valid deque_123 = true /\ deque_valid deque_124 = true /\
  _deque_same_type deque_123 deque_124 = true /\
  _deque_same_type deque_124 deque_123 = true /\
  deque_equal deque_123 deque_124 = deque_equal deque_124 deque_123 /\
  deque_less deque_124 deque_123 = Ok false.
Proof.
  assert (V1 : deque_valid deque_123 = true) by (vm_compute; reflexivity).
  assert (V2 : deque_valid deque_124 = true) by (vm_compute; reflexivity).
  assert (T1 : _deque_same_type deque_123 deque_124 = true) by (vm_compute; reflexivity).
  assert (T2 : _deque_same_type deque_124 deque_123 = true) by (vm_compute; reflexivity).
  split; [exact V1|]. split; [exact V2|]. split; [exact T1|]. split; [exact T2|].
  destruct (deque_equal_sym_less_asym deque_123 deque_124 V1 V2 T1 T2) as (S & L).
  split; [exact S|]. apply L.
  - intros a b H. simpl in *. apply Z.ltb_lt in H. apply Z.ltb_ge. lia.
  - vm_compute. reflexivity.
Defined.

Lemma deque_insert_n_splice_witness :
  let d := deque_012 in
  let pos := mk_iter 8 (Some 1%nat) 1 in
  deque_valid d = true /\ iterator_valid d pos = true /\
  1 <= 2 /\ 2 < _pc_corepos (_t_start d) /\
  2 < _DEQUE_ELEM_COUNT - _pc_corepos (_t_finish d) /\
  exists d' r,
    _deque_insert_n d pos 2 7 = Ok (d', r) /\ wf d' /\
    to_list d' = [0; 1; 7; 7; 2] /\
    _deque_iterator_get_value d' r = Ok 7.
Proof.
  intros d pos.
  assert (V : deque_valid d = true) by (vm_compute; reflexivity).
  assert (I : iterator_valid d pos = true) by (vm_compute; reflexivity).
  assert (H1 : 1 <= 2) by lia.
  assert (H2 : 2 < _pc_corepos (_t_start d)) by (vm_compute; reflexivity).
  assert (H3 : 2 < _DEQUE_ELEM_COUNT - _pc_corepos (_t_finish d))
    by (vm_compute; reflexivity).
  split; [exact V|]. split; [exact I|]. split; [exact H1|]. split; [exact H2|].
  split; [exact H3|].
  destruct (deque_insert_n_splice d pos 2 7 V I H1 H2 H3) as (d' & r & E & W & L & G).
  { vm_compute. discriminate. }
  exists d', r. split; [exact E|]. split; [exact W|]. split; [|exact G].
  rewrite L. vm_compute. reflexivity.
Defined.

Lemma deque_insert_begin_of_single_witness :
  let d := deque_5 in
  let pos := mk_iter 7 (Some 0%nat) 16 in
  deque_valid d = true /\ iterator_valid d pos = true /\
  length (to_list d) = 1%nat /\ idx pos = idx (_t_start d) /\
  1 <= 1 /\ 1 < _DEQUE_ELEM_COUNT - _pc_corepos (_t_finish d) /\
  _deque_insert_n d pos 1 9 = AssertFail.
Proof.
  intros d pos.
  assert (V : deque_valid d = true) by (vm_compute; reflexivity).
  assert (I : iterator_valid d pos = true) by (vm_compute; reflexivity).
  assert (H1 : length (to_list d) = 1%nat) by (vm_compute; reflexivity).
  assert (H2 : idx pos = idx (_t_start d)) by (vm_compute; reflexivity).
  assert (H3 : 1 <= 1) by lia.
  assert (H4 : 1 < _DEQUE_ELEM_COUNT - _pc_corepos (_t_finish d))
    by (vm_compute; reflexivity).
  split; [exact V|]. split; [exact I|]. split; [exact H1|]. split; [exact H2|].
  split; [exact H3|]. split; [exact H4|].
  apply (deque_insert_begin_of_single d pos 1 9 V I H1 H2 H3 H4).
Defined.

Lemma deque_insert_erase_round_trip_witness :
  let d := deque_012 in
  let pos := mk_iter 8 (Some 1%nat) 1 in
  deque_valid d = true /\ iterator_valid d pos = true /\
  1 < _pc_corepos (_t_start d) /\
  1 < _DEQUE_ELEM_COUNT - _pc_corepos (_t_finish d) /\
  exists d1 r d2 r',
    _deque_insert_n d pos 1 7 = Ok (d1, r) /\ deque_erase d1 r = Ok (d2, r') /\
    to_list d2 = to_list d.
Proof.
  intros d pos.
  assert (V : deque_valid d = true) by (vm_compute; reflexivity).
  assert (I : iterator_valid d pos = true) by (vm_compute; reflexivity).
  assert (H2 : 1 < _pc_corepos (_t_start d)) by (vm_compute; reflexivity).
  assert (H3 : 1 < _DEQUE_ELEM_COUNT - _pc_corepos (_t_finish d))
    by (vm_compute; reflexivity).
  split; [exact V|]. split; [exact I|]. split; [exact H2|]. split; [exact H3|].
  apply (deque_insert_erase_round_trip d pos 7 V I H2 H3).
  vm_compute. discriminate.
Defined.

Lemma deque_erase_returns_next_witness :
  let d := deque_123 in
  let p := mk_iter 8 (Some 1%nat) 1 in
  deque_valid d = true /\ iterator_valid d p = true /\
  idx p < idx (_t_finish d) /\
  exists d' r,
    deque_erase d p = Ok (d', r) /\ _deque_iterator_get_value d' r = Ok 3.
Proof.
  intros d p.
  assert (V : deque_valid d = true) by (vm_compute; reflexivity).
  assert (I : iterator_valid d p = true) by (vm_compute; reflexivity).
  assert (L : idx p < idx (_t_finish d)) by (vm_compute; reflexivity).
  split; [exact V|]. split; [exact I|]. split; [exact L|].
  destruct (deque_erase_returns_next d p V I L) as (d' & r & E & G).
  exists d', r. split; [exact E | exact G].
Defined.

Lemma deque_erase_range_spec_witness :
  let d := deque_01234 in
  let b := mk_iter 7 (Some 0%nat) 15 in
  let e := mk_iter 8 (Some 1%nat) 1 in
  deque_valid d = true /\ iterator_valid d b = true /\ iterator_valid d e = true /\
  idx b <= idx e /\
  exists d' t_free,
    deque_erase_range d b e = Ok (d', b) /\ wf d' /\ to_list d' = [0; 3; 4] /\
    trace d' = trace d ++
               [EvCopy (0%nat, 15) (FromElem (1%nat, 1));
                EvCopy (1%nat, 0) (FromElem (1%nat, 2));
                EvDestroy (1%nat, 1); EvDestroy (1%nat, 2)] ++ t_free /\
    no_copy t_free = true.
Proof.
  intros d b e.
  assert (V : deque_valid d = true) by (vm_compute; reflexivity).
  assert (Ib : iterator_valid d b = true) by (vm_compute; reflexivity).
  assert (Ie : iterator_valid d e = true) by (vm_compute; reflexivity).
  assert (L : idx b <= idx e) by (vm_compute; discriminate).
  split; [exact V|]. split; [exact Ib|]. split; [exact Ie|]. split; [exact L|].
  destruct (deque_erase_range_spec d b e V Ib Ie L) as (d' & E & W & _ & _ & T & R).
  destruct R as (tf & Tr & N); [vm_compute; reflexivity|].
  exists d', tf. split; [exact E|]. split; [exact W|].
  split; [rewrite T; vm_compute; reflexivity|]. split; [|exact N].
  rewrite Tr. reflexivity.
Defined.

Lemma deque_clear_spec_witness :
  deque_valid deque_123 = true /\
  exists d' t_free,
    deque_clear deque_123 = Ok d' /\ wf d' /\ to_list d' = [] /\
    deque_empty d' = Ok true /\
    _t_mapsize d' = 16 /\
    trace d' = trace deque_123 ++
               [EvDestroy (1%nat, 0); EvDestroy (1%nat, 1); EvDestroy (1%nat, 2)]
               ++ t_free /\
    no_copy t_free = true.
Proof.
  assert (V : deque_valid deque_123 = true) by (vm_compute; reflexivity).
  split; [exact V|].
  destruct (deque_clear_spec deque_123 V) as (d' & E & W & L & Em & Mz & _ & _ & R).
  destruct R as (tf & Tr & N); [vm_compute; discriminate|].
  exists d', tf. split; [exact E|]. split; [exact W|]. split; [exact L|].
  split; [exact Em|]. split; [exact Mz|]. split; [|exact N].
  rewrite Tr. reflexivity.
Defined.

Lemma deque_resize_spec_witness :
  deque_valid deque_123 = true /\ 0 <= 1 /\ 0 <= 40 /\
  (exists d' t, deque_resize deque_123 1 = Ok d' /\ wf d' /\
                to_list d' = [1] /\
                trace d' = trace deque_123 ++ t /\ no_copy t = true) /\
  (exists d', deque_resize deque_123 40 = Ok d' /\ wf d' /\
              to_list d' = [1; 2; 3] ++ replicate 37 0 /\
              _t_mapsize d' = _t_mapsize deque_123).
Proof.
  assert (V : deque_valid deque_123 = true) by (vm_compute; reflexivity).
  assert (H1 : 0 <= 1) by lia.
  assert (H5 : 0 <= 40) by lia.
  split; [exact V|]. split; [exact H1|]. split; [exact H5|]. split.
  - destruct (deque_resize_spec deque_123 1 V H1) as (S & _ & _).
    destruct S as (d' & t & E & W & L & T & N); [vm_compute; reflexivity|].
    exists d', t. split; [exact E|]. split; [exact W|]. split; [|split; assumption].
    rewrite L. vm_compute. reflexivity.
  - destruct (deque_resize_spec deque_123 40 V H5) as (_ & _ & G).
    destruct G as (d' & E & W & L & M & _); try (vm_compute; reflexivity).
    exists d'. split; [exact E|]. split; [exact W|]. split; [|exact M].
    rewrite L. vm_compute. reflexivity.
Defined.

Lemma deque_push_back_spec_witness :
  let d := deque_back_15 in
  deque_valid d = true /\
  idx (_t_finish d) + 1 < _DEQUE_ELEM_COUNT * _t_mapsize d /\
  exists d' p,
    _deque_push_back d 7 = Ok d' /\ wf d' /\
    to_list d' = to_list d ++ [7] /\
    deque_back d' = Ok (Some p) /\ cell_read d' p = Ok 7 /\
    trace d' = trace d ++ [EvAlloc 2; EvInit p; EvCopy p FromValue].
Proof.
  intros d.
  assert (V : deque_valid d = true) by (vm_compute; reflexivity).
  assert (R : idx (_t_finish d) + 1 < _DEQUE_ELEM_COUNT * _t_mapsize d)
    by (vm_compute; reflexivity).
  split; [exact V|]. split; [exact R|].
  destruct (deque_push_back_spec d 7 V R) as (d' & p & E & W & L & _ & _ & B & C & T).
  exists d', p. split; [exact E|]. split; [exact W|]. split; [exact L|].
  split; [exact B|]. split; [exact C | exact T].
Defined.

Lemma deque_push_front_spec_witness :
  let d := deque_front_15 in
  deque_valid d = true /\ 1 < idx (_t_start d) /\
  exists d' p,
    _deque_push_front d 7 = Ok d' /\ wf d' /\
    to_list d' = 7 :: to_list d /\
    deque_front d' = Ok (Some p) /\ cell_read d' p = Ok 7 /\
    trace d' = trace d ++ [EvAlloc 2; EvInit p; EvCopy p FromValue].
Proof.
  intros d.
  assert (V : deque_valid d = true) by (vm_compute; reflexivity).
  assert (R : 1 < idx (_t_start d)) by (vm_compute; reflexivity).
  split; [exact V|]. split; [exact R|].
  destruct (deque_push_front_spec d 7 V R) as (d' & p & E & W & L & _ & _ & F & C & T).
  exists d', p. split; [exact E|]. split; [exact W|]. split; [exact L|].
  split; [exact F|]. split; [exact C | exact T].
Defined.

Lemma deque_push_pop_round_trip_witness :
  let d := deque_back_15 in
  deque_valid d = true /\
  idx (_t_finish d) + 1 < _DEQUE_ELEM_COUNT * _t_mapsize d /\
  1 < idx (_t_start d) /\
  (exists d1 d2, _deque_push_back d 7 = Ok d1 /\ deque_pop_back d1 = Ok d2 /\
                 to_list d2 = to_list d) /\
  (exists d1 d2, _deque_push_back d 7 = Ok d1 /\ deque_pop_front d1 = Ok d2 /\
                 to_list d2 = [2; 3; 4; 5; 6; 7; 8; 9; 10; 11; 12; 13; 14; 15; 7]) /\
  (exists d1 d2, _deque_push_front d 7 = Ok d1 /\ deque_pop_front d1 = Ok d2 /\
                 to_list d2 = to_list d).
Proof.
  intros d.
  assert (V : deque_valid d = true) by (vm_compute; reflexivity).
  assert (R : idx (_t_finish d) + 1 < _DEQUE_ELEM_COUNT * _t_mapsize d)
    by (vm_compute; reflexivity).
  assert (R' : 1 < idx (_t_start d)) by (vm_compute; reflexivity).
  split; [exact V|]. split; [exact R|]. split; [exact R'|].
  destruct (deque_push_pop_round_trip d 7 V) as (B & F).
  destruct (B R) as (B1 & B2). split; [exact B1|]. split; [|exact (F R')].
  destruct B2 as (d1 & d2 & E1 & E2 & L). exists d1, d2.
  split; [exact E1|]. split; [exact E2|]. rewrite L. vm_compute. reflexivity.
Defined.

Lemma deque_init_n_spec_witness :
  0 <= 19 < 2 ^ 30 /\
  exists d,
    deque_init_n int_typeinfo 19 = Ok d /\ deque_valid d = true /\
    _t_typeinfo d = int_typeinfo /\ to_list d = replicate 19 0 /\
    _t_mapsize d = 16 /\ _ppc_mappos (_t_start d) = 6 /\
    _ppc_mappos (_t_finish d) = 8.
Proof.
  assert (H : 0 <= 19 < 2 ^ 30) by (split; [discriminate | reflexivity]).
  split; [exact H|].
  destruct (deque_init_n_spec int_typeinfo 19 H)
    as (d & E & V & Ti & L & Ms & Sm & _ & Fm & _).
  exists d. split; [exact E|]. split; [exact V|]. split; [exact Ti|].
  split; [exact L|]. split; [exact Ms|]. split; [exact Sm|].
  rewrite Fm, Sm. reflexivity.
Defined.

Lemma deque_init_elem_spec_witness :
  0 <= 19 < 2 ^ 30 /\
  exists d,
    _deque_init_elem int_typeinfo 19 7 = Ok d /\ deque_valid d = true /\
    _t_typeinfo d = int_typeinfo /\ to_list d = replicate 19 7 /\
    _t_mapsize d = 16.
Proof.
  assert (H : 0 <= 19 < 2 ^ 30) by (split; [discriminate | reflexivity]).
  split; [exact H|].
  destruct (deque_init_elem_spec int_typeinfo 19 7 H) as (d & E & V & Ti & L & Ms & _).
  exists d. split; [exact E|]. split; [exact V|]. split; [exact Ti|].
  split; [exact L | exact Ms].
Defined.

Lemma deque_resize_elem_spec_witness :
  deque_valid deque_123 = true /\ 0 <= 40 /\ 0 <= 2 /\
  _deque_resize_elem deque_123 2 7 = deque_resize deque_123 2 /\
  exists d', _deque_resize_elem deque_123 40 7 = Ok d' /\ wf d' /\
             _t_mapsize d' = _t_mapsize deque_123 /\
             to_list d' = [1; 2; 3] ++ replicate 37 7.
Proof.
  assert (V : deque_valid deque_123 = true) by (vm_compute; reflexivity).
  assert (H40 : 0 <= 40) by lia.
  assert (H2 : 0 <= 2) by lia.
  split; [exact V|]. split; [exact H40|]. split; [exact H2|]. split.
  - apply (deque_resize_elem_spec deque_123 2 7 V H2). vm_compute. discriminate.
  - destruct (deque_resize_elem_spec deque_123 40 7 V H40) as (_ & G).
    destruct G as (d' & E & W & Ez & _ & L & _); try (vm_compute; reflexivity).
    exists d'. split; [exact E|]. split; [exact W|]. split; [exact Ez|].
    rewrite L. vm_compute. reflexivity.
Defined.

Lemma deque_assign_elem_spec_witness :
  deque_valid deque_123 = true /\ 0 <= 20 /\
  (Z.of_nat (length (to_list deque_123)) < 20 ->
   idx (_t_start deque_123) + 20 < _DEQUE_ELEM_COUNT * _t_mapsize deque_123) /\
  exists d' t,
    _deque_assign_elem deque_123 20 7 = Ok d' /\ wf d' /\
    to_list d' = replicate 20 7 /\
    trace d' = trace deque_123 ++ t ++
               map (fun k => EvCopy (ptr_at d' k) FromValue) (zrange 128 20) /\
    no_copy t = true.
Proof.
  assert (V : deque_valid deque_123 = true) by (vm_compute; reflexivity).
  assert (H : 0 <= 20) by lia.
  assert (R : Z.of_nat (length (to_list deque_123)) < 20 ->
              idx (_t_start deque_123) + 20
              < _DEQUE_ELEM_COUNT * _t_mapsize deque_123)
    by (intros _; vm_compute; reflexivity).
  split; [exact V|]. split; [exact H|]. split; [exact R|].
  destruct (deque_assign_elem_spec deque_123 20 7 V H R)
    as (d' & t & E & W & _ & _ & L & T & N).
  exists d', t. split; [exact E|]. split; [exact W|]. split; [exact L|].
  split; [exact T | exact N].
Defined.


